(** * CA-BED belief-tree search engine: posterior update, rewards, clustering
      and the run loop, embedded from [method.py], [rewards.py], [node.py] and
      [question_clustering.py].

    Conventions of the embedding.
    - A Python [float] is a rational [Q]; rounding is not modelled, so an
      equation between floats is stated with [==] on [Q].  [math.log2] has no
      rational value: entropies and every reward built on them live in [R],
      reached from the data through [Q2R].
    - A Python [dict] is an association list in insertion order; the keys of a
      well-formed dict are pairwise distinct.
    - A Python exception is a constructor of [exn]; a function that may raise
      returns a [result].
    - The coroutines are run to completion one after the other:
      [asyncio.gather] runs its branches in the order of the list, and an
      exception in one branch ends the gather. *)

From Stdlib Require Import String List Bool Arith Lia DecimalString.
From Stdlib Require Import QArith.
From Stdlib Require Import Reals Qreals Psatz.
Import ListNotations.


(** ** Exceptions and results *)

Inductive exn : Type :=
| ZeroDivisionError
| AssertionError (msg : string)
| ValueError (msg : string)
| KeyError (key : string)
| CollaboratorError (msg : string).

(** [OutOfFuel] and [IllFormed] are not Python exceptions.  [OutOfFuel] marks a
    recursion or loop that the bounded model could not finish; [IllFormed]
    marks a node reference that points outside the node store, which no Python
    object reference can do. *)
Inductive result (A : Type) : Type :=
| Ok (a : A)
| Raise (e : exn)
| OutOfFuel
| IllFormed.

Arguments Ok {A} a.
Arguments Raise {A} e.
Arguments OutOfFuel {A}.
Arguments IllFormed {A}.

Definition rbind {A B} (r : result A) (k : A -> result B) : result B :=
  match r with
  | Ok a => k a
  | Raise e => Raise e
  | OutOfFuel => OutOfFuel
  | IllFormed => IllFormed
  end.

Declare Scope result_scope.
Delimit Scope result_scope with result.
Notation "x <- c ;; k" := (rbind c (fun x => k))
  (at level 61, c at next level, right associativity) : result_scope.
Open Scope result_scope.

Fixpoint mapM {A B} (f : A -> result B) (xs : list A) : result (list B) :=
  match xs with
  | [] => Ok []
  | x :: xs' => y <- f x ;; ys <- mapM f xs' ;; Ok (y :: ys)
  end.

(** What a Python call can do: return a value or raise. *)
Definition python_outcome {A} (r : result A) : Prop :=
  match r with Ok _ | Raise _ => True | OutOfFuel | IllFormed => False end.

(** ** Dictionaries *)

Definition dict (V : Type) : Type := list (string * V).

Definition keys {V} (d : dict V) : list string := map fst d.
Definition values {V} (d : dict V) : list V := map snd d.

Fixpoint dict_lookup {V} (d : dict V) (k : string) : option V :=
  match d with
  | [] => None
  | (k', v) :: d' => if String.eqb k' k then Some v else dict_lookup d' k
  end.

(** [d.get(k, default)] *)
Definition dict_get {V} (d : dict V) (k : string) (default : V) : V :=
  match dict_lookup d k with
  | Some v => v
  | None => default
  end.

(** [d[k]] *)
Definition dict_item {V} (d : dict V) (k : string) : result V :=
  match dict_lookup d k with
  | Some v => Ok v
  | None => Raise (KeyError k)
  end.

(** [k in d] *)
Definition dict_mem {V} (d : dict V) (k : string) : bool :=
  match dict_lookup d k with
  | Some _ => true
  | None => false
  end.

(** [d[k] = v]: an existing key keeps its position, a new key goes last. *)
Fixpoint dict_set {V} (d : dict V) (k : string) (v : V) : dict V :=
  match d with
  | [] => [(k, v)]
  | (k', v') :: d' =>
      if String.eqb k' k then (k', v) :: d' else (k', v') :: dict_set d' k v
  end.

(** [d.update(e)] *)
Definition dict_update {V} (d e : dict V) : dict V :=
  fold_left (fun acc kv => dict_set acc (fst kv) (snd kv)) e d.

(** ** Floats as rationals *)

Open Scope Q_scope.

(** [sum(xs)]: Python adds from the left, starting at 0. *)
Definition py_sum (xs : list Q) : Q := fold_left Qplus xs 0.

(** [a / b] on floats. *)
Definition py_div (a b : Q) : result Q :=
  if Qeq_bool b 0 then Raise ZeroDivisionError else Ok (a / b).

(** [a >= b] on floats. *)
Definition Qge_bool (a b : Q) : bool := Qle_bool b a.

(** ** Posterior engine ([method.py], [calculate_posterior]) *)

Module Posterior.

Definition blended (likelihoods : dict Q) (uniform_likelihood estimator_confidence : Q)
    (h : string) : Q :=
  dict_get likelihoods h uniform_likelihood * estimator_confidence
  + uniform_likelihood * (1 - estimator_confidence).

Definition all_posteriors (prior likelihoods : dict Q)
    (uniform_likelihood estimator_confidence : Q) : dict Q :=
  map (fun hp => (fst hp,
                  snd hp * blended likelihoods uniform_likelihood estimator_confidence (fst hp)))
      prior.

Definition prune (min_probability : Q) (posts : dict Q) : dict Q :=
  filter (fun hp => Qge_bool (snd hp) min_probability) posts.

(** The set that is normalised: the pruned one, or all of it when pruning
    empties it. *)
Definition unnormalised (prior likelihoods : dict Q)
    (min_probability uniform_likelihood estimator_confidence : Q) : dict Q :=
  let posts := all_posteriors prior likelihoods uniform_likelihood estimator_confidence in
  match prune min_probability posts with
  | [] => posts
  | kept => kept
  end.

(** The entries of the prior that survive the floor, or all of them when
    none does: the pruning rule stated on the prior. *)
Definition surviving (prior likelihoods : dict Q)
    (min_probability uniform_likelihood estimator_confidence : Q) : dict Q :=
  match filter (fun hp =>
                  Qge_bool (snd hp * blended likelihoods uniform_likelihood
                                             estimator_confidence (fst hp))
                           min_probability) prior with
  | [] => prior
  | kept => kept
  end.

Definition calculate_posterior (prior likelihoods : dict Q)
    (min_probability uniform_likelihood estimator_confidence : Q)
    : result (dict Q * Q) :=
  let unnorm :=
    unnormalised prior likelihoods min_probability uniform_likelihood estimator_confidence in
  let marginal := py_sum (values unnorm) in
  normalised <- mapM (fun hp => q <- py_div (snd hp) marginal ;; Ok (fst hp, q)) unnorm ;;
  Ok (normalised, marginal).

End Posterior.

(** ** Tree node model ([node.py])

    Evidence and question nodes point at each other (child lists downwards,
    [parent] upwards), so the objects live in a store and refer to each other
    by position. *)

Definition eid := nat.
Definition qid := nat.

Record EvidenceNode : Type := mkEvidenceNode {
  answer : string;
  belief_state : dict Q;
  marginal_likelihood : Q;
  e_parent : option qid;
  e_children : list qid
}.

Record QuestionNode : Type := mkQuestionNode {
  question : string;
  possible_answers : list string;
  q_parent : eid;
  q_children : list eid
}.

Record Tree : Type := mkTree {
  evidence_nodes : list EvidenceNode;
  question_nodes : list QuestionNode
}.

Definition get_evidence (t : Tree) (e : eid) : result EvidenceNode :=
  match nth_error (evidence_nodes t) e with
  | Some en => Ok en
  | None => IllFormed
  end.

Definition get_question (t : Tree) (q : qid) : result QuestionNode :=
  match nth_error (question_nodes t) q with
  | Some qn => Ok qn
  | None => IllFormed
  end.

Fixpoint get_conversation_depth_fuel (fuel : nat) (t : Tree) (node : eid) : result nat :=
  match fuel with
  | O => OutOfFuel
  | S fuel' =>
      en <- get_evidence t node ;;
      match e_parent en with
      | None => Ok 0%nat
      | Some q =>
          qn <- get_question t q ;;
          d <- get_conversation_depth_fuel fuel' t (q_parent qn) ;;
          Ok (1 + d)%nat
      end
  end.

(** A parent chain visits every evidence node at most once, so the number of
    evidence nodes bounds the recursion. *)
Definition get_conversation_depth (t : Tree) (node : eid) : result nat :=
  get_conversation_depth_fuel (length (evidence_nodes t)) t node.

(** The store of a tree built by the constructors of [node.py]: a node is
    created after its parent, and child lists and parent links agree. *)
Definition evidence_ok (t : Tree) (i : eid) (en : EvidenceNode) : bool :=
  match e_parent en with
  | None => true
  | Some q =>
      match nth_error (question_nodes t) q with
      | Some qn => (q_parent qn <? i)%nat
      | None => false
      end
  end
  && forallb (fun q' =>
       match nth_error (question_nodes t) q' with
       | Some qn' => (q_parent qn' =? i)%nat
       | None => false
       end) (e_children en).

Definition question_ok (t : Tree) (j : qid) (qn : QuestionNode) : bool :=
  (q_parent qn <? length (evidence_nodes t))%nat
  && forallb (fun e =>
       match nth_error (evidence_nodes t) e with
       | Some en =>
           match e_parent en with
           | Some q => (q =? j)%nat
           | None => false
           end
       | None => false
       end) (q_children qn).

Fixpoint forallb_i {A} (f : nat -> A -> bool) (i : nat) (xs : list A) : bool :=
  match xs with
  | [] => true
  | x :: xs' => f i x && forallb_i f (S i) xs'
  end.

Definition well_formed (t : Tree) : bool :=
  forallb_i (evidence_ok t) 0 (evidence_nodes t)
  && forallb_i (question_ok t) 0 (question_nodes t).

(** ** Task parameters ([tasks/tree_task.py]) *)

Record TaskParams : Type := mkTaskParams {
  max_question_nodes : Z;
  max_lookahead_depth : Z;
  max_conversation_depth : Z;
  confidence_threshold : Q;
  estimator_confidence : Q;
  hypothesis_space : list string
}.

(** [is_terminal] of [method.py]. *)
Definition is_terminal (t : Tree) (node : eid) (task : TaskParams) : result bool :=
  d <- get_conversation_depth t node ;;
  if (max_conversation_depth task <=? Z.of_nat d)%Z then Ok true
  else
    en <- get_evidence t node ;;
    Ok (existsb (fun prob => Qge_bool prob (confidence_threshold task))
                (values (belief_state en))).

(** ** Reward engine ([rewards.py]) *)

Definition log2 (x : R) : R := (ln x / ln 2)%R.

(** [a > b] on floats. *)
Definition Qgt_bool (a b : Q) : bool := negb (Qle_bool a b).

Definition py_sumR (xs : list R) : R := fold_left Rplus xs 0%R.

Definition shannon_entropy (belief_state : dict Q) : R :=
  (- py_sumR (map (fun prob => Q2R prob * log2 (Q2R prob))
                  (filter (fun prob => Qgt_bool prob 0) (values belief_state))))%R.

(** The hypotheses that carry probability. *)
Definition support (belief_state : dict Q) : list string :=
  keys (filter (fun hp => Qgt_bool (snd hp) 0) belief_state).

Definition information_gain (prior_belief_state posterior_belief_state : dict Q) : R :=
  (shannon_entropy prior_belief_state - shannon_entropy posterior_belief_state)%R.

(** [max(xs)] and [min(xs)] keep the first extremal element and raise on an
    empty sequence. *)
Definition py_max (xs : list Q) : result Q :=
  match xs with
  | [] => Raise (ValueError "max() arg is an empty sequence")
  | x :: xs' => Ok (fold_left (fun m y => if Qgt_bool y m then y else m) xs' x)
  end.

Definition py_min (xs : list Q) : result Q :=
  match xs with
  | [] => Raise (ValueError "min() arg is an empty sequence")
  | x :: xs' => Ok (fold_left (fun m y => if Qgt_bool m y then y else m) xs' x)
  end.

Definition child_likelihoods (t : Tree) (children : list eid) : result (list Q) :=
  mapM (fun e => en <- get_evidence t e ;; Ok (marginal_likelihood en)) children.

Definition specificity_penalty (t : Tree) (question : qid) (sharpness_constant : Q)
    : result Q :=
  qn <- get_question t question ;;
  mls <- child_likelihoods t (q_children qn) ;;
  max_likelihood <- py_max mls ;;
  min_likelihood <- py_min mls ;;
  Ok (sharpness_constant * (max_likelihood - min_likelihood)).

(** [a / b] with a real numerator and a float denominator. *)
Definition py_divR (a : R) (b : Q) : result R :=
  if Qeq_bool b 0 then Raise ZeroDivisionError else Ok (a / Q2R b)%R.

Definition immediate_reward (t : Tree) (evidence : eid) (sharpness_constant : Q)
    : result R :=
  en <- get_evidence t evidence ;;
  match e_parent en with
  | None => Raise (AssertionError "Cannot determine reward of root node!")
  | Some q =>
      qn <- get_question t q ;;
      grandparent <- get_evidence t (q_parent qn) ;;
      let gain := information_gain (belief_state grandparent) (belief_state en) in
      penalty <- specificity_penalty t q sharpness_constant ;;
      py_divR gain (1 + penalty)
  end.

Fixpoint accumulated_reward_fuel (fuel : nat) (t : Tree) (evidence : eid)
    (sharpness_constant : Q) : result R :=
  match fuel with
  | O => OutOfFuel
  | S fuel' =>
      en <- get_evidence t evidence ;;
      match e_parent en with
      | None => Ok 0%R
      | Some q =>
          r <- immediate_reward t evidence sharpness_constant ;;
          qn <- get_question t q ;;
          rest <- accumulated_reward_fuel fuel' t (q_parent qn) sharpness_constant ;;
          Ok (r + rest)%R
      end
  end.

Definition accumulated_reward (t : Tree) (evidence : eid) (sharpness_constant : Q)
    : result R :=
  accumulated_reward_fuel (length (evidence_nodes t)) t evidence sharpness_constant.

(** The body of the [for evidence in question.children] loop of
    [expected_reward]: the reward of one evidence child, given the function
    that scores its question children. *)
Definition evidence_reward (score : qid -> result R) (t : Tree) (en : EvidenceNode)
    (evidence : eid) (sharpness_constant : Q) : result R :=
  if (0 <? length (e_children en))%nat then
    rs <- mapM score (e_children en) ;;
    Ok (py_sumR rs / INR (length (e_children en)))%R
  else accumulated_reward t evidence sharpness_constant.

Fixpoint expected_reward_fuel (fuel : nat) (t : Tree) (question : qid)
    (sharpness_constant : Q) : result R :=
  match fuel with
  | O => OutOfFuel
  | S fuel' =>
      qn <- get_question t question ;;
      if (0 <? length (q_children qn))%nat then
        fold_left
          (fun acc evidence =>
             weighted_mean_reward <- acc ;;
             en <- get_evidence t evidence ;;
             r <- evidence_reward
                    (fun future_question =>
                       expected_reward_fuel fuel' t future_question sharpness_constant)
                    t en evidence sharpness_constant ;;
             Ok (weighted_mean_reward + Q2R (marginal_likelihood en) * r)%R)
          (q_children qn) (Ok 0%R)
      else Raise (AssertionError "Question has no answers!")
  end.

(** Each level of the recursion moves to an evidence node created later, so
    the number of evidence nodes bounds it. *)
Definition expected_reward (t : Tree) (question : qid) (sharpness_constant : Q)
    : result R :=
  expected_reward_fuel (length (evidence_nodes t)) t question sharpness_constant.

(** The score of a question in the words of the specification: every
    evidence child contributes the arithmetic mean of the scores of its
    question children when it has some, and its accumulated reward otherwise;
    the score is the sum of the contributions weighted by the marginal
    likelihoods. *)
Definition arithmetic_mean (rs : list R) : R :=
  (fold_right Rplus 0 rs / INR (length rs))%R.

Definition spec_contribution (t : Tree) (sharpness : Q) (e : eid) : result (Q * R) :=
  en <- get_evidence t e ;;
  r <- match e_children en with
       | [] => accumulated_reward t e sharpness
       | _ :: _ =>
           rs <- mapM (fun q => expected_reward t q sharpness) (e_children en) ;;
           Ok (arithmetic_mean rs)
       end ;;
  Ok (marginal_likelihood en, r).

Definition weighted_sum (contributions : list (Q * R)) : R :=
  fold_right (fun wr acc => Q2R (fst wr) * snd wr + acc)%R 0%R contributions.

Definition spec_expected_reward (t : Tree) (question : qid) (sharpness : Q) : result R :=
  qn <- get_question t question ;;
  contributions <- mapM (spec_contribution t sharpness) (q_children qn) ;;
  Ok (weighted_sum contributions).

(** ** State and exceptions

    A computation reads and updates a state and may raise; what it wrote
    before raising stays written, as attribute and list updates do in Python. *)

Definition M (S A : Type) : Type := S -> result A * S.

Definition ret {S A} (a : A) : M S A := fun s => (Ok a, s).

Definition bind {S A B} (m : M S A) (k : A -> M S B) : M S B :=
  fun s =>
    match m s with
    | (Ok a, s') => k a s'
    | (Raise e, s') => (Raise e, s')
    | (OutOfFuel, s') => (OutOfFuel, s')
    | (IllFormed, s') => (IllFormed, s')
    end.

Definition lift {S A} (r : result A) : M S A := fun s => (r, s).
Definition gets {S A} (f : S -> A) : M S A := fun s => (Ok (f s), s).
Definition modify {S} (f : S -> S) : M S unit := fun s => (Ok tt, f s).

(** [try: m except Exception: handler]. *)
Definition try_except {S A} (m : M S A) (handler : exn -> M S A) : M S A :=
  fun s =>
    match m s with
    | (Raise e, s') => handler e s'
    | other => other
    end.

(** Runs a computation on a component of the state. *)
Definition zoom {S T A} (get : S -> T) (set : T -> S -> S) (m : M T A) : M S A :=
  fun s => let (r, t') := m (get s) in (r, set t' s).

Declare Scope monad_scope.
Delimit Scope monad_scope with monad.
Notation "x <<- c ;; k" := (bind c (fun x => k))
  (at level 61, c at next level, right associativity) : monad_scope.
Notation "c ;;; k" := (bind c (fun _ => k))
  (at level 61, right associativity) : monad_scope.
Open Scope monad_scope.

(** [for x in xs: f x] *)
Fixpoint for_each {S A} (f : A -> M S unit) (xs : list A) : M S unit :=
  match xs with
  | [] => ret tt
  | x :: xs' => f x ;;; for_each f xs'
  end.

(** [[f x for x in xs]] *)
Fixpoint map_m {S A B} (f : A -> M S B) (xs : list A) : M S (list B) :=
  match xs with
  | [] => ret []
  | x :: xs' => y <<- f x ;; ys <<- map_m f xs' ;; ret (y :: ys)
  end.

(** ** Question cluster index ([question_clustering.py]) *)

(** The [asyncio.Lock] of a cluster is not a field here: the branches of an
    expansion are run one after the other, so the block it guards is never
    interleaved. *)
Record Cluster : Type := mkCluster {
  questions : dict nat;
  likelihoods : dict (dict Q)
}.

Definition get_hypotheses (c : Cluster) : list string := keys (likelihoods c).

Definition mem_string (x : string) (xs : list string) : bool :=
  existsb (String.eqb x) xs.

(** [set(xs) == set(ys)] *)
Definition same_set (xs ys : list string) : bool :=
  forallb (fun x => mem_string x ys) xs && forallb (fun y => mem_string y xs) ys.

(** [list(first_keys)] is rendered in the insertion order of the first
    hypothesis' answers; Python leaves the order of a set unspecified. *)
Definition get_answers (c : Cluster) : result (list string) :=
  match likelihoods c with
  | [] => Ok []
  | (_, first) :: rest =>
      if forallb (fun answers => same_set (keys answers) (keys first)) (values rest)
      then Ok (keys first)
      else Raise (AssertionError "Hypotheses in cluster do not have consistent answers!")
  end.

Definition get_likelihoods_for_answer (c : Cluster) (answer : string) : result (dict Q) :=
  mapM (fun entry => v <- dict_item (snd entry) answer ;; Ok (fst entry, v)) (likelihoods c).

(** [str(n)] for a non-negative integer. *)
Definition str (n : nat) : string := NilEmpty.string_of_uint (Nat.to_uint n).

Section Clustering.

(** The sentence encoder and the cosine distance of the vector index are
    external: the engine only compares the distance with the threshold. *)
Variable Embedding : Type.
Variable encode : string -> Embedding.
Variable cosine_distance : Embedding -> Embedding -> Q.

(** Modelled from the spec: the nearest-neighbour index ([voyager.Index], an
    external library) supporting [insert(vector) -> id] and
    [queryNearest(vector) -> (id, distance)].  Ids are handed out in insertion
    order from 0 and the query returns the first item at the least distance. *)
Definition Index : Type := list Embedding.

Definition index_add_item (index : Index) (v : Embedding) : Index * nat :=
  (index ++ [v], length index).

Fixpoint nearest_from (i : nat) (items : list Embedding) (v : Embedding)
    (best : nat * Q) : nat * Q :=
  match items with
  | [] => best
  | x :: items' =>
      let d := cosine_distance v x in
      nearest_from (S i) items' v (if Qgt_bool (snd best) d then (i, d) else best)
  end.

Definition index_query (index : Index) (v : Embedding) : result (nat * Q) :=
  match index with
  | [] => Raise (CollaboratorError "index holds fewer than k items")
  | x :: items => Ok (nearest_from 1 items v (0%nat, cosine_distance v x))
  end.

Record QuestionClustering : Type := mkQuestionClustering {
  index : Index;
  clusters : dict Cluster;
  threshold : Q
}.

(** [QuestionClustering(threshold)] *)
Definition new_clustering (threshold : Q) : QuestionClustering :=
  mkQuestionClustering [] [] threshold.

(** A [Cluster] object is referred to by the key it is registered under. *)
Definition get_cluster (self : QuestionClustering) (question : string)
    : result (string * QuestionClustering) :=
  let embedding := encode question in
  neighbour <-
    (if (1 <=? length (clusters self))%nat
     then nd <- index_query (index self) embedding ;; Ok (Some nd)
     else Ok None) ;;
  let create :=
    let (index', id) := index_add_item (index self) embedding in
    let idx := str id in
    let new_cluster := mkCluster [(question, 1%nat)] [] in
    Ok (idx, mkQuestionClustering index' (dict_set (clusters self) idx new_cluster)
                                  (threshold self)) in
  match neighbour with
  | Some (n, d) =>
      if Qge_bool (1 - d) (threshold self) then
        best_cluster <- dict_item (clusters self) (str n) ;;
        let best_cluster' :=
          mkCluster (dict_set (questions best_cluster) question
                              (dict_get (questions best_cluster) question 0%nat + 1)%nat)
                    (likelihoods best_cluster) in
        Ok (str n, mkQuestionClustering (index self)
                     (dict_set (clusters self) (str n) best_cluster')
                     (threshold self))
      else create
  | None => create
  end.

End Clustering.

Arguments mkQuestionClustering {Embedding} _ _ _.
Arguments index {Embedding} _.
Arguments clusters {Embedding} _.
Arguments threshold {Embedding} _.
Arguments new_clustering {Embedding} _.
Arguments index_add_item {Embedding} _ _.
Arguments index_query {Embedding} _ _ _.
Arguments nearest_from {Embedding} _ _ _ _ _.
Arguments get_cluster {Embedding} _ _ _ _.

(** The index and the cluster map of a [QuestionClustering] built by
    [get_cluster] go together: every id of the index has its cluster, and the
    cluster map is empty exactly when the index is. *)
Definition consistent {Embedding} (qc : QuestionClustering Embedding) : Prop :=
  (clusters qc = [] <-> index qc = [])
  /\ forall n, (n < length (index qc))%nat -> dict_mem (clusters qc) (str n) = true.

(** [cluster.questions[question]] after one more occurrence. *)
Definition count_question (c : Cluster) (question : string) : Cluster :=
  mkCluster (dict_set (questions c) question
                      (dict_get (questions c) question 0%nat + 1)%nat)
            (likelihoods c).

(** What [get_cluster] returns when it creates a cluster: the key of the
    fresh id, and the clustering with the embedding inserted and a cluster
    without likelihoods registered under that key. *)
Definition created {Embedding} (encode : string -> Embedding)
    (qc : QuestionClustering Embedding) (question : string)
    : string * QuestionClustering Embedding :=
  (str (length (index qc)),
   mkQuestionClustering (index qc ++ [encode question])
     (dict_set (clusters qc) (str (length (index qc)))
               (mkCluster [(question, 1%nat)] []))
     (threshold qc)).

(** What [get_cluster] returns when it finds the cluster [c] of neighbour
    [n]: its key, and the clustering with the occurrence counted. *)
Definition reused {Embedding} (qc : QuestionClustering Embedding) (question : string)
    (n : nat) (c : Cluster) : string * QuestionClustering Embedding :=
  (str n,
   mkQuestionClustering (index qc)
     (dict_set (clusters qc) (str n) (count_question c question))
     (threshold qc)).

(** ** Tree expansion driver and run loop ([method.py]) *)

Section Engine.

Variable Embedding : Type.
Variable encode : string -> Embedding.
Variable cosine_distance : Embedding -> Embedding -> Q.

(** The state of the outside world the task's collaborators talk to (the
    language model sessions). *)
Variable World : Type.

(** The abstract methods of [TreeTask].  A collaborator sees the tree through
    the node it is given and may raise. *)
Record Collaborators : Type := mkCollaborators {
  create_initial_belief_state : M World (dict Q);
  create_questions : Tree -> eid -> M World (dict (list string));
  get_likelihoods : string -> list string -> list string -> M World (dict (dict Q));
  get_answer : Tree -> qid -> M World eid
}.

(** One call of [task.get_likelihoods]: question, answers, hypotheses. *)
Definition Request : Type := (string * list string * list string)%type.

(** Everything the expansion shares: the node store, the clustering, the
    outside world, and (for the statements only) the likelihood requests
    issued so far, oldest first. *)
Record Store : Type := mkStore {
  tree : Tree;
  clustering : QuestionClustering Embedding;
  world : World;
  requests : list Request
}.

Definition set_tree (t : Tree) (s : Store) : Store :=
  mkStore t (clustering s) (world s) (requests s).
Definition set_clustering (c : QuestionClustering Embedding) (s : Store) : Store :=
  mkStore (tree s) c (world s) (requests s).
Definition set_world (w : World) (s : Store) : Store :=
  mkStore (tree s) (clustering s) w (requests s).
Definition log_request (r : Request) (s : Store) : Store :=
  mkStore (tree s) (clustering s) (world s) (requests s ++ [r]).

Definition read_evidence (e : eid) : M Store EvidenceNode :=
  fun s => (get_evidence (tree s) e, s).
Definition read_question (q : qid) : M Store QuestionNode :=
  fun s => (get_question (tree s) q, s).

Fixpoint list_update {A} (xs : list A) (i : nat) (f : A -> A) : list A :=
  match xs, i with
  | [], _ => []
  | x :: xs', O => f x :: xs'
  | x :: xs', S i' => x :: list_update xs' i' f
  end.

Definition update_evidence (e : eid) (f : EvidenceNode -> EvidenceNode) : M Store unit :=
  modify (fun s => set_tree (mkTree (list_update (evidence_nodes (tree s)) e f)
                                    (question_nodes (tree s))) s).
Definition update_question (q : qid) (f : QuestionNode -> QuestionNode) : M Store unit :=
  modify (fun s => set_tree (mkTree (evidence_nodes (tree s))
                                    (list_update (question_nodes (tree s)) q f)) s).

(** [EvidenceNode(...)] and [QuestionNode(...)]: a new object in the store. *)
Definition new_evidence (en : EvidenceNode) : M Store eid :=
  fun s => (Ok (length (evidence_nodes (tree s))),
            set_tree (mkTree (evidence_nodes (tree s) ++ [en]) (question_nodes (tree s))) s).
Definition new_question (qn : QuestionNode) : M Store qid :=
  fun s => (Ok (length (question_nodes (tree s))),
            set_tree (mkTree (evidence_nodes (tree s)) (question_nodes (tree s) ++ [qn])) s).

Definition read_cluster (key : string) : M Store Cluster :=
  fun s => (dict_item (clusters (clustering s)) key, s).
Definition update_cluster (key : string) (f : Cluster -> Cluster) : M Store unit :=
  modify (fun s =>
    set_clustering
      (mkQuestionClustering (index (clustering s))
         (map (fun kc => if String.eqb (fst kc) key then (fst kc, f (snd kc)) else kc)
              (clusters (clustering s)))
         (threshold (clustering s))) s).

(** [question_clustering.get_cluster(question)] on the shared clustering. *)
Definition get_cluster_m (question : string) : M Store string :=
  fun s =>
    match get_cluster encode cosine_distance (clustering s) question with
    | Ok (key, c') => (Ok key, set_clustering c' s)
    | Raise e => (Raise e, s)
    | OutOfFuel => (OutOfFuel, s)
    | IllFormed => (IllFormed, s)
    end.

Variable task : TaskParams.
Variable collab : Collaborators.
Variable min_probability : Q.

Definition call_world {A} (m : M World A) : M Store A := zoom world set_world m.

(** [set(prior.keys()) - set(cluster.get_hypotheses())], listed in the order
    of the prior; Python leaves the order of a set unspecified. *)
Definition missing_hypotheses_of (prior : dict Q) (c : Cluster) : list string :=
  nodup string_dec (filter (fun h => negb (mem_string h (get_hypotheses c))) (keys prior)).

(** The body of [for answer in answers] in [expand_questions]. *)
Definition add_evidence_child (current_node : qid) (cluster_key : string)
    (answers : list string) (answer : string) : M Store unit :=
  cluster <<- read_cluster cluster_key ;;
  likelihoods <<- lift (get_likelihoods_for_answer cluster answer) ;;
  qn <<- read_question current_node ;;
  parent <<- read_evidence (q_parent qn) ;;
  uniform_likelihood <<- lift (py_div 1 (inject_Z (Z.of_nat (length answers)))) ;;
  pm <<- lift (Posterior.calculate_posterior (belief_state parent) likelihoods
                 min_probability uniform_likelihood (estimator_confidence task)) ;;
  evidence_node <<- new_evidence
    (mkEvidenceNode answer (fst pm) (snd pm) (Some current_node) []) ;;
  update_question current_node
    (fun n => mkQuestionNode (question n) (possible_answers n) (q_parent n)
                             (q_children n ++ [evidence_node])).

(** The [async with cluster.lock:] block of [expand_questions]: it resolves
    the answers of the question and fetches the likelihoods the cluster lacks. *)
Definition locked_section (current_node : qid) (qn : QuestionNode)
    (cluster_key : string) : M Store (list string) :=
  cluster <<- read_cluster cluster_key ;;
  cached <<- lift (get_answers cluster) ;;
  answers <<-
    match cached with
    | _ :: _ =>
        update_question current_node
          (fun n => mkQuestionNode (question n) cached (q_parent n) (q_children n)) ;;;
        ret cached
    | [] => ret (possible_answers qn)
    end ;;
  parent <<- read_evidence (q_parent qn) ;;
  let missing_hypotheses := missing_hypotheses_of (belief_state parent) cluster in
  match missing_hypotheses with
  | _ :: _ =>
      modify (log_request (question qn, answers, missing_hypotheses)) ;;;
      new_likelihoods <<-
        call_world (get_likelihoods collab (question qn) answers missing_hypotheses) ;;
      update_cluster cluster_key
        (fun c => mkCluster (questions c) (dict_update (likelihoods c) new_likelihoods))
  | [] => ret tt
  end ;;;
  ret answers.

(** The [if not current_node.children:] block of [expand_questions]. *)
Definition create_evidence_children (current_node : qid) : M Store unit :=
  qn <<- read_question current_node ;;
  match q_children qn with
  | _ :: _ => ret tt
  | [] =>
      cluster_key <<- get_cluster_m (question qn) ;;
      answers <<- locked_section current_node qn cluster_key ;;
      for_each (add_evidence_child current_node cluster_key answers) answers
  end.

(** [expand_questions], given the function it recurses into.  The branches of
    [asyncio.gather] are run one after the other, in the order of the child
    list, and the first exception ends the gather; that the program lets the
    other branches go on after it is not followed. *)
Definition expand_questions_with (expand_evidence : eid -> Z -> M Store unit)
    (current_node : qid) (current_depth : Z) : M Store unit :=
  create_evidence_children current_node ;;;
  qn <<- read_question current_node ;;
  for_each (fun child => expand_evidence child (current_depth + 1)%Z) (q_children qn).

(** The [if not current_node.children:] block of [expand_evidence]. *)
Definition create_question_children (current_node : eid) : M Store unit :=
  en <<- read_evidence current_node ;;
  match e_children en with
  | _ :: _ => ret tt
  | [] =>
      t <<- gets tree ;;
      new_questions <<- call_world (create_questions collab t current_node) ;;
      new_question_nodes <<-
        map_m (fun qa => new_question (mkQuestionNode (fst qa) (snd qa) current_node []))
              new_questions ;;
      update_evidence current_node
        (fun n => mkEvidenceNode (answer n) (belief_state n) (marginal_likelihood n)
                                 (e_parent n) (e_children n ++ new_question_nodes))
  end.

Fixpoint expand_evidence_fuel (fuel : nat) (current_node : eid) (current_depth : Z)
    : M Store unit :=
  match fuel with
  | O => lift OutOfFuel
  | S fuel' =>
      t <<- gets tree ;;
      terminal <<- lift (is_terminal t current_node task) ;;
      if terminal || (max_lookahead_depth task <=? current_depth)%Z then ret tt
      else
        create_question_children current_node ;;;
        en <<- read_evidence current_node ;;
        for_each
          (fun child =>
             expand_questions_with (expand_evidence_fuel fuel') child current_depth)
          (e_children en)
  end.

(** Each level of the recursion is one lookahead level deeper. *)
Definition lookahead_fuel (current_depth : Z) : nat :=
  S (Z.to_nat (max_lookahead_depth task - current_depth)).

Definition expand_evidence (current_node : eid) (current_depth : Z) : M Store unit :=
  expand_evidence_fuel (lookahead_fuel current_depth) current_node current_depth.

Definition expand_questions (current_node : qid) (current_depth : Z) : M Store unit :=
  expand_questions_with
    (expand_evidence_fuel (lookahead_fuel (current_depth + 1)))
    current_node current_depth.

(** An entry of [final_path]: the node whose [str()] is recorded (the
    rendering of the floats is not modelled). *)
Inductive NodeRef : Type :=
| EvidenceRef (e : eid)
| QuestionRef (q : qid).

(** The locals of [run_task] that outlive the [try] block, with the store. *)
Record RunState : Type := mkRunState {
  store : Store;
  current_node : eid;
  final_path : list NodeRef
}.

Definition set_store (s : Store) (r : RunState) : RunState :=
  mkRunState s (current_node r) (final_path r).
Definition set_current_node (e : eid) (r : RunState) : RunState :=
  mkRunState (store r) e (final_path r).
Definition append_path (n : NodeRef) (r : RunState) : RunState :=
  mkRunState (store r) (current_node r) (final_path r ++ [n]).

Definition in_store {A} (m : M Store A) : M RunState A := zoom store set_store m.

Variable sharpness_constant : Q.

(** [max(items, key=key)]: the first item whose key no later key exceeds;
    every key is computed, in order, before the comparison. *)
Definition py_max_by (key : qid -> result R) (items : list qid) : result qid :=
  scored <- mapM (fun x => k <- key x ;; Ok (x, k)) items ;;
  match scored with
  | [] => Raise (ValueError "max() arg is an empty sequence")
  | first :: rest =>
      Ok (fst (fold_left
                 (fun best item => if Rlt_dec (snd best) (snd item) then item else best)
                 rest first))
  end.

(** One pass through the body of [while not is_terminal(current_node, task)]. *)
Definition loop_body : M RunState unit :=
  node <<- gets current_node ;;
  in_store (expand_evidence node 0) ;;;
  t <<- gets (fun r => tree (store r)) ;;
  en <<- lift (get_evidence t node) ;;
  best_question_node <<-
    lift (py_max_by (fun q => expected_reward t q sharpness_constant) (e_children en)) ;;
  modify (append_path (QuestionRef best_question_node)) ;;;
  selected_evidence_node <<-
    in_store (call_world (get_answer collab t best_question_node)) ;;
  (* the answer is an [EvidenceNode] object, that is, a node of the store *)
  t' <<- gets (fun r => tree (store r)) ;;
  lift (get_evidence t' selected_evidence_node) ;;;
  modify (set_current_node selected_evidence_node) ;;;
  modify (append_path (EvidenceRef selected_evidence_node)).

Fixpoint run_loop (fuel : nat) : M RunState unit :=
  match fuel with
  | O => lift OutOfFuel
  | S fuel' =>
      node <<- gets current_node ;;
      t <<- gets (fun r => tree (store r)) ;;
      terminal <<- lift (is_terminal t node task) ;;
      if terminal then ret tt else loop_body ;;; run_loop fuel'
  end.

(** The fields of [RunRecord] that the engine computes; the session handles,
    the task description and the clock readings are left out. *)
Record RunRecord : Type := mkRunRecord {
  record_final_path : list NodeRef;
  final_belief_state : dict Q;
  serialised_tree : Tree
}.

(** The state after [root = EvidenceNode("ROOT", initial_belief_state, 1.0)]
    and [final_path.append(str(current_node))]. *)
Definition initial_run_state (question_clustering : QuestionClustering Embedding)
    (w : World) (initial_belief_state : dict Q) : RunState :=
  mkRunState
    (mkStore (mkTree [mkEvidenceNode "ROOT" initial_belief_state 1 None []] [])
             question_clustering w [])
    0%nat [EvidenceRef 0%nat].

(** Everything of [run_task] after the root is created: the guarded loop and
    the construction of the record. *)
Definition finish_run (fuel : nat) : M RunState RunRecord :=
  try_except (run_loop fuel) (fun e => ret tt) ;;;
  r <<- gets (fun r => r) ;;
  en <<- lift (get_evidence (tree (store r)) (current_node r)) ;;
  ret (mkRunRecord (final_path r) (belief_state en) (tree (store r))).

(** [run_task]; [fuel] bounds the number of passes through the loop. *)
Definition run_task (fuel : nat) (question_clustering : QuestionClustering Embedding)
    : M World RunRecord :=
  fun w =>
    match create_initial_belief_state collab w with
    | (Ok initial_belief_state, w') =>
        let (r, final) :=
          finish_run fuel (initial_run_state question_clustering w' initial_belief_state) in
        (r, world (store final))
    | (Raise e, w') => (Raise e, w')
    | (OutOfFuel, w') => (OutOfFuel, w')
    | (IllFormed, w') => (IllFormed, w')
    end.

End Engine.

Arguments mkCollaborators {World} _ _ _ _.
Arguments create_initial_belief_state {World} _ _.
Arguments create_questions {World} _ _ _ _.
Arguments get_likelihoods {World} _ _ _ _ _.
Arguments get_answer {World} _ _ _ _.
Arguments mkStore {Embedding World} _ _ _ _.
Arguments tree {Embedding World} _.
Arguments clustering {Embedding World} _.
Arguments world {Embedding World} _.
Arguments requests {Embedding World} _.
Arguments set_tree {Embedding World} _ _.
Arguments set_clustering {Embedding World} _ _.
Arguments set_world {Embedding World} _ _.
Arguments log_request {Embedding World} _ _.
Arguments read_evidence {Embedding World} _ _.
Arguments read_question {Embedding World} _ _.
Arguments update_evidence {Embedding World} _ _ _.
Arguments update_question {Embedding World} _ _ _.
Arguments new_evidence {Embedding World} _ _.
Arguments new_question {Embedding World} _ _.
Arguments read_cluster {Embedding World} _ _.
Arguments update_cluster {Embedding World} _ _ _.
Arguments get_cluster_m {Embedding} _ _ {World} _ _.
Arguments call_world {Embedding World A} _ _.
Arguments add_evidence_child {Embedding World} _ _ _ _ _ _ _.
Arguments locked_section {Embedding World} _ _ _ _ _.
Arguments create_evidence_children {Embedding} _ _ {World} _ _ _ _ _.
Arguments expand_questions_with {Embedding} _ _ {World} _ _ _ _ _ _ _.
Arguments create_question_children {Embedding World} _ _ _.
Arguments expand_evidence_fuel {Embedding} _ _ {World} _ _ _ _ _ _ _.
Arguments expand_evidence {Embedding} _ _ {World} _ _ _ _ _ _.
Arguments expand_questions {Embedding} _ _ {World} _ _ _ _ _ _.
Arguments mkRunState {Embedding World} _ _ _.
Arguments store {Embedding World} _.
Arguments current_node {Embedding World} _.
Arguments final_path {Embedding World} _.
Arguments set_store {Embedding World} _ _.
Arguments set_current_node {Embedding World} _ _.
Arguments append_path {Embedding World} _ _.
Arguments in_store {Embedding World A} _ _.
Arguments loop_body {Embedding} _ _ {World} _ _ _ _ _.
Arguments run_loop {Embedding} _ _ {World} _ _ _ _ _ _.
Arguments finish_run {Embedding} _ _ {World} _ _ _ _ _ _.
Arguments run_task {Embedding} _ _ {World} _ _ _ _ _ _ _.
Arguments initial_run_state {Embedding World} _ _ _.

(** ** Relations used in the statements *)

(** [t'] has every evidence node of [t], with the same answer, belief state,
    marginal likelihood and parent: nodes are only added, and an existing
    node only gains children. *)
Definition tree_extends (t t' : Tree) : Prop :=
  forall e en,
    nth_error (evidence_nodes t) e = Some en ->
    exists en',
      nth_error (evidence_nodes t') e = Some en'
      /\ answer en' = answer en
      /\ belief_state en' = belief_state en
      /\ marginal_likelihood en' = marginal_likelihood en
      /\ e_parent en' = e_parent en.



(** The evidence nodes are the same and every question node keeps its text,
    its parent and its children. *)
Definition same_shape {Embedding World} (s s' : Store Embedding World) : Prop :=
  evidence_nodes (tree s') = evidence_nodes (tree s)
  /\ forall q qn,
       get_question (tree s) q = Ok qn ->
       exists qn',
         get_question (tree s') q = Ok qn'
         /\ q_children qn' = q_children qn
         /\ q_parent qn' = q_parent qn
         /\ question qn' = question qn.

(** [e] is the evidence child of question [q] for [answer]: its belief state
    and marginal likelihood are the posterior of [prior] under the cluster's
    likelihoods of that answer, computed with the uniform likelihood
    [1 / len(answers)]. *)
Definition posterior_child (task : TaskParams) (min_probability : Q)
    (answers : list string) (c : Cluster) (prior : dict Q) (q : qid) (t : Tree)
    (answer_text : string) (e : eid) : Prop :=
  exists en lik,
    get_evidence t e = Ok en
    /\ answer en = answer_text
    /\ e_parent en = Some q
    /\ get_likelihoods_for_answer c answer_text = Ok lik
    /\ Posterior.calculate_posterior prior lik min_probability
         (1 / inject_Z (Z.of_nat (length answers))) (estimator_confidence task)
       = Ok (belief_state en, marginal_likelihood en).

Definition grows {Embedding World} (s s' : Store Embedding World) : Prop :=
  tree_extends (tree s) (tree s').

(** Whatever its outcome, the computation leaves a state related to the one
    it started from. *)
Definition always {S A} (R : S -> S -> Prop) (m : M S A) : Prop :=
  forall s, R s (snd (m s)).

(** ** Passes of the run loop

    What one pass of the loop of [run_task] does at the evidence node [node]
    in the store [s], told by the calls it makes and without the locals of
    the run: the loop test lets it start, the node is expanded, the question
    of the highest expected reward is selected and the answerer resolves it
    to one of the evidence nodes. *)

Section RunTraces.

Variable Embedding : Type.
Variable encode : string -> Embedding.
Variable cosine_distance : Embedding -> Embedding -> Q.
Variable World : Type.
Variable task : TaskParams.
Variable collab : Collaborators World.
Variable min_probability : Q.
Variable sharpness_constant : Q.

(** The pass selects question [q], reaches evidence node [e] and leaves the
    store [s']. *)
Definition pass_completes (node : eid) (s : Store Embedding World) (q : qid) (e : eid)
    (s' : Store Embedding World) : Prop :=
  exists s1 en w2 en',
    is_terminal (tree s) node task = Ok false
    /\ expand_evidence encode cosine_distance task collab min_probability node 0 s
       = (Ok tt, s1)
    /\ get_evidence (tree s1) node = Ok en
    /\ py_max_by (fun q => expected_reward (tree s1) q sharpness_constant)
                 (e_children en) = Ok q
    /\ get_answer collab (tree s1) q (world s1) = (Ok e, w2)
    /\ get_evidence (tree s1) e = Ok en'
    /\ s' = set_world w2 s1.

(** The pass raises [x]: in the expansion (question generation, likelihood
    estimation), with nothing appended to the path yet, or when the answerer
    is asked about the selected question, which is then the last entry of
    the path. *)
Definition pass_fails (node : eid) (s : Store Embedding World) (x : exn)
    (pending : list NodeRef) : Prop :=
  is_terminal (tree s) node task = Ok false
  /\ ((exists s1,
         expand_evidence encode cosine_distance task collab min_probability node 0 s
         = (Raise x, s1))
      /\ pending = []
      \/ exists s1 en q w2,
           expand_evidence encode cosine_distance task collab min_probability node 0 s
           = (Ok tt, s1)
           /\ get_evidence (tree s1) node = Ok en
           /\ py_max_by (fun q => expected_reward (tree s1) q sharpness_constant)
                        (e_children en) = Ok q
           /\ get_answer collab (tree s1) q (world s1) = (Raise x, w2)
           /\ pending = [QuestionRef q]).

(** [passes node s rounds node' s']: from [node] in [s], the passes that
    select and reach the (question, evidence) pairs of [rounds], one after
    the other, end at [node'] in [s']. *)
Inductive passes
    : eid -> Store Embedding World -> list (qid * eid) -> eid ->
      Store Embedding World -> Prop :=
| passes_none node s : passes node s [] node s
| passes_next node s q e s1 rounds node' s' :
    pass_completes node s q e s1 ->
    passes e s1 rounds node' s' ->
    passes node s ((q, e) :: rounds) node' s'.

End RunTraces.

Arguments pass_completes {Embedding} _ _ {World} _ _ _ _ _ _ _ _ _.
Arguments pass_fails {Embedding} _ _ {World} _ _ _ _ _ _ _ _.
Arguments passes {Embedding} _ _ {World} _ _ _ _ _ _ _ _ _.

(** * Example trees and tasks *)

(** The degenerate case of the pruning rule: both candidates have likelihood 0. *)
Definition degenerate_prior : dict Q := [("A"%string, 1#2); ("B"%string, 1#2)].
Definition degenerate_likelihoods : dict Q := [("A"%string, 0); ("B"%string, 0)].

(** A prior and a likelihood row on which a second update prunes further. *)
Definition reprune_prior : dict Q := [("A"%string, 1#2); ("B"%string, 1#2)].
Definition reprune_likelihoods : dict Q := [("A"%string, 1#2); ("B"%string, 3#10)].

(** The end-to-end scenario: four hypotheses at 0.25 and the row of "Yes". *)
Definition uniform4 : dict Q :=
  [("A"%string, 1#4); ("B"%string, 1#4); ("C"%string, 1#4); ("D"%string, 1#4)].
Definition yes_row : dict Q :=
  [("A"%string, 9#10); ("B"%string, 9#10); ("C"%string, 1#10); ("D"%string, 1#10)].


(** The chain root -> Q1 -> E1 -> Q2 -> E2. *)
Definition chain_tree : Tree :=
  mkTree
    [ mkEvidenceNode "ROOT" uniform4 1 None [0%nat];
      mkEvidenceNode "Yes" [("A"%string, 1#2); ("B"%string, 1#2)] (1#2) (Some 0%nat) [1%nat];
      mkEvidenceNode "Yes" [("A"%string, 1)] (1#2) (Some 1%nat) [] ]
    [ mkQuestionNode "Q1" ["Yes"; "No"]%string 0%nat [1%nat];
      mkQuestionNode "Q2" ["Yes"; "No"]%string 1%nat [2%nat] ].

Definition chain_task : TaskParams :=
  mkTaskParams 3%Z 2%Z 2%Z (9#10) 1 ["A"; "B"; "C"; "D"]%string.

(** A root with one question that has not been expanded. *)
Definition unexpanded_tree : Tree :=
  mkTree [ mkEvidenceNode "ROOT" uniform4 1 None [0%nat] ]
         [ mkQuestionNode "Q1" ["Yes"; "No"]%string 0%nat [] ].

(** A skewed belief state over five hypotheses; [uniform4] concentrates its
    mass onto four of them. *)
Definition skewed5 : dict Q :=
  [("A"%string, 1#2); ("B"%string, 1#4); ("C"%string, 1#8); ("D"%string, 1#16);
   ("E"%string, 1#16)].

Definition uniform2 : dict Q := [("A"%string, 1#2); ("B"%string, 1#2)].

(** A fully expanded two-level lookahead tree.  Under the root, question 0
    splits the four hypotheses evenly and question 1 singles out "A"; both
    answers of question 0 are expanded one level further. *)
Definition certain (h : string) : dict Q := [(h, 1)].

Definition lookahead_tree : Tree :=
  mkTree
    [ (* 0 *) mkEvidenceNode "ROOT" uniform4 1 None [0%nat; 1%nat];
      (* 1 *) mkEvidenceNode "Yes" [("A"%string, 1#2); ("B"%string, 1#2)] (1#2)
                (Some 0%nat) [2%nat; 4%nat];
      (* 2 *) mkEvidenceNode "No" [("C"%string, 1#2); ("D"%string, 1#2)] (1#2)
                (Some 0%nat) [3%nat];
      (* 3 *) mkEvidenceNode "Yes" (certain "A") (1#4) (Some 1%nat) [];
      (* 4 *) mkEvidenceNode "No"
                [("B"%string, 1#2); ("C"%string, 1#4); ("D"%string, 1#4)] (3#4)
                (Some 1%nat) [];
      (* 5 *) mkEvidenceNode "Yes" (certain "A") (1#2) (Some 2%nat) [];
      (* 6 *) mkEvidenceNode "No" (certain "B") (1#2) (Some 2%nat) [];
      (* 7 *) mkEvidenceNode "Yes" (certain "C") (1#2) (Some 3%nat) [];
      (* 8 *) mkEvidenceNode "No" (certain "D") (1#2) (Some 3%nat) [];
      (* 9 *) mkEvidenceNode "Yes" (certain "A") (3#4) (Some 4%nat) [];
      (* 10 *) mkEvidenceNode "No" (certain "B") (1#4) (Some 4%nat) [] ]
    [ (* 0 *) mkQuestionNode "Is it A or B?" ["Yes"; "No"]%string 0%nat [1%nat; 2%nat];
      (* 1 *) mkQuestionNode "Is it A?" ["Yes"; "No"]%string 0%nat [3%nat; 4%nat];
      (* 2 *) mkQuestionNode "Is it A?" ["Yes"; "No"]%string 1%nat [5%nat; 6%nat];
      (* 3 *) mkQuestionNode "Is it C?" ["Yes"; "No"]%string 2%nat [7%nat; 8%nat];
      (* 4 *) mkQuestionNode "Is it surely A?" ["Yes"; "No"]%string 1%nat
                [9%nat; 10%nat] ].

(** A stand-in for the sentence encoder: the text itself, at distance 0 from
    itself and 1 from any other text. *)
Definition text_distance (a b : string) : Q := if String.eqb a b then 0 else 1.
Definition text_encode (s : string) : string := s.


(** A task whose likelihood estimator is down: questions are proposed, but
    every likelihood request raises. *)
Definition failing_collab : Collaborators unit :=
  mkCollaborators
    (ret uniform2)
    (fun _ _ => ret [("Is it A?"%string, ["Yes"; "No"]%string)])
    (fun _ _ _ => lift (Raise (CollaboratorError "likelihood estimation failed")))
    (fun _ _ => lift (Raise (CollaboratorError "no answer"))).

Definition failing_start : RunState string unit :=
  initial_run_state (new_clustering 1) tt uniform2.

(** A task that goes on after one answer (the confidence threshold is out of
    reach of one update) and looks one level ahead, and collaborators of
    which the answerer resolves the first question, with the first evidence
    child, and raises at any later one. *)
Definition patient_task : TaskParams :=
  mkTaskParams 3%Z 1%Z 3%Z (99#100) 1 ["A"; "B"]%string.

Definition tiring_collab : Collaborators unit :=
  mkCollaborators
    (ret uniform2)
    (fun _ _ => ret [("Is it A?"%string, ["Yes"; "No"]%string)])
    (fun _ _ _ => ret [("A"%string, [("Yes"%string, 9#10); ("No"%string, 1#10)]);
                       ("B"%string, [("Yes"%string, 1#10); ("No"%string, 9#10)])])
    (fun t q =>
       if (q =? 0)%nat then
         lift (qn <- get_question t q ;;
               match q_children qn with
               | e :: _ => Ok e
               | [] => Raise (CollaboratorError "no answer")
               end)
       else lift (Raise (CollaboratorError "the answerer is down"))).

(** The store of a run of [patient_task] at its start, after the expansion of
    the root, and after the expansion of the first answer. *)
Definition patient_start : Store string unit :=
  mkStore (mkTree [mkEvidenceNode "ROOT" uniform2 1 None []] []) (new_clustering 1) tt [].

Definition patient_first : Store string unit :=
  snd (expand_evidence text_encode text_distance patient_task tiring_collab 0
         0%nat 0%Z patient_start).

Definition patient_second : Store string unit :=
  snd (expand_evidence text_encode text_distance patient_task tiring_collab 0
         1%nat 0%Z patient_first).

(** A task whose collaborators answer without failing, and a likelihood
    estimator for the two hypotheses of [uniform2]. *)
Definition yes_no_likelihoods : dict (dict Q) :=
  [("A"%string, [("Yes"%string, 9#10); ("No"%string, 1#10)]);
   ("B"%string, [("Yes"%string, 1#10); ("No"%string, 9#10)])].

Definition answering_collab : Collaborators unit :=
  mkCollaborators
    (ret uniform2)
    (fun _ _ => ret [])
    (fun _ _ _ => ret yes_no_likelihoods)
    (fun _ _ => lift (Raise (CollaboratorError "no answer"))).

Definition quiet_collab : Collaborators unit :=
  mkCollaborators
    (ret uniform2)
    (fun _ _ => ret [])
    (fun _ _ _ => ret [])
    (fun _ _ => lift (Raise (CollaboratorError "no answer"))).



(** A root with one unexpanded question, proposed with the given answers. *)
Definition one_question_store (answers : list string) : Store string unit :=
  mkStore
    (mkTree [ mkEvidenceNode "ROOT" uniform2 1 None [0%nat] ]
            [ mkQuestionNode "Is it A?" answers 0%nat [] ])
    (new_clustering 1) tt [].

(** * Further definitions *)

From Stdlib Require DecimalNat.
From Stdlib Require Import Sorted.

(** ** Parent chains ([node.py])

    [get_conversation_history]: the loop walks the parent chain with the
    list [history] and returns it reversed. *)

Fixpoint get_conversation_history_fuel (fuel : nat) (t : Tree) (curr : eid)
    (history : list (string * string)) : result (list (string * string)) :=
  match fuel with
  | O => OutOfFuel
  | S fuel' =>
      en <- get_evidence t curr ;;
      match e_parent en with
      | None => Ok (rev history)
      | Some q =>
          qn <- get_question t q ;;
          get_conversation_history_fuel fuel' t (q_parent qn)
            (history ++ [(question qn, answer en)])
      end
  end.

Definition get_conversation_history (t : Tree) (node : eid)
    : result (list (string * string)) :=
  get_conversation_history_fuel (length (evidence_nodes t)) t node [].

(** [root_of t e r]: following [parent.parent] from [e] ends at the
    parentless node [r]. *)
Inductive root_of (t : Tree) : eid -> eid -> Prop :=
| root_here e en :
    nth_error (evidence_nodes t) e = Some en -> e_parent en = None ->
    root_of t e e
| root_up e en q qn r :
    nth_error (evidence_nodes t) e = Some en -> e_parent en = Some q ->
    nth_error (question_nodes t) q = Some qn ->
    root_of t (q_parent qn) r ->
    root_of t e r.

(** Every evidence node is in the child list of its parent question, as after
    [question.children.append(evidence_node)] of [expand_questions]. *)
Definition child_registered (t : Tree) (i : eid) (en : EvidenceNode) : bool :=
  match e_parent en with
  | None => true
  | Some q =>
      match nth_error (question_nodes t) q with
      | Some qn => existsb (Nat.eqb i) (q_children qn)
      | None => false
      end
  end.

Definition children_registered (t : Tree) : bool :=
  forallb_i (child_registered t) 0 (evidence_nodes t).

(** ** Successive cluster lookups ([question_clustering.py]) *)

Section ClusterCalls.

Variable Embedding : Type.
Variable encode : string -> Embedding.
Variable cosine_distance : Embedding -> Embedding -> Q.

(** [get_cluster] called for one question after the other on the same
    [QuestionClustering] object; the keys of the clusters returned, in call
    order, and the object after the last call. *)
Fixpoint get_clusters (self : QuestionClustering Embedding) (qs : list string)
    : result (list string * QuestionClustering Embedding) :=
  match qs with
  | [] => Ok ([], self)
  | q :: qs' =>
      kc <- get_cluster encode cosine_distance self q ;;
      rest <- get_clusters (snd kc) qs' ;;
      Ok (fst kc :: fst rest, snd rest)
  end.

End ClusterCalls.

Arguments get_clusters {Embedding} _ _ _ _.

(** [sum(cluster.questions.values())] and its total over all clusters: the
    number of lookups counted so far. *)
Definition occurrences (c : Cluster) : nat :=
  fold_right Nat.add 0%nat (values (questions c)).

Definition total_occurrences {Embedding} (qc : QuestionClustering Embedding) : nat :=
  fold_right Nat.add 0%nat (map occurrences (values (clusters qc))).

(** The clusters are registered under [str(0)], [str(1)], ... in the order
    in which their first questions entered the index. *)
Definition keyed {Embedding} (qc : QuestionClustering Embedding) : Prop :=
  keys (clusters qc) = map str (seq 0 (length (index qc))).

(** ** The links of the node store

    The parent and child links of a store built by [expand_evidence] and
    [expand_questions], spelled out: every parent link has its child link and
    every child link its parent link, and a node is created after its
    parent. *)
Definition links_ok (t : Tree) : Prop :=
  (forall i en, nth_error (evidence_nodes t) i = Some en ->
     (forall q, e_parent en = Some q ->
        exists qn, nth_error (question_nodes t) q = Some qn
                   /\ (q_parent qn < i)%nat /\ In i (q_children qn))
     /\ (forall q', In q' (e_children en) ->
        exists qn', nth_error (question_nodes t) q' = Some qn' /\ q_parent qn' = i))
  /\ (forall j qn, nth_error (question_nodes t) j = Some qn ->
     (q_parent qn < length (evidence_nodes t))%nat
     /\ (forall e, In e (q_children qn) ->
        exists en, nth_error (evidence_nodes t) e = Some en /\ e_parent en = Some j)).

(** [keeps P m]: whatever its outcome, [m] leaves a state with [P] when it
    starts from one. *)
Definition keeps {S A} (P : S -> Prop) (m : M S A) : Prop :=
  forall s, P s -> P (snd (m s)).

Definition store_links {Embedding World} (s : Store Embedding World) : Prop :=
  links_ok (tree s).

(** ** The path of a run ([method.py])

    What completed passes of the loop of [run_task] append to [final_path]:
    the question chosen and the evidence node of its answer. *)
Definition rounds_path (rounds : list (qid * eid)) : list NodeRef :=
  flat_map (fun qe => [QuestionRef (fst qe); EvidenceRef (snd qe)]) rounds.

(** The evidence node reached after the rounds, starting at [start]. *)
Definition last_node (start : eid) (rounds : list (qid * eid)) : eid :=
  last (map snd rounds) start.

(** A task over the hypotheses of [uniform2] whose collaborators all answer:
    one question is proposed, and the answer given is the first evidence
    child of the question asked. *)
Definition guiding_collab : Collaborators unit :=
  mkCollaborators
    (ret uniform2)
    (fun _ _ => ret [("Is it A?"%string, ["Yes"; "No"]%string)])
    (fun _ _ _ => ret yes_no_likelihoods)
    (fun t q =>
       lift (qn <- get_question t q ;;
             match q_children qn with
             | e :: _ => Ok e
             | [] => Raise (CollaboratorError "no answer")
             end)).

(** ** Evaluation of runs ([eval.py]) *)

Module Evaluation.

(** [LLMRequestSession], as far as the evaluation reads it. *)
Record LLMRequestSession : Type := mkLLMRequestSession {
  total_input_tokens : Z;
  total_output_tokens : Z
}.

(** The [RunRecord] passed to [get_run_eval]; clock readings are numbers of
    seconds, and the entries of [final_path] are the nodes whose [str()] the
    run recorded. *)
Record RunHistory : Type := mkRunHistory {
  questioner_session : LLMRequestSession;
  answerer_session : LLMRequestSession;
  expected_answer : string;
  start_time : Z;
  end_time : Z;
  final_path : list NodeRef;
  final_belief_state : dict Q
}.

Record RunEval : Type := mkRunEval {
  top1 : bool;
  top3 : bool;
  run_start_time : Z;
  run_end_time : Z;
  conversation_length : Z;
  questioner_input_tokens : Z;
  questioner_output_tokens : Z;
  answerer_input_tokens : Z;
  answerer_output_tokens : Z
}.

Record GroupEval : Type := mkGroupEval {
  num_runs : Z;
  group_top1 : Q;
  group_top3 : Q;
  duration : Z;
  mean_conversation_length : Q;
  mean_conversation_length_in_successful_cases : Q;
  group_questioner_input_tokens : Z;
  group_questioner_output_tokens : Z;
  group_answerer_input_tokens : Z;
  group_answerer_output_tokens : Z
}.

(** [sorted(d.keys(), key=d.__getitem__, reverse=True)]: the sort is stable,
    so an entry goes behind the entries of equal value that precede it in the
    dictionary. *)
Fixpoint insert_desc (x : string * Q) (l : list (string * Q)) : list (string * Q) :=
  match l with
  | [] => [x]
  | y :: l' =>
      if Qgt_bool (snd x) (snd y) then x :: y :: l' else y :: insert_desc x l'
  end.

Definition sorted_desc (d : dict Q) : list (string * Q) :=
  fold_left (fun acc x => insert_desc x acc) d [].

(** No entry is followed by one of greater value. *)
Definition desc_sorted (l : list (string * Q)) : Prop :=
  StronglySorted (fun a b => snd b <= snd a) l.

Definition get_run_eval (run_history : RunHistory) : RunEval :=
  let guesses := keys (sorted_desc (final_belief_state run_history)) in
  let top3_guesses := firstn 3 guesses in
  let top1_guesses := firstn 1 guesses in
  let top1_hit := mem_string (expected_answer run_history) top1_guesses in
  let top3_hit := mem_string (expected_answer run_history) top3_guesses in
  let length_of_conversation :=
    (Z.of_nat (length (final_path run_history)) / 2)%Z in
  mkRunEval top1_hit top3_hit (start_time run_history) (end_time run_history)
    length_of_conversation
    (total_input_tokens (questioner_session run_history))
    (total_output_tokens (questioner_session run_history))
    (total_input_tokens (answerer_session run_history))
    (total_output_tokens (answerer_session run_history)).

(** [sum(xs)] on integers, and [a / b] on integers (a float). *)
Definition sum_int (xs : list Z) : Z := fold_left Z.add xs 0%Z.

Definition true_div (a b : Z) : result Q := py_div (inject_Z a) (inject_Z b).

Definition max_int (xs : list Z) : result Z :=
  match xs with
  | [] => Raise (ValueError "max() arg is an empty sequence")
  | x :: xs' => Ok (fold_left (fun m y => if (m <? y)%Z then y else m) xs' x)
  end.

Definition min_int (xs : list Z) : result Z :=
  match xs with
  | [] => Raise (ValueError "min() arg is an empty sequence")
  | x :: xs' => Ok (fold_left (fun m y => if (y <? m)%Z then y else m) xs' x)
  end.

Definition get_group_eval (run_evals : list RunEval) : result GroupEval :=
  let n := Z.of_nat (length run_evals) in
  top1_rate <-
    true_div (sum_int (map (fun run_eval => Z.b2z (top1 run_eval)) run_evals)) n ;;
  top3_rate <-
    true_div (sum_int (map (fun run_eval => Z.b2z (top3 run_eval)) run_evals)) n ;;
  mean_length <-
    true_div (sum_int (map conversation_length run_evals)) n ;;
  let conv_length_successful := map conversation_length (filter top1 run_evals) in
  mean_length_successful <-
    true_div (sum_int conv_length_successful)
             (Z.of_nat (length conv_length_successful)) ;;
  let questioner_input := sum_int (map questioner_input_tokens run_evals) in
  let questioner_output := sum_int (map questioner_output_tokens run_evals) in
  let answerer_input := sum_int (map answerer_input_tokens run_evals) in
  let answerer_output := sum_int (map answerer_output_tokens run_evals) in
  latest <- max_int (map run_end_time run_evals) ;;
  earliest <- min_int (map run_start_time run_evals) ;;
  Ok (mkGroupEval n top1_rate top3_rate (latest - earliest)%Z mean_length
        mean_length_successful
        questioner_input questioner_output answerer_input answerer_output).

End Evaluation.

(** ** The direct prompting baseline ([direct_prompting_method.py]) *)

Module DirectPrompting.

Definition calculate_posterior (prior_belief_state : dict Q) (prediction : string)
    (prediction_count : Z) : result (dict Q) :=
  prediction_weight <- py_div 1 (inject_Z prediction_count) ;;
  let posterior :=
    dict_set prior_belief_state prediction
             (dict_get prior_belief_state prediction 0 + prediction_weight) in
  let total_probability := py_sum (values posterior) in
  if Qgt_bool total_probability 0 then
    mapM (fun hp => q <- py_div (snd hp) total_probability ;; Ok (fst hp, q)) posterior
  else Raise (AssertionError "").

Definition is_terminal (t : Tree) (node : eid) (max_conversation_depth : Z)
    (task_answer : string) : result bool :=
  d <- get_conversation_depth t node ;;
  if (max_conversation_depth <=? Z.of_nat d)%Z then Ok true
  else
    en <- get_evidence t node ;;
    Ok (dict_mem (belief_state en) task_answer).

(** [Prediction] and [Question] of [tasks/direct_prompting_task.py]. *)
Inductive Response : Type :=
| Prediction (value : string)
| Question (value : string).

Section Run.

(** The state of the language model sessions, and the string methods
    [str.strip] and [str.lower], which the method only applies. *)
Variable World : Type.
Variable strip : string -> string.
Variable lower : string -> string.

(** The abstract methods of [DirectPromptingTask]. *)
Record Task : Type := mkTask {
  task_answer : string;
  max_conversation_depth : Z;
  query_questioner : Tree -> eid -> M World Response;
  query_answerer : string -> M World string
}.

(** The locals of [run_task], with the node store and the outside world. *)
Record RunState : Type := mkRunState {
  tree : Tree;
  world : World;
  prediction_count : Z;
  current_node : eid;
  final_path : list NodeRef
}.

Variable task : Task.

(** [QuestionNode(text, possible_answers=answers, parent=current_node)],
    [current_node.children.append(question_node)] and
    [final_path.append(str(question_node))]. *)
Definition add_question_node (text : string) (answers : list string) : M RunState qid :=
  fun st =>
    let q := length (question_nodes (tree st)) in
    (Ok q,
     mkRunState
       (mkTree
          (list_update (evidence_nodes (tree st)) (current_node st)
             (fun n => mkEvidenceNode (answer n) (belief_state n) (marginal_likelihood n)
                         (e_parent n) (e_children n ++ [q])))
          (question_nodes (tree st)
           ++ [mkQuestionNode text answers (current_node st) []]))
       (world st) (prediction_count st) (current_node st)
       (final_path st ++ [QuestionRef q])).

(** The end of a pass: the evidence node of the answer is created under the
    question, becomes the current node and is recorded. *)
Definition add_evidence_node (question_node : qid) (evidence_answer : string)
    (updated_belief_state : dict Q) : M RunState unit :=
  fun st =>
    let e := length (evidence_nodes (tree st)) in
    (Ok tt,
     mkRunState
       (mkTree
          (evidence_nodes (tree st)
           ++ [mkEvidenceNode evidence_answer updated_belief_state 1
                              (Some question_node) []])
          (list_update (question_nodes (tree st)) question_node
             (fun n => mkQuestionNode (question n) (possible_answers n) (q_parent n)
                         (q_children n ++ [e]))))
       (world st) (prediction_count st) e
       (final_path st ++ [EvidenceRef e])).

Definition call_task {A} (m : M World A) : M RunState A :=
  fun st =>
    let (r, w) := m (world st) in
    (r, mkRunState (tree st) w (prediction_count st) (current_node st) (final_path st)).

Definition current_belief_state : M RunState (dict Q) :=
  fun st =>
    (en <- get_evidence (tree st) (current_node st) ;; Ok (belief_state en), st).

(** One pass through the body of [while not is_terminal(current_node, task)]. *)
Definition loop_body : M RunState unit :=
  st <<- gets (fun st => st) ;;
  response <<- call_task (query_questioner task (tree st) (current_node st)) ;;
  match response with
  | Prediction prediction =>
      question_node <<-
        add_question_node ("Is it " ++ prediction ++ "?") ["Yes"; "No"]%string ;;
      modify (fun st => mkRunState (tree st) (world st) (prediction_count st + 1)%Z
                                   (current_node st) (final_path st)) ;;;
      count <<- gets prediction_count ;;
      belief <<- current_belief_state ;;
      updated_belief_state <<- lift (calculate_posterior belief prediction count) ;;
      let evidence_answer :=
        if String.eqb (lower (strip prediction)) (lower (strip (task_answer task)))
        then "Yes"%string else "No"%string in
      add_evidence_node question_node evidence_answer updated_belief_state
  | Question question_text =>
      question_node <<- add_question_node question_text [] ;;
      raw_answer <<- call_task (query_answerer task question_text) ;;
      belief <<- current_belief_state ;;
      add_evidence_node question_node (strip raw_answer) belief
  end.

Fixpoint run_loop (fuel : nat) : M RunState unit :=
  match fuel with
  | O => lift OutOfFuel
  | S fuel' =>
      st <<- gets (fun st => st) ;;
      terminal <<-
        lift (is_terminal (tree st) (current_node st) (max_conversation_depth task)
                          (task_answer task)) ;;
      if terminal then ret tt else loop_body ;;; run_loop fuel'
  end.

(** The state after the root is created and recorded. *)
Definition initial_state (w : World) : RunState :=
  mkRunState (mkTree [mkEvidenceNode "ROOT" [] 1 None []] []) w 0%Z 0%nat
             [EvidenceRef 0%nat].

(** [run_task]: the path, the final belief state and the tree of the
    [RunRecord] it returns; an exception of a pass is not caught. *)
Definition run_task (fuel : nat) : M World (list NodeRef * dict Q * Tree) :=
  fun w =>
    match run_loop fuel (initial_state w) with
    | (Ok _, st) =>
        (en <- get_evidence (tree st) (current_node st) ;;
         Ok (final_path st, belief_state en, tree st), world st)
    | (Raise e, st) => (Raise e, world st)
    | (OutOfFuel, st) => (OutOfFuel, world st)
    | (IllFormed, st) => (IllFormed, world st)
    end.

End Run.

Arguments mkTask {World} _ _ _ _.
Arguments task_answer {World} _.
Arguments max_conversation_depth {World} _.
Arguments query_questioner {World} _ _ _ _.
Arguments query_answerer {World} _ _ _.
Arguments mkRunState {World} _ _ _ _ _.
Arguments tree {World} _.
Arguments world {World} _.
Arguments prediction_count {World} _.
Arguments current_node {World} _.
Arguments final_path {World} _.
Arguments add_question_node {World} _ _ _.
Arguments add_evidence_node {World} _ _ _ _.
Arguments call_task {World A} _ _.
Arguments current_belief_state {World} _.
Arguments loop_body {World} _ _ _ _.
Arguments run_loop {World} _ _ _ _ _.
Arguments initial_state {World} _.
Arguments run_task {World} _ _ _ _ _.

(** What every pass of the loop keeps: the links of the tree, the current
    node with its conversation depth [d], a prediction count that is not
    negative, and a belief state that is empty or a distribution. *)
Definition run_ok {World} (st : RunState World) (d : nat) : Prop :=
  links_ok (tree st)
  /\ get_conversation_depth (tree st) (current_node st) = Ok d
  /\ (0 <= prediction_count st)%Z
  /\ exists en,
       get_evidence (tree st) (current_node st) = Ok en
       /\ (forall p, In p (values (belief_state en)) -> 0 <= p)
       /\ (belief_state en = [] \/ py_sum (values (belief_state en)) == 1).

(** What a completed pass did, from the state [st] before it to the state
    [st'] after it. *)
Definition pass_of {World} (strip lower : string -> string) (task : Task World)
    (st st' : RunState World) : Prop :=
  exists response w1 q e en_old en_new,
    query_questioner task (tree st) (current_node st) (world st) = (Ok response, w1)
    /\ get_evidence (tree st) (current_node st) = Ok en_old
    /\ get_evidence (tree st') e = Ok en_new
    /\ current_node st' = e
    /\ final_path st' = final_path st ++ [QuestionRef q; EvidenceRef e]
    /\ match response with
       | Prediction prediction =>
           prediction_count st' = (prediction_count st + 1)%Z
           /\ answer en_new
              = (if String.eqb (lower (strip prediction))
                               (lower (strip (task_answer task)))
                 then "Yes"%string else "No"%string)
           /\ calculate_posterior (belief_state en_old) prediction
                                  (prediction_count st + 1)
              = Ok (belief_state en_new)
       | Question question_text =>
           prediction_count st' = prediction_count st
           /\ belief_state en_new = belief_state en_old
           /\ exists raw_answer w0,
                query_answerer task question_text w1 = (Ok raw_answer, w0)
                /\ answer en_new = strip raw_answer
       end.

End DirectPrompting.

(** A stand-in for [str.lower] on ASCII letters. *)
Definition ascii_lower (c : Ascii.ascii) : Ascii.ascii :=
  let n := Ascii.nat_of_ascii c in
  if ((65 <=? n) && (n <=? 90))%nat then Ascii.ascii_of_nat (n + 32) else c.

Fixpoint lower_ascii (s : string) : string :=
  match s with
  | EmptyString => EmptyString
  | String c s' => String (ascii_lower c) (lower_ascii s')
  end.

(** A direct prompting task about a capital: the questioner predicts it in
    lower case at once. *)
Definition capital_task : DirectPrompting.Task unit :=
  DirectPrompting.mkTask "Paris" 3
    (fun _ _ => ret (DirectPrompting.Prediction "paris"))
    (fun _ => ret "Yes"%string).

(** ** Serialised trees ([history.py]) *)

Module History.

(** [SerialisedEvidenceNode] and [SerialisedQuestionNode]: the tree as nested
    dictionaries, without parent links. *)
Inductive SerialisedEvidenceNode : Type :=
| SEvidence (answer : string) (belief_state : dict Q) (marginal_likelihood : Q)
            (children : list SerialisedQuestionNode)
with SerialisedQuestionNode : Type :=
| SQuestion (question : string) (possible_answers : list string)
            (children : list SerialisedEvidenceNode).

(** The recursion follows the child lists, which are finite and acyclic in a
    tree; the fuel bounds its depth. *)
Fixpoint serialise_evidence_node_fuel (fuel : nat) (t : Tree) (node : eid)
    : result SerialisedEvidenceNode :=
  match fuel with
  | O => OutOfFuel
  | S fuel' =>
      en <- get_evidence t node ;;
      children <- mapM (serialise_question_node_fuel fuel' t) (e_children en) ;;
      Ok (SEvidence (answer en) (belief_state en) (marginal_likelihood en) children)
  end
with serialise_question_node_fuel (fuel : nat) (t : Tree) (node : qid)
    : result SerialisedQuestionNode :=
  match fuel with
  | O => OutOfFuel
  | S fuel' =>
      qn <- get_question t node ;;
      children <- mapM (serialise_evidence_node_fuel fuel' t) (q_children qn) ;;
      Ok (SQuestion (question qn) (possible_answers qn) children)
  end.

(** A path down the tree visits every node at most once, so the number of
    nodes bounds the depth. *)
Definition serialise_evidence_node (t : Tree) (node : eid)
    : result SerialisedEvidenceNode :=
  serialise_evidence_node_fuel
    (length (evidence_nodes t) + length (question_nodes t)) t node.

(** [[build(child) for child in children]], each call creating its nodes in
    the store. *)
Definition build_all {A} (build : A -> Tree -> nat * Tree)
    : list A -> Tree -> list nat * Tree :=
  fix each (children : list A) (t : Tree) : list nat * Tree :=
    match children with
    | [] => ([], t)
    | child :: rest =>
        let (id, t1) := build child t in
        let (ids, t2) := each rest t1 in
        (id :: ids, t2)
    end.

(** The node is created with an empty child list; [children] is assigned
    when the children exist. *)
Fixpoint deserialise_evidence_node (node : SerialisedEvidenceNode)
    (parent : option qid) (t : Tree) {struct node} : eid * Tree :=
  match node with
  | SEvidence a b m children =>
      let e := length (evidence_nodes t) in
      let t0 := mkTree (evidence_nodes t ++ [mkEvidenceNode a b m parent []])
                       (question_nodes t) in
      let (ids, t1) :=
        build_all (fun child => deserialise_question_node child e) children t0 in
      (e, mkTree (list_update (evidence_nodes t1) e
                    (fun n => mkEvidenceNode (answer n) (belief_state n)
                                (marginal_likelihood n) (e_parent n) ids))
                 (question_nodes t1))
  end
with deserialise_question_node (node : SerialisedQuestionNode)
    (parent : eid) (t : Tree) {struct node} : qid * Tree :=
  match node with
  | SQuestion text answers children =>
      let q := length (question_nodes t) in
      let t0 := mkTree (evidence_nodes t)
                       (question_nodes t ++ [mkQuestionNode text answers parent []]) in
      let (ids, t1) :=
        build_all (fun child => deserialise_evidence_node child (Some q)) children t0 in
      (q, mkTree (evidence_nodes t1)
                 (list_update (question_nodes t1) q
                    (fun n => mkQuestionNode (question n) (possible_answers n)
                                (q_parent n) ids)))
  end.

(** The number of nodes of a serialised tree. *)
Fixpoint size_evidence (node : SerialisedEvidenceNode) : nat :=
  match node with
  | SEvidence _ _ _ children =>
      S (fold_right (fun child n => size_question child + n)%nat 0%nat children)
  end
with size_question (node : SerialisedQuestionNode) : nat :=
  match node with
  | SQuestion _ _ children =>
      S (fold_right (fun child n => size_evidence child + n)%nat 0%nat children)
  end.

(** Two stores agree on the nodes from the given positions on, and the child
    lists of the nodes from these positions on stay above them. *)
Definition agree (lo_e lo_q : nat) (t t' : Tree) : Prop :=
  (forall i en, (lo_e <= i)%nat -> nth_error (evidence_nodes t) i = Some en ->
     nth_error (evidence_nodes t') i = Some en)
  /\ (forall j qn, (lo_q <= j)%nat -> nth_error (question_nodes t) j = Some qn ->
     nth_error (question_nodes t') j = Some qn).

Definition closed (lo_e lo_q : nat) (t : Tree) : Prop :=
  (forall i en, (lo_e <= i)%nat -> nth_error (evidence_nodes t) i = Some en ->
     forall q, In q (e_children en) -> (lo_q <= q)%nat)
  /\ (forall j qn, (lo_q <= j)%nat -> nth_error (question_nodes t) j = Some qn ->
     forall e, In e (q_children qn) -> (lo_e <= e)%nat).

(** What deserialising a node into the store [t] creates: the node at the
    next free position, new nodes behind the old ones, child lists that stay
    in the new part, and a subtree that serialises back to the node. *)
Definition built_evidence (s : SerialisedEvidenceNode) : Prop :=
  forall parent t,
    let r := deserialise_evidence_node s parent t in
    fst r = length (evidence_nodes t)
    /\ (exists le lq,
          evidence_nodes (snd r) = evidence_nodes t ++ le
          /\ question_nodes (snd r) = question_nodes t ++ lq
          /\ (length le + length lq = size_evidence s)%nat)
    /\ closed (length (evidence_nodes t)) (length (question_nodes t)) (snd r)
    /\ serialise_evidence_node_fuel (size_evidence s) (snd r) (fst r) = Ok s.

Definition built_question (s : SerialisedQuestionNode) : Prop :=
  forall parent t,
    let r := deserialise_question_node s parent t in
    fst r = length (question_nodes t)
    /\ (exists le lq,
          evidence_nodes (snd r) = evidence_nodes t ++ le
          /\ question_nodes (snd r) = question_nodes t ++ lq
          /\ (length le + length lq = size_question s)%nat)
    /\ closed (length (evidence_nodes t)) (length (question_nodes t)) (snd r)
    /\ serialise_question_node_fuel (size_question s) (snd r) (fst r) = Ok s.

(** The parent link of an evidence node points to a question node, not below
    the given position, that was created under an earlier evidence node and
    lists the node among its children. *)
Definition parent_linked (t : Tree) (lo_q i : nat) (en : EvidenceNode) : Prop :=
  exists q qn,
    (lo_q <= q)%nat /\ e_parent en = Some q
    /\ nth_error (question_nodes t) q = Some qn
    /\ (q_parent qn < i)%nat /\ In i (q_children qn).

(** [links_ok] for the nodes from the given positions on; the parent link of
    an [exempt] evidence node (the root of a subtree under construction) is
    not looked at. *)
Definition region_links (exempt : nat -> Prop) (lo_e lo_q : nat) (t : Tree) : Prop :=
  (forall i en, (lo_e <= i)%nat -> nth_error (evidence_nodes t) i = Some en ->
     (exempt i \/ parent_linked t lo_q i en)
     /\ (forall q', In q' (e_children en) ->
        exists qn', nth_error (question_nodes t) q' = Some qn' /\ q_parent qn' = i))
  /\ (forall j qn, (lo_q <= j)%nat -> nth_error (question_nodes t) j = Some qn ->
     (q_parent qn < length (evidence_nodes t))%nat
     /\ (forall e, In e (q_children qn) ->
        exists en, nth_error (evidence_nodes t) e = Some en /\ e_parent en = Some j)).

Definition linked_evidence (s : SerialisedEvidenceNode) : Prop :=
  forall parent t,
    let r := deserialise_evidence_node s parent t in
    region_links (fun i => i = length (evidence_nodes t))
      (length (evidence_nodes t)) (length (question_nodes t)) (snd r)
    /\ exists en, nth_error (evidence_nodes (snd r)) (length (evidence_nodes t)) = Some en
                  /\ e_parent en = parent.

Definition linked_question (s : SerialisedQuestionNode) : Prop :=
  forall parent t,
    (parent < length (evidence_nodes t))%nat ->
    let r := deserialise_question_node s parent t in
    region_links (fun _ => False)
      (length (evidence_nodes t)) (length (question_nodes t)) (snd r)
    /\ exists qn, nth_error (question_nodes (snd r)) (length (question_nodes t)) = Some qn
                  /\ q_parent qn = parent.

End History.

(** A recorded tree: the root, one question and its two answers. *)
Definition recorded_tree : History.SerialisedEvidenceNode :=
  History.SEvidence "ROOT" uniform2 1
    [History.SQuestion "Is it A?" ["Yes"; "No"]%string
       [History.SEvidence "Yes" [("A"%string, 9#10); ("B"%string, 1#10)] (1#2) [];
        History.SEvidence "No" [("A"%string, 1#10); ("B"%string, 9#10)] (1#2) []]].

(** ** Log-probabilities ([tasks/tree_task.py]) *)

(** A log-probability: a float or [-inf] (the default of a missing token). *)
Inductive logprob : Type :=
| NegInf
| Finite (x : R).

(** [max] of two log-probabilities and [np.max] of an array, which raises on
    an empty one. *)
Definition logprob_max (a b : logprob) : logprob :=
  match a, b with
  | NegInf, _ => b
  | _, NegInf => a
  | Finite x, Finite y => Finite (Rmax x y)
  end.

Definition np_max (xs : list logprob) : result logprob :=
  match xs with
  | [] => Raise (ValueError "zero-size array to reduction operation maximum which has no identity")
  | x :: xs' => Ok (fold_left logprob_max xs' x)
  end.

(** [np.exp(x - max_logprob)], with [exp(-inf) = 0]. *)
Definition shifted_exp (max_logprob : R) (v : logprob) : R :=
  match v with
  | NegInf => 0%R
  | Finite x => exp (x - max_logprob)
  end.

Definition normalise_logprobs (logprobs_dict : list (string * logprob))
    : result (list (string * R)) :=
  let keys := map fst logprobs_dict in
  let logprobs_array := map snd logprobs_dict in
  max_logprob <- np_max logprobs_array ;;
  match max_logprob with
  | NegInf =>
      let num_keys := length keys in
      if (num_keys =? 0)%nat then Ok []
      else Ok (map (fun key => (key, (1 / INR num_keys)%R)) keys)
  | Finite m =>
      let exp_logprobs := map (shifted_exp m) logprobs_array in
      let sum_exp_logprobs := py_sumR exp_logprobs in
      let normalised_probs := map (fun e => (e / sum_exp_logprobs)%R) exp_logprobs in
      Ok (combine keys normalised_probs)
  end.

(** The order of log-probabilities. *)
Definition logprob_le (a b : logprob) : Prop :=
  match a, b with
  | NegInf, _ => True
  | Finite _, NegInf => False
  | Finite x, Finite y => (x <= y)%R
  end.

(** * Properties *)

(** ** Results and sums *)

Lemma py_sum_from (xs : list Q) (a : Q) :
  fold_left Qplus xs a == a + py_sum xs.
Proof.
  unfold py_sum. revert a.
  induction xs as [|x xs IH]; intros a; simpl.
  - ring.
  - rewrite IH. rewrite (IH (0 + x)). ring.
Qed.

Lemma py_sum_cons (x : Q) (xs : list Q) : py_sum (x :: xs) == x + py_sum xs.
Proof.
  unfold py_sum at 1. simpl. rewrite py_sum_from. ring.
Qed.

Lemma py_sum_scaled (xs : list Q) (m : Q) :
  py_sum (map (fun x => x / m) xs) == py_sum xs / m.
Proof.
  induction xs as [|x xs IH]; simpl.
  - unfold py_sum; simpl. unfold Qdiv. ring.
  - rewrite !py_sum_cons, IH. unfold Qdiv. ring.
Qed.

Lemma mapM_ok_map {A B} (f : A -> result B) (g : A -> B) (xs : list A) :
  (forall x, In x xs -> f x = Ok (g x)) -> mapM f xs = Ok (map g xs).
Proof.
  induction xs as [|x xs IH]; intros H; simpl.
  - reflexivity.
  - rewrite (H x (or_introl eq_refl)). simpl.
    rewrite IH by (intros y Hy; apply H; right; exact Hy). reflexivity.
Qed.

Lemma mapM_head_raise {A B} (f : A -> result B) (x : A) (xs : list A) (e : exn) :
  f x = Raise e -> mapM f (x :: xs) = Raise e.
Proof.
  intros H. simpl. rewrite H. reflexivity.
Qed.

Lemma mapM_length {A B} (f : A -> result B) (xs : list A) (ys : list B) :
  mapM f xs = Ok ys -> length ys = length xs.
Proof.
  revert ys. induction xs as [|x xs IH]; intros ys; simpl.
  - intros H; inversion H; reflexivity.
  - destruct (f x); simpl; try discriminate.
    destruct (mapM f xs); simpl; try discriminate.
    intros H; inversion H; subst. simpl. f_equal. apply IH. reflexivity.
Qed.

(** ** Posterior engine *)

Module PosteriorFacts.
Import Posterior.

Lemma keys_all_posteriors prior lik u c :
  keys (all_posteriors prior lik u c) = keys prior.
Proof.
  unfold keys, all_posteriors. rewrite map_map. reflexivity.
Qed.

Lemma keys_prune_incl minp posts : incl (keys (prune minp posts)) (keys posts).
Proof.
  unfold keys, prune. intros h Hh.
  apply in_map_iff in Hh. destruct Hh as [hp [<- Hin]].
  apply filter_In in Hin. apply in_map. apply Hin.
Qed.

Lemma keys_unnormalised_incl prior lik minp u c :
  incl (keys (unnormalised prior lik minp u c)) (keys prior).
Proof.
  unfold unnormalised.
  rewrite <- (keys_all_posteriors prior lik u c).
  destruct (prune minp (all_posteriors prior lik u c)) eqn:E.
  - apply incl_refl.
  - rewrite <- E. apply keys_prune_incl.
Qed.

Lemma unnormalised_nonempty prior lik minp u c :
  prior <> [] -> unnormalised prior lik minp u c <> [].
Proof.
  intros Hp. unfold unnormalised.
  destruct (prune minp (all_posteriors prior lik u c)) eqn:E.
  - unfold all_posteriors. destruct prior; [congruence | discriminate].
  - discriminate.
Qed.

(** The pruning commutes with the computation of the unnormalised posteriors:
    the set that is normalised is the image of the surviving prior entries. *)
Lemma unnormalised_surviving prior lik minp u c :
  unnormalised prior lik minp u c
  = map (fun hp => (fst hp, snd hp * blended lik u c (fst hp)))
        (surviving prior lik minp u c).
Proof.
  unfold unnormalised, surviving, prune, all_posteriors.
  set (f := fun hp : string * Q => (fst hp, snd hp * blended lik u c (fst hp))).
  set (keep := fun hp : string * Q => Qge_bool (snd hp) minp).
  assert (H : forall l, filter keep (map f l)
                        = map f (filter (fun hp => keep (f hp)) l)).
  { induction l as [|x l IH]; simpl; [reflexivity|].
    destruct (keep (f x)); simpl; rewrite IH; reflexivity. }
  rewrite H.
  change (fun hp : string * Q => keep (f hp))
    with (fun hp : string * Q => Qge_bool (snd hp * blended lik u c (fst hp)) minp).
  destruct (filter _ prior) eqn:E; reflexivity.
Qed.

Lemma calculate_posterior_nonzero prior lik minp u c :
  let unnorm := unnormalised prior lik minp u c in
  let marginal := py_sum (values unnorm) in
  Qeq_bool marginal 0 = false ->
  calculate_posterior prior lik minp u c
  = Ok (map (fun hp => (fst hp, snd hp / marginal)) unnorm, marginal).
Proof.
  intros unnorm marginal Hm. unfold calculate_posterior.
  fold unnorm. fold marginal.
  rewrite (mapM_ok_map _ (fun hp => (fst hp, snd hp / marginal))).
  - reflexivity.
  - intros x _. unfold py_div. rewrite Hm. reflexivity.
Qed.

Lemma calculate_posterior_zero prior lik minp u c :
  prior <> [] ->
  Qeq_bool (py_sum (values (unnormalised prior lik minp u c))) 0 = true ->
  calculate_posterior prior lik minp u c = Raise ZeroDivisionError.
Proof.
  intros Hp Hm. unfold calculate_posterior.
  pose proof (unnormalised_nonempty prior lik minp u c Hp) as Hne.
  destruct (unnormalised prior lik minp u c) as [|x rest]; [congruence|].
  cbv zeta. rewrite mapM_head_raise with (e := ZeroDivisionError); [reflexivity|].
  unfold py_div. rewrite Hm. reflexivity.
Qed.

Lemma values_scaled (d : dict Q) (m : Q) :
  values (map (fun hp => (fst hp, snd hp / m)) d) = map (fun q => q / m) (values d).
Proof.
  unfold values. rewrite !map_map. reflexivity.
Qed.

Lemma calculate_posterior_ok_inv prior lik minp u c post m :
  calculate_posterior prior lik minp u c = Ok (post, m) ->
  let unnorm := unnormalised prior lik minp u c in
  m = py_sum (values unnorm)
  /\ post = map (fun hp => (fst hp, snd hp / m)) unnorm
  /\ (prior <> [] -> Qeq_bool m 0 = false).
Proof.
  intros H unnorm.
  destruct (Qeq_bool (py_sum (values unnorm)) 0) eqn:Hz.
  - destruct prior as [|x prior'].
    + vm_compute in H. inversion H. subst. repeat split.
      intros Hp. congruence.
    + rewrite calculate_posterior_zero in H by (assumption || discriminate).
      discriminate.
  - rewrite calculate_posterior_nonzero in H by exact Hz.
    inversion H. subst. repeat split. intros _. exact Hz.
Qed.

Lemma calculate_posterior_keys prior lik minp u c post m :
  calculate_posterior prior lik minp u c = Ok (post, m) ->
  keys post = keys (unnormalised prior lik minp u c).
Proof.
  intros H. apply calculate_posterior_ok_inv in H.
  destruct H as [_ [-> _]]. unfold keys. rewrite map_map. reflexivity.
Qed.

(** C1: on the degenerate input the engine does fall back to the full
    unpruned set, but that set sums to zero and the renormalisation divides
    by it: the call raises [ZeroDivisionError] and returns no belief state. *)
Theorem degenerate_case_raises :
  prune (1#10) (all_posteriors degenerate_prior degenerate_likelihoods (1#2) 1) = []
  /\ keys (unnormalised degenerate_prior degenerate_likelihoods (1#10) (1#2) 1)
     = ["A"%string; "B"%string]
  /\ py_sum (values (unnormalised degenerate_prior degenerate_likelihoods (1#10) (1#2) 1)) == 0
  /\ calculate_posterior degenerate_prior degenerate_likelihoods (1#10) (1#2) 1
     = Raise ZeroDivisionError.
Proof.
  repeat split.
Qed.





(** C4 (as the code has it): a second update with the same parameters never
    brings a hypothesis back, so the key set of the second result is included
    in the key set of the first. *)
Theorem repeated_pruning_shrinks prior lik minp u c post1 m1 post2 m2 :
  calculate_posterior prior lik minp u c = Ok (post1, m1) ->
  calculate_posterior post1 lik minp u c = Ok (post2, m2) ->
  incl (keys post2) (keys post1).
Proof.
  intros _ H2. rewrite (calculate_posterior_keys _ _ _ _ _ _ _ H2).
  apply keys_unnormalised_incl.
Qed.

Lemma repeated_pruning_shrinks_witness :
  exists post1 m1 post2 m2,
    calculate_posterior reprune_prior reprune_likelihoods (3#25) (1#2) 1 = Ok (post1, m1)
    /\ calculate_posterior post1 reprune_likelihoods (3#25) (1#2) 1 = Ok (post2, m2)
    /\ incl (keys post2) (keys post1).
Proof.
  eexists; eexists; eexists; eexists.
  split; [vm_compute; reflexivity|].
  split; [vm_compute; reflexivity|].
  eapply (repeated_pruning_shrinks reprune_prior reprune_likelihoods (3#25) (1#2) 1 _ _ _ _);
    vm_compute; reflexivity.
Defined.

(** C4, counterexample: the first update keeps both hypotheses, the second,
    run on the result of the first with the same floor, removes one. *)
Lemma pruning_not_idempotent :
  exists post1 m1 post2 m2,
    calculate_posterior reprune_prior reprune_likelihoods (3#25) (1#2) 1 = Ok (post1, m1)
    /\ calculate_posterior post1 reprune_likelihoods (3#25) (1#2) 1 = Ok (post2, m2)
    /\ keys post1 = ["A"; "B"]%string
    /\ keys post2 = ["A"]%string
    /\ keys post2 <> keys post1.
Proof.
  eexists; eexists; eexists; eexists.
  split; [vm_compute; reflexivity|].
  split; [vm_compute; reflexivity|].
  repeat split. discriminate.
Qed.

End PosteriorFacts.

(** ** Tree node model *)

Lemma forallb_i_nth {A} (f : nat -> A -> bool) (xs : list A) (k i : nat) (x : A) :
  forallb_i f k xs = true -> nth_error xs i = Some x -> f (k + i)%nat x = true.
Proof.
  revert k i. induction xs as [|y xs IH]; intros k i Hall Hnth.
  - destruct i; discriminate.
  - simpl in Hall. apply andb_true_iff in Hall. destruct Hall as [Hy Hrest].
    destruct i as [|i]; simpl in Hnth.
    + inversion Hnth; subst. rewrite Nat.add_0_r. exact Hy.
    + replace (k + S i)%nat with (S k + i)%nat by lia. apply IH; assumption.
Qed.

Lemma well_formed_evidence t i en :
  well_formed t = true -> nth_error (evidence_nodes t) i = Some en ->
  evidence_ok t i en = true.
Proof.
  intros Hwf Hnth. unfold well_formed in Hwf. apply andb_true_iff in Hwf.
  apply (forallb_i_nth _ _ 0%nat i _ (proj1 Hwf) Hnth).
Qed.

Lemma well_formed_question t j qn :
  well_formed t = true -> nth_error (question_nodes t) j = Some qn ->
  question_ok t j qn = true.
Proof.
  intros Hwf Hnth. unfold well_formed in Hwf. apply andb_true_iff in Hwf.
  apply (forallb_i_nth _ _ 0%nat j _ (proj2 Hwf) Hnth).
Qed.

(** In a well-formed store the parent question of an evidence node exists and
    hangs under an evidence node created earlier. *)
Lemma well_formed_parent t e en q :
  well_formed t = true ->
  nth_error (evidence_nodes t) e = Some en -> e_parent en = Some q ->
  exists qn gp,
    nth_error (question_nodes t) q = Some qn
    /\ nth_error (evidence_nodes t) (q_parent qn) = Some gp
    /\ (q_parent qn < e)%nat.
Proof.
  intros Hwf He Hp.
  pose proof (well_formed_evidence _ _ _ Hwf He) as Hok.
  unfold evidence_ok in Hok. rewrite Hp in Hok.
  apply andb_true_iff in Hok. destruct Hok as [Hok _].
  destruct (nth_error (question_nodes t) q) as [qn|] eqn:Hq; [|discriminate].
  apply Nat.ltb_lt in Hok.
  pose proof (well_formed_question _ _ _ Hwf Hq) as Hqok.
  unfold question_ok in Hqok. apply andb_true_iff in Hqok. destruct Hqok as [Hlt _].
  apply Nat.ltb_lt in Hlt.
  destruct (nth_error (evidence_nodes t) (q_parent qn)) as [gp|] eqn:Hg.
  - exists qn, gp. auto.
  - apply nth_error_None in Hg. lia.
Qed.

Lemma get_evidence_ok t e en :
  get_evidence t e = Ok en <-> nth_error (evidence_nodes t) e = Some en.
Proof.
  unfold get_evidence. destruct (nth_error (evidence_nodes t) e); split; intros H;
    inversion H; reflexivity.
Qed.

Lemma get_question_ok t q qn :
  get_question t q = Ok qn <-> nth_error (question_nodes t) q = Some qn.
Proof.
  unfold get_question. destruct (nth_error (question_nodes t) q); split; intros H;
    inversion H; reflexivity.
Qed.

(** With more fuel than the position of the node, the depth is computed and
    does not depend on the fuel. *)
Lemma conversation_depth_total t :
  well_formed t = true ->
  forall e en, nth_error (evidence_nodes t) e = Some en ->
  exists d, (d <= e)%nat /\
    forall fuel, (e < fuel)%nat -> get_conversation_depth_fuel fuel t e = Ok d.
Proof.
  intros Hwf e. induction e as [e IH] using lt_wf_ind. intros en He.
  destruct (e_parent en) as [q|] eqn:Hp.
  - destruct (well_formed_parent _ _ _ _ Hwf He Hp) as [qn [gp [Hq [Hg Hlt]]]].
    destruct (IH _ Hlt _ Hg) as [d [Hd Hfuel]].
    exists (1 + d)%nat. split; [lia|].
    intros fuel Hf. destruct fuel as [|fuel]; [lia|]. simpl.
    rewrite (proj2 (get_evidence_ok t e en) He). simpl. rewrite Hp.
    rewrite (proj2 (get_question_ok t q qn) Hq). simpl.
    rewrite Hfuel by lia. reflexivity.
  - exists 0%nat. split; [lia|].
    intros fuel Hf. destruct fuel as [|fuel]; [lia|]. simpl.
    rewrite (proj2 (get_evidence_ok t e en) He). simpl. rewrite Hp. reflexivity.
Qed.

Lemma conversation_depth_defined t e en :
  well_formed t = true -> get_evidence t e = Ok en ->
  exists d, get_conversation_depth t e = Ok d.
Proof.
  intros Hwf He. apply get_evidence_ok in He.
  destruct (conversation_depth_total _ Hwf e _ He) as [d [_ Hd]].
  exists d. apply Hd. apply nth_error_Some. congruence.
Qed.

(** C8: the conversation depth is 0 at a node without parent and one more
    than the depth of the grandparent elsewhere (0, 1, 2 along the chain
    root, E1, E2), and [is_terminal] holds exactly when the depth has reached
    [max_conversation_depth] or some probability of the belief state has
    reached [confidence_threshold]. *)
Theorem conversation_depth_and_terminal t task e en :
  well_formed t = true ->
  get_evidence t e = Ok en ->
  (e_parent en = None -> get_conversation_depth t e = Ok 0%nat)
  /\ (forall q qn, e_parent en = Some q -> get_question t q = Ok qn ->
        exists d, get_conversation_depth t (q_parent qn) = Ok d
                  /\ get_conversation_depth t e = Ok (1 + d)%nat)
  /\ (exists d b, get_conversation_depth t e = Ok d
        /\ is_terminal t e task = Ok b
        /\ (b = true <->
              (max_conversation_depth task <= Z.of_nat d)%Z
              \/ exists prob, In prob (values (belief_state en))
                              /\ confidence_threshold task <= prob))
  /\ (get_conversation_depth chain_tree 0%nat = Ok 0%nat
      /\ get_conversation_depth chain_tree 1%nat = Ok 1%nat
      /\ get_conversation_depth chain_tree 2%nat = Ok 2%nat).
Proof.
  intros Hwf He.
  assert (Hlen : (e < length (evidence_nodes t))%nat).
  { apply nth_error_Some. apply get_evidence_ok in He. congruence. }
  split; [|split; [|split]].
  - intros Hp. unfold get_conversation_depth.
    destruct (length (evidence_nodes t)) as [|n]; [lia|].
    simpl. rewrite He. simpl. rewrite Hp. reflexivity.
  - intros q qn Hp Hq.
    pose proof He as He'. apply get_evidence_ok in He'.
    destruct (well_formed_parent _ _ _ _ Hwf He' Hp) as [qn' [gp [Hq' [Hg Hlt]]]].
    apply get_question_ok in Hq. assert (qn' = qn) by congruence. subst qn'.
    destruct (conversation_depth_total _ Hwf _ _ Hg) as [d [_ Hd]].
    exists d. unfold get_conversation_depth. split.
    + apply Hd. lia.
    + destruct (length (evidence_nodes t)) as [|n]; [lia|].
      simpl. rewrite He. simpl. rewrite Hp.
      rewrite (proj2 (get_question_ok t q qn) Hq). simpl.
      rewrite Hd by lia. reflexivity.
  - destruct (conversation_depth_defined _ _ _ Hwf He) as [d Hd].
    unfold is_terminal. rewrite Hd. simpl.
    destruct (max_conversation_depth task <=? Z.of_nat d)%Z eqn:Hmax.
    + exists d, true. repeat split; auto. intros _. left. apply Z.leb_le. exact Hmax.
    + rewrite He. simpl. eexists d, _. repeat split.
      * intros Hex. right. apply existsb_exists in Hex.
        destruct Hex as [prob [Hin Hge]]. exists prob. split; [exact Hin|].
        apply Qle_bool_iff. exact Hge.
      * intros [Hd'|[prob [Hin Hge]]].
        -- apply Z.leb_le in Hd'. congruence.
        -- apply existsb_exists. exists prob. split; [exact Hin|].
           apply Qle_bool_iff. exact Hge.
  - repeat split.
Qed.

Lemma conversation_depth_and_terminal_witness :
  get_conversation_depth chain_tree 2%nat = Ok 2%nat
  /\ is_terminal chain_tree 2%nat chain_task = Ok true
  /\ is_terminal chain_tree 1%nat chain_task = Ok false.
Proof.
  assert (Hwf : well_formed chain_tree = true) by reflexivity.
  assert (He : get_evidence chain_tree 2%nat
               = Ok (mkEvidenceNode "Yes" [("A"%string, 1)] (1#2) (Some 1%nat) []))
    by reflexivity.
  destruct (conversation_depth_and_terminal chain_tree chain_task 2%nat _ Hwf He) as [_ [_ [_ [_ [_ H2]]]]].
  split; [exact H2|]. split; reflexivity.
Defined.

(** ** Reward engine: preconditions *)

(** C7: [immediate_reward] on a node without parent and [expected_reward] on
    a question without evidence children fail their assertion: the call
    raises [AssertionError] and yields no value. *)
Theorem reward_preconditions t s :
  (forall e en,
      get_evidence t e = Ok en -> e_parent en = None ->
      immediate_reward t e s
      = Raise (AssertionError "Cannot determine reward of root node!"))
  /\ (forall q qn,
      well_formed t = true ->
      get_question t q = Ok qn -> q_children qn = [] ->
      expected_reward t q s = Raise (AssertionError "Question has no answers!")).
Proof.
  split.
  - intros e en He Hp. unfold immediate_reward. rewrite He. simpl. rewrite Hp.
    reflexivity.
  - intros q qn Hwf Hq Hc. unfold expected_reward.
    pose proof Hq as Hq'. apply get_question_ok in Hq'.
    pose proof (well_formed_question _ _ _ Hwf Hq') as Hok.
    unfold question_ok in Hok. apply andb_true_iff in Hok. destruct Hok as [Hlt _].
    apply Nat.ltb_lt in Hlt.
    destruct (length (evidence_nodes t)) as [|n]; [lia|].
    simpl. rewrite Hq. simpl. rewrite Hc. reflexivity.
Qed.

Lemma reward_preconditions_witness :
  immediate_reward unexpanded_tree 0%nat 1
  = Raise (AssertionError "Cannot determine reward of root node!")
  /\ expected_reward unexpanded_tree 0%nat 1
     = Raise (AssertionError "Question has no answers!").
Proof.
  destruct (reward_preconditions unexpanded_tree 1) as [Hroot Hquestion].
  split.
  - apply (Hroot 0%nat (mkEvidenceNode "ROOT" uniform4 1 None [0%nat]));
      reflexivity.
  - apply (Hquestion 0%nat (mkQuestionNode "Q1" ["Yes"; "No"]%string 0%nat []));
      reflexivity.
Defined.

(** ** Entropy and information gain *)

Section Entropy.
Local Open Scope R_scope.

Lemma py_sumR_from (xs : list R) (a : R) : fold_left Rplus xs a = a + py_sumR xs.
Proof.
  unfold py_sumR. revert a.
  induction xs as [|x xs IH]; intros a; simpl.
  - ring.
  - rewrite IH. rewrite (IH (0 + x)). ring.
Qed.

Lemma py_sumR_cons (x : R) (xs : list R) : py_sumR (x :: xs) = x + py_sumR xs.
Proof.
  unfold py_sumR at 1. simpl. rewrite py_sumR_from. ring.
Qed.

Lemma py_sumR_nil : py_sumR [] = 0.
Proof. reflexivity. Qed.

Lemma ln_2_pos : 0 < ln 2.
Proof.
  pose proof ln_lt_2. lra.
Qed.

Lemma ln_le_minus_1 (x : R) : 0 < x -> ln x <= x - 1.
Proof.
  intros Hx. pose proof (exp_ineq1_le (ln x)) as H.
  rewrite exp_ln in H by exact Hx. lra.
Qed.

Lemma log2_increasing (x y : R) : 0 < x -> x < y -> log2 x < log2 y.
Proof.
  intros Hx Hxy. unfold log2.
  apply Rmult_lt_compat_r.
  - apply Rinv_0_lt_compat. exact ln_2_pos.
  - apply ln_increasing; assumption.
Qed.

(** Gibbs' inequality against the constant distribution [1/c]. *)
Lemma neg_plnp_bound (c : R) (ps : list R) :
  0 < c -> (forall p, In p ps -> 0 < p) ->
  - py_sumR (map (fun p => p * ln p) ps)
  <= ln c * py_sumR ps + INR (length ps) / c - py_sumR ps.
Proof.
  intros Hc. induction ps as [|p ps IH]; intros Hpos.
  - simpl. rewrite !py_sumR_nil. unfold Rdiv. lra.
  - assert (Hp : 0 < p) by (apply Hpos; left; reflexivity).
    specialize (IH (fun q Hq => Hpos q (or_intror Hq))).
    change (map (fun p0 => p0 * ln p0) (p :: ps))
      with (p * ln p :: map (fun p0 => p0 * ln p0) ps).
    rewrite !py_sumR_cons.
    change (length (p :: ps)) with (S (length ps)). rewrite S_INR.
    assert (Hcp : 0 < / (c * p)).
    { apply Rinv_0_lt_compat. apply Rmult_lt_0_compat; assumption. }
    pose proof (ln_le_minus_1 (/ (c * p)) Hcp) as Hln.
    rewrite ln_Rinv in Hln by (apply Rmult_lt_0_compat; assumption).
    rewrite ln_mult in Hln by assumption.
    assert (Hstep : - (p * ln p) <= p * ln c + / c - p).
    { assert (Hmul : p * (- (ln c + ln p)) <= p * (/ (c * p) - 1)).
      { apply Rmult_le_compat_l; lra. }
      replace (p * (/ (c * p) - 1)) with (/ c - p) in Hmul
        by (field; split; lra).
      lra. }
    unfold Rdiv in *. lra.
Qed.

Lemma entropy_bound (ps : list R) :
  (forall p, In p ps -> 0 < p) -> py_sumR ps = 1 ->
  - py_sumR (map (fun p => p * log2 p) ps) <= log2 (INR (length ps)).
Proof.
  intros Hpos Hsum.
  assert (Hlen : 0 < INR (length ps)).
  { destruct ps as [|p ps].
    - rewrite py_sumR_nil in Hsum. lra.
    - apply lt_0_INR. simpl. lia. }
  pose proof (neg_plnp_bound (INR (length ps)) ps Hlen Hpos) as H.
  rewrite Hsum in H.
  replace (ln (INR (length ps)) * 1 + INR (length ps) / INR (length ps) - 1)
    with (ln (INR (length ps))) in H by (field; lra).
  assert (Hscale : py_sumR (map (fun p => p * log2 p) ps)
                   = py_sumR (map (fun p => p * ln p) ps) / ln 2).
  { clear. induction ps as [|p ps IH]; simpl.
    - rewrite !py_sumR_nil. unfold Rdiv. ring.
    - rewrite !py_sumR_cons, IH. unfold log2, Rdiv. ring. }
  rewrite Hscale. unfold log2, Rdiv.
  rewrite Ropp_mult_distr_l.
  apply Rmult_le_compat_r.
  - left. apply Rinv_0_lt_compat. exact ln_2_pos.
  - exact H.
Qed.

End Entropy.

Section EntropyOfBeliefs.
Local Open Scope R_scope.

Lemma Qgt_bool_iff (a b : Q) : Qgt_bool a b = true <-> (b < a)%Q.
Proof.
  unfold Qgt_bool. rewrite negb_true_iff. split.
  - intros H. apply Qnot_le_lt. intros Hle. apply Qle_bool_iff in Hle. congruence.
  - intros H. destruct (Qle_bool a b) eqn:E; [|reflexivity].
    apply Qle_bool_iff in E. exfalso. apply (Qlt_not_le _ _ H E).
Qed.

Lemma shannon_entropy_terms (bs : dict Q) :
  shannon_entropy bs
  = - py_sumR (map (fun p => p * log2 p)
                   (map Q2R (filter (fun prob => Qgt_bool prob 0) (values bs)))).
Proof.
  unfold shannon_entropy. rewrite map_map. reflexivity.
Qed.

Lemma shannon_entropy_cons (h : string) (p : Q) (bs : dict Q) :
  shannon_entropy ((h, p) :: bs)
  = if Qgt_bool p 0 then - (Q2R p * log2 (Q2R p)) + shannon_entropy bs
    else shannon_entropy bs.
Proof.
  unfold shannon_entropy. simpl. destruct (Qgt_bool p 0); [|reflexivity].
  simpl. rewrite py_sumR_cons. ring.
Qed.

Lemma shannon_entropy_nil : shannon_entropy [] = 0.
Proof.
  unfold shannon_entropy. simpl. rewrite py_sumR_nil. ring.
Qed.

Lemma positive_values_pos (vs : list Q) (p : R) :
  In p (map Q2R (filter (fun prob => Qgt_bool prob 0) vs)) -> 0 < p.
Proof.
  intros H. apply in_map_iff in H. destruct H as [q [<- Hq]].
  apply filter_In in Hq. destruct Hq as [_ Hq]. apply Qgt_bool_iff in Hq.
  apply Qlt_Rlt in Hq. rewrite RMicromega.Q2R_0 in Hq. exact Hq.
Qed.

Lemma Q2R_py_sum (vs : list Q) : Q2R (py_sum vs) = py_sumR (map Q2R vs).
Proof.
  induction vs as [|v vs IH].
  - simpl. rewrite py_sumR_nil. apply RMicromega.Q2R_0.
  - simpl map. rewrite py_sumR_cons, <- IH, <- Q2R_plus.
    apply Qeq_eqR. apply py_sum_cons.
Qed.

Lemma positive_values_sum (vs : list Q) :
  (forall p, In p vs -> (0 <= p)%Q) ->
  py_sumR (map Q2R (filter (fun prob => Qgt_bool prob 0) vs)) = Q2R (py_sum vs).
Proof.
  intros Hnn. rewrite Q2R_py_sum.
  induction vs as [|v vs IH].
  - reflexivity.
  - assert (IH' := IH (fun p Hp => Hnn p (or_intror Hp))).
    simpl. destruct (Qgt_bool v 0) eqn:E; simpl; rewrite !py_sumR_cons, ?IH'.
    + reflexivity.
    + assert (Hv : (v == 0)%Q).
      { apply Qle_antisym.
        - apply Qnot_lt_le. intros Hlt. apply Qgt_bool_iff in Hlt. congruence.
        - apply Hnn. left. reflexivity. }
      rewrite (Qeq_eqR _ _ Hv), RMicromega.Q2R_0. ring.
Qed.

Lemma support_length (bs : dict Q) :
  length (filter (fun prob => Qgt_bool prob 0) (values bs)) = length (support bs).
Proof.
  unfold support, keys, values. rewrite length_map.
  induction bs as [|[h p] bs IH]; simpl; [reflexivity|].
  destruct (Qgt_bool p 0); simpl; rewrite IH; reflexivity.
Qed.

(** The entropy of a distribution is at most the logarithm of the size of its
    support. *)
Lemma shannon_entropy_le_log_support (bs : dict Q) :
  (forall p, In p (values bs) -> (0 <= p)%Q) ->
  (py_sum (values bs) == 1)%Q ->
  shannon_entropy bs <= log2 (INR (length (support bs))).
Proof.
  intros Hnn Hsum. rewrite shannon_entropy_terms, <- support_length.
  rewrite <- (length_map Q2R).
  apply entropy_bound.
  - intros p. apply positive_values_pos.
  - rewrite positive_values_sum by exact Hnn.
    rewrite (Qeq_eqR _ _ Hsum). apply RMicromega.Q2R_1.
Qed.

Lemma Q2R_uniform (n : nat) (p : Q) :
  (0 < n)%nat -> (p == 1 / inject_Z (Z.of_nat n))%Q -> Q2R p = / INR n.
Proof.
  intros Hn Hp. rewrite (Qeq_eqR _ _ Hp).
  unfold Qdiv. rewrite Q2R_mult, Q2R_inv.
  - rewrite RMicromega.Q2R_1. unfold Q2R at 1. simpl.
    rewrite INR_IZR_INZ. field. apply not_0_IZR. lia.
  - unfold Qeq. simpl. lia.
Qed.

(** The entropy of the uniform distribution over [n] hypotheses is [log2 n]. *)
Lemma shannon_entropy_uniform (bs : dict Q) :
  bs <> [] ->
  (forall p, In p (values bs) -> (p == 1 / inject_Z (Z.of_nat (length bs)))%Q) ->
  shannon_entropy bs = log2 (INR (length bs)).
Proof.
  intros Hne Hunif.
  assert (Hn : (0 < length bs)%nat) by (destruct bs; [congruence | simpl; lia]).
  set (n := length bs) in *.
  assert (Hpos : 0 < INR n) by (apply lt_0_INR; exact Hn).
  assert (Hgen : forall l : dict Q,
             (forall p, In p (values l) -> (p == 1 / inject_Z (Z.of_nat n))%Q) ->
             shannon_entropy l = INR (length l) * (/ INR n * log2 (INR n))).
  { induction l as [|[h p] l IH]; intros Hl.
    - rewrite shannon_entropy_nil. simpl. ring.
    - rewrite shannon_entropy_cons.
      assert (Hp : Q2R p = / INR n).
      { apply Q2R_uniform; [exact Hn|]. apply Hl. left. reflexivity. }
      assert (Hgt : Qgt_bool p 0 = true).
      { apply Qgt_bool_iff. apply Rlt_Qlt. rewrite RMicromega.Q2R_0, Hp.
        apply Rinv_0_lt_compat. exact Hpos. }
      rewrite Hgt, Hp, IH by (intros q Hq; apply Hl; right; exact Hq).
      change (length ((h, p) :: l)) with (S (length l)). rewrite S_INR.
      unfold log2. rewrite ln_Rinv by exact Hpos. unfold Rdiv. ring. }
  rewrite (Hgen bs Hunif). fold n. field. lra.
Qed.

End EntropyOfBeliefs.

Section InformationGain.
Local Open Scope R_scope.

Lemma log2_inv_pow (k : nat) : log2 (/ 2 ^ k) = - INR k.
Proof.
  unfold log2. rewrite ln_Rinv by (apply pow_lt; lra).
  rewrite ln_pow by lra. field. pose proof ln_2_pos. lra.
Qed.

Lemma plogp_dyadic (p : Q) (k : nat) :
  Q2R p = / 2 ^ k -> Q2R p * log2 (Q2R p) = - INR k / 2 ^ k.
Proof.
  intros ->. rewrite log2_inv_pow. unfold Rdiv. ring.
Qed.

Lemma Q2R_dyadic_0 : Q2R 1 = / 2 ^ 0.
Proof. unfold Q2R. simpl. lra. Qed.
Lemma Q2R_dyadic_1 : Q2R (1#2) = / 2 ^ 1.
Proof. unfold Q2R. simpl. lra. Qed.
Lemma Q2R_dyadic_2 : Q2R (1#4) = / 2 ^ 2.
Proof. unfold Q2R. simpl. lra. Qed.
Lemma Q2R_dyadic_3 : Q2R (1#8) = / 2 ^ 3.
Proof. unfold Q2R. simpl. lra. Qed.
Lemma Q2R_dyadic_4 : Q2R (1#16) = / 2 ^ 4.
Proof. unfold Q2R. simpl. lra. Qed.

Lemma plogp_1 : Q2R 1 * log2 (Q2R 1) = 0.
Proof. rewrite (plogp_dyadic 1 0 Q2R_dyadic_0). simpl. lra. Qed.
Lemma plogp_2 : Q2R (1#2) * log2 (Q2R (1#2)) = - (1 / 2).
Proof. rewrite (plogp_dyadic (1#2) 1 Q2R_dyadic_1). simpl. lra. Qed.
Lemma plogp_4 : Q2R (1#4) * log2 (Q2R (1#4)) = - (1 / 2).
Proof. rewrite (plogp_dyadic (1#4) 2 Q2R_dyadic_2). simpl. lra. Qed.
Lemma plogp_8 : Q2R (1#8) * log2 (Q2R (1#8)) = - (3 / 8).
Proof. rewrite (plogp_dyadic (1#8) 3 Q2R_dyadic_3). simpl. lra. Qed.
Lemma plogp_16 : Q2R (1#16) * log2 (Q2R (1#16)) = - (1 / 4).
Proof. rewrite (plogp_dyadic (1#16) 4 Q2R_dyadic_4). simpl. lra. Qed.

End InformationGain.

(** Evaluates the entropy of a belief state whose probabilities are powers of
    one half. *)
Ltac entropy_dyadic :=
  repeat (rewrite shannon_entropy_cons;
          match goal with
          | |- context [Qgt_bool ?p 0] =>
              let b := eval vm_compute in (Qgt_bool p 0) in
              change (Qgt_bool p 0) with b; cbv iota
          end);
  rewrite ?shannon_entropy_nil,
          ?plogp_1, ?plogp_2, ?plogp_4, ?plogp_8, ?plogp_16.

Section InformationGainFacts.
Local Open Scope R_scope.

Lemma entropy_uniform4 : shannon_entropy uniform4 = 2.
Proof. unfold uniform4. entropy_dyadic. lra. Qed.

Lemma entropy_uniform2 : shannon_entropy uniform2 = 1.
Proof. unfold uniform2. entropy_dyadic. lra. Qed.

Lemma entropy_skewed5 : shannon_entropy skewed5 = 15 / 8.
Proof. unfold skewed5. entropy_dyadic. lra. Qed.

Lemma NoDup_keys_filter {V} (f : string * V -> bool) (d : dict V) :
  NoDup (keys d) -> NoDup (keys (filter f d)).
Proof.
  unfold keys. induction d as [|x d IH]; intros H; simpl.
  - constructor.
  - inversion H as [|? ? Hnotin Hrest]; subst.
    destruct (f x); simpl; [|apply IH; exact Hrest].
    constructor; [|apply IH; exact Hrest].
    intros Hin. apply Hnotin. apply in_map_iff in Hin.
    destruct Hin as [y [Hy Hin]]. apply filter_In in Hin.
    apply in_map_iff. exists y. split; [exact Hy | apply Hin].
Qed.

(** C5 (as the code has it): the gain is zero when the posterior is the
    prior, and strictly positive when the prior is uniform over its
    hypotheses and the posterior is a distribution whose support is a proper
    subset of them. *)
Theorem information_gain_uniform_prior (prior posterior : dict Q) :
  information_gain prior prior = 0
  /\ (prior <> [] ->
      (forall p, In p (values prior) ->
                 (p == 1 / inject_Z (Z.of_nat (length prior)))%Q) ->
      (forall p, In p (values posterior) -> (0 <= p)%Q) ->
      (py_sum (values posterior) == 1)%Q ->
      NoDup (keys posterior) ->
      incl (support posterior) (keys prior) ->
      (exists h, In h (keys prior) /\ ~ In h (support posterior)) ->
      0 < information_gain prior posterior).
Proof.
  split; [unfold information_gain; ring|].
  intros Hne Hunif Hnn Hsum Hnodup Hincl [h [Hin Hnotin]].
  unfold information_gain.
  rewrite (shannon_entropy_uniform prior Hne Hunif).
  pose proof (shannon_entropy_le_log_support posterior Hnn Hsum) as Hle.
  assert (Hlt : (length (support posterior) < length prior)%nat).
  { assert (Hnd : NoDup (h :: support posterior)).
    { constructor; [exact Hnotin|]. unfold support. apply NoDup_keys_filter.
      exact Hnodup. }
    assert (Hinc : incl (h :: support posterior) (keys prior)).
    { intros x [<-|Hx]; [exact Hin | apply Hincl; exact Hx]. }
    pose proof (NoDup_incl_length Hnd Hinc) as Hlen.
    unfold keys in Hlen. rewrite length_map in Hlen. simpl in Hlen. lia. }
  assert (Hpos : (0 < length (support posterior))%nat).
  { destruct (length (support posterior)) eqn:E; [|lia]. exfalso.
    rewrite <- support_length in E. apply length_zero_iff_nil in E.
    pose proof (positive_values_sum (values posterior) Hnn) as Hs.
    rewrite E in Hs. simpl in Hs. rewrite py_sumR_nil in Hs.
    rewrite (Qeq_eqR _ _ Hsum), RMicromega.Q2R_1 in Hs. lra. }
  assert (Hlog : log2 (INR (length (support posterior))) < log2 (INR (length prior))).
  { apply log2_increasing.
    - apply lt_0_INR. exact Hpos.
    - apply lt_INR. exact Hlt. }
  lra.
Qed.

Lemma information_gain_uniform_prior_witness :
  information_gain uniform4 uniform2 = 1 /\ 0 < information_gain uniform4 uniform2.
Proof.
  split.
  - unfold information_gain. rewrite entropy_uniform4, entropy_uniform2. lra.
  - apply (information_gain_uniform_prior uniform4 uniform2).
    + discriminate.
    + intros p Hp. simpl in Hp.
      repeat (destruct Hp as [<-|Hp]; [reflexivity|]). contradiction.
    + intros p Hp. simpl in Hp.
      repeat (destruct Hp as [<-|Hp]; [discriminate|]). contradiction.
    + reflexivity.
    + simpl. repeat constructor; simpl; intuition discriminate.
    + intros x Hx. vm_compute in Hx. vm_compute. tauto.
    + exists "C"%string. split; [vm_compute; tauto|].
      vm_compute. intuition discriminate.
Defined.

(** C5, counterexample: [uniform4] concentrates the mass of [skewed5] onto
    four of its five hypotheses, yet the gain is negative. *)
Lemma information_gain_can_be_negative :
  incl (support uniform4) (support skewed5)
  /\ ~ incl (support skewed5) (support uniform4)
  /\ (py_sum (values skewed5) == 1)%Q
  /\ (py_sum (values uniform4) == 1)%Q
  /\ information_gain skewed5 uniform4 = - (1 / 8)
  /\ ~ 0 < information_gain skewed5 uniform4.
Proof.
  assert (Hgain : information_gain skewed5 uniform4 = - (1 / 8)).
  { unfold information_gain. rewrite entropy_skewed5, entropy_uniform4. lra. }
  repeat split.
  - intros x Hx. vm_compute in Hx. vm_compute. tauto.
  - intros Hincl. specialize (Hincl "E"%string).
    vm_compute in Hincl. intuition discriminate.
  - exact Hgain.
  - rewrite Hgain. lra.
Qed.

End InformationGainFacts.

(** ** Expected reward *)

Lemma well_formed_child_evidence t q qn e :
  well_formed t = true ->
  nth_error (question_nodes t) q = Some qn -> In e (q_children qn) ->
  exists en, nth_error (evidence_nodes t) e = Some en /\ e_parent en = Some q.
Proof.
  intros Hwf Hq Hin.
  pose proof (well_formed_question _ _ _ Hwf Hq) as Hok.
  unfold question_ok in Hok. apply andb_true_iff in Hok. destruct Hok as [_ Hall].
  rewrite forallb_forall in Hall. specialize (Hall e Hin).
  destruct (nth_error (evidence_nodes t) e) as [en|]; [|discriminate].
  destruct (e_parent en) as [q'|] eqn:Hp; [|discriminate].
  apply Nat.eqb_eq in Hall. subst q'. exists en. auto.
Qed.

Lemma well_formed_child_question t e en q :
  well_formed t = true ->
  nth_error (evidence_nodes t) e = Some en -> In q (e_children en) ->
  exists qn, nth_error (question_nodes t) q = Some qn /\ q_parent qn = e.
Proof.
  intros Hwf He Hin.
  pose proof (well_formed_evidence _ _ _ Hwf He) as Hok.
  unfold evidence_ok in Hok. apply andb_true_iff in Hok. destruct Hok as [_ Hall].
  rewrite forallb_forall in Hall. specialize (Hall q Hin).
  destruct (nth_error (question_nodes t) q) as [qn|]; [|discriminate].
  apply Nat.eqb_eq in Hall. exists qn. auto.
Qed.

Lemma fold_left_ext_in {A B} (f g : A -> B -> A) (l : list B) (a : A) :
  (forall x, In x l -> forall acc, f acc x = g acc x) ->
  fold_left f l a = fold_left g l a.
Proof.
  revert a. induction l as [|x l IH]; intros a H; simpl.
  - reflexivity.
  - rewrite (H x (or_introl eq_refl)). apply IH.
    intros y Hy. apply H. right. exact Hy.
Qed.

Lemma mapM_ext_in {A B} (f g : A -> result B) (l : list A) :
  (forall x, In x l -> f x = g x) -> mapM f l = mapM g l.
Proof.
  induction l as [|x l IH]; intros H; simpl.
  - reflexivity.
  - rewrite (H x (or_introl eq_refl)).
    rewrite IH by (intros y Hy; apply H; right; exact Hy). reflexivity.
Qed.

(** Once the question's parent leaves enough room below it, the score does
    not depend on the fuel. *)
Lemma expected_reward_fuel_stable t s :
  well_formed t = true ->
  forall f1 f2 q qn,
    nth_error (question_nodes t) q = Some qn ->
    (length (evidence_nodes t) <= f1 + q_parent qn)%nat ->
    (length (evidence_nodes t) <= f2 + q_parent qn)%nat ->
    expected_reward_fuel f1 t q s = expected_reward_fuel f2 t q s.
Proof.
  intros Hwf. induction f1 as [|f1 IH]; intros f2 q qn Hq H1 H2.
  - pose proof (well_formed_question _ _ _ Hwf Hq) as Hok.
    unfold question_ok in Hok. apply andb_true_iff in Hok. destruct Hok as [Hlt _].
    apply Nat.ltb_lt in Hlt. lia.
  - destruct f2 as [|f2].
    { pose proof (well_formed_question _ _ _ Hwf Hq) as Hok.
      unfold question_ok in Hok. apply andb_true_iff in Hok. destruct Hok as [Hlt _].
      apply Nat.ltb_lt in Hlt. lia. }
    simpl. rewrite (proj2 (get_question_ok t q qn) Hq). simpl.
    destruct (0 <? length (q_children qn))%nat; [|reflexivity].
    apply fold_left_ext_in. intros e He acc.
    destruct acc as [w| | |]; simpl; try reflexivity.
    destruct (well_formed_child_evidence _ _ _ _ Hwf Hq He) as [en [Hen Hpar]].
    rewrite (proj2 (get_evidence_ok t e en) Hen). simpl.
    destruct (well_formed_parent _ _ _ _ Hwf Hen Hpar) as [qn' [gp [Hq' [_ Hlt]]]].
    assert (qn' = qn) by congruence. subst qn'.
    unfold evidence_reward.
    destruct (0 <? length (e_children en))%nat; [|reflexivity].
    rewrite (mapM_ext_in
               (fun future_question => expected_reward_fuel f1 t future_question s)
               (fun future_question => expected_reward_fuel f2 t future_question s)).
    + reflexivity.
    + intros q' Hq'in.
      destruct (well_formed_child_question _ _ _ _ Hwf Hen Hq'in) as [qn2 [Hq2 Hp2]].
      apply (IH f2 q' qn2 Hq2); lia.
Qed.

Section ExpectedReward.
Local Open Scope R_scope.

Lemma py_sumR_fold_right (xs : list R) : py_sumR xs = fold_right Rplus 0 xs.
Proof.
  induction xs as [|x xs IH]; [reflexivity|].
  rewrite py_sumR_cons, IH. reflexivity.
Qed.

Lemma fold_left_not_ok {A B} (f : result A -> B -> result A) (l : list B)
    (r : result A) :
  (forall r' x, (forall a, r' <> Ok a) -> f r' x = r') ->
  (forall a, r <> Ok a) -> fold_left f l r = r.
Proof.
  intros Hf Hr. induction l as [|x l IH]; simpl; [reflexivity|].
  rewrite (Hf r x Hr). exact IH.
Qed.

(** The loop that accumulates [weight * reward] computes the weighted sum of
    the contributions, and stops at the first contribution that fails. *)
Lemma fold_left_accumulate {A X} (F : A -> result X) (G : X -> R) (l : list A)
    (a : R) :
  fold_left (fun acc e => w <- acc ;; x <- F e ;; Ok (w + G x)) l (Ok a)
  = (xs <- mapM F l ;; Ok (a + fold_right (fun x acc => G x + acc) 0 xs)).
Proof.
  revert a. induction l as [|e l IH]; intros a; simpl.
  - f_equal. ring.
  - destruct (F e) as [x| | |]; simpl.
    + rewrite IH. destruct (mapM F l); simpl; try reflexivity.
      f_equal. ring.
    + apply fold_left_not_ok; [|discriminate].
      intros r' y Hr'. destruct r'; simpl; try reflexivity.
      exfalso. eapply Hr'. reflexivity.
    + apply fold_left_not_ok; [|discriminate].
      intros r' y Hr'. destruct r'; simpl; try reflexivity.
      exfalso. eapply Hr'. reflexivity.
    + apply fold_left_not_ok; [|discriminate].
      intros r' y Hr'. destruct r'; simpl; try reflexivity.
      exfalso. eapply Hr'. reflexivity.
Qed.

Lemma expected_reward_refines_spec t q qn s :
  well_formed t = true ->
  get_question t q = Ok qn -> q_children qn <> [] ->
  expected_reward t q s = spec_expected_reward t q s.
Proof.
  intros Hwf Hq Hne. unfold expected_reward, spec_expected_reward.
  pose proof Hq as Hq'. apply get_question_ok in Hq'.
  pose proof (well_formed_question _ _ _ Hwf Hq') as Hok.
  unfold question_ok in Hok. apply andb_true_iff in Hok. destruct Hok as [Hlt _].
  apply Nat.ltb_lt in Hlt.
  destruct (length (evidence_nodes t)) as [|n] eqn:Hlen; [lia|].
  simpl. rewrite Hq. simpl.
  destruct (q_children qn) as [|c cs] eqn:Hcs; [congruence|].
  change (0 <? length (c :: cs))%nat with true. cbv iota.
  rewrite <- Hcs in *. clear Hne.
  rewrite (fold_left_ext_in _
             (fun acc e => w <- acc ;; x <- spec_contribution t s e ;;
                           Ok (w + (fun wr => Q2R (fst wr) * snd wr) x))).
  - rewrite fold_left_accumulate.
    destruct (mapM (spec_contribution t s) (q_children qn)); simpl; try reflexivity.
    f_equal. unfold weighted_sum. ring.
  - intros e He acc. destruct acc as [w| | |]; simpl; try reflexivity.
    unfold spec_contribution.
    destruct (well_formed_child_evidence _ _ _ _ Hwf Hq' He) as [en [Hen Hpar]].
    rewrite (proj2 (get_evidence_ok t e en) Hen). simpl.
    destruct (well_formed_parent _ _ _ _ Hwf Hen Hpar) as [qn' [gp [Hq2 [_ Hlt2]]]].
    unfold evidence_reward.
    destruct (e_children en) as [|q1 qs] eqn:Hch.
    + simpl. destruct (accumulated_reward t e s); reflexivity.
    + change (0 <? length (q1 :: qs))%nat with true. cbv iota.
      rewrite <- Hch.
      rewrite (mapM_ext_in
                 (fun future_question => expected_reward_fuel n t future_question s)
                 (fun q0 => expected_reward t q0 s)).
      * destruct (mapM (fun q0 => expected_reward t q0 s) (e_children en)) as [rs| | |] eqn:Hrs;
          simpl; try reflexivity.
        unfold arithmetic_mean. rewrite py_sumR_fold_right.
        rewrite (mapM_length _ _ _ Hrs). reflexivity.
      * intros q' Hq'in. unfold expected_reward. rewrite Hlen.
        destruct (well_formed_child_question _ _ _ _ Hwf Hen Hq'in) as [qn2 [Hqn2 Hp2]].
        apply (expected_reward_fuel_stable t s Hwf n (S n) q' qn2 Hqn2); lia.
Qed.

End ExpectedReward.

(** ** The rewards of a well-formed tree are values or Python exceptions *)

Lemma rbind_outcome {A B} (r : result A) (k : A -> result B) :
  python_outcome r -> (forall a, r = Ok a -> python_outcome (k a)) ->
  python_outcome (rbind r k).
Proof.
  intros Hr Hk. destruct r; simpl in *; auto.
Qed.

Lemma mapM_outcome {A B} (f : A -> result B) (l : list A) :
  (forall x, In x l -> python_outcome (f x)) -> python_outcome (mapM f l).
Proof.
  induction l as [|x l IH]; intros H; simpl; [exact I|].
  apply rbind_outcome; [apply H; left; reflexivity|].
  intros y _. apply rbind_outcome.
  - apply IH. intros z Hz. apply H. right. exact Hz.
  - intros ys _. exact I.
Qed.

Lemma fold_left_outcome {A B} (f : result A -> B -> result A) (l : list B)
    (r : result A) :
  (forall x, In x l -> forall acc, python_outcome acc -> python_outcome (f acc x)) ->
  python_outcome r -> python_outcome (fold_left f l r).
Proof.
  revert r. induction l as [|x l IH]; intros r H Hr; simpl; [exact Hr|].
  apply IH.
  - intros y Hy. apply H. right. exact Hy.
  - apply H; [left; reflexivity | exact Hr].
Qed.

Lemma specificity_penalty_outcome t q qn s :
  well_formed t = true -> nth_error (question_nodes t) q = Some qn ->
  python_outcome (specificity_penalty t q s).
Proof.
  intros Hwf Hq. unfold specificity_penalty.
  rewrite (proj2 (get_question_ok t q qn) Hq). simpl.
  apply rbind_outcome.
  - unfold child_likelihoods. apply mapM_outcome. intros e He.
    destruct (well_formed_child_evidence _ _ _ _ Hwf Hq He) as [en [Hen _]].
    rewrite (proj2 (get_evidence_ok t e en) Hen). exact I.
  - intros mls _. apply rbind_outcome.
    + destruct mls; exact I.
    + intros mx _. apply rbind_outcome; [destruct mls; exact I|].
      intros mn _. exact I.
Qed.

Lemma immediate_reward_outcome t e en s :
  well_formed t = true -> nth_error (evidence_nodes t) e = Some en ->
  python_outcome (immediate_reward t e s).
Proof.
  intros Hwf He. unfold immediate_reward.
  rewrite (proj2 (get_evidence_ok t e en) He). simpl.
  destruct (e_parent en) as [q|] eqn:Hp; [|exact I].
  destruct (well_formed_parent _ _ _ _ Hwf He Hp) as [qn [gp [Hq [Hg _]]]].
  rewrite (proj2 (get_question_ok t q qn) Hq). simpl.
  rewrite (proj2 (get_evidence_ok t _ gp) Hg). simpl.
  apply rbind_outcome; [apply (specificity_penalty_outcome t q qn s Hwf Hq)|].
  intros pen _. unfold py_divR. destruct (Qeq_bool (1 + pen) 0); exact I.
Qed.

Lemma accumulated_reward_fuel_outcome t s :
  well_formed t = true ->
  forall e en fuel, nth_error (evidence_nodes t) e = Some en -> (e < fuel)%nat ->
  python_outcome (accumulated_reward_fuel fuel t e s).
Proof.
  intros Hwf e. induction e as [e IH] using lt_wf_ind. intros en fuel He Hf.
  destruct fuel as [|fuel]; [lia|]. simpl.
  rewrite (proj2 (get_evidence_ok t e en) He). simpl.
  destruct (e_parent en) as [q|] eqn:Hp; [|exact I].
  apply rbind_outcome; [apply (immediate_reward_outcome t e en s Hwf He)|].
  intros r _.
  destruct (well_formed_parent _ _ _ _ Hwf He Hp) as [qn [gp [Hq [Hg Hlt]]]].
  rewrite (proj2 (get_question_ok t q qn) Hq). simpl.
  apply rbind_outcome; [|intros; exact I].
  apply (IH _ Hlt gp fuel Hg). lia.
Qed.

Lemma accumulated_reward_outcome t e en s :
  well_formed t = true -> nth_error (evidence_nodes t) e = Some en ->
  python_outcome (accumulated_reward t e s).
Proof.
  intros Hwf He. unfold accumulated_reward.
  apply (accumulated_reward_fuel_outcome t s Hwf e en _ He).
  apply nth_error_Some. congruence.
Qed.

Lemma expected_reward_fuel_outcome t s :
  well_formed t = true ->
  forall fuel q qn,
    nth_error (question_nodes t) q = Some qn ->
    (length (evidence_nodes t) <= fuel + q_parent qn)%nat ->
    python_outcome (expected_reward_fuel fuel t q s).
Proof.
  intros Hwf. induction fuel as [|fuel IH]; intros q qn Hq Hlen.
  - pose proof (well_formed_question _ _ _ Hwf Hq) as Hok.
    unfold question_ok in Hok. apply andb_true_iff in Hok. destruct Hok as [Hlt _].
    apply Nat.ltb_lt in Hlt. lia.
  - simpl. rewrite (proj2 (get_question_ok t q qn) Hq). simpl.
    destruct (0 <? length (q_children qn))%nat; [|exact I].
    apply fold_left_outcome; [|exact I].
    intros e He acc Hacc. apply rbind_outcome; [exact Hacc|]. intros w _.
    destruct (well_formed_child_evidence _ _ _ _ Hwf Hq He) as [en [Hen Hpar]].
    rewrite (proj2 (get_evidence_ok t e en) Hen). simpl.
    destruct (well_formed_parent _ _ _ _ Hwf Hen Hpar) as [qn' [gp [Hq' [_ Hlt]]]].
    assert (qn' = qn) by congruence. subst qn'.
    apply rbind_outcome; [|intros; exact I].
    unfold evidence_reward.
    destruct (0 <? length (e_children en))%nat.
    + apply rbind_outcome; [|intros; exact I].
      apply mapM_outcome. intros q' Hq'in.
      destruct (well_formed_child_question _ _ _ _ Hwf Hen Hq'in) as [qn2 [Hq2 Hp2]].
      apply (IH q' qn2 Hq2). lia.
    + apply (accumulated_reward_outcome t e en s Hwf Hen).
Qed.

Section ExpectedRewardClaim.
Local Open Scope R_scope.

(** C3: the score of a question with evidence children is the sum, over
    those children, of the marginal likelihood times the child's
    contribution: the mean score of its question children when it has some,
    its accumulated reward otherwise.  On the fully expanded two-level tree
    [lookahead_tree], with sharpness 1, the two questions of the root score
    23/12 and 7/12, the values of the weighted sums computed by hand. *)
Theorem expected_reward_weighted_sum t q qn s :
  well_formed t = true ->
  get_question t q = Ok qn -> q_children qn <> [] ->
  expected_reward t q s = spec_expected_reward t q s
  /\ python_outcome (expected_reward t q s)
  /\ expected_reward lookahead_tree 0%nat 1 = Ok (23 / 12)
  /\ expected_reward lookahead_tree 1%nat 1 = Ok (7 / 12).
Proof.
  intros Hwf Hq Hne. split; [|split; [|split]].
  - apply (expected_reward_refines_spec t q qn s Hwf Hq Hne).
  - unfold expected_reward. apply get_question_ok in Hq.
    apply (expected_reward_fuel_outcome t s Hwf _ q qn Hq). lia.
  - unfold expected_reward. cbn -[information_gain Q2R].
    unfold information_gain, certain. rewrite entropy_uniform4.
    entropy_dyadic. f_equal. unfold Q2R. cbn. field.
  - unfold expected_reward. cbn -[information_gain Q2R].
    unfold information_gain, certain. rewrite entropy_uniform4.
    entropy_dyadic. f_equal. unfold Q2R. cbn. field.
Qed.

Lemma expected_reward_weighted_sum_witness :
  spec_expected_reward lookahead_tree 0%nat 1 = Ok (23 / 12)
  /\ python_outcome (expected_reward lookahead_tree 0%nat 1).
Proof.
  assert (Hwf : well_formed lookahead_tree = true) by reflexivity.
  assert (Hq : get_question lookahead_tree 0%nat
               = Ok (mkQuestionNode "Is it A or B?" ["Yes"; "No"]%string 0%nat
                                    [1%nat; 2%nat])) by reflexivity.
  destruct (expected_reward_weighted_sum lookahead_tree 0%nat _ 1 Hwf Hq)
    as [Hspec [Hout [H0 _]]]; [discriminate|].
  split; [rewrite <- Hspec; exact H0 | exact Hout].
Defined.

End ExpectedRewardClaim.

(** ** Question cluster index *)

Lemma dict_lookup_set_same {V} (d : dict V) (k : string) (v : V) :
  dict_lookup (dict_set d k v) k = Some v.
Proof.
  induction d as [|[k' v'] d IH]; simpl.
  - rewrite String.eqb_refl. reflexivity.
  - destruct (String.eqb k' k) eqn:E; simpl; rewrite E; [reflexivity | exact IH].
Qed.

Lemma dict_lookup_set_other {V} (d : dict V) (k k' : string) (v : V) :
  k <> k' -> dict_lookup (dict_set d k v) k' = dict_lookup d k'.
Proof.
  intros Hne. induction d as [|[k0 v0] d IH]; simpl.
  - apply String.eqb_neq in Hne. rewrite Hne. reflexivity.
  - destruct (String.eqb k0 k) eqn:E; simpl.
    + apply String.eqb_eq in E. subst k0.
      apply String.eqb_neq in Hne. rewrite Hne. reflexivity.
    + destruct (String.eqb k0 k'); [reflexivity | exact IH].
Qed.

Lemma dict_set_not_nil {V} (d : dict V) (k : string) (v : V) : dict_set d k v <> [].
Proof.
  destruct d as [|[k' v'] d]; simpl; [discriminate|].
  destruct (String.eqb k' k); discriminate.
Qed.

Lemma dict_lookup_keys {V} (d : dict V) (k : string) :
  In k (keys d) <-> exists v, dict_lookup d k = Some v.
Proof.
  induction d as [|[k' v'] d IH]; simpl.
  - split; [intros [] | intros [v H]; discriminate].
  - destruct (String.eqb k' k) eqn:E.
    + apply String.eqb_eq in E. subst. split; [eauto | auto].
    + apply String.eqb_neq in E. rewrite <- IH. split.
      * intros [H|H]; [congruence | exact H].
      * auto.
Qed.

Lemma str_injective (n m : nat) : str n = str m -> n = m.
Proof.
  unfold str. intros H.
  assert (Hu : Nat.to_uint n = Nat.to_uint m).
  { apply (f_equal NilEmpty.uint_of_string) in H.
    rewrite !NilEmpty.usu in H. inversion H. reflexivity. }
  apply (f_equal Nat.of_uint) in Hu. rewrite !DecimalNat.Unsigned.of_to in Hu. exact Hu.
Qed.


Lemma dict_mem_set {V} (d : dict V) (k k' : string) (v : V) :
  dict_mem d k' = true -> dict_mem (dict_set d k v) k' = true.
Proof.
  unfold dict_mem. intros H.
  destruct (string_dec k k') as [->|Hne].
  - rewrite dict_lookup_set_same. reflexivity.
  - rewrite dict_lookup_set_other by exact Hne. exact H.
Qed.

Section ClusterIndex.

Variable Embedding : Type.
Variable encode : string -> Embedding.
Variable cosine_distance : Embedding -> Embedding -> Q.


Lemma nearest_from_range (i : nat) (xs : list Embedding) (x : Embedding) (best : nat * Q) :
  (fst best < i)%nat ->
  (fst (nearest_from cosine_distance i xs x best) < i + length xs)%nat.
Proof.
  revert i best. induction xs as [|y xs IH]; intros i best Hb; simpl.
  - lia.
  - replace (i + S (length xs))%nat with (S i + length xs)%nat by lia.
    apply IH. destruct (Qgt_bool (snd best) (cosine_distance x y)); simpl; lia.
Qed.

Lemma index_query_range (idx : Index Embedding) (x : Embedding) (n : nat) (d : Q) :
  index_query cosine_distance idx x = Ok (n, d) -> (n < length idx)%nat.
Proof.
  destruct idx as [|y items]; simpl; [discriminate|].
  intros H. inversion H as [Heq].
  pose proof (nearest_from_range 1 items x (0%nat, cosine_distance x y)) as Hr.
  rewrite Heq in Hr. simpl in Hr. lia.
Qed.

Lemma index_query_nonempty (idx : Index Embedding) (x : Embedding) :
  idx <> [] -> exists n d, index_query cosine_distance idx x = Ok (n, d).
Proof.
  destruct idx as [|y items]; [congruence|]. intros _. simpl.
  destruct (nearest_from cosine_distance 1 items x (0%nat, cosine_distance x y))
    as [n d].
  eauto.
Qed.

Lemma get_cluster_reuse qc question n d c :
  (1 <= length (clusters qc))%nat ->
  index_query cosine_distance (index qc) (encode question) = Ok (n, d) ->
  threshold qc <= 1 - d ->
  dict_lookup (clusters qc) (str n) = Some c ->
  get_cluster encode cosine_distance qc question = Ok (reused qc question n c).
Proof.
  intros Hlen Hquery Hsim Hc. unfold get_cluster.
  apply Nat.leb_le in Hlen. rewrite Hlen, Hquery. simpl.
  apply Qle_bool_iff in Hsim. unfold Qge_bool. rewrite Hsim.
  unfold dict_item. rewrite Hc. reflexivity.
Qed.

Lemma get_cluster_create_empty qc question :
  clusters qc = [] ->
  get_cluster encode cosine_distance qc question = Ok (created encode qc question).
Proof.
  intros Hnil. unfold get_cluster, created. rewrite Hnil. reflexivity.
Qed.

Lemma get_cluster_create_far qc question n d :
  (1 <= length (clusters qc))%nat ->
  index_query cosine_distance (index qc) (encode question) = Ok (n, d) ->
  ~ threshold qc <= 1 - d ->
  get_cluster encode cosine_distance qc question = Ok (created encode qc question).
Proof.
  intros Hlen Hquery Hsim. unfold get_cluster, created.
  apply Nat.leb_le in Hlen. rewrite Hlen, Hquery. simpl.
  unfold Qge_bool. destruct (Qle_bool (threshold qc) (1 - d)) eqn:E.
  - apply Qle_bool_iff in E. contradiction.
  - reflexivity.
Qed.

End ClusterIndex.

Section ClusterReuse.

Variable Embedding : Type.
Variable encode : string -> Embedding.
Variable cosine_distance : Embedding -> Embedding -> Q.


Lemma created_consistent (qc : QuestionClustering Embedding) question :
  consistent qc -> consistent (snd (created encode qc question)).
Proof.
  intros [_ Hmem]. split.
  - simpl. split; intros H.
    + exfalso. apply (dict_set_not_nil _ _ _ H).
    + destruct (index qc); discriminate.
  - intros n Hn. simpl in *. rewrite length_app in Hn. simpl in Hn.
    destruct (Nat.eq_dec n (length (index qc))) as [->|Hne].
    + unfold dict_mem. rewrite dict_lookup_set_same. reflexivity.
    + apply dict_mem_set. apply Hmem. lia.
Qed.

Lemma reused_consistent (qc : QuestionClustering Embedding) question n c :
  consistent qc -> index qc <> [] -> consistent (snd (reused qc question n c)).
Proof.
  intros [_ Hmem] Hidx. split.
  - simpl. split; intros H.
    + exfalso. apply (dict_set_not_nil _ _ _ H).
    + contradiction.
  - intros m Hm. simpl in *. apply dict_mem_set. apply Hmem. exact Hm.
Qed.

(** On a consistent clustering [get_cluster] returns, by one of its two
    branches. *)
Lemma get_cluster_cases (qc : QuestionClustering Embedding) question :
  consistent qc ->
  (get_cluster encode cosine_distance qc question = Ok (created encode qc question)
   /\ (clusters qc = []
       \/ exists n d, index_query cosine_distance (index qc) (encode question) = Ok (n, d)
                      /\ ~ threshold qc <= 1 - d))
  \/ (exists n d c,
        index_query cosine_distance (index qc) (encode question) = Ok (n, d)
        /\ threshold qc <= 1 - d
        /\ dict_lookup (clusters qc) (str n) = Some c
        /\ (1 <= length (clusters qc))%nat
        /\ get_cluster encode cosine_distance qc question = Ok (reused qc question n c)).
Proof.
  intros [Hempty Hmem].
  assert (Hcase : clusters qc = [] \/ clusters qc <> []).
  { destruct (clusters qc); [left; reflexivity | right; discriminate]. }
  destruct Hcase as [Hcl|Hcl].
  - left. split; [|left; exact Hcl].
    apply get_cluster_create_empty. exact Hcl.
  - assert (Hidx : index qc <> []).
    { intros Hnil. apply Hempty in Hnil. contradiction. }
    assert (Hlen : (1 <= length (clusters qc))%nat).
    { destruct (clusters qc); [congruence | simpl; lia]. }
    destruct (index_query_nonempty Embedding cosine_distance (index qc)
                (encode question) Hidx) as [n [d Hquery]].
    destruct (Qlt_le_dec (1 - d) (threshold qc)) as [Hfar|Hnear].
    + left. split.
      * apply (get_cluster_create_far Embedding encode cosine_distance qc question n d
                 Hlen Hquery).
        apply Qlt_not_le. exact Hfar.
      * right. exists n, d. split; [exact Hquery | apply Qlt_not_le; exact Hfar].
    + right.
      pose proof (index_query_range Embedding cosine_distance _ _ _ _ Hquery) as Hn.
      specialize (Hmem n Hn). unfold dict_mem in Hmem.
      destruct (dict_lookup (clusters qc) (str n)) as [c|] eqn:Hc; [|discriminate].
      exists n, d, c. repeat split; try assumption.
      apply (get_cluster_reuse Embedding encode cosine_distance qc question n d c
               Hlen Hquery Hnear Hc).
Qed.

Lemma get_cluster_consistent (qc : QuestionClustering Embedding) question key qc' :
  consistent qc ->
  get_cluster encode cosine_distance qc question = Ok (key, qc') ->
  consistent qc'.
Proof.
  intros Hcons Hget.
  destruct (get_cluster_cases qc question Hcons)
    as [[Hc _]|[n [d [c [Hquery [_ [_ [_ Hr]]]]]]]].
  - rewrite Hc in Hget. inversion Hget. apply created_consistent. exact Hcons.
  - rewrite Hr in Hget. inversion Hget. apply reused_consistent; [exact Hcons|].
    intros Hnil. rewrite Hnil in Hquery. discriminate.
Qed.


End ClusterReuse.

(** ** Computations with state *)

Lemma bind_run {S A B} (m : M S A) (k : A -> M S B) (s : S) :
  bind m k s
  = match m s with
    | (Ok a, s') => k a s'
    | (Raise e, s') => (Raise e, s')
    | (OutOfFuel, s') => (OutOfFuel, s')
    | (IllFormed, s') => (IllFormed, s')
    end.
Proof. reflexivity. Qed.

Lemma bind_ok {S A B} (m : M S A) (k : A -> M S B) (s s' : S) (a : A) :
  m s = (Ok a, s') -> bind m k s = k a s'.
Proof. intros H. rewrite bind_run, H. reflexivity. Qed.

Lemma bind_raise {S A B} (m : M S A) (k : A -> M S B) (s s' : S) (e : exn) :
  m s = (Raise e, s') -> bind m k s = (Raise e, s').
Proof. intros H. rewrite bind_run, H. reflexivity. Qed.

Lemma bind_state_cases {S A B} (m : M S A) (k : A -> M S B) (s : S) :
  (exists a, fst (m s) = Ok a /\ bind m k s = k a (snd (m s)))
  \/ ((forall a, fst (m s) <> Ok a) /\ snd (bind m k s) = snd (m s)
      /\ forall b, fst (bind m k s) <> Ok b).
Proof.
  rewrite bind_run. destruct (m s) as [[a|e| |] s']; simpl.
  - left. exists a. auto.
  - right. repeat split; intros; discriminate.
  - right. repeat split; intros; discriminate.
  - right. repeat split; intros; discriminate.
Qed.

Section Always.

Variable S : Type.
Variable R : S -> S -> Prop.
Hypothesis R_refl : forall s, R s s.
Hypothesis R_trans : forall s1 s2 s3, R s1 s2 -> R s2 s3 -> R s1 s3.

Lemma always_ret {A} (a : A) : always R (ret a).
Proof. intros s. apply R_refl. Qed.

Lemma always_lift {A} (r : result A) : always R (lift r).
Proof. intros s. apply R_refl. Qed.

Lemma always_gets {A} (f : S -> A) : always R (gets f).
Proof. intros s. apply R_refl. Qed.

Lemma always_bind {A B} (m : M S A) (k : A -> M S B) :
  always R m -> (forall a, always R (k a)) -> always R (bind m k).
Proof.
  intros Hm Hk s. specialize (Hm s). rewrite bind_run.
  destruct (m s) as [[a|e| |] s']; simpl in *; try exact Hm.
  apply (R_trans _ _ _ Hm). apply Hk.
Qed.

Lemma always_for_each {A} (f : A -> M S unit) (xs : list A) :
  (forall x, always R (f x)) -> always R (for_each f xs).
Proof.
  intros Hf. induction xs as [|x xs IH]; simpl.
  - apply always_ret.
  - apply always_bind; [apply Hf | intros _; exact IH].
Qed.

Lemma always_map_m {A B} (f : A -> M S B) (xs : list A) :
  (forall x, always R (f x)) -> always R (map_m f xs).
Proof.
  intros Hf. induction xs as [|x xs IH]; simpl.
  - apply always_ret.
  - apply always_bind; [apply Hf|]. intros y.
    apply always_bind; [exact IH|]. intros ys. apply always_ret.
Qed.

End Always.

(** ** The node store only grows *)

Lemma tree_extends_refl t : tree_extends t t.
Proof.
  intros e en H. exists en. auto.
Qed.

Lemma tree_extends_trans t1 t2 t3 :
  tree_extends t1 t2 -> tree_extends t2 t3 -> tree_extends t1 t3.
Proof.
  intros H12 H23 e en H.
  destruct (H12 e en H) as [en2 [H2 [Ha [Hb [Hm Hp]]]]].
  destruct (H23 e en2 H2) as [en3 [H3 [Ha' [Hb' [Hm' Hp']]]]].
  exists en3. repeat split; congruence.
Qed.

Lemma nth_error_list_update {A} (l : list A) (i j : nat) (f : A -> A) :
  nth_error (list_update l i f) j
  = if (i =? j)%nat then option_map f (nth_error l j) else nth_error l j.
Proof.
  revert i j. induction l as [|x l IH]; intros i j; simpl.
  - destruct j; destruct (i =? _)%nat; reflexivity.
  - destruct i as [|i]; destruct j as [|j]; simpl; try reflexivity.
    apply IH.
Qed.

Lemma length_list_update {A} (l : list A) (i : nat) (f : A -> A) :
  length (list_update l i f) = length l.
Proof.
  revert i. induction l as [|x l IH]; intros i; simpl; [reflexivity|].
  destruct i; simpl; [reflexivity | rewrite IH; reflexivity].
Qed.

Section StoreGrowth.

Variable Embedding : Type.
Variable encode : string -> Embedding.
Variable cosine_distance : Embedding -> Embedding -> Q.
Variable World : Type.
Variable task : TaskParams.
Variable collab : Collaborators World.
Variable min_probability : Q.

Lemma grows_refl (s : Store Embedding World) : grows s s.
Proof. apply tree_extends_refl. Qed.

Lemma grows_trans (s1 s2 s3 : Store Embedding World) :
  grows s1 s2 -> grows s2 s3 -> grows s1 s3.
Proof. apply tree_extends_trans. Qed.

Lemma always_same_evidence {A} (m : M (Store Embedding World) A) :
  (forall s, evidence_nodes (tree (snd (m s))) = evidence_nodes (tree s)) ->
  always grows m.
Proof.
  intros H s e en Hen. exists en. rewrite H. auto.
Qed.

Lemma always_same_tree {A} (m : M (Store Embedding World) A) :
  (forall s, tree (snd (m s)) = tree s) -> always grows m.
Proof.
  intros H. apply always_same_evidence. intros s. rewrite H. reflexivity.
Qed.

Lemma get_cluster_m_tree question (s : Store Embedding World) :
  tree (snd (get_cluster_m encode cosine_distance question s)) = tree s.
Proof.
  unfold get_cluster_m.
  destruct (get_cluster encode cosine_distance (clustering s) question)
    as [[key c']| | |]; reflexivity.
Qed.

Lemma call_world_tree {A} (m : M World A) (s : Store Embedding World) :
  tree (snd (call_world m s)) = tree s.
Proof.
  unfold call_world, zoom. destruct (m (world s)). reflexivity.
Qed.

Lemma update_evidence_grows e f :
  (forall n, answer (f n) = answer n /\ belief_state (f n) = belief_state n
             /\ marginal_likelihood (f n) = marginal_likelihood n
             /\ e_parent (f n) = e_parent n) ->
  always grows (update_evidence (Embedding := Embedding) (World := World) e f).
Proof.
  intros Hf s e' en Hen. simpl.
  rewrite nth_error_list_update. destruct (e =? e')%nat.
  - rewrite Hen. simpl. exists (f en). split; [reflexivity|]. apply Hf.
  - exists en. auto.
Qed.

Lemma new_evidence_grows en :
  always grows (new_evidence (Embedding := Embedding) (World := World) en).
Proof.
  intros s e en' Hen. simpl. exists en'. split; [|auto].
  rewrite nth_error_app1; [exact Hen|]. apply nth_error_Some. congruence.
Qed.

End StoreGrowth.

(** Proves that a computation built from the store operations only grows the
    node store. *)
Ltac grows_tac :=
  lazymatch goal with
  | |- always _ (bind _ _) =>
      apply always_bind; [apply grows_trans | grows_tac | intros ?; grows_tac]
  | |- always _ (ret _) => apply always_ret; apply grows_refl
  | |- always _ (new_evidence _) => apply new_evidence_grows
  | |- always _ (update_evidence _ _) =>
      apply update_evidence_grows; intros ?; repeat split
  | |- always _ (get_cluster_m _ _ _) =>
      apply always_same_tree; intros ?; apply get_cluster_m_tree
  | |- always _ (call_world _) =>
      apply always_same_tree; intros ?; apply call_world_tree
  | |- always _ (for_each _ _) =>
      apply always_for_each;
      [apply grows_refl | apply grows_trans | intros ?; grows_tac]
  | |- always _ (map_m _ _) =>
      apply always_map_m;
      [apply grows_refl | apply grows_trans | intros ?; grows_tac]
  | |- always _ (match ?x with _ => _ end) => destruct x; grows_tac
  | |- always _ _ => try (apply always_same_evidence; intros ?; reflexivity)
  end.

Section Expansion.

Variable Embedding : Type.
Variable encode : string -> Embedding.
Variable cosine_distance : Embedding -> Embedding -> Q.
Variable World : Type.
Variable task : TaskParams.
Variable collab : Collaborators World.
Variable min_probability : Q.

Lemma add_evidence_child_grows q key answers a :
  always grows
    (add_evidence_child (Embedding := Embedding) (World := World)
       task min_probability q key answers a).
Proof. unfold add_evidence_child. grows_tac. Qed.

Lemma locked_section_grows q qn key :
  always grows (locked_section (Embedding := Embedding) collab q qn key).
Proof. unfold locked_section. grows_tac. Qed.

Lemma create_evidence_children_grows q :
  always grows
    (create_evidence_children encode cosine_distance task collab min_probability q).
Proof.
  unfold create_evidence_children. grows_tac.
  - apply locked_section_grows.
  - apply add_evidence_child_grows.
Qed.

Lemma create_question_children_grows e :
  always grows
    (create_question_children (Embedding := Embedding) collab e).
Proof. unfold create_question_children. grows_tac. Qed.

Lemma expand_evidence_fuel_grows fuel :
  forall e depth,
    always grows
      (expand_evidence_fuel encode cosine_distance task collab min_probability
         fuel e depth).
Proof.
  induction fuel as [|fuel IH]; intros e depth; simpl.
  - grows_tac.
  - grows_tac.
    + apply create_question_children_grows.
    + unfold expand_questions_with. grows_tac.
      * apply create_evidence_children_grows.
      * apply IH.
Qed.

Lemma expand_evidence_grows e depth :
  always grows
    (expand_evidence encode cosine_distance task collab min_probability e depth).
Proof. apply expand_evidence_fuel_grows. Qed.

End Expansion.

(** ** The run loop *)

Lemma last_node_cons (start : eid) (q : qid) (e : eid) (rounds : list (qid * eid)) :
  last_node start ((q, e) :: rounds) = last_node e rounds.
Proof.
  unfold last_node. simpl map. generalize (map snd rounds) as l.
  intros l.
  assert (H : forall (l0 : list eid) (d x : eid), last (x :: l0) d = last l0 x).
  { induction l0 as [|y l0 IH]; intros d x; [reflexivity|].
    change (last (x :: y :: l0) d) with (last (y :: l0) d).
    rewrite (IH d y), (IH x y). reflexivity. }
  apply H.
Qed.

Section RunLoop.

Variable Embedding : Type.
Variable encode : string -> Embedding.
Variable cosine_distance : Embedding -> Embedding -> Q.
Variable World : Type.
Variable task : TaskParams.
Variable collab : Collaborators World.
Variable min_probability : Q.
Variable sharpness_constant : Q.

Lemma loop_body_outcome (r r' : RunState Embedding World) (res : result unit) :
  loop_body encode cosine_distance task collab min_probability sharpness_constant r
  = (res, r') ->
  grows (store r) (store r')
  /\ match res with
     | Ok _ =>
         exists q sel en,
           final_path r' = final_path r ++ [QuestionRef q; EvidenceRef sel]
           /\ current_node r' = sel
           /\ nth_error (evidence_nodes (tree (store r'))) sel = Some en
     | _ =>
         current_node r' = current_node r
         /\ (final_path r' = final_path r
             \/ exists q, final_path r' = final_path r ++ [QuestionRef q])
     end.
Proof.
  unfold loop_body. rewrite bind_run. simpl.
  rewrite bind_run.
  unfold in_store at 1, zoom at 1.
  pose proof (expand_evidence_grows Embedding encode cosine_distance World task collab
                min_probability (current_node r) 0%Z (store r)) as Hgrow.
  destruct (expand_evidence encode cosine_distance task collab min_probability
              (current_node r) 0%Z (store r)) as [res1 s1] eqn:Hexp.
  simpl in Hgrow.
  destruct res1 as [[]|e| |];
    try (intros H; inversion H; subst; simpl;
         split; [exact Hgrow | split; [reflexivity | left; reflexivity]]).
  rewrite bind_run. simpl. rewrite bind_run. unfold lift at 1.
  destruct (get_evidence (tree s1) (current_node r)) as [en|e| |] eqn:Hen;
    try (intros H; inversion H; subst; simpl;
         split; [exact Hgrow | split; [reflexivity | left; reflexivity]]).
  rewrite bind_run. unfold lift at 1.
  destruct (py_max_by (fun q => expected_reward (tree s1) q sharpness_constant)
              (e_children en)) as [best|e| |] eqn:Hbest;
    try (intros H; inversion H; subst; simpl;
         split; [exact Hgrow | split; [reflexivity | left; reflexivity]]).
  rewrite bind_run. simpl. rewrite bind_run.
  unfold in_store at 1, zoom at 1, call_world at 1, zoom at 1. simpl.
  destruct (get_answer collab (tree s1) best (world s1)) as [ans w2] eqn:Hans.
  simpl.
  destruct ans as [sel|e| |];
    try (intros H; inversion H; subst; simpl;
         split; [exact Hgrow | split; [reflexivity | right; exists best; reflexivity]]).
  rewrite bind_run. simpl. rewrite bind_run. unfold lift at 1.
  destruct (get_evidence (tree s1) sel) as [en'|e| |] eqn:Hsel;
    try (intros H; inversion H; subst; simpl;
         split; [exact Hgrow | split; [reflexivity | right; exists best; reflexivity]]).
  rewrite bind_run. simpl.
  intros H. inversion H; subst; simpl.
  split; [exact Hgrow|].
  exists best, sel, en'. rewrite <- app_assoc. simpl.
  repeat split. apply get_evidence_ok. exact Hsel.
Qed.

Lemma run_loop_step fuel (r : RunState Embedding World) :
  is_terminal (tree (store r)) (current_node r) task = Ok false ->
  run_loop encode cosine_distance task collab min_probability sharpness_constant
           (S fuel) r
  = match loop_body encode cosine_distance task collab min_probability
                    sharpness_constant r with
    | (Ok _, r1) =>
        run_loop encode cosine_distance task collab min_probability
                 sharpness_constant fuel r1
    | (Raise e, r1) => (Raise e, r1)
    | (OutOfFuel, r1) => (OutOfFuel, r1)
    | (IllFormed, r1) => (IllFormed, r1)
    end.
Proof.
  intros Hterm. cbn [run_loop].
  rewrite bind_run. cbn [gets]. rewrite bind_run. cbn [gets].
  rewrite bind_run. unfold lift at 1. rewrite Hterm.
  rewrite bind_run. reflexivity.
Qed.

Lemma loop_body_completes (r : RunState Embedding World) q e s' :
  pass_completes encode cosine_distance task collab min_probability sharpness_constant
                 (current_node r) (store r) q e s' ->
  loop_body encode cosine_distance task collab min_probability sharpness_constant r
  = (Ok tt, mkRunState s' e (final_path r ++ [QuestionRef q; EvidenceRef e])).
Proof.
  intros [s1 [en [w2 [en' [_ [Hexp [Hen [Hbest [Hans [Hsel ->]]]]]]]]]].
  unfold loop_body. rewrite bind_run. simpl.
  rewrite bind_run.
  unfold in_store at 1, zoom at 1. rewrite Hexp.
  rewrite bind_run. simpl. rewrite bind_run. unfold lift at 1. rewrite Hen.
  rewrite bind_run. unfold lift at 1. rewrite Hbest.
  rewrite bind_run. simpl. rewrite bind_run.
  unfold in_store at 1, zoom at 1, call_world at 1, zoom at 1. simpl.
  rewrite Hans. simpl.
  rewrite bind_run. simpl. rewrite bind_run. unfold lift at 1. rewrite Hsel.
  rewrite bind_run. simpl.
  unfold append_path, set_current_node, modify. simpl.
  rewrite <- app_assoc. reflexivity.
Qed.

Lemma loop_body_fails (r : RunState Embedding World) x pending :
  pass_fails encode cosine_distance task collab min_probability sharpness_constant
             (current_node r) (store r) x pending ->
  exists r',
    loop_body encode cosine_distance task collab min_probability sharpness_constant r
    = (Raise x, r')
    /\ final_path r' = final_path r ++ pending
    /\ current_node r' = current_node r
    /\ grows (store r) (store r').
Proof.
  intros [_ [[[s1 Hexp] ->]|[s1 [en [q [w2 [Hexp [Hen [Hbest [Hans ->]]]]]]]]]].
  - assert (Hbody : loop_body encode cosine_distance task collab min_probability
                      sharpness_constant r
                    = (Raise x, set_store s1 r)).
    { unfold loop_body. rewrite bind_run. simpl. rewrite bind_run.
      unfold in_store at 1, zoom at 1. rewrite Hexp. reflexivity. }
    exists (set_store s1 r). split; [exact Hbody|].
    split; [simpl; rewrite app_nil_r; reflexivity|]. split; [reflexivity|].
    apply (loop_body_outcome _ _ _ Hbody).
  - assert (Hbody : loop_body encode cosine_distance task collab min_probability
                      sharpness_constant r
                    = (Raise x,
                       set_store (set_world w2 s1)
                         (append_path (QuestionRef q) (set_store s1 r)))).
    { unfold loop_body. rewrite bind_run. simpl. rewrite bind_run.
      unfold in_store at 1, zoom at 1. rewrite Hexp.
      rewrite bind_run. simpl. rewrite bind_run. unfold lift at 1. rewrite Hen.
      rewrite bind_run. unfold lift at 1. rewrite Hbest.
      rewrite bind_run. simpl. rewrite bind_run.
      unfold in_store at 1, zoom at 1, call_world at 1, zoom at 1. simpl.
      rewrite Hans. reflexivity. }
    eexists. split; [exact Hbody|].
    split; [reflexivity|]. split; [reflexivity|].
    apply (loop_body_outcome _ _ _ Hbody).
Qed.

(** The loop follows the passes: each completed pass appends its question
    and its evidence node and moves to that node, and the failing pass ends
    the loop with its exception. *)
Lemma run_loop_passes node s rounds node' s' :
  passes encode cosine_distance task collab min_probability sharpness_constant
         node s rounds node' s' ->
  (exists en, nth_error (evidence_nodes (tree s)) node = Some en) ->
  (exists en, nth_error (evidence_nodes (tree s')) node' = Some en)
  /\ node' = last_node node rounds
  /\ forall path x pending fuel,
       pass_fails encode cosine_distance task collab min_probability sharpness_constant
                  node' s' x pending ->
       (length rounds < fuel)%nat ->
       exists r',
         run_loop encode cosine_distance task collab min_probability sharpness_constant
                  fuel (mkRunState s node path)
         = (Raise x, r')
         /\ final_path r' = path ++ rounds_path rounds ++ pending
         /\ current_node r' = node'
         /\ grows s' (store r').
Proof.
  induction 1 as [node s | node s q e s1 rounds node' s' Hpass Hrest IH]; intros Hvalid.
  - split; [exact Hvalid|]. split; [reflexivity|].
    intros path x pending fuel Hfails Hfuel.
    destruct fuel as [|fuel]; [simpl in Hfuel; lia|].
    destruct (loop_body_fails (mkRunState s node path) x pending Hfails)
      as [r' [Hbody [Hpath [Hcur Hgrow]]]].
    exists r'.
    rewrite (run_loop_step fuel (mkRunState s node path)) by (apply Hfails).
    rewrite Hbody. split; [reflexivity|].
    split; [exact Hpath|]. split; [exact Hcur | exact Hgrow].
  - assert (Hreached : exists en, nth_error (evidence_nodes (tree s1)) e = Some en).
    { destruct Hpass as [s0 [en [w2 [en' [_ [_ [_ [_ [_ [Hsel ->]]]]]]]]]].
      exists en'. apply get_evidence_ok. exact Hsel. }
    destruct (IH Hreached) as [Hvalid' [Hlast Hrun]].
    split; [exact Hvalid'|].
    split; [rewrite Hlast; symmetry; apply last_node_cons|].
    intros path x pending fuel Hfails Hfuel.
    destruct fuel as [|fuel]; [simpl in Hfuel; lia|].
    destruct (Hrun (path ++ [QuestionRef q; EvidenceRef e]) x pending fuel Hfails)
      as [r' [Hloop [Hpath [Hcur Hgrow]]]]; [simpl in Hfuel; lia|].
    exists r'.
    assert (Hterm : is_terminal (tree s) node task = Ok false)
      by (destruct Hpass as [? [? [? [? [Hterm _]]]]]; exact Hterm).
    rewrite (run_loop_step fuel (mkRunState s node path)) by exact Hterm.
    rewrite (loop_body_completes (mkRunState s node path) q e s1 Hpass).
    split; [exact Hloop|].
    split; [|split; [exact Hcur | exact Hgrow]].
    rewrite Hpath. cbn [rounds_path flat_map fst snd final_path].
    rewrite <- !app_assoc. reflexivity.
Qed.

(** C9: when, after some completed passes of the loop, a pass raises (in the
    expansion, where questions are generated and likelihoods estimated, or
    when the answerer is asked), [run_task] does not raise.  It returns a
    record whose path is the root, the question and the evidence node of
    every completed pass, in order, and the question selected in the failing
    pass if the answerer raised; its belief state is the one of the evidence
    node reached by the last completed pass (of the root if there is none).
    The only exception [run_task] lets through is one raised while the
    initial belief state is created, before the loop. *)
Theorem run_task_keeps_partial_results
    fuel (qc : QuestionClustering Embedding) (w w1 : World) bs rounds node s x pending :
  create_initial_belief_state collab w = (Ok bs, w1) ->
  passes encode cosine_distance task collab min_probability sharpness_constant
         0%nat (mkStore (mkTree [mkEvidenceNode "ROOT" bs 1 None []] []) qc w1 [])
         rounds node s ->
  pass_fails encode cosine_distance task collab min_probability sharpness_constant
             node s x pending ->
  (length rounds < fuel)%nat ->
  (exists record w' en,
      run_task encode cosine_distance task collab min_probability
               sharpness_constant fuel qc w
      = (Ok record, w')
      /\ record_final_path record = EvidenceRef 0%nat :: rounds_path rounds ++ pending
      /\ node = last_node 0%nat rounds
      /\ get_evidence (tree s) node = Ok en
      /\ final_belief_state record = belief_state en)
  /\ (forall fuel' w' x',
        fst (run_task encode cosine_distance task collab min_probability
                      sharpness_constant fuel' qc w') = Raise x' ->
        fst (create_initial_belief_state collab w') = Raise x').
Proof.
  intros Hinit Hpasses Hfails Hfuel. split.
  - destruct (run_loop_passes _ _ _ _ _ Hpasses) as [[en Hen] [Hlast Hrun]].
    { eexists. reflexivity. }
    destruct (Hrun [EvidenceRef 0%nat] x pending fuel Hfails Hfuel)
      as [r' [Hloop [Hpath [Hcur Hgrow]]]].
    destruct (Hgrow _ _ Hen) as [en' [Hen' [_ [Hbel _]]]].
    exists (mkRunRecord (final_path r') (belief_state en') (tree (store r'))),
           (world (store r')), en.
    split; [|split; [exact Hpath|split; [exact Hlast|split]]].
    + unfold run_task. rewrite Hinit. unfold finish_run.
      rewrite bind_run. unfold try_except.
      change (initial_run_state qc w1 bs)
        with (mkRunState
                (mkStore (mkTree [mkEvidenceNode "ROOT" bs 1 None []] []) qc w1 [])
                0%nat [EvidenceRef 0%nat]).
      rewrite Hloop. simpl.
      rewrite !bind_run. simpl. rewrite bind_run. unfold lift at 1.
      rewrite Hcur. rewrite (proj2 (get_evidence_ok _ _ _) Hen'). reflexivity.
    + apply get_evidence_ok. exact Hen.
    + exact Hbel.
  - intros fuel' w' x'. unfold run_task.
    destruct (create_initial_belief_state collab w') as [[bs'|x0| |] w2]; simpl;
      try (intros H; inversion H; reflexivity).
    intros H. exfalso. revert H.
    unfold finish_run. rewrite bind_run. unfold try_except.
    destruct (run_loop encode cosine_distance task collab min_probability
                sharpness_constant fuel' (initial_run_state qc w2 bs'))
      as [[[]|x0| |] st]; cbn [ret]; rewrite ?bind_run; cbn [gets];
      rewrite ?bind_run; unfold lift;
      unfold get_evidence;
      try (destruct (nth_error (evidence_nodes (tree (store st))) (current_node st)));
      simpl; discriminate.
Qed.

End RunLoop.

(** A run of two passes: the first is completed (question 0, answered by
    evidence node 1), in the second the answerer raises after question 1 was
    selected.  The record keeps the path up to that question and the belief
    state of evidence node 1. *)
Lemma run_task_keeps_partial_results_witness :
  exists record,
    fst (run_task text_encode text_distance patient_task tiring_collab 0 1 3%nat
                  (new_clustering 1) tt)
    = Ok record
    /\ record_final_path record
       = [EvidenceRef 0%nat; QuestionRef 0%nat; EvidenceRef 1%nat; QuestionRef 1%nat]
    /\ keys (final_belief_state record) = ["A"; "B"]%string
    /\ dict_get (final_belief_state record) "A" 0 == 9#10
    /\ dict_get (final_belief_state record) "B" 0 == 1#10.
Proof.
  assert (Hinit : create_initial_belief_state tiring_collab tt = (Ok uniform2, tt))
    by reflexivity.
  assert (Hfirst : pass_completes text_encode text_distance patient_task tiring_collab 0 1
                     0%nat patient_start 0%nat 1%nat patient_first).
  { exists patient_first. eexists. exists tt. eexists.
    split; [vm_compute; reflexivity|].
    split; [vm_compute; reflexivity|].
    split; [vm_compute; reflexivity|].
    split; [vm_compute; reflexivity|].
    split; [vm_compute; reflexivity|].
    split; [vm_compute; reflexivity | vm_compute; reflexivity]. }
  assert (Hfails : pass_fails text_encode text_distance patient_task tiring_collab 0 1
                     1%nat patient_first
                     (CollaboratorError "the answerer is down") [QuestionRef 1%nat]).
  { split; [vm_compute; reflexivity|]. right.
    exists patient_second. eexists. exists 1%nat, tt.
    split; [vm_compute; reflexivity|].
    split; [vm_compute; reflexivity|].
    split; [vm_compute; reflexivity|].
    split; [vm_compute; reflexivity | reflexivity]. }
  assert (Hpasses : passes text_encode text_distance patient_task tiring_collab 0 1
                      0%nat patient_start [(0%nat, 1%nat)] 1%nat patient_first).
  { eapply passes_next; [exact Hfirst | apply passes_none]. }
  destruct (run_task_keeps_partial_results
              string text_encode text_distance unit patient_task tiring_collab 0 1
              3%nat (new_clustering 1) tt tt uniform2 [(0%nat, 1%nat)] 1%nat
              patient_first (CollaboratorError "the answerer is down")
              [QuestionRef 1%nat] Hinit Hpasses Hfails)
    as [[record [w' [en [Hrun [Hpath [_ [Hen Hbel]]]]]]] _].
  { simpl. lia. }
  exists record. split; [rewrite Hrun; reflexivity|].
  split; [exact Hpath|].
  vm_compute in Hen. injection Hen as Hen. subst en.
  rewrite Hbel. split; [reflexivity|]. split; reflexivity.
Defined.

(** ** Likelihood requests *)

Lemma mem_string_true (x : string) (xs : list string) :
  mem_string x xs = true <-> In x xs.
Proof.
  unfold mem_string. rewrite existsb_exists. split.
  - intros [y [Hy Heq]]. apply String.eqb_eq in Heq. subst. exact Hy.
  - intros H. exists x. split; [exact H | apply String.eqb_refl].
Qed.


Lemma bind_inv {S A B} (m : M S A) (k : A -> M S B) (s s' : S) (r : result B) :
  bind m k s = (r, s') ->
  (exists a s1, m s = (Ok a, s1) /\ k a s1 = (r, s'))
  \/ ((forall b, r <> Ok b) /\ exists r0, m s = (r0, s') /\ forall a, r0 <> Ok a).
Proof.
  rewrite bind_run. destruct (m s) as [[a|e| |] s1]; intros H.
  - left. eauto.
  - right. inversion H; subst. split; [discriminate|]. eexists. split; [reflexivity|discriminate].
  - right. inversion H; subst. split; [discriminate|]. eexists. split; [reflexivity|discriminate].
  - right. inversion H; subst. split; [discriminate|]. eexists. split; [reflexivity|discriminate].
Qed.

Section Requests.

Variable Embedding : Type.
Variable encode : string -> Embedding.
Variable cosine_distance : Embedding -> Embedding -> Q.
Variable World : Type.
Variable task : TaskParams.
Variable collab : Collaborators World.
Variable min_probability : Q.





End Requests.


Section RequestsOfExpansion.

Variable Embedding : Type.
Variable encode : string -> Embedding.
Variable cosine_distance : Embedding -> Embedding -> Q.
Variable World : Type.
Variable task : TaskParams.
Variable collab : Collaborators World.
Variable min_probability : Q.




End RequestsOfExpansion.

Section ClusterReuseClaim.

Variable Embedding : Type.
Variable encode : string -> Embedding.
Variable cosine_distance : Embedding -> Embedding -> Q.
Variable World : Type.


End ClusterReuseClaim.



(** ** Evidence children and the uniform likelihood *)

Section ShapeOfStore.

Variable Embedding : Type.
Variable encode : string -> Embedding.
Variable cosine_distance : Embedding -> Embedding -> Q.
Variable World : Type.

Lemma same_shape_refl (s : Store Embedding World) : same_shape s s.
Proof.
  split; [reflexivity|]. intros q qn H. exists qn. auto.
Qed.

Lemma same_shape_trans (s1 s2 s3 : Store Embedding World) :
  same_shape s1 s2 -> same_shape s2 s3 -> same_shape s1 s3.
Proof.
  intros [He12 Hq12] [He23 Hq23]. split; [congruence|].
  intros q qn H. destruct (Hq12 q qn H) as [qn2 [H2 [Hc [Hp Ht]]]].
  destruct (Hq23 q qn2 H2) as [qn3 [H3 [Hc' [Hp' Ht']]]].
  exists qn3. repeat split; congruence.
Qed.

Lemma always_same_tree_shape {A} (m : M (Store Embedding World) A) :
  (forall s, tree (snd (m s)) = tree s) -> always same_shape m.
Proof.
  intros H s. split; rewrite H; [reflexivity|].
  intros q qn Hq. exists qn. auto.
Qed.

Lemma update_question_shape q f :
  (forall n, q_children (f n) = q_children n /\ q_parent (f n) = q_parent n
             /\ question (f n) = question n) ->
  always same_shape (update_question (Embedding := Embedding) (World := World) q f).
Proof.
  intros Hf s. split; [reflexivity|].
  intros q' qn Hq. simpl. unfold get_question in *. simpl.
  rewrite nth_error_list_update. destruct (q =? q')%nat.
  - destruct (nth_error (question_nodes (tree s)) q') as [n|]; [|discriminate].
    inversion Hq; subst. simpl. exists (f qn). split; [reflexivity|]. apply Hf.
  - exists qn. auto.
Qed.

End ShapeOfStore.

(** Proves that a computation keeps the shape of the node store. *)
Ltac shape_tac :=
  lazymatch goal with
  | |- always _ (bind _ _) =>
      apply always_bind; [apply same_shape_trans | shape_tac | intros ?; shape_tac]
  | |- always _ (ret _) => apply always_ret; apply same_shape_refl
  | |- always _ (update_question _ _) =>
      apply update_question_shape; intros ?; repeat split
  | |- always _ (get_cluster_m _ _ _) =>
      apply always_same_tree_shape; intros ?; apply get_cluster_m_tree
  | |- always _ (call_world _) =>
      apply always_same_tree_shape; intros ?; apply call_world_tree
  | |- always _ (match ?x with _ => _ end) => destruct x; shape_tac
  | |- always _ _ => try (apply always_same_tree_shape; intros ?; reflexivity)
  end.

Section EvidenceChildren.

Variable Embedding : Type.
Variable encode : string -> Embedding.
Variable cosine_distance : Embedding -> Embedding -> Q.
Variable World : Type.
Variable task : TaskParams.
Variable collab : Collaborators World.
Variable min_probability : Q.

Lemma locked_section_shape q qn key :
  always same_shape (locked_section (Embedding := Embedding) collab q qn key).
Proof. unfold locked_section. shape_tac. Qed.

Lemma py_div_one_over (n : nat) :
  (0 < n)%nat ->
  py_div 1 (inject_Z (Z.of_nat n)) = Ok (1 / inject_Z (Z.of_nat n)).
Proof.
  intros Hn. unfold py_div.
  destruct (Qeq_bool (inject_Z (Z.of_nat n)) 0) eqn:E; [|reflexivity].
  apply Qeq_bool_iff in E. unfold Qeq in E. simpl in E. lia.
Qed.

Lemma py_div_by_zero (a : Q) : py_div a (inject_Z (Z.of_nat 0)) = Raise ZeroDivisionError.
Proof. reflexivity. Qed.

Lemma posterior_child_extends answers c prior q t t' a e :
  tree_extends t t' ->
  posterior_child task min_probability answers c prior q t a e ->
  posterior_child task min_probability answers c prior q t' a e.
Proof.
  intros Hext [en [lik [Hen [Ha [Hp [Hl Hpost]]]]]].
  apply get_evidence_ok in Hen.
  destruct (Hext e en Hen) as [en' [Hen' [Ha' [Hb [Hm Hp']]]]].
  exists en', lik. rewrite Ha', Hp', Hb, Hm.
  repeat split; try assumption. apply get_evidence_ok. exact Hen'.
Qed.

(** What one pass of [for answer in answers] does when it succeeds. *)
Lemma add_evidence_child_ok q key answers a (s s' : Store Embedding World) :
  add_evidence_child task min_probability q key answers a s = (Ok tt, s') ->
  exists c qn parent,
    dict_lookup (clusters (clustering s)) key = Some c
    /\ get_question (tree s) q = Ok qn
    /\ get_evidence (tree s) (q_parent qn) = Ok parent
    /\ clustering s' = clustering s
    /\ (exists en_new, evidence_nodes (tree s') = evidence_nodes (tree s) ++ [en_new])
    /\ question_nodes (tree s')
       = list_update (question_nodes (tree s)) q
           (fun n => mkQuestionNode (question n) (possible_answers n) (q_parent n)
                       (q_children n ++ [length (evidence_nodes (tree s))]))
    /\ posterior_child task min_probability answers c (belief_state parent) q
         (tree s') a (length (evidence_nodes (tree s))).
Proof.
  unfold add_evidence_child. intros H.
  apply bind_inv in H. destruct H as [[c [sa [Hm H]]]|[Hr _]];
    [|exfalso; apply (Hr tt); reflexivity].
  unfold read_cluster in Hm. injection Hm as Hm Hs. subst sa.
  unfold dict_item in Hm.
  destruct (dict_lookup (clusters (clustering s)) key) as [c0|] eqn:Hc; [|discriminate].
  inversion Hm; subst c0; clear Hm.
  apply bind_inv in H. destruct H as [[lik [sa [Hm H]]]|[Hr _]];
    [|exfalso; apply (Hr tt); reflexivity].
  unfold lift in Hm. injection Hm as Hlik Hs. subst sa.
  apply bind_inv in H. destruct H as [[qn [sa [Hm H]]]|[Hr _]];
    [|exfalso; apply (Hr tt); reflexivity].
  unfold read_question in Hm. injection Hm as Hq Hs. subst sa.
  apply bind_inv in H. destruct H as [[parent [sa [Hm H]]]|[Hr _]];
    [|exfalso; apply (Hr tt); reflexivity].
  unfold read_evidence in Hm. injection Hm as Hp Hs. subst sa.
  apply bind_inv in H. destruct H as [[u [sa [Hm H]]]|[Hr _]];
    [|exfalso; apply (Hr tt); reflexivity].
  unfold lift in Hm. injection Hm as Hu Hs. subst sa.
  apply bind_inv in H. destruct H as [[pm [sa [Hm H]]]|[Hr _]];
    [|exfalso; apply (Hr tt); reflexivity].
  unfold lift in Hm. injection Hm as Hpm Hs. subst sa.
  rewrite bind_run in H. simpl in H. injection H as Hs'. subst s'. simpl.
  exists c, qn, parent. repeat split; try assumption.
  - eexists. reflexivity.
  - exists (mkEvidenceNode a (fst pm) (snd pm) (Some q) []), lik.
    assert (Hlen : (0 < length answers)%nat).
    { destruct answers; [|simpl; lia]. rewrite py_div_by_zero in Hu. discriminate. }
    rewrite py_div_one_over in Hu by exact Hlen. inversion Hu; subst u.
    repeat split; try assumption.
    + unfold get_evidence. simpl. rewrite nth_error_app2 by lia.
      rewrite Nat.sub_diag. reflexivity.
    + simpl. destruct pm. exact Hpm.
Qed.

Lemma for_each_cons_ok {A} (f : A -> M (Store Embedding World) unit) (x : A)
    (xs : list A) (s s' : Store Embedding World) :
  for_each f (x :: xs) s = (Ok tt, s') ->
  exists s1, f x s = (Ok tt, s1) /\ for_each f xs s1 = (Ok tt, s').
Proof.
  simpl. intros H. apply bind_inv in H.
  destruct H as [[[] [s1 [Hx H]]]|[Hr _]]; [eauto|].
  exfalso. apply (Hr tt). reflexivity.
Qed.

(** The loop [for answer in answers] appends one evidence child per answer,
    each holding the posterior computed with the uniform likelihood
    [1 / len(answers)]. *)
Lemma for_each_children q key answers :
  forall todo (s s' : Store Embedding World) qn0 c parent,
    for_each (add_evidence_child task min_probability q key answers) todo s
    = (Ok tt, s') ->
    dict_lookup (clusters (clustering s)) key = Some c ->
    get_question (tree s) q = Ok qn0 ->
    get_evidence (tree s) (q_parent qn0) = Ok parent ->
    exists new_ids qn',
      get_question (tree s') q = Ok qn'
      /\ q_children qn' = q_children qn0 ++ new_ids
      /\ Forall2 (posterior_child task min_probability answers c
                    (belief_state parent) q (tree s'))
                 todo new_ids.
Proof.
  induction todo as [|a todo IH]; intros s s' qn0 c parent Hrun Hc Hq Hp.
  - simpl in Hrun. inversion Hrun; subst. exists [], qn0.
    rewrite app_nil_r. repeat split; [exact Hq | constructor].
  - apply for_each_cons_ok in Hrun. destruct Hrun as [s1 [Hstep Hrest]].
    pose proof (add_evidence_child_ok _ _ _ _ _ _ Hstep)
      as [c1 [qn1 [parent1 [Hc1 [Hq1 [Hp1 [Hcl [[en_new Hev] [Hqs Hchild]]]]]]]]].
    assert (c1 = c) by congruence. subst c1.
    assert (qn1 = qn0) by congruence. subst qn1.
    assert (parent1 = parent) by congruence. subst parent1.
    set (id := length (evidence_nodes (tree s))) in *.
    set (qn2 := mkQuestionNode (question qn0) (possible_answers qn0) (q_parent qn0)
                               (q_children qn0 ++ [id])).
    assert (Hq2 : get_question (tree s1) q = Ok qn2).
    { unfold get_question in *. rewrite Hqs, nth_error_list_update, Nat.eqb_refl.
      destruct (nth_error (question_nodes (tree s)) q); [|discriminate].
      inversion Hq; subst. reflexivity. }
    assert (Hp2 : get_evidence (tree s1) (q_parent qn2) = Ok parent).
    { unfold get_evidence in *. rewrite Hev. simpl.
      destruct (nth_error (evidence_nodes (tree s)) (q_parent qn0)) eqn:E;
        [|discriminate].
      rewrite nth_error_app1 by (apply nth_error_Some; congruence).
      rewrite E. exact Hp. }
    assert (Hc2 : dict_lookup (clusters (clustering s1)) key = Some c)
      by (rewrite Hcl; exact Hc).
    destruct (IH s1 s' qn2 c parent Hrest Hc2 Hq2 Hp2) as [ids [qn' [Hq' [Hch Hall]]]].
    exists (id :: ids), qn'. repeat split; [exact Hq'| |].
    + rewrite Hch. simpl. rewrite <- app_assoc. reflexivity.
    + constructor; [|exact Hall].
      apply (posterior_child_extends answers c (belief_state parent) q
               (tree s1) (tree s') a id); [|exact Hchild].
      pose proof (always_for_each (Store Embedding World) grows
                    (grows_refl Embedding World) (grows_trans Embedding World)
                    (add_evidence_child task min_probability q key answers) todo
                    (add_evidence_child_grows Embedding World task min_probability
                       q key answers) s1) as Hg.
      rewrite Hrest in Hg. exact Hg.
Qed.

(** The locked block when no answers are resolved: its outcome is the one of
    the estimator, which is called (with the empty answer list) when the
    cluster lacks hypotheses of the parent's belief state. *)
Lemma locked_section_no_answers q qn key (s1 : Store Embedding World) c parent :
  dict_lookup (clusters (clustering s1)) key = Some c ->
  get_answers c = Ok [] ->
  possible_answers qn = [] ->
  get_evidence (tree s1) (q_parent qn) = Ok parent ->
  fst (locked_section collab q qn key s1)
  = match missing_hypotheses_of (belief_state parent) c with
    | [] => Ok []
    | h :: rest =>
        match fst (get_likelihoods collab (question qn) [] (h :: rest) (world s1)) with
        | Ok _ => Ok []
        | Raise x => Raise x
        | OutOfFuel => OutOfFuel
        | IllFormed => IllFormed
        end
    end.
Proof.
  intros Hc Hcached Hown Hp. unfold locked_section.
  rewrite bind_run. unfold read_cluster at 1, dict_item. rewrite Hc.
  rewrite bind_run. unfold lift at 1. rewrite Hcached.
  rewrite bind_run. cbn [ret]. rewrite Hown.
  rewrite bind_run. unfold read_evidence at 1. rewrite Hp.
  destruct (missing_hypotheses_of (belief_state parent) c) as [|h rest].
  - rewrite bind_run. reflexivity.
  - rewrite bind_run. rewrite bind_run. cbn [modify]. rewrite bind_run.
    unfold call_world at 1, zoom at 1. cbn [world log_request].
    destruct (get_likelihoods collab (question qn) [] (h :: rest) (world s1))
      as [[rows|x| |] w']; reflexivity.
Qed.

(** C10 (as the code has it): the evidence children of a question are
    created one per resolved answer, each from [calculate_posterior] called
    with the uniform likelihood 1 / (number of resolved answers); that
    division is only evaluated inside the loop over the answers, where their
    number is positive, so it never fails.  When the resolved answer set is
    empty the loop body does not run and the question keeps no children; the
    block then ends as the likelihood estimator does, which is called before
    the loop, with the empty answer list, when the cluster lacks hypotheses
    of the parent's belief state: it returns when the estimator returns or is
    not called, and raises what the estimator raises. *)
Theorem evidence_children_uniform_likelihood q :
  (forall (s s' : Store Embedding World) qn,
      create_evidence_children encode cosine_distance task collab min_probability q s
      = (Ok tt, s') ->
      get_question (tree s) q = Ok qn -> q_children qn = [] ->
      exists key s1 answers s2 qn',
        get_cluster_m encode cosine_distance (question qn) s = (Ok key, s1)
        /\ locked_section collab q qn key s1 = (Ok answers, s2)
        /\ get_question (tree s') q = Ok qn'
        /\ length (q_children qn') = length answers
        /\ (answers <> [] ->
            exists c parent,
              dict_lookup (clusters (clustering s2)) key = Some c
              /\ get_evidence (tree s2) (q_parent qn) = Ok parent
              /\ Forall2 (posterior_child task min_probability answers c
                            (belief_state parent) q (tree s'))
                         answers (q_children qn')))
  /\ (forall (answers : list string) a,
      In a answers ->
      py_div 1 (inject_Z (Z.of_nat (length answers)))
      = Ok (1 / inject_Z (Z.of_nat (length answers))))
  /\ (forall (s s1 : Store Embedding World) qn key c parent,
      get_question (tree s) q = Ok qn -> q_children qn = [] ->
      get_cluster_m encode cosine_distance (question qn) s = (Ok key, s1) ->
      dict_lookup (clusters (clustering s1)) key = Some c ->
      get_answers c = Ok [] ->
      possible_answers qn = [] ->
      get_evidence (tree s1) (q_parent qn) = Ok parent ->
      let run :=
        create_evidence_children encode cosine_distance task collab min_probability q s in
      let missing := missing_hypotheses_of (belief_state parent) c in
      let asked := fst (get_likelihoods collab (question qn) [] missing (world s1)) in
      (missing = [] -> fst run = Ok tt)
      /\ (missing <> [] ->
          (forall rows, asked = Ok rows -> fst run = Ok tt)
          /\ (forall x, asked = Raise x -> fst run = Raise x))
      /\ exists qn', get_question (tree (snd run)) q = Ok qn' /\ q_children qn' = []).
Proof.
  assert (Hshape : forall (s s1 s2 : Store Embedding World) qn key r,
             get_question (tree s) q = Ok qn ->
             get_cluster_m encode cosine_distance (question qn) s = (Ok key, s1) ->
             locked_section collab q qn key s1 = (r, s2) ->
             exists qn2, get_question (tree s2) q = Ok qn2
                         /\ q_children qn2 = q_children qn
                         /\ q_parent qn2 = q_parent qn).
  { intros s s1 s2 qn key r Hq Hgc Hl.
    assert (Ht : tree s1 = tree s).
    { rewrite <- (get_cluster_m_tree Embedding encode cosine_distance World
                    (question qn) s). rewrite Hgc. reflexivity. }
    pose proof (locked_section_shape q qn key s1) as [_ Hs]. rewrite Hl in Hs.
    simpl in Hs. rewrite Ht in Hs.
    destruct (Hs q qn Hq) as [qn2 [Hq2 [Hc [Hp _]]]]. eauto. }
  split; [|split].
  - intros s s' qn Hrun Hq Hnone. unfold create_evidence_children in Hrun.
    apply bind_inv in Hrun. destruct Hrun as [[qn0 [sa [Hm H]]]|[Hr _]];
      [|exfalso; apply (Hr tt); reflexivity].
    unfold read_question in Hm. injection Hm as Hm Hs. subst sa.
    assert (qn0 = qn) by congruence. subst qn0. rewrite Hnone in H.
    apply bind_inv in H. destruct H as [[key [s1 [Hgc H]]]|[Hr _]];
      [|exfalso; apply (Hr tt); reflexivity].
    apply bind_inv in H. destruct H as [[answers [s2 [Hl H]]]|[Hr _]];
      [|exfalso; apply (Hr tt); reflexivity].
    destruct (Hshape s s1 s2 qn key _ Hq Hgc Hl) as [qn2 [Hq2 [Hc2 Hp2]]].
    rewrite Hnone in Hc2.
    destruct answers as [|a rest].
    + simpl in H. inversion H; subst s'.
      exists key, s1, [], s2, qn2. repeat split; try assumption.
      * rewrite Hc2. reflexivity.
      * intros Habs. congruence.
    + pose proof H as Hloop. apply for_each_cons_ok in H.
      destruct H as [s3 [Hstep _]].
      pose proof (add_evidence_child_ok _ _ _ _ _ _ Hstep)
        as [c [qn3 [parent [Hc [Hq3 [Hp3 _]]]]]].
      assert (qn3 = qn2) by congruence. subst qn3.
      destruct (for_each_children q key (a :: rest) (a :: rest) s2 s' qn2 c parent
                  Hloop Hc Hq2 Hp3) as [ids [qn' [Hq' [Hch Hall]]]].
      rewrite Hc2 in Hch. simpl in Hch.
      exists key, s1, (a :: rest), s2, qn'. repeat split; try assumption.
      * rewrite Hch. symmetry. apply (Forall2_length Hall).
      * intros _. exists c, parent. rewrite <- Hp2. rewrite Hch.
        repeat split; assumption.
  - intros answers a Hin. apply py_div_one_over.
    destruct answers; [contradiction | simpl; lia].
  - intros s s1 qn key c parent Hq Hnone Hgc Hc Hcached Hown Hp run missing asked.
    pose proof (locked_section_no_answers q qn key s1 c parent Hc Hcached Hown Hp)
      as Hlock.
    fold missing in Hlock.
    destruct (locked_section collab q qn key s1) as [rl s2] eqn:Hl.
    cbn [fst] in Hlock.
    destruct (Hshape s s1 s2 qn key rl Hq Hgc Hl) as [qn2 [Hq2 [Hc2 _]]].
    assert (Hrun : run = match rl with
                         | Ok [] => (Ok tt, s2)
                         | Ok (a :: rest) =>
                             for_each (add_evidence_child task min_probability q key
                                         (a :: rest)) (a :: rest) s2
                         | Raise x => (Raise x, s2)
                         | OutOfFuel => (OutOfFuel, s2)
                         | IllFormed => (IllFormed, s2)
                         end).
    { unfold run, create_evidence_children.
      rewrite (bind_ok _ _ s s qn) by (unfold read_question; rewrite Hq; reflexivity).
      rewrite Hnone.
      rewrite (bind_ok _ _ s s1 key Hgc).
      rewrite bind_run, Hl. destruct rl as [[|a rest]|x| |]; reflexivity. }
    assert (Hkeeps : forall r, run = (r, s2) ->
              exists qn', get_question (tree (snd run)) q = Ok qn' /\ q_children qn' = []).
    { intros r Hr. rewrite Hr. exists qn2. split; [exact Hq2 | congruence]. }
    destruct missing as [|h rest] eqn:Hmissing.
    + subst rl. split; [intros _; rewrite Hrun; reflexivity|].
      split; [intros Habs; congruence|].
      apply (Hkeeps (Ok tt)). exact Hrun.
    + fold asked in Hlock.
      split; [intros Habs; discriminate|].
      split.
      * intros _. split.
        -- intros rows Hrows. rewrite Hrows in Hlock. subst rl.
           rewrite Hrun. reflexivity.
        -- intros x Hx. rewrite Hx in Hlock. subst rl. rewrite Hrun. reflexivity.
      * destruct asked as [rows|x| |]; subst rl;
          [apply (Hkeeps (Ok tt)) | apply (Hkeeps (Raise x))
          | apply (Hkeeps OutOfFuel) | apply (Hkeeps IllFormed)]; exact Hrun.
Qed.

End EvidenceChildren.

(** Two answers give two evidence children, each with the posterior under
    the uniform likelihood 1/2; with no answers at all and an estimator that
    is down, the block raises the estimator's exception and creates nothing. *)
Lemma evidence_children_uniform_likelihood_witness :
  (exists s' qn' c,
     create_evidence_children text_encode text_distance chain_task answering_collab 0
       0%nat (one_question_store ["Yes"; "No"]%string)
     = (Ok tt, s')
     /\ get_question (tree s') 0%nat = Ok qn'
     /\ q_children qn' = [1%nat; 2%nat]
     /\ Forall2 (posterior_child chain_task 0 ["Yes"; "No"]%string c uniform2 0%nat
                   (tree s'))
                ["Yes"; "No"]%string (q_children qn'))
  /\ fst (create_evidence_children text_encode text_distance chain_task failing_collab 0
            0%nat (one_question_store []))
     = Raise (CollaboratorError "likelihood estimation failed").
Proof.
  split.
  - destruct (evidence_children_uniform_likelihood
                string text_encode text_distance unit chain_task answering_collab 0
                0%nat) as [Hchildren _].
    set (s := one_question_store ["Yes"; "No"]%string).
    set (s' := snd (create_evidence_children text_encode text_distance chain_task
                      answering_collab 0 0%nat s)).
    assert (Hrun : create_evidence_children text_encode text_distance chain_task
                     answering_collab 0 0%nat s = (Ok tt, s'))
      by (vm_compute; reflexivity).
    destruct (Hchildren s s' (mkQuestionNode "Is it A?" ["Yes"; "No"]%string 0%nat [])
                Hrun eq_refl eq_refl)
      as [key [s1 [answers [s2 [qn' [Hgc [Hl [Hq' [Hlen Hall]]]]]]]]].
    vm_compute in Hgc. injection Hgc as Hkey Hs1. subst key s1.
    vm_compute in Hl. injection Hl as Hanswers Hs2. subst answers.
    destruct Hall as [c [parent [Hc [Hp Hall]]]]; [discriminate|].
    rewrite <- Hs2 in Hp. vm_compute in Hp. injection Hp as Hp. subst parent.
    exists s', qn', c. repeat split; try assumption.
    vm_compute in Hq'. injection Hq' as Hq'. subst qn'. reflexivity.
  - destruct (evidence_children_uniform_likelihood
                string text_encode text_distance unit chain_task failing_collab 0
                0%nat) as [_ [_ Hempty]].
    assert (Hgc : exists s1,
               get_cluster_m text_encode text_distance "Is it A?"
                 (one_question_store []) = (Ok "0"%string, s1)
               /\ world s1 = tt)
      by (eexists; split; [vm_compute; reflexivity | reflexivity]).
    destruct Hgc as [s1 [Hgc Hw]].
    destruct (Hempty (one_question_store []) s1
                (mkQuestionNode "Is it A?" [] 0%nat []) "0"%string
                (mkCluster [("Is it A?"%string, 1%nat)] [])
                (mkEvidenceNode "ROOT" uniform2 1 None [0%nat])
                eq_refl eq_refl Hgc) as [_ [Hasked _]].
    + vm_compute in Hgc. injection Hgc as Hs1. subst s1. reflexivity.
    + reflexivity.
    + reflexivity.
    + vm_compute in Hgc. injection Hgc as Hs1. subst s1. reflexivity.
    + apply Hasked; [discriminate|]. rewrite Hw. reflexivity.
Defined.

(** C10, counterexample: a question proposed without answers, in a fresh
    cluster.  Both answer sets are empty, and the question phase returns
    normally, without children: no division is attempted. *)
Lemma empty_answers_do_not_divide :
  possible_answers (mkQuestionNode "Is it A?" [] 0%nat []) = []
  /\ get_answers (mkCluster [("Is it A?"%string, 1%nat)] []) = Ok []
  /\ fst (expand_questions text_encode text_distance chain_task quiet_collab 0
                           0%nat 0%Z (one_question_store []))
     = Ok tt
  /\ fst (expand_questions text_encode text_distance chain_task quiet_collab 0
                           0%nat 0%Z (one_question_store []))
     <> Raise ZeroDivisionError
  /\ get_question
       (tree (snd (expand_questions text_encode text_distance chain_task quiet_collab 0
                                    0%nat 0%Z (one_question_store []))))
       0%nat
     = Ok (mkQuestionNode "Is it A?" [] 0%nat []).
Proof.
  repeat split; try (vm_compute; reflexivity).
  vm_compute. discriminate.
Qed.

(** * Further properties *)

(** ** Posterior engine: values and bounds *)

Module PosteriorBounds.
Import Posterior PosteriorFacts.

Lemma py_sum_nonneg (xs : list Q) :
  (forall x, In x xs -> 0 <= x) -> 0 <= py_sum xs.
Proof.
  induction xs as [|x xs IH]; intros H.
  - unfold py_sum. simpl. apply Qle_refl.
  - rewrite py_sum_cons.
    assert (0 <= x) by (apply H; left; reflexivity).
    assert (0 <= py_sum xs) by (apply IH; intros y Hy; apply H; right; exact Hy).
    lra.
Qed.

Lemma py_sum_le_pointwise {A} (f g : A -> Q) (l : list A) :
  (forall x, In x l -> f x <= g x) -> py_sum (map f l) <= py_sum (map g l).
Proof.
  induction l as [|x l IH]; intros H; simpl.
  - apply Qle_refl.
  - rewrite !py_sum_cons.
    assert (f x <= g x) by (apply H; left; reflexivity).
    assert (py_sum (map f l) <= py_sum (map g l))
      by (apply IH; intros y Hy; apply H; right; exact Hy).
    lra.
Qed.

Lemma py_sum_filter_le {A} (f : A -> Q) (keep : A -> bool) (l : list A) :
  (forall x, In x l -> 0 <= f x) ->
  py_sum (map f (filter keep l)) <= py_sum (map f l).
Proof.
  induction l as [|x l IH]; intros H; simpl.
  - apply Qle_refl.
  - assert (0 <= f x) by (apply H; left; reflexivity).
    assert (py_sum (map f (filter keep l)) <= py_sum (map f l))
      by (apply IH; intros y Hy; apply H; right; exact Hy).
    destruct (keep x); simpl; rewrite !py_sum_cons; lra.
Qed.

Lemma py_sum_member_le (xs : list Q) (x : Q) :
  (forall y, In y xs -> 0 <= y) -> In x xs -> x <= py_sum xs.
Proof.
  induction xs as [|y xs IH]; intros Hnn Hin; [contradiction|].
  rewrite py_sum_cons.
  assert (0 <= y) by (apply Hnn; left; reflexivity).
  assert (0 <= py_sum xs)
    by (apply py_sum_nonneg; intros z Hz; apply Hnn; right; exact Hz).
  destruct Hin as [<-|Hin].
  - lra.
  - assert (x <= py_sum xs)
      by (apply IH; [intros z Hz; apply Hnn; right; exact Hz | exact Hin]).
    lra.
Qed.

Lemma dict_get_bounds (lik : dict Q) (h : string) (u lo hi : Q) :
  (forall k v, dict_lookup lik k = Some v -> lo <= v /\ v <= hi) ->
  lo <= u -> u <= hi ->
  lo <= dict_get lik h u /\ dict_get lik h u <= hi.
Proof.
  intros Hl Hlo Hhi. unfold dict_get.
  destruct (dict_lookup lik h) as [v|] eqn:E; [apply (Hl h v E) | auto].
Qed.

Lemma blended_bounds lik u c h :
  (forall k v, dict_lookup lik k = Some v -> 0 <= v /\ v <= 1) ->
  0 <= u -> u <= 1 -> 0 <= c -> c <= 1 ->
  0 <= blended lik u c h /\ blended lik u c h <= 1.
Proof.
  intros Hl Hu0 Hu1 Hc0 Hc1. unfold blended.
  destruct (dict_get_bounds lik h u 0 1 Hl Hu0 Hu1) as [Hg0 Hg1].
  set (g := dict_get lik h u) in *. split; nra.
Qed.

Lemma surviving_incl prior lik minp u c :
  incl (surviving prior lik minp u c) prior.
Proof.
  unfold surviving.
  destruct (filter _ prior) eqn:E; [apply incl_refl|].
  rewrite <- E. intros x Hx. apply filter_In in Hx. apply Hx.
Qed.

(** X2: for probabilities as inputs (a prior with non-negative values summing
    to at most 1, likelihoods, uniform likelihood and confidence in [0,1]),
    the returned marginal lies in [0,1] and so does every returned
    probability. *)
Theorem calculate_posterior_bounds prior lik minp u c post m :
  (forall p, In p (values prior) -> 0 <= p) ->
  py_sum (values prior) <= 1 ->
  (forall k v, dict_lookup lik k = Some v -> 0 <= v /\ v <= 1) ->
  0 <= u -> u <= 1 -> 0 <= c -> c <= 1 ->
  calculate_posterior prior lik minp u c = Ok (post, m) ->
  0 <= m /\ m <= 1 /\ forall p, In p (values post) -> 0 <= p /\ p <= 1.
Proof.
  intros Hnn Hsum Hl Hu0 Hu1 Hc0 Hc1 Hrun.
  apply calculate_posterior_ok_inv in Hrun. destruct Hrun as [Hm [Hpost Hnz]].
  rewrite unnormalised_surviving, map_map in Hpost. cbn [fst snd] in Hpost.
  set (basis := surviving prior lik minp u c) in *.
  set (f := fun hp : string * Q => snd hp * blended lik u c (fst hp)).
  assert (Hvals : values (unnormalised prior lik minp u c) = map f basis).
  { rewrite unnormalised_surviving. unfold values. rewrite map_map. reflexivity. }
  assert (Hprior : forall hp, In hp prior -> 0 <= snd hp).
  { intros hp Hin. apply Hnn. unfold values. apply in_map. exact Hin. }
  assert (Hf : forall hp, In hp prior -> 0 <= f hp /\ f hp <= snd hp).
  { intros hp Hin. unfold f.
    destruct (blended_bounds lik u c (fst hp) Hl Hu0 Hu1 Hc0 Hc1) as [Hb0 Hb1].
    pose proof (Hprior hp Hin). split; nra. }
  assert (Hbasis : forall hp, In hp basis -> In hp prior).
  { intros hp. apply surviving_incl. }
  assert (Hm0 : 0 <= m).
  { rewrite Hm, Hvals. apply py_sum_nonneg. intros x Hx.
    apply in_map_iff in Hx. destruct Hx as [hp [<- Hin]].
    apply Hf. apply Hbasis. exact Hin. }
  assert (Hm1 : m <= 1).
  { rewrite Hm, Hvals.
    apply Qle_trans with (py_sum (map f prior)).
    - unfold basis, surviving.
      destruct (filter _ prior) eqn:E; [apply Qle_refl|].
      rewrite <- E. apply py_sum_filter_le. intros x Hx. apply Hf. exact Hx.
    - apply Qle_trans with (py_sum (map snd prior)); [|exact Hsum].
      apply py_sum_le_pointwise. intros x Hx. apply Hf. exact Hx. }
  split; [exact Hm0|]. split; [exact Hm1|].
  intros p Hp. rewrite Hpost in Hp. unfold values in Hp. rewrite map_map in Hp.
  simpl in Hp. apply in_map_iff in Hp. destruct Hp as [hp [<- Hin]].
  fold (f hp).
  assert (Hne : prior <> []).
  { intros Hnil. apply Hbasis in Hin. rewrite Hnil in Hin. contradiction. }
  specialize (Hnz Hne). apply Qeq_bool_neq in Hnz.
  assert (Hmpos : 0 < m) by (apply Qle_lteq in Hm0; destruct Hm0 as [H|H];
                             [exact H | exfalso; apply Hnz; symmetry; exact H]).
  assert (Hfhp : 0 <= f hp) by (apply Hf; apply Hbasis; exact Hin).
  assert (Hle : f hp <= m).
  { rewrite Hm, Hvals. apply py_sum_member_le.
    - intros y Hy. apply in_map_iff in Hy. destruct Hy as [hq [<- Hq]].
      apply Hf. apply Hbasis. exact Hq.
    - apply in_map. exact Hin. }
  split.
  - apply Qle_shift_div_l; [exact Hmpos|]. lra.
  - apply Qle_shift_div_r; [exact Hmpos|]. lra.
Qed.

Lemma calculate_posterior_bounds_witness :
  exists post m,
    calculate_posterior uniform4 yes_row 0 (1#2) 1 = Ok (post, m)
    /\ 0 <= m /\ m <= 1 /\ forall p, In p (values post) -> 0 <= p /\ p <= 1.
Proof.
  eexists. eexists. split; [vm_compute; reflexivity|].
  eapply (calculate_posterior_bounds uniform4 yes_row 0 (1#2) 1).
  - intros p Hp. simpl in Hp.
    repeat (destruct Hp as [<-|Hp]; [discriminate|]). contradiction.
  - vm_compute. discriminate.
  - intros k v Hk. unfold yes_row in Hk. simpl in Hk.
    repeat (match type of Hk with
            | (if ?b then _ else _) = _ => destruct b
            end; [inversion Hk; subst; split; discriminate|]).
    discriminate.
  - discriminate.
  - discriminate.
  - discriminate.
  - discriminate.
  - vm_compute. reflexivity.
Defined.

(** X3: with a floor that is not positive and non-negative inputs nothing is
    pruned: the posterior has exactly the hypotheses of the prior, in the
    same order. *)
Theorem calculate_posterior_keeps_all prior lik minp u c post m :
  minp <= 0 ->
  (forall p, In p (values prior) -> 0 <= p) ->
  (forall k v, dict_lookup lik k = Some v -> 0 <= v) ->
  0 <= u -> 0 <= c -> c <= 1 ->
  calculate_posterior prior lik minp u c = Ok (post, m) ->
  keys post = keys prior.
Proof.
  intros Hfloor Hnn Hl Hu Hc0 Hc1 Hrun.
  apply calculate_posterior_ok_inv in Hrun. destruct Hrun as [_ [-> _]].
  rewrite unnormalised_surviving, map_map.
  unfold keys. rewrite map_map. simpl.
  assert (Hall : filter (fun hp => Qge_bool (snd hp * blended lik u c (fst hp)) minp)
                        prior = prior).
  { apply forallb_filter_id. apply forallb_forall. intros hp Hin.
    unfold Qge_bool. apply Qle_bool_iff.
    assert (0 <= snd hp) by (apply Hnn; unfold values; apply in_map; exact Hin).
    assert (0 <= blended lik u c (fst hp)).
    { unfold blended.
      assert (0 <= dict_get lik (fst hp) u).
      { unfold dict_get. destruct (dict_lookup lik (fst hp)) eqn:E;
          [apply (Hl _ _ E) | exact Hu]. }
      nra. }
    nra. }
  unfold surviving. rewrite Hall. destruct prior; reflexivity.
Qed.

Lemma calculate_posterior_keeps_all_witness :
  exists post m,
    calculate_posterior uniform4 yes_row 0 (1#2) 1 = Ok (post, m)
    /\ keys post = keys uniform4.
Proof.
  eexists. eexists. split; [vm_compute; reflexivity|].
  eapply (calculate_posterior_keeps_all uniform4 yes_row 0 (1#2) 1).
  - apply Qle_refl.
  - intros p Hp. simpl in Hp.
    repeat (destruct Hp as [<-|Hp]; [discriminate|]). contradiction.
  - intros k v Hk. unfold yes_row in Hk. simpl in Hk.
    repeat (match type of Hk with
            | (if ?b then _ else _) = _ => destruct b
            end; [inversion Hk; subst; discriminate|]).
    discriminate.
  - discriminate.
  - discriminate.
  - discriminate.
  - vm_compute. reflexivity.
Defined.

Lemma py_sum_map_scaled {A} (f g : A -> Q) (k : Q) (l : list A) :
  (forall x, In x l -> f x == g x * k) ->
  py_sum (map f l) == py_sum (map g l) * k.
Proof.
  induction l as [|x l IH]; intros H; simpl.
  - unfold py_sum. simpl. ring.
  - rewrite !py_sum_cons, IH by (intros y Hy; apply H; right; exact Hy).
    rewrite (H x (or_introl eq_refl)). ring.
Qed.

(** X1: an estimator without confidence changes nothing.  With confidence 0,
    a floor that is not positive, a positive uniform likelihood and a prior of
    non-negative values that sum to 1, the call returns, whatever the
    likelihoods are: the marginal is the uniform likelihood and the posterior
    is the prior, hypothesis by hypothesis. *)
Theorem calculate_posterior_no_confidence prior lik minp u :
  minp <= 0 -> 0 < u ->
  (forall p, In p (values prior) -> 0 <= p) ->
  py_sum (values prior) == 1 ->
  exists post m,
    calculate_posterior prior lik minp u 0 = Ok (post, m)
    /\ m == u
    /\ keys post = keys prior
    /\ Forall2 (fun out hp => fst out = fst hp /\ snd out == snd hp) post prior.
Proof.
  intros Hfloor Hu Hnn Hsum.
  set (f := fun hp : string * Q => snd hp * blended lik u 0 (fst hp)).
  assert (Hb : forall h, blended lik u 0 h == u) by (intros h; unfold blended; ring).
  assert (Hall : filter (fun hp => Qge_bool (snd hp * blended lik u 0 (fst hp)) minp)
                        prior = prior).
  { apply forallb_filter_id. apply forallb_forall. intros hp Hin.
    unfold Qge_bool. apply Qle_bool_iff.
    pose proof (Hb (fst hp)) as Hbh.
    assert (0 <= snd hp) by (apply Hnn; unfold values; apply in_map; exact Hin).
    rewrite Hbh. nra. }
  assert (Hsurv : surviving prior lik minp u 0 = prior).
  { unfold surviving. rewrite Hall. destruct prior; reflexivity. }
  assert (Hunnorm : unnormalised prior lik minp u 0
                    = map (fun hp => (fst hp, f hp)) prior).
  { rewrite unnormalised_surviving, Hsurv. reflexivity. }
  assert (Hm : py_sum (values (unnormalised prior lik minp u 0)) == u).
  { rewrite Hunnorm. unfold values. rewrite map_map. cbn [snd].
    rewrite (py_sum_map_scaled f snd u prior).
    - fold (values prior). rewrite Hsum. ring.
    - intros hp _. unfold f. rewrite (Hb (fst hp)). reflexivity. }
  assert (Hnz : Qeq_bool (py_sum (values (unnormalised prior lik minp u 0))) 0 = false).
  { destruct (Qeq_bool _ 0) eqn:E; [|reflexivity].
    apply Qeq_bool_iff in E. rewrite Hm in E. rewrite E in Hu.
    exfalso. apply (Qlt_irrefl 0). exact Hu. }
  rewrite (calculate_posterior_nonzero prior lik minp u 0 Hnz).
  eexists. eexists. split; [reflexivity|]. split; [exact Hm|].
  rewrite Hunnorm, map_map. cbn [fst snd]. split.
  - unfold keys. rewrite map_map. reflexivity.
  - rewrite <- Hunnorm.
    set (m := py_sum (values (unnormalised prior lik minp u 0))) in *.
    clearbody m. clear Hall Hsurv Hunnorm Hnz Hsum Hnn.
    induction prior as [|hp prior IH]; simpl; constructor.
    + split; [reflexivity|]. unfold f. cbn [fst snd].
      rewrite (Hb (fst hp)), Hm. field.
      intros Hz. rewrite Hz in Hu. apply (Qlt_irrefl 0). exact Hu.
    + exact IH.
Qed.

Lemma calculate_posterior_no_confidence_witness :
  exists post m,
    calculate_posterior skewed5 yes_row 0 (1#2) 0 = Ok (post, m)
    /\ m == 1#2
    /\ keys post = keys skewed5
    /\ Forall2 (fun out hp => fst out = fst hp /\ snd out == snd hp) post skewed5.
Proof.
  apply (calculate_posterior_no_confidence skewed5 yes_row 0 (1#2)).
  - apply Qle_refl.
  - reflexivity.
  - intros p Hp. simpl in Hp.
    repeat (destruct Hp as [<-|Hp]; [discriminate|]). contradiction.
  - vm_compute. reflexivity.
Defined.

End PosteriorBounds.

(** ** Reward engine: bounds *)

Section RewardBounds.
Local Open Scope R_scope.

Lemma py_sumR_nonneg (xs : list R) :
  (forall x, In x xs -> 0 <= x) -> 0 <= py_sumR xs.
Proof.
  induction xs as [|x xs IH]; intros H.
  - rewrite py_sumR_nil. lra.
  - rewrite py_sumR_cons.
    assert (0 <= x) by (apply H; left; reflexivity).
    assert (0 <= py_sumR xs) by (apply IH; intros y Hy; apply H; right; exact Hy).
    lra.
Qed.

Lemma log2_nonpos (p : R) : 0 < p -> p <= 1 -> log2 p <= 0.
Proof.
  intros Hp Hp1. unfold log2.
  assert (ln p <= 0).
  { destruct (Rle_lt_or_eq_dec _ _ Hp1) as [Hlt|Heq].
    - apply Rlt_le. rewrite <- ln_1. apply ln_increasing; assumption.
    - rewrite Heq, ln_1. lra. }
  pose proof ln_2_pos.
  unfold Rdiv. assert (0 < / ln 2) by (apply Rinv_0_lt_compat; assumption).
  nra.
Qed.

Lemma shannon_entropy_nonneg (bs : dict Q) :
  (forall p, In p (values bs) -> (p <= 1)%Q) ->
  0 <= shannon_entropy bs.
Proof.
  intros Hle. unfold shannon_entropy.
  rewrite <- Ropp_0. apply Ropp_le_contravar.
  assert (H : 0 <= py_sumR (map (fun prob => - (Q2R prob * log2 (Q2R prob)))
                              (filter (fun prob => Qgt_bool prob 0) (values bs)))).
  { apply py_sumR_nonneg. intros x Hx. apply in_map_iff in Hx.
    destruct Hx as [p [<- Hp]]. apply filter_In in Hp. destruct Hp as [Hin Hpos].
    apply Qgt_bool_iff in Hpos. apply Qlt_Rlt in Hpos.
    rewrite RMicromega.Q2R_0 in Hpos.
    assert (Q2R p <= 1).
    { rewrite <- RMicromega.Q2R_1. apply Qle_Rle. apply Hle. exact Hin. }
    pose proof (log2_nonpos (Q2R p) Hpos H). nra. }
  assert (Hneg : forall l : list Q,
             py_sumR (map (fun prob => - (Q2R prob * log2 (Q2R prob))) l)
             = - py_sumR (map (fun prob => Q2R prob * log2 (Q2R prob)) l)).
  { induction l as [|x l IH]; simpl.
    - rewrite py_sumR_nil. ring.
    - rewrite !py_sumR_cons, IH. ring. }
  rewrite Hneg in H. lra.
Qed.

(** X4: for a belief state that is a distribution (non-negative values that
    sum to 1) the entropy lies between 0 and the logarithm of the number of
    hypotheses with positive probability; so the information gain towards any
    posterior with values at most 1 is at most the entropy of the prior. *)
Theorem shannon_entropy_bounds (prior posterior : dict Q) :
  (forall p, In p (values prior) -> (0 <= p)%Q) ->
  (py_sum (values prior) == 1)%Q ->
  (forall p, In p (values posterior) -> (p <= 1)%Q) ->
  0 <= shannon_entropy prior
  /\ shannon_entropy prior <= log2 (INR (length (support prior)))
  /\ information_gain prior posterior <= shannon_entropy prior.
Proof.
  intros Hnn Hsum Hpost.
  assert (Hle : forall p, In p (values prior) -> (p <= 1)%Q).
  { intros p Hp. rewrite <- Hsum.
    apply PosteriorBounds.py_sum_member_le; assumption. }
  split; [apply shannon_entropy_nonneg; exact Hle|].
  split; [apply shannon_entropy_le_log_support; assumption|].
  unfold information_gain.
  pose proof (shannon_entropy_nonneg posterior Hpost). lra.
Qed.

Lemma shannon_entropy_bounds_witness :
  0 <= shannon_entropy skewed5
  /\ shannon_entropy skewed5 <= log2 (INR (length (support skewed5)))
  /\ information_gain skewed5 uniform4 <= shannon_entropy skewed5.
Proof.
  apply (shannon_entropy_bounds skewed5 uniform4).
  - intros p Hp. simpl in Hp.
    repeat (destruct Hp as [<-|Hp]; [discriminate|]). contradiction.
  - vm_compute. reflexivity.
  - intros p Hp. simpl in Hp.
    repeat (destruct Hp as [<-|Hp]; [discriminate|]). contradiction.
Defined.

End RewardBounds.

(** ** Reward engine: the specificity penalty *)

Lemma py_max_spec (xs : list Q) :
  match py_max xs with
  | Ok m => In m xs /\ forall x, In x xs -> x <= m
  | Raise _ => xs = []
  | _ => False
  end.
Proof.
  destruct xs as [|x xs]; [reflexivity|]. simpl.
  assert (H : forall l a,
             let m := fold_left (fun m y => if Qgt_bool y m then y else m) l a in
             (m = a \/ In m l) /\ a <= m /\ forall y, In y l -> y <= m).
  { induction l as [|y l IH]; intros a; simpl.
    - split; [left; reflexivity|]. split; [apply Qle_refl | intros ? []].
    - destruct (Qgt_bool y a) eqn:E.
      + apply Qgt_bool_iff in E.
        destruct (IH y) as [Hin [Hge Hall]]. split.
        * destruct Hin as [->|Hin]; right; [left; reflexivity | right; exact Hin].
        * split; [lra|]. intros z [<-|Hz]; [exact Hge | apply Hall; exact Hz].
      + assert (y <= a).
        { apply Qnot_lt_le. intros Hlt. apply Qgt_bool_iff in Hlt. congruence. }
        destruct (IH a) as [Hin [Hge Hall]]. split.
        * destruct Hin as [->|Hin]; [left; reflexivity | right; right; exact Hin].
        * split; [exact Hge|]. intros z [<-|Hz]; [lra | apply Hall; exact Hz]. }
  destruct (H xs x) as [Hin [Hge Hall]]. split.
  - destruct Hin as [->|Hin]; [left; reflexivity | right; exact Hin].
  - intros z [<-|Hz]; [exact Hge | apply Hall; exact Hz].
Qed.

Lemma py_min_spec (xs : list Q) :
  match py_min xs with
  | Ok m => In m xs /\ forall x, In x xs -> m <= x
  | Raise _ => xs = []
  | _ => False
  end.
Proof.
  destruct xs as [|x xs]; [reflexivity|]. simpl.
  assert (H : forall l a,
             let m := fold_left (fun m y => if Qgt_bool m y then y else m) l a in
             (m = a \/ In m l) /\ m <= a /\ forall y, In y l -> m <= y).
  { induction l as [|y l IH]; intros a; simpl.
    - split; [left; reflexivity|]. split; [apply Qle_refl | intros ? []].
    - destruct (Qgt_bool a y) eqn:E.
      + apply Qgt_bool_iff in E.
        destruct (IH y) as [Hin [Hge Hall]]. split.
        * destruct Hin as [->|Hin]; right; [left; reflexivity | right; exact Hin].
        * split; [lra|]. intros z [<-|Hz]; [exact Hge | apply Hall; exact Hz].
      + assert (a <= y).
        { apply Qnot_lt_le. intros Hlt. apply Qgt_bool_iff in Hlt. congruence. }
        destruct (IH a) as [Hin [Hge Hall]]. split.
        * destruct Hin as [->|Hin]; [left; reflexivity | right; right; exact Hin].
        * split; [exact Hge|]. intros z [<-|Hz]; [lra | apply Hall; exact Hz]. }
  destruct (H xs x) as [Hin [Hge Hall]]. split.
  - destruct Hin as [->|Hin]; [left; reflexivity | right; exact Hin].
  - intros z [<-|Hz]; [exact Hge | apply Hall; exact Hz].
Qed.

Lemma child_likelihoods_ok t q qn :
  well_formed t = true -> nth_error (question_nodes t) q = Some qn ->
  exists mls,
    child_likelihoods t (q_children qn) = Ok mls
    /\ length mls = length (q_children qn)
    /\ forall ml, In ml mls ->
         exists e en, In e (q_children qn) /\ get_evidence t e = Ok en
                      /\ ml = marginal_likelihood en.
Proof.
  intros Hwf Hq. unfold child_likelihoods.
  assert (H : forall l, incl l (q_children qn) ->
            exists mls,
              mapM (fun e => en <- get_evidence t e ;; Ok (marginal_likelihood en)) l
              = Ok mls
              /\ length mls = length l
              /\ forall ml, In ml mls ->
                   exists e en, In e l /\ get_evidence t e = Ok en
                                /\ ml = marginal_likelihood en).
  { induction l as [|e l IH]; intros Hincl.
    - exists []. simpl. repeat split. intros ml [].
    - destruct (well_formed_child_evidence _ _ _ e Hwf Hq) as [en [Hen _]].
      { apply Hincl. left. reflexivity. }
      destruct IH as [mls [Hm [Hlen Hall]]].
      { intros x Hx. apply Hincl. right. exact Hx. }
      exists (marginal_likelihood en :: mls). simpl.
      rewrite (proj2 (get_evidence_ok t e en) Hen). simpl. rewrite Hm. simpl.
      split; [reflexivity|]. split; [rewrite Hlen; reflexivity|].
      intros ml [<-|Hml].
      + exists e, en. split; [left; reflexivity|].
        split; [apply get_evidence_ok; exact Hen | reflexivity].
      + destruct (Hall ml Hml) as [e' [en' [Hin' [He' Heq]]]].
        exists e', en'. split; [right; exact Hin' | split; assumption]. }
  destruct (H (q_children qn) (incl_refl _)) as [mls Hm]. exists mls. exact Hm.
Qed.

(** On a question with evidence children the penalty is the sharpness
    constant times the spread of the children's marginal likelihoods. *)
Lemma specificity_penalty_spread t q qn s :
  well_formed t = true -> get_question t q = Ok qn -> q_children qn <> [] ->
  exists hi lo e1 en1 e2 en2,
    specificity_penalty t q s = Ok (s * (hi - lo))
    /\ lo <= hi
    /\ In e1 (q_children qn) /\ get_evidence t e1 = Ok en1
    /\ hi = marginal_likelihood en1
    /\ In e2 (q_children qn) /\ get_evidence t e2 = Ok en2
    /\ lo = marginal_likelihood en2.
Proof.
  intros Hwf Hq Hc. pose proof Hq as Hq'. apply get_question_ok in Hq'.
  unfold specificity_penalty. rewrite Hq. simpl.
  destruct (child_likelihoods_ok t q qn Hwf Hq') as [mls [Hm [Hlen Hall]]].
  rewrite Hm. simpl.
  pose proof (py_max_spec mls) as Hmax. pose proof (py_min_spec mls) as Hmin.
  destruct mls as [|ml mls].
  { destruct (q_children qn); [congruence | discriminate]. }
  destruct (py_max (ml :: mls)) as [hi| | |] eqn:Ehi; try discriminate; try contradiction.
  destruct (py_min (ml :: mls)) as [lo| | |] eqn:Elo; try discriminate; try contradiction.
  simpl. destruct Hmax as [Hhi_in Hhi]. destruct Hmin as [Hlo_in Hlo].
  destruct (Hall hi Hhi_in) as [e1 [en1 [Hin1 [He1 Heq1]]]].
  destruct (Hall lo Hlo_in) as [e2 [en2 [Hin2 [He2 Heq2]]]].
  exists hi, lo, e1, en1, e2, en2.
  split; [reflexivity|]. split; [apply Hhi; exact Hlo_in|].
  repeat split; assumption.
Qed.

(** X5: on a question without evidence children [specificity_penalty] fails
    in [max()] with a ValueError.  On a question with children and a
    sharpness constant that is not negative it returns a penalty that is not
    negative, and at most the constant when the marginal likelihoods of the
    children lie in [0,1]. *)
Theorem specificity_penalty_bounds t q qn s :
  well_formed t = true -> get_question t q = Ok qn ->
  (q_children qn = [] ->
   specificity_penalty t q s = Raise (ValueError "max() arg is an empty sequence"))
  /\ (q_children qn <> [] -> 0 <= s ->
      exists p, specificity_penalty t q s = Ok p /\ 0 <= p
        /\ ((forall e en, In e (q_children qn) -> get_evidence t e = Ok en ->
               0 <= marginal_likelihood en /\ marginal_likelihood en <= 1) ->
            p <= s)).
Proof.
  intros Hwf Hq. split.
  - intros Hc. unfold specificity_penalty. rewrite Hq. simpl. rewrite Hc. reflexivity.
  - intros Hc Hs.
    destruct (specificity_penalty_spread t q qn s Hwf Hq Hc)
      as [hi [lo [e1 [en1 [e2 [en2 [Hrun [Hle [Hin1 [He1 [Hhi [Hin2 [He2 Hlo]]]]]]]]]]]]].
    exists (s * (hi - lo)). split; [exact Hrun|]. split; [nra|].
    intros Hrange.
    destruct (Hrange e1 en1 Hin1 He1) as [_ H1].
    destruct (Hrange e2 en2 Hin2 He2) as [H0 _].
    rewrite <- Hhi in H1. rewrite <- Hlo in H0. nra.
Qed.

Lemma specificity_penalty_bounds_witness :
  exists p, specificity_penalty lookahead_tree 0%nat 1 = Ok p /\ 0 <= p.
Proof.
  assert (Hq : exists qn, get_question lookahead_tree 0%nat = Ok qn)
    by (eexists; reflexivity).
  destruct Hq as [qn Hq].
  destruct (specificity_penalty_bounds lookahead_tree 0%nat qn 1 eq_refl Hq)
    as [_ H].
  destruct H as [p [Hp [Hnn _]]].
  - vm_compute in Hq. inversion Hq. discriminate.
  - discriminate.
  - exists p. split; assumption.
Defined.

(** ** Reward engine: immediate and accumulated reward *)

Lemma Q2R_one_plus_pos (p : Q) : 0 <= p -> (1 <= Q2R (1 + p))%R.
Proof.
  intros Hp. rewrite Q2R_plus, RMicromega.Q2R_1.
  apply Qle_Rle in Hp. rewrite RMicromega.Q2R_0 in Hp. lra.
Qed.

Lemma py_divR_ok (a : R) (b : Q) : 0 < b -> py_divR a b = Ok (a / Q2R b)%R.
Proof.
  intros Hb. unfold py_divR.
  destruct (Qeq_bool b 0) eqn:E; [|reflexivity].
  apply Qeq_bool_eq in E. rewrite E in Hb. exfalso. apply (Qlt_irrefl 0). exact Hb.
Qed.

(** At a node below a question with evidence children, [immediate_reward]
    is the division of the information gain by one plus the penalty. *)
Lemma immediate_reward_steps t e en q qn gp s :
  well_formed t = true ->
  get_evidence t e = Ok en -> e_parent en = Some q ->
  get_question t q = Ok qn -> q_children qn <> [] ->
  get_evidence t (q_parent qn) = Ok gp ->
  exists hi lo,
    lo <= hi
    /\ specificity_penalty t q s = Ok (s * (hi - lo))
    /\ immediate_reward t e s
       = py_divR (information_gain (belief_state gp) (belief_state en))
                 (1 + s * (hi - lo)).
Proof.
  intros Hwf He Hp Hq Hc Hg.
  destruct (specificity_penalty_spread t q qn s Hwf Hq Hc)
    as [hi [lo [_ [_ [_ [_ [Hrun [Hle _]]]]]]]].
  exists hi, lo. split; [exact Hle|]. split; [exact Hrun|].
  unfold immediate_reward. rewrite He. simpl. rewrite Hp, Hq. simpl.
  rewrite Hg. simpl. rewrite Hrun. reflexivity.
Qed.

(** X6: with a sharpness constant that is not negative, [immediate_reward] at
    a node whose parent question lists at least one child never divides by
    zero: it returns the information gain from the grandparent's belief state
    divided by [1 + penalty], where the penalty is not negative, so the
    reward is never larger in magnitude than the gain. *)
Theorem immediate_reward_defined t e en q qn gp s :
  well_formed t = true ->
  get_evidence t e = Ok en -> e_parent en = Some q ->
  get_question t q = Ok qn -> q_children qn <> [] ->
  get_evidence t (q_parent qn) = Ok gp ->
  0 <= s ->
  exists p,
    specificity_penalty t q s = Ok p /\ 0 <= p
    /\ immediate_reward t e s
       = Ok (information_gain (belief_state gp) (belief_state en) / Q2R (1 + p))%R
    /\ (Rabs (information_gain (belief_state gp) (belief_state en) / Q2R (1 + p))
        <= Rabs (information_gain (belief_state gp) (belief_state en)))%R.
Proof.
  intros Hwf He Hp Hq Hc Hg Hs.
  destruct (immediate_reward_steps t e en q qn gp s Hwf He Hp Hq Hc Hg)
    as [hi [lo [Hle [Hpp Him]]]].
  assert (Hp0 : 0 <= s * (hi - lo)) by nra.
  exists (s * (hi - lo)). split; [exact Hpp|]. split; [exact Hp0|]. split.
  - rewrite Him. apply py_divR_ok. lra.
  - pose proof (Q2R_one_plus_pos _ Hp0) as H1.
    set (g := information_gain (belief_state gp) (belief_state en)).
    set (d := Q2R (1 + s * (hi - lo))) in *.
    unfold Rdiv. rewrite Rabs_mult.
    assert (Hd : (0 < d)%R) by lra.
    rewrite (Rabs_right (/ d)).
    + assert ((/ d <= 1)%R).
      { rewrite <- Rinv_1. apply Rinv_le_contravar; lra. }
      pose proof (Rabs_pos g).
      assert (0 < / d)%R by (apply Rinv_0_lt_compat; exact Hd).
      nra.
    + apply Rle_ge. apply Rlt_le. apply Rinv_0_lt_compat. exact Hd.
Qed.

Lemma immediate_reward_defined_witness :
  exists r, immediate_reward chain_tree 2%nat 1 = Ok r.
Proof.
  destruct (immediate_reward_defined chain_tree 2%nat
              (mkEvidenceNode "Yes" [("A"%string, 1)] (1#2) (Some 1%nat) [])
              1%nat (mkQuestionNode "Q2" ["Yes"; "No"]%string 1%nat [2%nat])
              (mkEvidenceNode "Yes" [("A"%string, 1#2); ("B"%string, 1#2)] (1#2)
                              (Some 0%nat) [1%nat])
              1 eq_refl eq_refl eq_refl eq_refl)
    as [p [_ [_ [H _]]]].
  - discriminate.
  - reflexivity.
  - discriminate.
  - eexists. exact H.
Defined.

Lemma well_formed_registered_children t e en q :
  children_registered t = true ->
  nth_error (evidence_nodes t) e = Some en -> e_parent en = Some q ->
  exists qn, nth_error (question_nodes t) q = Some qn /\ In e (q_children qn).
Proof.
  intros Hreg He Hp. unfold children_registered in Hreg.
  pose proof (forallb_i_nth _ _ 0%nat e en Hreg He) as H. simpl in H.
  unfold child_registered in H. rewrite Hp in H.
  destruct (nth_error (question_nodes t) q) as [qn|]; [|discriminate].
  exists qn. split; [reflexivity|].
  apply existsb_exists in H. destruct H as [x [Hin Hx]].
  apply Nat.eqb_eq in Hx. subst x. exact Hin.
Qed.

Lemma accumulated_reward_fuel_telescopes t :
  well_formed t = true -> children_registered t = true ->
  forall e r, root_of t e r ->
  forall en rn fuel,
    nth_error (evidence_nodes t) e = Some en ->
    nth_error (evidence_nodes t) r = Some rn ->
    (e < fuel)%nat ->
    accumulated_reward_fuel fuel t e 0
    = Ok (shannon_entropy (belief_state rn) - shannon_entropy (belief_state en))%R.
Proof.
  intros Hwf Hreg e r Hroot.
  induction Hroot as [e en0 He0 Hp0 | e en0 q qn r He0 Hp0 Hq Hroot IH];
    intros en rn fuel He Hr Hfuel.
  - assert (en = en0) by congruence. assert (rn = en0) by congruence. subst en rn.
    destruct fuel as [|fuel]; [lia|]. simpl.
    rewrite (proj2 (get_evidence_ok t e en0) He0). simpl. rewrite Hp0.
    f_equal. ring.
  - assert (en0 = en) by congruence. subst en0. clear He.
    destruct fuel as [|fuel]; [lia|]. simpl.
    rewrite (proj2 (get_evidence_ok t e en) He0). simpl. rewrite Hp0.
    destruct (well_formed_parent _ _ _ _ Hwf He0 Hp0) as [qn' [gp [Hq' [Hg Hlt]]]].
    rewrite Hq in Hq'. inversion Hq'; subst qn'. clear Hq'.
    destruct (well_formed_registered_children t e en q Hreg He0 Hp0)
      as [qn' [Hq' Hin]].
    rewrite Hq in Hq'. inversion Hq'; subst qn'. clear Hq'.
    assert (Hc : q_children qn <> []) by (intros Hnil; rewrite Hnil in Hin; contradiction).
    destruct (immediate_reward_steps t e en q qn gp 0 Hwf
                (proj2 (get_evidence_ok t e en) He0) Hp0
                (proj2 (get_question_ok t q qn) Hq) Hc
                (proj2 (get_evidence_ok t _ gp) Hg))
      as [hi [lo [_ [_ Him]]]].
    rewrite Him, py_divR_ok by (unfold Qlt; simpl; lia). simpl.
    rewrite (proj2 (get_question_ok t q qn) Hq). simpl.
    rewrite (IH gp rn fuel Hg Hr) by lia. simpl.
    f_equal.
    assert (Hp1 : Q2R (1 + 0 * (hi - lo)) = 1%R).
    { rewrite <- RMicromega.Q2R_1. apply Qeq_eqR. ring. }
    rewrite Hp1. unfold information_gain. field.
Qed.

(** X7: with sharpness constant 0 the accumulated reward telescopes: at a
    node [e] whose parent chain ends at the parentless node [r] it is the
    entropy of the belief state of [r] minus the entropy of the belief state
    of [e]. *)
Theorem accumulated_reward_telescopes t e r en rn :
  well_formed t = true -> children_registered t = true ->
  root_of t e r ->
  get_evidence t e = Ok en -> get_evidence t r = Ok rn ->
  accumulated_reward t e 0
  = Ok (shannon_entropy (belief_state rn) - shannon_entropy (belief_state en))%R.
Proof.
  intros Hwf Hreg Hroot He Hr.
  apply get_evidence_ok in He. apply get_evidence_ok in Hr.
  unfold accumulated_reward.
  apply (accumulated_reward_fuel_telescopes t Hwf Hreg e r Hroot en rn _ He Hr).
  apply nth_error_Some. congruence.
Qed.

Lemma accumulated_reward_telescopes_witness :
  accumulated_reward chain_tree 2%nat 0
  = Ok (shannon_entropy uniform4 - shannon_entropy [("A"%string, 1%Q)])%R.
Proof.
  apply (accumulated_reward_telescopes chain_tree 2%nat 0%nat
           (mkEvidenceNode "Yes" [("A"%string, 1)] (1#2) (Some 1%nat) [])
           (mkEvidenceNode "ROOT" uniform4 1 None [0%nat])).
  - reflexivity.
  - reflexivity.
  - eapply root_up; [reflexivity | reflexivity | reflexivity |]. simpl.
    eapply root_up; [reflexivity | reflexivity | reflexivity |]. simpl.
    eapply root_here; reflexivity.
  - reflexivity.
  - reflexivity.
Defined.

(** ** Conversation history *)

Lemma conversation_history_fuel t :
  well_formed t = true ->
  forall e en, nth_error (evidence_nodes t) e = Some en ->
  exists h,
    (forall fuel acc, (e < fuel)%nat ->
       get_conversation_history_fuel fuel t e acc = Ok (h ++ rev acc))
    /\ (forall fuel, (e < fuel)%nat ->
          get_conversation_depth_fuel fuel t e = Ok (length h))
    /\ match e_parent en with
       | None => h = []
       | Some q =>
           exists qn hg,
             nth_error (question_nodes t) q = Some qn
             /\ (forall fuel acc, (q_parent qn < fuel)%nat ->
                   get_conversation_history_fuel fuel t (q_parent qn) acc
                   = Ok (hg ++ rev acc))
             /\ h = hg ++ [(question qn, answer en)]
       end.
Proof.
  intros Hwf e. induction e as [e IH] using lt_wf_ind. intros en He.
  destruct (e_parent en) as [q|] eqn:Hp.
  - destruct (well_formed_parent _ _ _ _ Hwf He Hp) as [qn [gp [Hq [Hg Hlt]]]].
    destruct (IH _ Hlt _ Hg) as [hg [Hhist [Hdepth _]]].
    exists (hg ++ [(question qn, answer en)]). split; [|split].
    + intros fuel acc Hfuel. destruct fuel as [|fuel]; [lia|]. simpl.
      rewrite (proj2 (get_evidence_ok t e en) He). simpl. rewrite Hp.
      rewrite (proj2 (get_question_ok t q qn) Hq). simpl.
      rewrite Hhist by lia. rewrite rev_app_distr. simpl.
      rewrite <- app_assoc. reflexivity.
    + intros fuel Hfuel. destruct fuel as [|fuel]; [lia|]. simpl.
      rewrite (proj2 (get_evidence_ok t e en) He). simpl. rewrite Hp.
      rewrite (proj2 (get_question_ok t q qn) Hq). simpl.
      rewrite Hdepth by lia. simpl. rewrite length_app. simpl.
      f_equal. lia.
    + exists qn, hg. repeat split; assumption.
  - exists []. split; [|split].
    + intros fuel acc Hfuel. destruct fuel as [|fuel]; [lia|]. simpl.
      rewrite (proj2 (get_evidence_ok t e en) He). simpl. rewrite Hp. reflexivity.
    + intros fuel Hfuel. destruct fuel as [|fuel]; [lia|]. simpl.
      rewrite (proj2 (get_evidence_ok t e en) He). simpl. rewrite Hp. reflexivity.
    + reflexivity.
Qed.

(** X8: on a well-formed store [get_conversation_history] returns, oldest
    first, one (question, answer) pair per level of the parent chain: the
    list is as long as [get_conversation_depth] says, it is empty at a node
    without parent, and elsewhere it is the history of the grandparent
    followed by the parent's question and the node's answer. *)
Theorem conversation_history_spec t e en :
  well_formed t = true -> get_evidence t e = Ok en ->
  exists h,
    get_conversation_history t e = Ok h
    /\ get_conversation_depth t e = Ok (length h)
    /\ match e_parent en with
       | None => h = []
       | Some q =>
           exists qn hg,
             get_question t q = Ok qn
             /\ get_conversation_history t (q_parent qn) = Ok hg
             /\ h = hg ++ [(question qn, answer en)]
       end.
Proof.
  intros Hwf He. apply get_evidence_ok in He.
  assert (Hlt : (e < length (evidence_nodes t))%nat)
    by (apply nth_error_Some; congruence).
  destruct (conversation_history_fuel t Hwf e en He) as [h [Hh [Hd Hstep]]].
  exists h. split; [|split].
  - unfold get_conversation_history. rewrite (Hh _ [] Hlt). simpl.
    rewrite app_nil_r. reflexivity.
  - unfold get_conversation_depth. apply Hd. exact Hlt.
  - destruct (e_parent en) as [q|] eqn:Hp; [|exact Hstep].
    destruct Hstep as [qn [hg [Hq [Hg Heq]]]].
    exists qn, hg. split; [apply get_question_ok; exact Hq|]. split; [|exact Heq].
    unfold get_conversation_history.
    destruct (well_formed_parent _ _ _ _ Hwf He Hp) as [qn' [gp [Hq' [_ Hlt']]]].
    rewrite Hq in Hq'. inversion Hq'; subst qn'.
    rewrite (Hg _ []) by lia. simpl. rewrite app_nil_r. reflexivity.
Qed.

Lemma conversation_history_spec_witness :
  get_conversation_history chain_tree 2%nat
  = Ok [("Q1"%string, "Yes"%string); ("Q2"%string, "Yes"%string)].
Proof.
  destruct (conversation_history_spec chain_tree 2%nat
              (mkEvidenceNode "Yes" [("A"%string, 1)] (1#2) (Some 1%nat) [])
              eq_refl eq_refl) as [h [Hh _]].
  rewrite Hh. vm_compute in Hh. inversion Hh. reflexivity.
Defined.

(** ** Clusters: answers and likelihood rows *)

Lemma same_set_incl (xs ys : list string) :
  same_set xs ys = true -> forall x, In x ys -> In x xs.
Proof.
  unfold same_set. intros H x Hx. apply andb_true_iff in H. destruct H as [_ H].
  rewrite forallb_forall in H. apply mem_string_true. apply H. exact Hx.
Qed.

Lemma mapM_one_exception {A B} (f : A -> result B) (l : list A) (e : exn) :
  (forall x, In x l -> (exists y, f x = Ok y) \/ f x = Raise e) ->
  (exists x, In x l /\ f x = Raise e) ->
  mapM f l = Raise e.
Proof.
  induction l as [|x l IH]; intros Hall [x0 [Hin Hx0]]; [contradiction|].
  simpl. destruct (Hall x (or_introl eq_refl)) as [[y Hy]|Hr].
  - rewrite Hy. simpl.
    destruct Hin as [->|Hin]; [congruence|].
    rewrite IH; [reflexivity | |].
    + intros z Hz. apply Hall. right. exact Hz.
    + exists x0. auto.
  - rewrite Hr. reflexivity.
Qed.

(** X9: the two readers of a cluster go together.  For every answer that
    [get_answers] returns, [get_likelihoods_for_answer] finds a likelihood
    under every hypothesis: it returns one entry per hypothesis of the
    cluster, in the same order, each read from that hypothesis' row.  For an
    answer that some hypothesis lacks it raises KeyError. *)
Theorem cluster_rows_cover_answers (c : Cluster) :
  (forall answers a,
      get_answers c = Ok answers -> In a answers ->
      exists row,
        get_likelihoods_for_answer c a = Ok row
        /\ keys row = get_hypotheses c
        /\ forall h v, In (h, v) row ->
             exists r, In (h, r) (likelihoods c) /\ dict_lookup r a = Some v)
  /\ (forall a,
        (exists h r, In (h, r) (likelihoods c) /\ dict_lookup r a = None) ->
        get_likelihoods_for_answer c a = Raise (KeyError a)).
Proof.
  split.
  - intros answers a Hans Hin.
    assert (Hrows : forall h r, In (h, r) (likelihoods c) ->
                     exists v, dict_lookup r a = Some v).
    { unfold get_answers in Hans.
      destruct (likelihoods c) as [|[h0 first] rest] eqn:El.
      - intros h r [].
      - destruct (forallb (fun answers0 => same_set (keys answers0) (keys first))
                          (values rest)) eqn:Eall; [|discriminate].
        inversion Hans. subst answers.
        intros h r [Heq|Hr].
        + inversion Heq. subst. apply dict_lookup_keys. exact Hin.
        + rewrite forallb_forall in Eall.
          apply dict_lookup_keys.
          apply (same_set_incl _ _ (Eall r (in_map snd _ _ Hr))). exact Hin. }
    unfold get_likelihoods_for_answer, get_hypotheses.
    clear Hans. revert Hrows. generalize (likelihoods c). intros l.
    induction l as [|[h r] l IH]; intros Hrows.
    + exists []. simpl. split; [reflexivity|]. split; [reflexivity|].
      intros h v [].
    + destruct (Hrows h r (or_introl eq_refl)) as [v Hv].
      destruct IH as [row [Hrow [Hkeys Hvals]]].
      { intros h' r' H'. apply (Hrows h' r'). right. exact H'. }
      exists ((h, v) :: row). simpl. unfold dict_item at 1. rewrite Hv. simpl.
      rewrite Hrow. simpl. split; [reflexivity|]. split.
      * f_equal. exact Hkeys.
      * intros h' v' [Heq|Hin'].
        -- inversion Heq. subst. exists r. split; [left; reflexivity | exact Hv].
        -- destruct (Hvals h' v' Hin') as [r' [Hr' Hl']].
           exists r'. split; [right; exact Hr' | exact Hl'].
  - intros a [h [r [Hin Hnone]]].
    unfold get_likelihoods_for_answer. apply mapM_one_exception.
    + intros [h' r'] _. simpl. unfold dict_item.
      destruct (dict_lookup r' a); simpl; [left; eexists; reflexivity | right; reflexivity].
    + exists (h, r). split; [exact Hin|]. simpl. unfold dict_item.
      rewrite Hnone. reflexivity.
Qed.

Lemma cluster_rows_cover_answers_witness :
  exists row,
    get_likelihoods_for_answer (mkCluster [] yes_no_likelihoods) "Yes" = Ok row
    /\ keys row = get_hypotheses (mkCluster [] yes_no_likelihoods).
Proof.
  destruct (cluster_rows_cover_answers (mkCluster [] yes_no_likelihoods)) as [H _].
  destruct (H (keys (snd (hd (EmptyString, []) yes_no_likelihoods))) "Yes"%string)
    as [row [Hrow [Hkeys _]]].
  - vm_compute. reflexivity.
  - vm_compute. left. reflexivity.
  - exists row. split; assumption.
Defined.

(** ** Successive cluster lookups *)

Lemma keys_dict_set_present {V} (d : dict V) (k : string) (v v0 : V) :
  dict_lookup d k = Some v0 -> keys (dict_set d k v) = keys d.
Proof.
  induction d as [|[k' v'] d IH]; simpl; [discriminate|].
  destruct (String.eqb k' k) eqn:E; simpl; [reflexivity|].
  intros H. f_equal. apply IH. exact H.
Qed.

Lemma keys_dict_set_absent {V} (d : dict V) (k : string) (v : V) :
  dict_lookup d k = None -> dict_set d k v = d ++ [(k, v)].
Proof.
  induction d as [|[k' v'] d IH]; simpl; [reflexivity|].
  destruct (String.eqb k' k) eqn:E; [discriminate|].
  intros H. f_equal. apply IH. exact H.
Qed.

Lemma sum_dict_set_count (d : dict nat) (k : string) :
  fold_right Nat.add 0%nat (values (dict_set d k (dict_get d k 0%nat + 1)%nat))
  = S (fold_right Nat.add 0%nat (values d)).
Proof.
  unfold dict_get. induction d as [|[k' v'] d IH]; simpl; [reflexivity|].
  destruct (String.eqb k' k) eqn:E; simpl.
  - lia.
  - rewrite IH. lia.
Qed.

Lemma sum_dict_set_replace (d : dict Cluster) (k : string) (c c' : Cluster) :
  dict_lookup d k = Some c -> occurrences c' = S (occurrences c) ->
  fold_right Nat.add 0%nat (map occurrences (values (dict_set d k c')))
  = S (fold_right Nat.add 0%nat (map occurrences (values d))).
Proof.
  intros Hl Hc. induction d as [|[k' v'] d IH]; simpl in *; [discriminate|].
  destruct (String.eqb k' k) eqn:E; simpl.
  - inversion Hl. subst. lia.
  - rewrite IH by exact Hl. lia.
Qed.

Section ClusterCallsFacts.

Variable Embedding : Type.
Variable encode : string -> Embedding.
Variable cosine_distance : Embedding -> Embedding -> Q.

Lemma keyed_lookup (qc : QuestionClustering Embedding) (n : nat) :
  keyed qc ->
  (dict_mem (clusters qc) (str n) = true <-> (n < length (index qc))%nat).
Proof.
  intros Hk. unfold dict_mem.
  assert (H : In (str n) (keys (clusters qc)) <-> (n < length (index qc))%nat).
  { rewrite Hk, in_map_iff. split.
    - intros [m [Hm Hin]]. apply str_injective in Hm. subst.
      apply in_seq in Hin. lia.
    - intros Hlt. exists n. split; [reflexivity | apply in_seq; lia]. }
  rewrite <- H, dict_lookup_keys.
  destruct (dict_lookup (clusters qc) (str n)); split; eauto; try discriminate.
  intros [v Hv]. discriminate.
Qed.

Lemma keyed_consistent (qc : QuestionClustering Embedding) :
  keyed qc -> consistent qc.
Proof.
  intros Hk. split.
  - unfold keyed in Hk. split; intros H.
    + rewrite H in Hk. simpl in Hk.
      destruct (index qc); [reflexivity | discriminate].
    + rewrite H in Hk. simpl in Hk.
      destruct (clusters qc); [reflexivity | discriminate].
  - intros n Hn. apply keyed_lookup; assumption.
Qed.

Lemma get_cluster_keyed (qc : QuestionClustering Embedding) question :
  keyed qc ->
  exists key qc',
    get_cluster encode cosine_distance qc question = Ok (key, qc')
    /\ keyed qc'
    /\ dict_mem (clusters qc') key = true
    /\ total_occurrences qc' = S (total_occurrences qc)
    /\ (length (index qc) <= length (index qc') <= S (length (index qc)))%nat.
Proof.
  intros Hk.
  destruct (get_cluster_cases Embedding encode cosine_distance qc question
              (keyed_consistent qc Hk))
    as [[Hrun _] | [n [d [c [Hq [_ [Hc [_ Hrun]]]]]]]].
  - exists (fst (created encode qc question)), (snd (created encode qc question)).
    rewrite <- surjective_pairing. split; [exact Hrun|].
    assert (Hfresh : dict_lookup (clusters qc) (str (length (index qc))) = None).
    { pose proof (keyed_lookup qc (length (index qc)) Hk) as H. unfold dict_mem in H.
      destruct (dict_lookup (clusters qc) (str (length (index qc)))); [|reflexivity].
      assert (length (index qc) < length (index qc))%nat by (apply H; reflexivity).
      lia. }
    unfold created. simpl. rewrite (keys_dict_set_absent _ _ _ Hfresh).
    split; [|split; [|split]].
    + unfold keyed. simpl. unfold keys. rewrite map_app, length_app. simpl.
      rewrite Nat.add_1_r, seq_S, map_app. simpl. f_equal. exact Hk.
    + unfold dict_mem.
      assert (H : In (str (length (index qc)))
                     (keys (clusters qc ++ [(str (length (index qc)),
                                             mkCluster [(question, 1%nat)] [])]))).
      { unfold keys. rewrite map_app. apply in_or_app. right. left. reflexivity. }
      apply dict_lookup_keys in H. destruct H as [v ->]. reflexivity.
    + unfold total_occurrences. simpl. unfold values. rewrite !map_app.
      rewrite fold_right_app. simpl.
      generalize (map occurrences (map snd (clusters qc))). intros l.
      induction l as [|x l IH]; simpl; [reflexivity|]. rewrite IH. lia.
    + rewrite length_app. simpl. lia.
  - exists (str n), (snd (reused qc question n c)).
    split; [exact Hrun|]. unfold reused. simpl.
    split; [|split; [|split]].
    + unfold keyed. simpl. rewrite (keys_dict_set_present _ _ _ _ Hc). exact Hk.
    + unfold dict_mem. rewrite dict_lookup_set_same. reflexivity.
    + unfold total_occurrences. simpl.
      apply (sum_dict_set_replace _ _ c); [exact Hc|].
      unfold occurrences, count_question. simpl. apply sum_dict_set_count.
    + lia.
Qed.

Lemma dict_mem_set_keeps {V} (d : dict V) (k k' : string) (v : V) :
  dict_mem d k = true -> dict_mem (dict_set d k' v) k = true.
Proof.
  unfold dict_mem. intros H.
  destruct (String.eqb k' k) eqn:E.
  - apply String.eqb_eq in E. subst. rewrite dict_lookup_set_same. reflexivity.
  - apply String.eqb_neq in E. rewrite dict_lookup_set_other by congruence. exact H.
Qed.

Lemma get_clusters_keyed (qs : list string) :
  forall qc : QuestionClustering Embedding,
  keyed qc ->
  exists ks qc',
    get_clusters encode cosine_distance qc qs = Ok (ks, qc')
    /\ keyed qc'
    /\ length ks = length qs
    /\ (forall k, dict_mem (clusters qc) k = true -> dict_mem (clusters qc') k = true)
    /\ (forall k, In k ks -> dict_mem (clusters qc') k = true)
    /\ total_occurrences qc' = (total_occurrences qc + length qs)%nat
    /\ (length (index qc') <= length (index qc) + length qs)%nat.
Proof.
  induction qs as [|q qs IH]; intros qc Hk.
  - exists [], qc. simpl. repeat split; auto; try lia; try contradiction.
  - destruct (get_cluster_keyed qc q Hk) as [key [qc1 [Hrun [Hk1 [Hmem [Htot Hlen]]]]]].
    destruct (IH qc1 Hk1) as [ks [qc' [Hrest [Hk' [Hl [Hkeep [Hin [Htot' Hlen']]]]]]]].
    exists (key :: ks), qc'. simpl. rewrite Hrun. simpl. rewrite Hrest. simpl.
    split; [reflexivity|]. split; [exact Hk'|]. split; [rewrite Hl; reflexivity|].
    assert (Hstep : forall k, dict_mem (clusters qc) k = true ->
                              dict_mem (clusters qc1) k = true).
    { intros k Hkm. clear - Hrun Hkm.
      unfold get_cluster in Hrun.
      destruct ((1 <=? length (clusters qc))%nat).
      - destruct (index_query cosine_distance (index qc) (encode q))
          as [[n d]| | |]; simpl in Hrun; try discriminate.
        destruct (Qge_bool (1 - d) (threshold qc)).
        + destruct (dict_item (clusters qc) (str n)); simpl in Hrun; try discriminate.
          inversion Hrun. subst. simpl. apply dict_mem_set_keeps. exact Hkm.
        + inversion Hrun. subst. simpl. apply dict_mem_set_keeps. exact Hkm.
      - simpl in Hrun. inversion Hrun. subst. simpl.
        apply dict_mem_set_keeps. exact Hkm. }
    split; [intros k Hkm; apply Hkeep; apply Hstep; exact Hkm|].
    split.
    + intros k [<-|Hk0]; [apply Hkeep; exact Hmem | apply Hin; exact Hk0].
    + split; lia.
Qed.

(** X10: lookups that start from a new [QuestionClustering] never raise:
    the cluster of the nearest neighbour is always registered.  After the
    calls, every returned key names a registered cluster, the clusters are
    keyed [str(0)], [str(1)], ... in creation order, one per index entry, at
    most one per question asked, and their question counters add up to the
    number of calls. *)
Theorem get_clusters_from_new (thr : Q) (qs : list string) :
  exists ks qc,
    get_clusters encode cosine_distance (new_clustering thr) qs = Ok (ks, qc)
    /\ length ks = length qs
    /\ (forall k, In k ks -> dict_mem (clusters qc) k = true)
    /\ keys (clusters qc) = map str (seq 0 (length (index qc)))
    /\ (length (index qc) <= length qs)%nat
    /\ total_occurrences qc = length qs.
Proof.
  assert (Hk : keyed (new_clustering (Embedding := Embedding) thr)) by reflexivity.
  destruct (get_clusters_keyed qs _ Hk)
    as [ks [qc [Hrun [Hk' [Hl [_ [Hin [Htot Hlen]]]]]]]].
  exists ks, qc. repeat split; try assumption.
Qed.

End ClusterCallsFacts.

(** ** The expansion keeps the links of the store *)

Lemma forallb_i_intro {A} (f : nat -> A -> bool) (xs : list A) (k : nat) :
  (forall i x, nth_error xs i = Some x -> f (k + i)%nat x = true) ->
  forallb_i f k xs = true.
Proof.
  revert k. induction xs as [|x xs IH]; intros k H; simpl; [reflexivity|].
  apply andb_true_iff. split.
  - rewrite <- (Nat.add_0_r k). apply H. reflexivity.
  - apply IH. intros i y Hy. replace (S k + i)%nat with (k + S i)%nat by lia.
    apply H. exact Hy.
Qed.

Lemma links_ok_iff (t : Tree) :
  well_formed t = true /\ children_registered t = true <-> links_ok t.
Proof.
  split.
  - intros [Hwf Hreg]. split.
    + intros i en Hen. split.
      * intros q Hp.
        destruct (well_formed_parent _ _ _ _ Hwf Hen Hp) as [qn [gp [Hq [_ Hlt]]]].
        destruct (well_formed_registered_children t i en q Hreg Hen Hp)
          as [qn' [Hq' Hin]].
        exists qn. rewrite Hq in Hq'. inversion Hq'; subst. auto.
      * intros q' Hin. apply (well_formed_child_question _ _ _ _ Hwf Hen Hin).
    + intros j qn Hq. split.
      * pose proof (well_formed_question _ _ _ Hwf Hq) as Hok.
        unfold question_ok in Hok. apply andb_true_iff in Hok.
        apply Nat.ltb_lt. apply Hok.
      * intros e Hin. apply (well_formed_child_evidence _ _ _ _ Hwf Hq Hin).
  - intros [Hev Hqs]. split.
    + unfold well_formed. apply andb_true_iff. split.
      * apply forallb_i_intro. intros i en Hen. simpl.
        destruct (Hev i en Hen) as [Hpar Hch].
        unfold evidence_ok. apply andb_true_iff. split.
        -- destruct (e_parent en) as [q|]; [|reflexivity].
           destruct (Hpar q eq_refl) as [qn [-> [Hlt _]]]. apply Nat.ltb_lt. exact Hlt.
        -- apply forallb_forall. intros q' Hin.
           destruct (Hch q' Hin) as [qn' [-> Heq]]. apply Nat.eqb_eq. exact Heq.
      * apply forallb_i_intro. intros j qn Hq. simpl.
        destruct (Hqs j qn Hq) as [Hlt Hch].
        unfold question_ok. apply andb_true_iff. split.
        -- apply Nat.ltb_lt. exact Hlt.
        -- apply forallb_forall. intros e Hin.
           destruct (Hch e Hin) as [en [-> ->]]. apply Nat.eqb_refl.
    + unfold children_registered. apply forallb_i_intro. intros i en Hen. simpl.
      destruct (Hev i en Hen) as [Hpar _]. unfold child_registered.
      destruct (e_parent en) as [q|]; [|reflexivity].
      destruct (Hpar q eq_refl) as [qn [-> [_ Hin]]].
      apply existsb_exists. exists i. split; [exact Hin | apply Nat.eqb_refl].
Qed.

(** Relabelling a question node (its answers) leaves the links alone. *)
Lemma links_ok_relabel (t : Tree) (q : qid) (f : QuestionNode -> QuestionNode) :
  (forall n, q_parent (f n) = q_parent n /\ q_children (f n) = q_children n) ->
  links_ok t ->
  links_ok (mkTree (evidence_nodes t) (list_update (question_nodes t) q f)).
Proof.
  intros Hf [Hev Hqs]. split; simpl.
  - intros i en Hen. destruct (Hev i en Hen) as [Hpar Hch]. split.
    + intros p Hp. destruct (Hpar p Hp) as [qn [Hq [Hlt Hin]]].
      rewrite nth_error_list_update, Hq.
      destruct (q =? p)%nat; simpl; eexists; split; try reflexivity.
      * destruct (Hf qn) as [-> ->]. auto.
      * auto.
    + intros q' Hin. destruct (Hch q' Hin) as [qn' [Hq' Heq]].
      rewrite nth_error_list_update, Hq'.
      destruct (q =? q')%nat; simpl; eexists; split; try reflexivity.
      * destruct (Hf qn') as [-> _]. exact Heq.
      * exact Heq.
  - intros j qn Hq. rewrite nth_error_list_update in Hq.
    destruct (q =? j)%nat.
    + destruct (nth_error (question_nodes t) j) as [qn0|] eqn:E; [|discriminate].
      simpl in Hq. inversion Hq. subst qn.
      destruct (Hf qn0) as [-> ->]. apply (Hqs j qn0 E).
    + apply (Hqs j qn Hq).
Qed.

(** A new evidence node under question [q], appended to the child list of
    [q]. *)
Lemma links_ok_add_child (t : Tree) (q : qid) (qn : QuestionNode)
    (en_new : EvidenceNode) :
  nth_error (question_nodes t) q = Some qn ->
  e_parent en_new = Some q -> e_children en_new = [] ->
  links_ok t ->
  links_ok
    (mkTree (evidence_nodes t ++ [en_new])
       (list_update (question_nodes t) q
          (fun n => mkQuestionNode (question n) (possible_answers n) (q_parent n)
                      (q_children n ++ [length (evidence_nodes t)])))).
Proof.
  intros Hq Hp Hc [Hev Hqs].
  set (n := length (evidence_nodes t)).
  set (f := fun n0 => mkQuestionNode (question n0) (possible_answers n0) (q_parent n0)
                        (q_children n0 ++ [n])).
  assert (Hlook : forall p qp, nth_error (question_nodes t) p = Some qp ->
            exists qp', nth_error (list_update (question_nodes t) q f) p = Some qp'
                        /\ q_parent qp' = q_parent qp
                        /\ (forall x, In x (q_children qp) -> In x (q_children qp'))).
  { intros p qp Hqp. rewrite nth_error_list_update, Hqp.
    destruct (q =? p)%nat; simpl; eexists; split; try reflexivity; simpl.
    - split; [reflexivity|]. intros x Hx. apply in_or_app. left. exact Hx.
    - auto. }
  split; simpl.
  - intros i en Hen.
    assert (Hi : (i < n)%nat \/ (i = n /\ en = en_new)).
    { destruct (Nat.lt_ge_cases i n) as [Hlt|Hge]; [left; exact Hlt|].
      right. rewrite nth_error_app2 in Hen by exact Hge. fold n in Hen.
      destruct (i - n)%nat as [|k] eqn:Ek; simpl in Hen.
      - inversion Hen. split; [lia | reflexivity].
      - destruct k; discriminate. }
    destruct Hi as [Hlt|[-> ->]].
    + rewrite nth_error_app1 in Hen by exact Hlt.
      destruct (Hev i en Hen) as [Hpar Hch]. split.
      * intros p Hpp. destruct (Hpar p Hpp) as [qp [Hqp [Hlt' Hin]]].
        destruct (Hlook p qp Hqp) as [qp' [Hqp' [Hpa Hsub]]].
        exists qp'. split; [exact Hqp'|]. split; [rewrite Hpa; exact Hlt' | auto].
      * intros q' Hin. destruct (Hch q' Hin) as [qn' [Hq' Heq]].
        destruct (Hlook q' qn' Hq') as [qp' [Hqp' [Hpa _]]].
        exists qp'. split; [exact Hqp' | congruence].
    + split.
      * intros p Hpp. rewrite Hp in Hpp. inversion Hpp. subst p.
        exists (f qn). split.
        -- rewrite nth_error_list_update, Nat.eqb_refl, Hq. reflexivity.
        -- simpl. split; [apply (Hqs q qn Hq) | apply in_or_app; right; left; reflexivity].
      * rewrite Hc. intros q' [].
  - intros j qj Hqj. rewrite length_app. simpl.
    rewrite nth_error_list_update in Hqj.
    destruct (q =? j)%nat eqn:Ej.
    + apply Nat.eqb_eq in Ej. subst j. rewrite Hq in Hqj. simpl in Hqj.
      inversion Hqj. subst qj. simpl.
      destruct (Hqs q qn Hq) as [Hlt Hch]. split; [lia|].
      intros e Hin. apply in_app_or in Hin. destruct Hin as [Hin|[<-|[]]].
      * destruct (Hch e Hin) as [en [Hen Hpe]]. exists en. split; [|exact Hpe].
        rewrite nth_error_app1; [exact Hen|]. apply nth_error_Some. congruence.
      * exists en_new. split; [|exact Hp].
        rewrite nth_error_app2 by (unfold n; lia).
        unfold n. rewrite Nat.sub_diag. reflexivity.
    + destruct (Hqs j qj Hqj) as [Hlt Hch]. split; [lia|].
      intros e Hin. destruct (Hch e Hin) as [en [Hen Hpe]]. exists en.
      split; [|exact Hpe].
      rewrite nth_error_app1; [exact Hen|]. apply nth_error_Some. congruence.
Qed.

(** New childless question nodes under evidence node [e], appended to the
    child list of [e]. *)
Lemma links_ok_add_questions (t : Tree) (e : eid) (en : EvidenceNode)
    (news : list QuestionNode) :
  nth_error (evidence_nodes t) e = Some en ->
  (forall qn, In qn news -> q_parent qn = e /\ q_children qn = []) ->
  links_ok t ->
  links_ok
    (mkTree
       (list_update (evidence_nodes t) e
          (fun n => mkEvidenceNode (answer n) (belief_state n) (marginal_likelihood n)
                      (e_parent n)
                      (e_children n ++ seq (length (question_nodes t)) (length news))))
       (question_nodes t ++ news)).
Proof.
  intros He Hnews [Hev Hqs].
  set (m := length (question_nodes t)).
  set (g := fun n => mkEvidenceNode (answer n) (belief_state n) (marginal_likelihood n)
                       (e_parent n) (e_children n ++ seq m (length news))).
  assert (Hold : forall p qp, nth_error (question_nodes t) p = Some qp ->
                  nth_error (question_nodes t ++ news) p = Some qp).
  { intros p qp Hqp. rewrite nth_error_app1; [exact Hqp|].
    apply nth_error_Some. congruence. }
  split; simpl.
  - intros i en' Hen'. rewrite nth_error_list_update in Hen'.
    assert (Hi : exists en0, nth_error (evidence_nodes t) i = Some en0
                 /\ e_parent en' = e_parent en0
                 /\ ((e_children en' = e_children en0)
                     \/ (i = e /\ e_children en' = e_children en0 ++ seq m (length news)))).
    { destruct (e =? i)%nat eqn:Ei.
      - apply Nat.eqb_eq in Ei. subst i. rewrite He in Hen'. simpl in Hen'.
        inversion Hen'. exists en. simpl. auto.
      - exists en'. auto. }
    destruct Hi as [en0 [Hen0 [Hpar' Hch']]].
    destruct (Hev i en0 Hen0) as [Hpar Hch]. split.
    + intros p Hp. rewrite Hpar' in Hp. destruct (Hpar p Hp) as [qp [Hqp Hrest]].
      exists qp. split; [apply Hold; exact Hqp | exact Hrest].
    + intros q' Hin.
      assert (Hcase : In q' (e_children en0) \/ (i = e /\ In q' (seq m (length news)))).
      { destruct Hch' as [Heq|[Hie Heq]]; rewrite Heq in Hin; [left; exact Hin|].
        apply in_app_or in Hin. destruct Hin; [left | right]; auto. }
      destruct Hcase as [Hin0|[-> Hin1]].
      * destruct (Hch q' Hin0) as [qn' [Hq' Heq]]. exists qn'.
        split; [apply Hold; exact Hq' | exact Heq].
      * apply in_seq in Hin1.
        destruct (nth_error news (q' - m)) as [qn'|] eqn:En.
        -- exists qn'. split.
           ++ rewrite nth_error_app2 by (unfold m in *; lia). exact En.
           ++ apply Hnews. apply (nth_error_In _ _ En).
        -- apply nth_error_None in En. lia.
  - intros j qj Hqj. rewrite length_list_update.
    assert (Hlook : forall c en0, nth_error (evidence_nodes t) c = Some en0 ->
              exists en1, nth_error (list_update (evidence_nodes t) e g) c = Some en1
                          /\ e_parent en1 = e_parent en0).
    { intros c en0 Hc. rewrite nth_error_list_update, Hc.
      destruct (e =? c)%nat; simpl; eexists; split; reflexivity. }
    destruct (Nat.lt_ge_cases j m) as [Hlt|Hge].
    + rewrite nth_error_app1 in Hqj by exact Hlt.
      destruct (Hqs j qj Hqj) as [Hlt' Hch]. split; [exact Hlt'|].
      intros c Hin. destruct (Hch c Hin) as [en0 [Hc Hpc]].
      destruct (Hlook c en0 Hc) as [en1 [Hc1 Hp1]].
      exists en1. split; [exact Hc1 | congruence].
    + rewrite nth_error_app2 in Hqj by exact Hge.
      apply nth_error_In in Hqj. destruct (Hnews qj Hqj) as [-> ->].
      split; [apply nth_error_Some; congruence | intros c []].
Qed.

Section Keeps.

Variable S : Type.
Variable P : S -> Prop.

Lemma keeps_ret {A} (a : A) : keeps P (ret a).
Proof. intros s H. exact H. Qed.

Lemma keeps_lift {A} (r : result A) : keeps P (lift r).
Proof. intros s H. exact H. Qed.

Lemma keeps_gets {A} (f : S -> A) : keeps P (gets f).
Proof. intros s H. exact H. Qed.

Lemma keeps_bind {A B} (m : M S A) (k : A -> M S B) :
  keeps P m -> (forall a, keeps P (k a)) -> keeps P (bind m k).
Proof.
  intros Hm Hk s Hs. specialize (Hm s Hs). rewrite bind_run.
  destruct (m s) as [[a|e| |] s']; simpl in *; try exact Hm.
  apply Hk. exact Hm.
Qed.

Lemma keeps_for_each {A} (f : A -> M S unit) (xs : list A) :
  (forall x, keeps P (f x)) -> keeps P (for_each f xs).
Proof.
  intros Hf. induction xs as [|x xs IH]; simpl.
  - apply keeps_ret.
  - apply keeps_bind; [apply Hf | intros _; exact IH].
Qed.

Lemma keeps_try_except {A} (m : M S A) (handler : exn -> M S A) :
  keeps P m -> (forall e, keeps P (handler e)) -> keeps P (try_except m handler).
Proof.
  intros Hm Hh s Hs. specialize (Hm s Hs). unfold try_except.
  destruct (m s) as [[a|e| |] s']; simpl in *; try exact Hm.
  apply Hh. exact Hm.
Qed.

End Keeps.

Lemma keeps_zoom {S T A} (P : T -> Prop) (get : S -> T) (set : T -> S -> S)
    (m : M T A) :
  (forall t s, get (set t s) = t) ->
  keeps P m -> keeps (fun s => P (get s)) (zoom get set m).
Proof.
  intros Hgs Hm s Hs. unfold zoom. specialize (Hm (get s) Hs).
  destruct (m (get s)) as [r t']. simpl in *. rewrite Hgs. exact Hm.
Qed.

Section ExpansionLinks.

Variable Embedding : Type.
Variable encode : string -> Embedding.
Variable cosine_distance : Embedding -> Embedding -> Q.
Variable World : Type.
Variable task : TaskParams.
Variable collab : Collaborators World.
Variable min_probability : Q.

Lemma keeps_same_tree {A} (m : M (Store Embedding World) A) :
  (forall s, tree (snd (m s)) = tree s) -> keeps store_links m.
Proof.
  intros H s Hs. unfold store_links. rewrite H. exact Hs.
Qed.

Lemma update_question_relabel_keeps q (f : QuestionNode -> QuestionNode) :
  (forall n, q_parent (f n) = q_parent n /\ q_children (f n) = q_children n) ->
  keeps store_links (update_question (Embedding := Embedding) (World := World) q f).
Proof.
  intros Hf s Hs. unfold store_links. simpl. apply links_ok_relabel; assumption.
Qed.

Lemma add_evidence_child_keeps q key answers a :
  keeps store_links
    (add_evidence_child (Embedding := Embedding) (World := World)
       task min_probability q key answers a).
Proof.
  intros s Hok.
  destruct (add_evidence_child task min_probability q key answers a s) as [r s'] eqn:H.
  simpl. unfold add_evidence_child in H.
  apply bind_inv in H. destruct H as [[c [sa [Hm H]]]|[_ [r0 [Hm _]]]];
    [unfold read_cluster in Hm; injection Hm as Hm Hs; subst sa
    |unfold read_cluster in Hm; injection Hm as _ Hs; subst s'; exact Hok].
  apply bind_inv in H. destruct H as [[lik [sa [Hm1 H]]]|[_ [r0 [Hm1 _]]]];
    [unfold lift in Hm1; injection Hm1 as Hm1 Hs; subst sa
    |unfold lift in Hm1; injection Hm1 as _ Hs; subst s'; exact Hok].
  apply bind_inv in H. destruct H as [[qn [sa [Hm2 H]]]|[_ [r0 [Hm2 _]]]];
    [unfold read_question in Hm2; injection Hm2 as Hm2 Hs; subst sa
    |unfold read_question in Hm2; injection Hm2 as _ Hs; subst s'; exact Hok].
  apply bind_inv in H. destruct H as [[parent [sa [Hm3 H]]]|[_ [r0 [Hm3 _]]]];
    [unfold read_evidence in Hm3; injection Hm3 as Hm3 Hs; subst sa
    |unfold read_evidence in Hm3; injection Hm3 as _ Hs; subst s'; exact Hok].
  apply bind_inv in H. destruct H as [[u [sa [Hm4 H]]]|[_ [r0 [Hm4 _]]]];
    [unfold lift in Hm4; injection Hm4 as Hm4 Hs; subst sa
    |unfold lift in Hm4; injection Hm4 as _ Hs; subst s'; exact Hok].
  apply bind_inv in H. destruct H as [[pm [sa [Hm5 H]]]|[_ [r0 [Hm5 _]]]];
    [unfold lift in Hm5; injection Hm5 as Hm5 Hs; subst sa
    |unfold lift in Hm5; injection Hm5 as _ Hs; subst s'; exact Hok].
  rewrite bind_run in H. simpl in H. injection H as _ Hs'. subst s'.
  unfold store_links. simpl.
  apply (links_ok_add_child (tree s) q qn); try reflexivity; [|exact Hok].
  apply get_question_ok. exact Hm2.
Qed.

Lemma map_m_new_question (e : eid) (l : dict (list string))
    (s : Store Embedding World) :
  map_m (fun qa => new_question (mkQuestionNode (fst qa) (snd qa) e [])) l s
  = (Ok (seq (length (question_nodes (tree s))) (length l)),
     set_tree
       (mkTree (evidence_nodes (tree s))
          (question_nodes (tree s)
           ++ map (fun qa => mkQuestionNode (fst qa) (snd qa) e []) l)) s).
Proof.
  revert s. induction l as [|qa l IH]; intros s.
  - simpl. unfold ret. rewrite app_nil_r. destruct s as [[ev qs] c w rq]. reflexivity.
  - simpl. rewrite bind_run. simpl. rewrite bind_run, IH. simpl.
    rewrite length_app. simpl. rewrite Nat.add_1_r, <- app_assoc. reflexivity.
Qed.

Lemma create_question_children_keeps e :
  keeps store_links (create_question_children (Embedding := Embedding) collab e).
Proof.
  intros s Hok.
  destruct (create_question_children collab e s) as [r s'] eqn:H.
  simpl. unfold create_question_children in H.
  apply bind_inv in H. destruct H as [[en [sa [Hm H]]]|[_ [r0 [Hm _]]]];
    [unfold read_evidence in Hm; injection Hm as Hm Hs; subst sa
    |unfold read_evidence in Hm; injection Hm as _ Hs; subst s'; exact Hok].
  destruct (e_children en) as [|c cs] eqn:Hch.
  2:{ injection H as _ Hs. subst s'. exact Hok. }
  apply bind_inv in H. destruct H as [[t [sa [Hm1 H]]]|[_ [r0 [Hm1 _]]]];
    [unfold gets in Hm1; injection Hm1 as Hm1 Hs; subst sa
    |unfold gets in Hm1; injection Hm1 as _ Hs; subst s'; exact Hok].
  subst t.
  apply bind_inv in H. destruct H as [[nq [s1 [Hm2 H]]]|[_ [r0 [Hm2 _]]]].
  2:{ pose proof (call_world_tree Embedding World
                    (create_questions collab (tree s) e) s) as Ht.
      rewrite Hm2 in Ht. simpl in Ht. unfold store_links. rewrite Ht. exact Hok. }
  assert (Ht : tree s1 = tree s).
  { pose proof (call_world_tree Embedding World
                  (create_questions collab (tree s) e) s) as Ht.
    rewrite Hm2 in Ht. exact Ht. }
  rewrite bind_run, map_m_new_question in H. simpl in H.
  injection H as _ Hs'. subst s'. unfold store_links. simpl. rewrite Ht.
  rewrite <- (length_map (fun qa => mkQuestionNode (fst qa) (snd qa) e []) nq).
  apply (links_ok_add_questions (tree s) e en).
  - apply get_evidence_ok. exact Hm.
  - intros qn Hin. apply in_map_iff in Hin. destruct Hin as [qa [<- _]]. auto.
  - exact Hok.
Qed.

End ExpansionLinks.

(** Proves that a computation built from the store operations keeps the
    links of the store. *)
Ltac keeps_tac :=
  lazymatch goal with
  | |- keeps _ (bind _ _) => apply keeps_bind; [keeps_tac | intros ?; keeps_tac]
  | |- keeps _ (ret _) => apply keeps_ret
  | |- keeps _ (lift _) => apply keeps_lift
  | |- keeps _ (gets _) => apply keeps_gets
  | |- keeps _ (update_question _ _) =>
      apply update_question_relabel_keeps; intros ?; split; reflexivity
  | |- keeps _ (get_cluster_m _ _ _) =>
      apply keeps_same_tree; intros ?; apply get_cluster_m_tree
  | |- keeps _ (call_world _) =>
      apply keeps_same_tree; intros ?; apply call_world_tree
  | |- keeps _ (for_each _ _) => apply keeps_for_each; intros ?; keeps_tac
  | |- keeps _ (match ?x with _ => _ end) => destruct x; keeps_tac
  | |- keeps _ _ => try (apply keeps_same_tree; intros ?; reflexivity)
  end.

Section ExpansionKeepsLinks.

Variable Embedding : Type.
Variable encode : string -> Embedding.
Variable cosine_distance : Embedding -> Embedding -> Q.
Variable World : Type.
Variable task : TaskParams.
Variable collab : Collaborators World.
Variable min_probability : Q.

Lemma locked_section_keeps q qn key :
  keeps store_links (locked_section (Embedding := Embedding) collab q qn key).
Proof. unfold locked_section. keeps_tac. Qed.

Lemma create_evidence_children_keeps q :
  keeps store_links
    (create_evidence_children encode cosine_distance task collab min_probability q).
Proof.
  unfold create_evidence_children. keeps_tac.
  - apply locked_section_keeps.
  - apply add_evidence_child_keeps.
Qed.

Lemma expand_evidence_fuel_keeps fuel :
  forall e depth,
    keeps store_links
      (expand_evidence_fuel encode cosine_distance task collab min_probability
         fuel e depth).
Proof.
  induction fuel as [|fuel IH]; intros e depth; simpl.
  - keeps_tac.
  - keeps_tac.
    + apply create_question_children_keeps.
    + unfold expand_questions_with. keeps_tac.
      * apply create_evidence_children_keeps.
      * apply IH.
Qed.

(** X11: whatever its outcome (it returns, or a collaborator or the
    posterior raises in the middle), [expand_evidence] leaves a well-formed
    store in which every evidence node is listed by its parent question, when
    it starts from one; so does [expand_questions]. *)
Theorem expansion_keeps_well_formed (s : Store Embedding World) :
  well_formed (tree s) = true -> children_registered (tree s) = true ->
  (forall e depth,
     let s' := snd (expand_evidence encode cosine_distance task collab
                      min_probability e depth s) in
     well_formed (tree s') = true /\ children_registered (tree s') = true)
  /\ (forall q depth,
     let s' := snd (expand_questions encode cosine_distance task collab
                      min_probability q depth s) in
     well_formed (tree s') = true /\ children_registered (tree s') = true).
Proof.
  intros Hwf Hreg.
  assert (Hok : store_links s) by (apply links_ok_iff; split; assumption).
  split.
  - intros e depth s'. apply links_ok_iff.
    apply (expand_evidence_fuel_keeps _ e depth s Hok).
  - intros q depth s'. apply links_ok_iff.
    assert (H : keeps store_links
                  (expand_questions encode cosine_distance task collab
                     min_probability q depth)).
    { unfold expand_questions, expand_questions_with. keeps_tac.
      - apply create_evidence_children_keeps.
      - apply expand_evidence_fuel_keeps. }
    apply (H s Hok).
Qed.

End ExpansionKeepsLinks.

Lemma expansion_keeps_well_formed_witness :
  well_formed
    (tree (snd (expand_evidence text_encode text_distance chain_task guiding_collab 0
                  0%nat 0%Z (store failing_start)))) = true.
Proof.
  destruct (expansion_keeps_well_formed string text_encode text_distance unit chain_task
              guiding_collab 0 (store failing_start) eq_refl eq_refl) as [H _].
  exact (proj1 (H 0%nat 0%Z)).
Defined.

(** ** The record of a run *)

Section RunRecords.

Variable Embedding : Type.
Variable encode : string -> Embedding.
Variable cosine_distance : Embedding -> Embedding -> Q.
Variable World : Type.
Variable task : TaskParams.
Variable collab : Collaborators World.
Variable min_probability : Q.
Variable sharpness_constant : Q.

Lemma loop_body_keeps_links :
  keeps (fun r : RunState Embedding World => store_links (store r))
    (loop_body encode cosine_distance task collab min_probability sharpness_constant).
Proof.
  unfold loop_body.
  apply keeps_bind; [apply keeps_gets | intros node].
  apply keeps_bind.
  { unfold in_store.
    apply (keeps_zoom store_links (@store Embedding World) (@set_store Embedding World)).
    - reflexivity.
    - apply expand_evidence_fuel_keeps. }
  intros _. apply keeps_bind; [apply keeps_gets | intros t].
  apply keeps_bind; [apply keeps_lift | intros en].
  apply keeps_bind; [apply keeps_lift | intros best].
  apply keeps_bind; [intros r Hr; exact Hr | intros _].
  apply keeps_bind.
  { unfold in_store.
    apply (keeps_zoom store_links (@store Embedding World) (@set_store Embedding World)).
    - reflexivity.
    - apply keeps_same_tree. intros s. apply call_world_tree. }
  intros sel. apply keeps_bind; [apply keeps_gets | intros t'].
  apply keeps_bind; [apply keeps_lift | intros _].
  apply keeps_bind; [intros r Hr; exact Hr | intros _].
  intros r Hr. exact Hr.
Qed.

Lemma run_loop_unfold fuel (r : RunState Embedding World) :
  run_loop encode cosine_distance task collab min_probability sharpness_constant
           (S fuel) r
  = match is_terminal (tree (store r)) (current_node r) task with
    | Ok true => (Ok tt, r)
    | Ok false =>
        match loop_body encode cosine_distance task collab min_probability
                        sharpness_constant r with
        | (Ok _, r1) =>
            run_loop encode cosine_distance task collab min_probability
                     sharpness_constant fuel r1
        | (Raise e, r1) => (Raise e, r1)
        | (OutOfFuel, r1) => (OutOfFuel, r1)
        | (IllFormed, r1) => (IllFormed, r1)
        end
    | Raise e => (Raise e, r)
    | OutOfFuel => (OutOfFuel, r)
    | IllFormed => (IllFormed, r)
    end.
Proof.
  cbn [run_loop].
  rewrite bind_run. cbn [gets]. rewrite bind_run. cbn [gets].
  rewrite bind_run. unfold lift at 1.
  destruct (is_terminal (tree (store r)) (current_node r) task) as [[|]|e| |];
    reflexivity.
Qed.

Lemma run_loop_outcome fuel :
  forall (r r' : RunState Embedding World) (res : result unit),
    run_loop encode cosine_distance task collab min_probability sharpness_constant
             fuel r = (res, r') ->
    store_links (store r) ->
    (exists en, nth_error (evidence_nodes (tree (store r))) (current_node r) = Some en) ->
    store_links (store r')
    /\ grows (store r) (store r')
    /\ exists rounds pending,
         final_path r' = final_path r ++ rounds_path rounds ++ pending
         /\ current_node r' = last_node (current_node r) rounds
         /\ (length rounds <= fuel)%nat
         /\ (pending = [] \/ exists q, pending = [QuestionRef q])
         /\ (exists en, nth_error (evidence_nodes (tree (store r'))) (current_node r')
                        = Some en)
         /\ (res = Ok tt ->
             pending = []
             /\ is_terminal (tree (store r')) (current_node r') task = Ok true).
Proof.
  induction fuel as [|fuel IH]; intros r r' res Hrun Hok Hcur.
  - simpl in Hrun. inversion Hrun; subst.
    split; [exact Hok|]. split; [apply grows_refl|].
    exists [], []. simpl. rewrite app_nil_r.
    split; [reflexivity|]. split; [reflexivity|]. split; [lia|].
    split; [left; reflexivity|]. split; [exact Hcur|]. discriminate.
  - rewrite run_loop_unfold in Hrun.
    assert (Hstop : forall res0, (res0, r) = (res, r') ->
              (res0 = Ok tt ->
               is_terminal (tree (store r)) (current_node r) task = Ok true) ->
              store_links (store r')
              /\ grows (store r) (store r')
              /\ exists rounds pending,
                   final_path r' = final_path r ++ rounds_path rounds ++ pending
                   /\ current_node r' = last_node (current_node r) rounds
                   /\ (length rounds <= S fuel)%nat
                   /\ (pending = [] \/ exists q, pending = [QuestionRef q])
                   /\ (exists en, nth_error (evidence_nodes (tree (store r')))
                                            (current_node r') = Some en)
                   /\ (res = Ok tt ->
                       pending = []
                       /\ is_terminal (tree (store r')) (current_node r') task
                          = Ok true)).
    { intros res0 Heq Hterm. inversion Heq; subst.
      split; [exact Hok|]. split; [apply grows_refl|].
      exists [], []. simpl. rewrite app_nil_r.
      split; [reflexivity|]. split; [reflexivity|]. split; [lia|].
      split; [left; reflexivity|]. split; [exact Hcur|].
      intros Hres0. split; [reflexivity | apply Hterm; exact Hres0]. }
    destruct (is_terminal (tree (store r)) (current_node r) task)
      as [[|]|e| |] eqn:Hterm;
      try (apply (Hstop _ Hrun); intros; (reflexivity || discriminate)).
    pose proof (loop_body_keeps_links r Hok) as Hok1.
    destruct (loop_body encode cosine_distance task collab min_probability
                sharpness_constant r) as [res1 r1] eqn:Hbody.
    destruct (loop_body_outcome _ _ _ _ _ _ _ _ _ _ _ Hbody) as [Hgrow Hres].
    simpl in Hok1.
    assert (Hfail : (forall u, res1 <> Ok u) -> (res1, r1) = (res, r') ->
              store_links (store r')
              /\ grows (store r) (store r')
              /\ exists rounds pending,
                   final_path r' = final_path r ++ rounds_path rounds ++ pending
                   /\ current_node r' = last_node (current_node r) rounds
                   /\ (length rounds <= S fuel)%nat
                   /\ (pending = [] \/ exists q, pending = [QuestionRef q])
                   /\ (exists en, nth_error (evidence_nodes (tree (store r')))
                                            (current_node r') = Some en)
                   /\ (res = Ok tt ->
                       pending = []
                       /\ is_terminal (tree (store r')) (current_node r') task
                          = Ok true)).
    { intros Hne Heq. inversion Heq; subst res r'.
      assert (Hshape : current_node r1 = current_node r
                /\ (final_path r1 = final_path r
                    \/ exists q, final_path r1 = final_path r ++ [QuestionRef q])).
      { destruct res1 as [u|e0| |]; try exact Hres.
        exfalso. apply (Hne u). reflexivity. }
      destruct Hshape as [Hc Hp].
      split; [exact Hok1|]. split; [exact Hgrow|].
      destruct Hcur as [en Hen]. destruct (Hgrow _ _ Hen) as [en' [Hen' _]].
      destruct Hp as [Hp|[q Hp]].
      - exists [], []. simpl. rewrite app_nil_r.
        split; [exact Hp|]. split; [exact Hc|]. split; [lia|].
        split; [left; reflexivity|].
        split; [exists en'; rewrite Hc; exact Hen'|].
        intros Hres0. exfalso. apply (Hne tt). exact Hres0.
      - exists [], [QuestionRef q]. simpl.
        split; [exact Hp|]. split; [exact Hc|]. split; [lia|].
        split; [right; exists q; reflexivity|].
        split; [exists en'; rewrite Hc; exact Hen'|].
        intros Hres0. exfalso. apply (Hne tt). exact Hres0. }
    destruct res1 as [[]|e| |];
      try (apply (Hfail ltac:(intros; discriminate) Hrun)).
    destruct Hres as [q [sel [en [Hpath [Hc Hen]]]]].
    destruct (IH r1 r' res Hrun Hok1) as [Hok' [Hgrow' Hrest]].
    { exists en. rewrite Hc. exact Hen. }
    destruct Hrest as [rounds [pending [Hp' [Hc' [Hlen [Hpend [Hcur' Hend]]]]]]].
    split; [exact Hok'|].
    split; [apply (grows_trans _ _ _ _ _ Hgrow Hgrow')|].
    exists ((q, sel) :: rounds), pending.
    split; [|split; [|split; [|split; [|split]]]].
    + rewrite Hp', Hpath. simpl. rewrite <- !app_assoc. reflexivity.
    + rewrite last_node_cons, Hc', Hc. reflexivity.
    + simpl. lia.
    + exact Hpend.
    + exact Hcur'.
    + exact Hend.
Qed.

(** X12: when the loop of [run_task] ends without an exception, the node it
    stopped at is terminal, every pass has added its question and the
    evidence node of the answer to the path, the current node is the last
    evidence node of the path, and the store is still well-formed with every
    evidence node listed by its parent question. *)
Theorem run_loop_ends_terminal fuel (r r' : RunState Embedding World) :
  well_formed (tree (store r)) = true ->
  children_registered (tree (store r)) = true ->
  (exists en, get_evidence (tree (store r)) (current_node r) = Ok en) ->
  run_loop encode cosine_distance task collab min_probability sharpness_constant
           fuel r = (Ok tt, r') ->
  is_terminal (tree (store r')) (current_node r') task = Ok true
  /\ well_formed (tree (store r')) = true
  /\ children_registered (tree (store r')) = true
  /\ exists rounds,
       final_path r' = final_path r ++ rounds_path rounds
       /\ current_node r' = last_node (current_node r) rounds
       /\ (length rounds <= fuel)%nat.
Proof.
  intros Hwf Hreg [en Hen] Hrun.
  assert (Hok : store_links (store r)) by (apply links_ok_iff; split; assumption).
  destruct (run_loop_outcome fuel r r' (Ok tt) Hrun Hok) as [Hok' [_ Hrest]].
  { exists en. apply get_evidence_ok. exact Hen. }
  destruct Hrest as [rounds [pending [Hp [Hc [Hlen [_ [_ Hend]]]]]]].
  destruct (Hend eq_refl) as [-> Hterm].
  apply links_ok_iff in Hok'. destruct Hok' as [Hwf' Hreg'].
  split; [exact Hterm|]. split; [exact Hwf'|]. split; [exact Hreg'|].
  exists rounds. rewrite app_nil_r in Hp. auto.
Qed.

(** What [finish_run] returns: the guarded loop, then the record. *)
Lemma finish_run_shape fuel (r0 final : RunState Embedding World) (record : RunRecord) :
  finish_run encode cosine_distance task collab min_probability sharpness_constant
             fuel r0 = (Ok record, final) ->
  store_links (store r0) ->
  (exists en, nth_error (evidence_nodes (tree (store r0))) (current_node r0) = Some en) ->
  links_ok (serialised_tree record)
  /\ exists rounds pending en,
       record_final_path record = final_path r0 ++ rounds_path rounds ++ pending
       /\ (pending = [] \/ exists q, pending = [QuestionRef q])
       /\ (length rounds <= fuel)%nat
       /\ get_evidence (serialised_tree record) (last_node (current_node r0) rounds)
          = Ok en
       /\ final_belief_state record = belief_state en.
Proof.
  intros Hfin Hok0 Hcur0.
  unfold finish_run in Hfin. rewrite bind_run in Hfin. unfold try_except in Hfin.
  destruct (run_loop encode cosine_distance task collab min_probability
              sharpness_constant fuel r0) as [res r'] eqn:Hrun.
  destruct (run_loop_outcome fuel r0 r' res Hrun Hok0 Hcur0) as [Hok' [_ Hrest]].
  destruct Hrest as [rounds [pending [Hp [Hc [Hlen [Hpend [_ _]]]]]]].
  assert (Hrec : (r <<- gets (fun r => r) ;;
                  en <<- lift (get_evidence (tree (store r)) (current_node r)) ;;
                  ret (mkRunRecord (final_path r) (belief_state en) (tree (store r))))
                   r' = (Ok record, final)).
  { destruct res as [[]|e| |]; simpl in Hfin; try discriminate; exact Hfin. }
  rewrite bind_run in Hrec. cbn [gets] in Hrec. rewrite bind_run in Hrec.
  unfold lift at 1 in Hrec.
  destruct (get_evidence (tree (store r')) (current_node r')) as [en|e| |] eqn:Hen;
    try discriminate.
  cbn [ret] in Hrec. inversion Hrec. subst final. simpl.
  split; [exact Hok'|].
  exists rounds, pending, en.
  split; [exact Hp|]. split; [exact Hpend|]. split; [exact Hlen|].
  split; [|reflexivity].
  rewrite <- Hen, Hc. reflexivity.
Qed.

(** X13: every record that [run_task] returns, after a normal end of the
    loop or after an exception in it, holds a well-formed tree; its path is
    the root followed by one (question, evidence) pair per completed pass and
    at most one pending question, and its belief state is the one of the
    last evidence node of the path. *)
Theorem run_task_record fuel (qc : QuestionClustering Embedding) (w w' : World)
    (record : RunRecord) :
  run_task encode cosine_distance task collab min_probability sharpness_constant
           fuel qc w = (Ok record, w') ->
  well_formed (serialised_tree record) = true
  /\ children_registered (serialised_tree record) = true
  /\ exists rounds pending en,
       record_final_path record = EvidenceRef 0%nat :: rounds_path rounds ++ pending
       /\ (pending = [] \/ exists q, pending = [QuestionRef q])
       /\ (length rounds <= fuel)%nat
       /\ get_evidence (serialised_tree record) (last_node 0%nat rounds) = Ok en
       /\ final_belief_state record = belief_state en.
Proof.
  unfold run_task.
  destruct (create_initial_belief_state collab w) as [[bs|e| |] w1]; try discriminate.
  destruct (finish_run encode cosine_distance task collab min_probability
              sharpness_constant fuel (initial_run_state qc w1 bs))
    as [res final] eqn:Hfin.
  intros H. inversion H; subst res w'. clear H.
  destruct (finish_run_shape fuel _ _ _ Hfin) as [Hlinks Hshape].
  - apply links_ok_iff. split; reflexivity.
  - eexists. reflexivity.
  - apply links_ok_iff in Hlinks. destruct Hlinks as [Hwf Hreg].
    split; [exact Hwf|]. split; [exact Hreg|]. exact Hshape.
Qed.

End RunRecords.

Lemma run_loop_ends_terminal_witness :
  exists r',
    run_loop text_encode text_distance chain_task guiding_collab 0 1 2%nat failing_start
    = (Ok tt, r')
    /\ is_terminal (tree (store r')) (current_node r') chain_task = Ok true.
Proof.
  assert (H : exists r',
             run_loop text_encode text_distance chain_task guiding_collab 0 1 2%nat
                      failing_start = (Ok tt, r'))
    by (eexists; vm_compute; reflexivity).
  destruct H as [r' Hrun]. exists r'. split; [exact Hrun|].
  destruct (run_loop_ends_terminal string text_encode text_distance unit chain_task
              guiding_collab 0 1 2%nat failing_start r' eq_refl eq_refl
              (ex_intro _ _ eq_refl) Hrun) as [H _].
  exact H.
Defined.

Lemma run_task_record_witness :
  exists record,
    fst (run_task text_encode text_distance chain_task guiding_collab 0 1 2%nat
                  (new_clustering 1) tt) = Ok record
    /\ well_formed (serialised_tree record) = true.
Proof.
  assert (H : exists record w',
             run_task text_encode text_distance chain_task guiding_collab 0 1 2%nat
                      (new_clustering 1) tt = (Ok record, w'))
    by (eexists; eexists; vm_compute; reflexivity).
  destruct H as [record [w' Hrun]]. exists record.
  split; [rewrite Hrun; reflexivity|].
  destruct (run_task_record string text_encode text_distance unit chain_task
              guiding_collab 0 1 2%nat (new_clustering 1) tt w' record Hrun) as [H _].
  exact H.
Defined.

(** ** Evaluation of runs *)

Module EvaluationFacts.
Import Evaluation.

Lemma insert_desc_in (x z : string * Q) (l : list (string * Q)) :
  In z (insert_desc x l) <-> z = x \/ In z l.
Proof.
  induction l as [|y l IH]; simpl.
  - split; [intros [H|[]]; left; auto | intros [H|[]]; left; auto].
  - destruct (Qgt_bool (snd x) (snd y)); simpl.
    + split; [intros [H|H]; auto | intros [H|H]; auto].
    + rewrite IH. split.
      * intros [H|[H|H]]; auto.
      * intros [H|[H|H]]; auto.
Qed.

Lemma insert_desc_sorted (x : string * Q) (l : list (string * Q)) :
  desc_sorted l -> desc_sorted (insert_desc x l).
Proof.
  unfold desc_sorted. induction l as [|y l IH]; intros Hs; simpl.
  - constructor; constructor.
  - inversion Hs as [|? ? Hl Hy]; subst.
    destruct (Qgt_bool (snd x) (snd y)) eqn:E.
    + apply Qgt_bool_iff in E. constructor; [exact Hs|].
      constructor; [apply Qlt_le_weak; exact E|].
      rewrite Forall_forall in *. intros z Hz.
      apply Qle_trans with (snd y); [apply Hy; exact Hz | apply Qlt_le_weak; exact E].
    + assert (Hle : snd x <= snd y).
      { apply Qnot_lt_le. intros Hlt. apply Qgt_bool_iff in Hlt. congruence. }
      constructor; [apply IH; exact Hl|].
      rewrite Forall_forall in *. intros z Hz.
      apply insert_desc_in in Hz. destruct Hz as [->|Hz]; [exact Hle | apply Hy; exact Hz].
Qed.

Lemma sorted_desc_from (d acc : list (string * Q)) :
  desc_sorted acc ->
  desc_sorted (fold_left (fun a x => insert_desc x a) d acc)
  /\ forall z, In z (fold_left (fun a x => insert_desc x a) d acc) <-> In z acc \/ In z d.
Proof.
  revert acc. induction d as [|x d IH]; intros acc Hs; simpl.
  - split; [exact Hs|]. intros z. split; [auto | intros [H|[]]; exact H].
  - destruct (IH (insert_desc x acc) (insert_desc_sorted x acc Hs)) as [Hs' Hin].
    split; [exact Hs'|]. intros z. rewrite Hin, insert_desc_in.
    split; [intros [[H|H]|H]; auto | intros [H|[H|H]]; auto].
Qed.

Lemma sorted_desc_spec (d : dict Q) :
  desc_sorted (sorted_desc d) /\ forall z, In z (sorted_desc d) <-> In z d.
Proof.
  destruct (sorted_desc_from d [] (SSorted_nil _)) as [Hs Hin].
  split; [exact Hs|]. intros z. rewrite (Hin z). split; [intros [[]|H]; exact H | auto].
Qed.

Lemma mem_firstn_more (x : string) (l : list string) (n m : nat) :
  (n <= m)%nat -> mem_string x (firstn n l) = true -> mem_string x (firstn m l) = true.
Proof.
  intros Hnm H. apply mem_string_true in H. apply mem_string_true.
  revert n m Hnm H. induction l as [|y l IH]; intros n m Hnm H.
  - rewrite firstn_nil in H. contradiction.
  - destruct n as [|n]; [contradiction|]. destruct m as [|m]; [lia|].
    simpl in *. destruct H as [H|H]; [left; exact H | right].
    apply (IH n m); [lia | exact H].
Qed.

(** X14: in the evaluation of a run, a top-1 hit is a top-3 hit; the
    expected answer is the top-1 guess only if no hypothesis of the final
    belief state is more probable than it, and it is the top-1 guess whenever
    it is more probable than every other one. *)
Theorem get_run_eval_ranking (run_history : RunHistory) :
  let ev := get_run_eval run_history in
  let belief := final_belief_state run_history in
  (top1 ev = true -> top3 ev = true)
  /\ (top1 ev = true ->
      exists pe, In (expected_answer run_history, pe) belief
                 /\ forall h p, In (h, p) belief -> p <= pe)
  /\ (forall pe,
        In (expected_answer run_history, pe) belief ->
        (forall h p, In (h, p) belief -> h <> expected_answer run_history -> p < pe) ->
        top1 ev = true).
Proof.
  intros ev belief. unfold ev, get_run_eval. cbv zeta. cbn [top1 top3].
  fold belief. destruct (sorted_desc_spec belief) as [Hs Hin].
  split; [|split].
  - apply mem_firstn_more. lia.
  - intros H. apply mem_string_true in H.
    destruct (sorted_desc belief) as [|[h0 p0] l] eqn:E; simpl in H; [contradiction|].
    destruct H as [H|[]]. subst h0.
    exists p0. split; [apply Hin; left; reflexivity|].
    intros h p Hhp. apply Hin in Hhp. destruct Hhp as [Heq|Hl].
    + inversion Heq. apply Qle_refl.
    + inversion Hs as [|? ? _ Hall]; subst. rewrite Forall_forall in Hall.
      apply (Hall (h, p) Hl).
  - intros pe Hpe Hmax. apply mem_string_true.
    destruct (sorted_desc belief) as [|[h0 p0] l] eqn:E.
    + apply Hin in Hpe. contradiction.
    + simpl. left.
      destruct (string_dec h0 (expected_answer run_history)) as [Heq|Hne]; [exact Heq|].
      exfalso.
      assert (H0 : In (h0, p0) belief) by (apply Hin; left; reflexivity).
      pose proof (Hmax h0 p0 H0 Hne) as Hlt.
      apply Hin in Hpe. destruct Hpe as [Heq|Hl].
      * inversion Heq. subst. apply (Qlt_irrefl _ Hlt).
      * inversion Hs as [|? ? _ Hall]; subst. rewrite Forall_forall in Hall.
        pose proof (Hall _ Hl) as Hle. simpl in Hle.
        apply (Qlt_irrefl pe). apply Qle_lt_trans with p0; assumption.
Qed.

Lemma sum_int_from (xs : list Z) (a : Z) : fold_left Z.add xs a = (a + sum_int xs)%Z.
Proof.
  unfold sum_int. revert a. induction xs as [|x xs IH]; intros a; simpl.
  - lia.
  - rewrite IH, (IH x). lia.
Qed.

Lemma sum_int_cons (x : Z) (xs : list Z) : sum_int (x :: xs) = (x + sum_int xs)%Z.
Proof. unfold sum_int at 1. simpl. rewrite sum_int_from. lia. Qed.

Lemma sum_flags_bounds (f g : RunEval -> bool) (l : list RunEval) :
  (forall r, In r l -> f r = true -> g r = true) ->
  (0 <= sum_int (map (fun r => Z.b2z (f r)) l)
   <= sum_int (map (fun r => Z.b2z (g r)) l))%Z
  /\ (sum_int (map (fun r => Z.b2z (g r)) l) <= Z.of_nat (length l))%Z.
Proof.
  induction l as [|r l IH]; intros H.
  - unfold sum_int. simpl. lia.
  - simpl map. rewrite !sum_int_cons.
    destruct IH as [IH1 IH2]; [intros r' Hr'; apply H; right; exact Hr'|].
    pose proof (H r (or_introl eq_refl)) as Hr.
    simpl length.
    destruct (f r); destruct (g r); cbn [Z.b2z]; try lia;
      specialize (Hr eq_refl); discriminate.
Qed.

Lemma true_div_ok (a b : Z) :
  (0 < b)%Z -> true_div a b = Ok (inject_Z a / inject_Z b).
Proof.
  intros Hb. unfold true_div, py_div.
  destruct (Qeq_bool (inject_Z b) 0) eqn:E; [|reflexivity].
  apply Qeq_bool_eq in E. unfold Qeq in E. simpl in E. lia.
Qed.

Lemma true_div_zero (a : Z) : true_div a 0 = Raise ZeroDivisionError.
Proof. reflexivity. Qed.

Lemma max_min_int_ok (xs : list Z) :
  xs <> [] -> exists hi lo, max_int xs = Ok hi /\ min_int xs = Ok lo.
Proof.
  destruct xs as [|x xs]; [congruence|]. intros _. simpl. eauto.
Qed.

(** X15: [get_group_eval] divides by the number of runs and by the number of
    runs with a top-1 hit: it raises ZeroDivisionError when the list of runs
    is empty and also when no run of the list has a top-1 hit.  When some
    run has one, it returns; the number of runs is the length of the list and
    the rates satisfy [0 <= top1 <= top3 <= 1] when every top-1 hit is a top-3
    hit. *)
Theorem get_group_eval_outcome (run_evals : list RunEval) :
  (existsb top1 run_evals = false ->
   get_group_eval run_evals = Raise ZeroDivisionError)
  /\ (existsb top1 run_evals = true ->
      exists g,
        get_group_eval run_evals = Ok g
        /\ num_runs g = Z.of_nat (length run_evals)
        /\ ((forall r, In r run_evals -> top1 r = true -> top3 r = true) ->
            0 <= group_top1 g /\ group_top1 g <= group_top3 g /\ group_top3 g <= 1)).
Proof.
  unfold get_group_eval. split.
  - intros Hnone. destruct run_evals as [|r l]; [reflexivity|].
    assert (Hn : (0 < Z.of_nat (length (r :: l)))%Z) by (simpl; lia).
    rewrite !(true_div_ok _ _ Hn). cbn [rbind].
    assert (Hf : filter top1 (r :: l) = []).
    { destruct (filter top1 (r :: l)) as [|x f] eqn:Ef; [reflexivity|].
      assert (Hx : In x (filter top1 (r :: l))) by (rewrite Ef; left; reflexivity).
      apply filter_In in Hx. destruct Hx as [Hx E].
      assert (existsb top1 (r :: l) = true)
        by (apply existsb_exists; exists x; split; assumption).
      congruence. }
    rewrite Hf. reflexivity.
  - intros Hsome. apply existsb_exists in Hsome. destruct Hsome as [r0 [Hin0 Ht0]].
    assert (Hn : (0 < Z.of_nat (length run_evals))%Z).
    { destruct run_evals; [contradiction | simpl; lia]. }
    assert (Hs : (0 < Z.of_nat (length (map conversation_length
                                          (filter top1 run_evals))))%Z).
    { rewrite length_map.
      assert (In r0 (filter top1 run_evals)) by (apply filter_In; split; assumption).
      destruct (filter top1 run_evals); [contradiction | simpl; lia]. }
    rewrite !(true_div_ok _ _ Hn), (true_div_ok _ _ Hs). cbn [rbind].
    destruct (max_min_int_ok (map run_end_time run_evals)) as [hi [lo0 [Hhi _]]].
    { destruct run_evals; [contradiction | discriminate]. }
    destruct (max_min_int_ok (map run_start_time run_evals)) as [hi0 [lo [_ Hlo]]].
    { destruct run_evals; [contradiction | discriminate]. }
    rewrite Hhi, Hlo. cbn [rbind].
    eexists. split; [reflexivity|]. simpl. split; [reflexivity|].
    intros Himp.
    destruct (sum_flags_bounds top1 top3 run_evals Himp) as [[H0 H1] H2].
    set (a := sum_int (map (fun r => Z.b2z (top1 r)) run_evals)) in *.
    set (b := sum_int (map (fun r => Z.b2z (top3 r)) run_evals)) in *.
    set (n := Z.of_nat (length run_evals)) in *.
    assert (Hnq : 0 < inject_Z n) by (unfold Qlt; simpl; lia).
    split; [|split].
    + apply Qle_shift_div_l; [exact Hnq|]. rewrite Qmult_0_l.
      unfold Qle; simpl; lia.
    + apply Qle_shift_div_l; [exact Hnq|].
      assert (Hz : ~ inject_Z n == 0)
        by (intros Hz; rewrite Hz in Hnq; apply (Qlt_irrefl _ Hnq)).
      assert (Heq : inject_Z a / inject_Z n * inject_Z n == inject_Z a)
        by (field; exact Hz).
      rewrite Heq. unfold Qle; simpl; lia.
    + apply Qle_shift_div_r; [exact Hnq|]. rewrite Qmult_1_l.
      unfold Qle; simpl; lia.
Qed.

Lemma get_group_eval_outcome_witness :
  get_group_eval [mkRunEval false true 0 10 3 0 0 0 0; mkRunEval false false 5 20 4 0 0 0 0]
  = Raise ZeroDivisionError.
Proof.
  apply (get_group_eval_outcome
           [mkRunEval false true 0 10 3 0 0 0 0; mkRunEval false false 5 20 4 0 0 0 0]).
  reflexivity.
Defined.

End EvaluationFacts.

Lemma get_run_eval_ranking_witness :
  Evaluation.top1
    (Evaluation.get_run_eval
       (Evaluation.mkRunHistory (Evaluation.mkLLMRequestSession 0 0)
          (Evaluation.mkLLMRequestSession 0 0) "A" 0 1 [EvidenceRef 0%nat] skewed5))
  = true.
Proof.
  destruct (EvaluationFacts.get_run_eval_ranking
              (Evaluation.mkRunHistory (Evaluation.mkLLMRequestSession 0 0)
                 (Evaluation.mkLLMRequestSession 0 0) "A" 0 1 [EvidenceRef 0%nat]
                 skewed5)) as [_ [_ H]].
  apply (H (1#2)).
  - left. reflexivity.
  - intros h p Hin Hne. simpl in Hin.
    repeat (destruct Hin as [Hin|Hin];
            [inversion Hin; subst; try reflexivity; exfalso; apply Hne; reflexivity|]).
    contradiction.
Defined.

(** ** The conversation length of an engine run *)

Section ConversationLength.

Variable Embedding : Type.
Variable encode : string -> Embedding.
Variable cosine_distance : Embedding -> Embedding -> Q.
Variable World : Type.
Variable task : TaskParams.
Variable collab : Collaborators World.
Variable min_probability : Q.
Variable sharpness_constant : Q.

Lemma rounds_path_length (rounds : list (qid * eid)) :
  length (rounds_path rounds) = (2 * length rounds)%nat.
Proof.
  unfold rounds_path. induction rounds as [|r rounds IH]; simpl; [reflexivity|].
  rewrite IH. lia.
Qed.

(** X16: for a record returned by [run_task], the conversation length that
    [get_run_eval] reports is the number of completed passes of the loop,
    plus one when the run was interrupted after a question was chosen and
    before its answer arrived. *)
Theorem conversation_length_counts_rounds fuel (qc : QuestionClustering Embedding)
    (w w' : World) (record : RunRecord) (run_history : Evaluation.RunHistory) :
  run_task encode cosine_distance task collab min_probability sharpness_constant
           fuel qc w = (Ok record, w') ->
  Evaluation.final_path run_history = record_final_path record ->
  exists rounds pending,
    record_final_path record = EvidenceRef 0%nat :: rounds_path rounds ++ pending
    /\ (pending = [] \/ exists q, pending = [QuestionRef q])
    /\ Evaluation.conversation_length (Evaluation.get_run_eval run_history)
       = Z.of_nat (length rounds + length pending).
Proof.
  intros Hrun Hpath. unfold run_task in Hrun.
  destruct (create_initial_belief_state collab w) as [[bs|e| |] w1]; try discriminate.
  destruct (finish_run encode cosine_distance task collab min_probability
              sharpness_constant fuel (initial_run_state qc w1 bs))
    as [res final] eqn:Hfin.
  inversion Hrun; subst res w'. clear Hrun.
  destruct (finish_run_shape Embedding encode cosine_distance World task collab
              min_probability sharpness_constant fuel _ _ _ Hfin)
    as [_ [rounds [pending [en [Hp [Hpend _]]]]]].
  { apply links_ok_iff. split; reflexivity. }
  { eexists. reflexivity. }
  simpl in Hp.
  exists rounds, pending. split; [exact Hp|]. split; [exact Hpend|].
  unfold Evaluation.get_run_eval. cbv zeta. cbn [Evaluation.conversation_length].
  rewrite Hpath, Hp. simpl length. rewrite length_app, rounds_path_length.
  destruct Hpend as [->|[q ->]]; simpl length.
  - replace (Z.of_nat (S (2 * length rounds + 0)))
      with (1 + 2 * Z.of_nat (length rounds))%Z by lia.
    rewrite Nat.add_0_r.
    symmetry. apply Z.div_unique with (r := 1%Z); lia.
  - replace (Z.of_nat (S (2 * length rounds + 1)))
      with (2 * Z.of_nat (length rounds + 1))%Z by lia.
    symmetry. apply Z.div_unique with (r := 0%Z); lia.
Qed.

End ConversationLength.

(** A run with one completed pass and a question left pending: the answerer
    raises at the second question.  The path has four entries and the
    conversation length is 2. *)
Lemma conversation_length_counts_rounds_witness :
  exists record,
    fst (run_task text_encode text_distance patient_task tiring_collab 0 1 3%nat
                  (new_clustering 1) tt) = Ok record
    /\ record_final_path record
       = [EvidenceRef 0%nat; QuestionRef 0%nat; EvidenceRef 1%nat; QuestionRef 1%nat]
    /\ Evaluation.conversation_length
         (Evaluation.get_run_eval
            (Evaluation.mkRunHistory (Evaluation.mkLLMRequestSession 0 0)
               (Evaluation.mkLLMRequestSession 0 0) "A" 0 1
               (record_final_path record) (final_belief_state record)))
       = 2%Z.
Proof.
  assert (H : exists record w',
             run_task text_encode text_distance patient_task tiring_collab 0 1 3%nat
                      (new_clustering 1) tt = (Ok record, w')
             /\ record_final_path record
                = [EvidenceRef 0%nat; QuestionRef 0%nat; EvidenceRef 1%nat;
                   QuestionRef 1%nat])
    by (eexists; eexists; vm_compute; split; reflexivity).
  destruct H as [record [w' [Hrun Hpath]]]. exists record.
  split; [rewrite Hrun; reflexivity|]. split; [exact Hpath|].
  destruct (conversation_length_counts_rounds string text_encode text_distance unit
              patient_task tiring_collab 0 1 3%nat (new_clustering 1) tt w' record
              (Evaluation.mkRunHistory (Evaluation.mkLLMRequestSession 0 0)
                 (Evaluation.mkLLMRequestSession 0 0) "A" 0 1
                 (record_final_path record) (final_belief_state record))
              Hrun eq_refl) as [rounds [pending [Hp [Hpend Hlen]]]].
  rewrite Hlen. rewrite Hpath in Hp.
  assert (Hcount : (length rounds + length pending = 2)%nat).
  { apply (f_equal (@length NodeRef)) in Hp. simpl in Hp.
    rewrite length_app, rounds_path_length in Hp.
    destruct Hpend as [->|[q ->]]; simpl in *; lia. }
  rewrite Hcount. reflexivity.
Defined.

(** ** The direct prompting baseline: belief update *)

Module DirectPromptingFacts.
Import DirectPrompting.

Lemma py_sum_dict_add (d : dict Q) (k : string) (w : Q) :
  py_sum (values (dict_set d k (dict_get d k 0 + w))) == py_sum (values d) + w.
Proof.
  unfold dict_get. induction d as [|[k' v'] d IH]; simpl.
  - unfold py_sum. simpl. ring.
  - destruct (String.eqb k' k) eqn:E; simpl; rewrite !py_sum_cons.
    + ring.
    + rewrite IH. ring.
Qed.

Lemma dict_lookup_scaled (d : dict Q) (f : Q -> Q) (h : string) :
  dict_lookup (map (fun hp => (fst hp, f (snd hp))) d) h
  = option_map f (dict_lookup d h).
Proof.
  induction d as [|[k v] d IH]; simpl; [reflexivity|].
  destruct (String.eqb k h); [reflexivity | exact IH].
Qed.

Lemma keys_dict_set {V} (d : dict V) (k : string) (v v' : V) :
  keys (dict_set d k v) = keys (dict_set d k v').
Proof.
  induction d as [|[k0 v0] d IH]; simpl; [reflexivity|].
  destruct (String.eqb k0 k); simpl; [reflexivity | f_equal; exact IH].
Qed.

Lemma values_dict_set_nonneg (d : dict Q) (k : string) (v : Q) :
  (forall p, In p (values d) -> 0 <= p) -> 0 <= v ->
  forall p, In p (values (dict_set d k v)) -> 0 <= p.
Proof.
  induction d as [|[k0 v0] d IH]; simpl; intros Hd Hv p Hp.
  - destruct Hp as [<-|[]]. exact Hv.
  - destruct (String.eqb k0 k); simpl in Hp.
    + destruct Hp as [<-|Hp]; [exact Hv | apply Hd; right; exact Hp].
    + destruct Hp as [<-|Hp]; [apply Hd; left; reflexivity|].
      apply IH; auto.
Qed.

Lemma inject_Z_pos (n : Z) : (1 <= n)%Z -> 1 <= inject_Z n.
Proof. intros H. unfold Qle. simpl. lia. Qed.

(** The update with a count of at least 1 and a prior without negative
    values: the unnormalised posterior and its total. *)
Lemma direct_posterior_runs (prior : dict Q) (prediction : string) (n : Z) :
  (1 <= n)%Z ->
  (forall p, In p (values prior) -> 0 <= p) ->
  let weight := 1 / inject_Z n in
  let posterior := dict_set prior prediction (dict_get prior prediction 0 + weight) in
  let total := py_sum (values posterior) in
  total == py_sum (values prior) + weight
  /\ 0 < total
  /\ calculate_posterior prior prediction n
     = Ok (map (fun hp => (fst hp, snd hp / total)) posterior).
Proof.
  intros Hn Hnn weight posterior total.
  pose proof (inject_Z_pos n Hn) as HN.
  assert (Hw : 0 < weight).
  { unfold weight. apply Qlt_shift_div_l; lra. }
  assert (Hsum : total == py_sum (values prior) + weight)
    by (apply py_sum_dict_add).
  assert (Hprior : 0 <= py_sum (values prior))
    by (apply PosteriorBounds.py_sum_nonneg; exact Hnn).
  assert (Hpos : 0 < total) by lra.
  split; [exact Hsum|]. split; [exact Hpos|].
  unfold calculate_posterior, py_div.
  destruct (Qeq_bool (inject_Z n) 0) eqn:E.
  { apply Qeq_bool_eq in E. lra. }
  cbn [rbind]. fold weight. fold posterior. fold total.
  assert (Hgt : Qgt_bool total 0 = true) by (apply Qgt_bool_iff; exact Hpos).
  rewrite Hgt.
  apply mapM_ok_map. intros hp _.
  destruct (Qeq_bool total 0) eqn:E0; [|reflexivity].
  apply Qeq_bool_eq in E0. lra.
Qed.

(** X17: [calculate_posterior] of the direct prompting method, called with a
    prediction count of at least 1 on a belief state without negative
    values, returns a belief state that sums to 1, keeps the hypotheses of
    the prior in their order, with the prediction added last when it is new,
    and gives the prediction a positive probability; every other hypothesis
    is scaled by the same factor.  With a count of 0 it raises
    ZeroDivisionError. *)
Theorem direct_posterior_spec (prior : dict Q) (prediction : string) (n : Z) :
  calculate_posterior prior prediction 0 = Raise ZeroDivisionError
  /\ ((1 <= n)%Z ->
      (forall p, In p (values prior) -> 0 <= p) ->
      exists post total,
        calculate_posterior prior prediction n = Ok post
        /\ total == py_sum (values prior) + 1 / inject_Z n
        /\ py_sum (values post) == 1
        /\ keys post = keys (dict_set prior prediction 0)
        /\ (exists p, dict_lookup post prediction = Some p /\ 0 < p)
        /\ (forall h, h <> prediction ->
              dict_lookup post h
              = option_map (fun p => p / total) (dict_lookup prior h))).
Proof.
  split; [reflexivity|]. intros Hn Hnn.
  destruct (direct_posterior_runs prior prediction n Hn Hnn) as [Hsum [Hpos Hrun]].
  set (weight := 1 / inject_Z n) in *.
  set (posterior := dict_set prior prediction (dict_get prior prediction 0 + weight)) in *.
  set (total := py_sum (values posterior)) in *.
  exists (map (fun hp => (fst hp, snd hp / total)) posterior), total.
  split; [exact Hrun|]. split; [exact Hsum|].
  split; [|split; [|split]].
  - rewrite PosteriorFacts.values_scaled, py_sum_scaled. fold total.
    field. lra.
  - unfold keys at 1. rewrite map_map. simpl. apply keys_dict_set.
  - rewrite (dict_lookup_scaled posterior (fun p => p / total)).
    unfold posterior. rewrite dict_lookup_set_same. simpl.
    eexists. split; [reflexivity|].
    assert (0 <= dict_get prior prediction 0).
    { unfold dict_get. destruct (dict_lookup prior prediction) as [v|] eqn:E; [|lra].
      apply Hnn. clear - E. induction prior as [|[k v0] d IH]; simpl in *; [discriminate|].
      destruct (String.eqb k prediction); [inversion E; left; reflexivity|].
      right. apply IH. exact E. }
    assert (0 < weight).
    { unfold weight. pose proof (inject_Z_pos n Hn). apply Qlt_shift_div_l; lra. }
    apply Qlt_shift_div_l; [exact Hpos | lra].
  - intros h Hne. rewrite (dict_lookup_scaled posterior (fun p => p / total)).
    unfold posterior. rewrite dict_lookup_set_other by congruence. reflexivity.
Qed.

Lemma direct_posterior_spec_witness :
  exists post,
    calculate_posterior [("A"%string, 1)] "B" 2 = Ok post
    /\ py_sum (values post) == 1.
Proof.
  destruct (direct_posterior_spec [("A"%string, 1)] "B" 2) as [_ H].
  destruct H as [post [total [Hrun [_ [Hsum _]]]]].
  - lia.
  - intros p [<-|[]]. discriminate.
  - exists post. split; assumption.
Defined.

(** X18: a prediction never overtakes the hypotheses predicted before it.
    When the prior sums to 1 and gives each of its hypotheses at least
    [1/n], the update with count [n] gives every hypothesis at least
    [1/(n+1)], and a prediction that is new gets exactly [1/(n+1)]. *)
Theorem direct_posterior_keeps_order (prior : dict Q) (prediction : string) (n : Z) :
  (1 <= n)%Z ->
  (forall p, In p (values prior) -> 0 <= p) ->
  py_sum (values prior) == 1 ->
  (forall h p, dict_lookup prior h = Some p -> 1 / inject_Z n <= p) ->
  exists post,
    calculate_posterior prior prediction n = Ok post
    /\ (forall h p, dict_lookup post h = Some p -> 1 / inject_Z (n + 1) <= p)
    /\ (dict_lookup prior prediction = None ->
        exists p, dict_lookup post prediction = Some p /\ p == 1 / inject_Z (n + 1)).
Proof.
  intros Hn Hnn Hone Hlow.
  destruct (direct_posterior_runs prior prediction n Hn Hnn) as [Hsum [Hpos Hrun]].
  set (weight := 1 / inject_Z n) in *.
  set (posterior := dict_set prior prediction (dict_get prior prediction 0 + weight)) in *.
  set (total := py_sum (values posterior)) in *.
  pose proof (inject_Z_pos n Hn) as HN.
  assert (HN1 : inject_Z (n + 1) == inject_Z n + 1) by (rewrite inject_Z_plus; reflexivity).
  assert (Htotal : total == (inject_Z n + 1) / inject_Z n).
  { rewrite Hsum, Hone. unfold weight. field. lra. }
  assert (Hscale : forall p, 1 / inject_Z n <= p -> 1 / inject_Z (n + 1) <= p / total).
  { intros p Hp. rewrite Htotal, HN1.
    assert (Heq : p / ((inject_Z n + 1) / inject_Z n)
                  == p * inject_Z n / (inject_Z n + 1)) by (field; split; lra).
    rewrite Heq.
    apply Qle_shift_div_l; [lra|].
    assert (H1 : 1 / (inject_Z n + 1) * (inject_Z n + 1) == 1) by (field; lra).
    rewrite H1.
    assert (H2 : 1 == 1 / inject_Z n * inject_Z n) by (field; lra).
    rewrite H2 at 1. apply Qmult_le_compat_r; [exact Hp | lra]. }
  exists (map (fun hp => (fst hp, snd hp / total)) posterior).
  split; [exact Hrun|]. split.
  - intros h p Hl. rewrite (dict_lookup_scaled posterior (fun p => p / total)) in Hl.
    unfold posterior in Hl.
    destruct (string_dec h prediction) as [->|Hne].
    + rewrite dict_lookup_set_same in Hl. simpl in Hl. inversion Hl. subst p.
      apply Hscale. unfold dict_get.
      destruct (dict_lookup prior prediction) as [v|] eqn:E.
      * pose proof (Hlow _ _ E). fold weight in H.
        assert (0 < weight) by (unfold weight; apply Qlt_shift_div_l; lra).
        fold weight. lra.
      * fold weight. lra.
    + rewrite dict_lookup_set_other in Hl by congruence.
      destruct (dict_lookup prior h) as [v|] eqn:E; [|discriminate].
      simpl in Hl. inversion Hl. subst p. apply Hscale. apply (Hlow _ _ E).
  - intros Hnew. rewrite (dict_lookup_scaled posterior (fun p => p / total)).
    unfold posterior. rewrite dict_lookup_set_same. simpl.
    eexists. split; [reflexivity|].
    unfold dict_get. rewrite Hnew. rewrite Htotal, HN1. unfold weight.
    field. split; lra.
Qed.

Lemma direct_posterior_keeps_order_witness :
  exists post,
    calculate_posterior [("A"%string, 1)] "B" 2 = Ok post
    /\ exists p, dict_lookup post "B" = Some p /\ p == 1 / inject_Z (2 + 1).
Proof.
  destruct (direct_posterior_keeps_order [("A"%string, 1)] "B" 2) as [post [Hrun [_ H]]].
  - lia.
  - intros p [<-|[]]. discriminate.
  - reflexivity.
  - intros h p Hl. cbn [dict_lookup] in Hl.
    destruct (String.eqb "A" h); [|discriminate].
    inversion Hl. subst. unfold Qle. simpl. lia.
  - exists post. split; [exact Hrun|]. apply H. reflexivity.
Defined.

End DirectPromptingFacts.

(** ** The direct prompting baseline: the run loop *)

Lemma depth_fuel_extends (t t' : Tree) :
  links_ok t ->
  (forall i en, nth_error (evidence_nodes t) i = Some en ->
     exists en', nth_error (evidence_nodes t') i = Some en'
                 /\ e_parent en' = e_parent en) ->
  (forall j qn, nth_error (question_nodes t) j = Some qn ->
     exists qn', nth_error (question_nodes t') j = Some qn'
                 /\ q_parent qn' = q_parent qn) ->
  forall fuel e en, nth_error (evidence_nodes t) e = Some en ->
    get_conversation_depth_fuel fuel t' e = get_conversation_depth_fuel fuel t e.
Proof.
  intros [Hev Hqs] Hext_e Hext_q. induction fuel as [|fuel IH]; intros e en He.
  - reflexivity.
  - simpl. destruct (Hext_e e en He) as [en' [He' Hp']].
    rewrite (proj2 (get_evidence_ok t' e en') He').
    rewrite (proj2 (get_evidence_ok t e en) He). simpl. rewrite Hp'.
    destruct (e_parent en) as [q|] eqn:Hp; [|reflexivity].
    destruct (proj1 (Hev e en He) q Hp) as [qn [Hq _]].
    destruct (Hext_q q qn Hq) as [qn' [Hq' Hqp]].
    rewrite (proj2 (get_question_ok t' q qn') Hq').
    rewrite (proj2 (get_question_ok t q qn) Hq). simpl. rewrite Hqp.
    destruct (Hqs q qn Hq) as [Hlt _].
    destruct (nth_error (evidence_nodes t) (q_parent qn)) as [gp|] eqn:Hg.
    + rewrite (IH _ gp Hg). reflexivity.
    + apply nth_error_None in Hg. lia.
Qed.

Lemma depth_fuel_enough (t : Tree) :
  links_ok t ->
  forall e en, nth_error (evidence_nodes t) e = Some en ->
  exists d, (d <= e)%nat
    /\ forall fuel, (e < fuel)%nat -> get_conversation_depth_fuel fuel t e = Ok d.
Proof.
  intros Hl. apply links_ok_iff in Hl. destruct Hl as [Hwf _].
  apply conversation_depth_total. exact Hwf.
Qed.

Module DirectRunFacts.
Import DirectPrompting.

Section Passes.

Variable World : Type.
Variable strip : string -> string.
Variable lower : string -> string.
Variable task : Task World.

(** The two nodes a pass adds: a question under the current node and the
    evidence node of its answer, one level deeper. *)
Lemma pass_nodes (st : RunState World) (text : string) (answers : list string)
    (w : World) (count : Z) (answer_text : string) (belief : dict Q)
    (en_c : EvidenceNode) (d : nat) :
  links_ok (tree st) ->
  get_evidence (tree st) (current_node st) = Ok en_c ->
  get_conversation_depth (tree st) (current_node st) = Ok d ->
  let st1 := snd (add_question_node text answers st) in
  let q := length (question_nodes (tree st)) in
  let st1' := mkRunState (tree st1) w count (current_node st1) (final_path st1) in
  let st2 := snd (add_evidence_node q answer_text belief st1') in
  links_ok (tree st2)
  /\ get_conversation_depth (tree st2) (current_node st2) = Ok (S d)
  /\ get_evidence (tree st2) (current_node st2)
     = Ok (mkEvidenceNode answer_text belief 1 (Some q) [])
  /\ final_path st2
     = final_path st ++ [QuestionRef q; EvidenceRef (current_node st2)]
  /\ world st2 = w /\ prediction_count st2 = count.
Proof.
  intros Hl He Hd st1 q st1' st2.
  apply get_evidence_ok in He.
  set (qnew := mkQuestionNode text answers (current_node st) []).
  set (enew := mkEvidenceNode answer_text belief 1 (Some q) []).
  set (g := fun n => mkEvidenceNode (answer n) (belief_state n) (marginal_likelihood n)
                       (e_parent n) (e_children n ++ [q])).
  assert (Hev1 : evidence_nodes (tree st1)
                 = list_update (evidence_nodes (tree st)) (current_node st) g)
    by reflexivity.
  assert (Hqs1 : question_nodes (tree st1) = question_nodes (tree st) ++ [qnew])
    by reflexivity.
  assert (Hev2 : evidence_nodes (tree st2) = evidence_nodes (tree st1) ++ [enew])
    by reflexivity.
  assert (Hqs2 : question_nodes (tree st2)
                 = list_update (question_nodes (tree st1)) q
                     (fun n => mkQuestionNode (question n) (possible_answers n)
                                 (q_parent n)
                                 (q_children n ++ [length (evidence_nodes (tree st1))])))
    by reflexivity.
  assert (Hcur2 : current_node st2 = length (evidence_nodes (tree st1)))
    by reflexivity.
  assert (Hpath : final_path st2
                  = final_path st ++ [QuestionRef q; EvidenceRef (current_node st2)]).
  { unfold st2, add_evidence_node, st1', st1, add_question_node. simpl.
    rewrite <- app_assoc. reflexivity. }
  assert (Hw : world st2 = w) by reflexivity.
  assert (Hcount : prediction_count st2 = count) by reflexivity.
  assert (Ht1 : tree st1 = mkTree (evidence_nodes (tree st1)) (question_nodes (tree st1)))
    by reflexivity.
  assert (Ht2 : tree st2 = mkTree (evidence_nodes (tree st2)) (question_nodes (tree st2)))
    by reflexivity.
  assert (Hmain : links_ok (tree st2)
                  /\ get_conversation_depth (tree st2) (current_node st2) = Ok (S d)
                  /\ get_evidence (tree st2) (current_node st2) = Ok enew);
    [|destruct Hmain as [H1 [H2 H3]];
      split; [exact H1|]; split; [exact H2|]; split; [exact H3|];
      split; [exact Hpath|]; split; [exact Hw | exact Hcount]].
  clear Hpath Hw Hcount.
  set (t := tree st) in *. set (c := current_node st) in *.
  set (t1 := tree st1) in *. set (t2 := tree st2) in *.
  set (e2 := current_node st2) in *.
  clearbody t2 e2 t1. clear st2 st1' st1.
  assert (Hc : (c < length (evidence_nodes t))%nat)
    by (apply nth_error_Some; congruence).
  assert (Hlen1 : length (evidence_nodes t1) = length (evidence_nodes t))
    by (rewrite Hev1; apply length_list_update).
  assert (Hl1 : links_ok t1).
  { rewrite Ht1, Hev1, Hqs1.
    apply (links_ok_add_questions t c en_c [qnew] He); [|exact Hl].
    intros qn [<-|[]]. split; reflexivity. }
  assert (Hq1 : nth_error (question_nodes t1) q = Some qnew).
  { rewrite Hqs1, nth_error_app2 by (unfold q; lia).
    unfold q. rewrite Nat.sub_diag. reflexivity. }
  assert (Hl2 : links_ok t2).
  { rewrite Ht2, Hev2, Hqs2.
    apply (links_ok_add_child t1 q qnew enew Hq1); [reflexivity | reflexivity|].
    exact Hl1. }
  assert (Hget : get_evidence t2 e2 = Ok enew).
  { apply get_evidence_ok. rewrite Hev2, Hcur2, nth_error_app2 by lia.
    rewrite Nat.sub_diag. reflexivity. }
  split; [exact Hl2|]. split; [|exact Hget].
  unfold get_conversation_depth.
  rewrite Hev2, length_app, Nat.add_1_r. cbn [get_conversation_depth_fuel].
  rewrite Hget. cbn [rbind e_parent enew].
  assert (Hgq : exists qn2, get_question t2 q = Ok qn2 /\ q_parent qn2 = c).
  { eexists. split.
    - apply get_question_ok.
      rewrite Hqs2, nth_error_list_update, Nat.eqb_refl, Hq1. reflexivity.
    - reflexivity. }
  destruct Hgq as [qn2 [Hgq Hpar]]. rewrite Hgq. cbn [rbind]. rewrite Hpar.
  rewrite (depth_fuel_extends t t2 Hl) with (en := en_c).
  + rewrite Hlen1. unfold get_conversation_depth in Hd. rewrite Hd. reflexivity.
  + intros i en Hi. rewrite Hev2, Hev1.
    assert (Hlt : (i < length (evidence_nodes t))%nat)
      by (apply nth_error_Some; congruence).
    rewrite nth_error_app1 by (rewrite length_list_update; exact Hlt).
    rewrite nth_error_list_update, Hi.
    destruct (c =? i)%nat; simpl; eexists; split; reflexivity.
  + intros j qn Hj. rewrite Hqs2, Hqs1.
    assert (Hlt : (j < length (question_nodes t))%nat)
      by (apply nth_error_Some; congruence).
    rewrite nth_error_list_update.
    assert (Hne : (q =? j)%nat = false) by (apply Nat.eqb_neq; unfold q; lia).
    rewrite Hne, nth_error_app1 by exact Hlt.
    exists qn. split; [exact Hj | reflexivity].
  + exact He.
Qed.

(** After the question node is added the current node still has its belief
    state. *)
Lemma belief_after_question (st : RunState World) (text : string)
    (answers : list string) (w : World) (count : Z) (en_c : EvidenceNode) :
  get_evidence (tree st) (current_node st) = Ok en_c ->
  let st1 := snd (add_question_node text answers st) in
  let st1' := mkRunState (tree st1) w count (current_node st1) (final_path st1) in
  current_belief_state st1' = (Ok (belief_state en_c), st1').
Proof.
  intros He st1 st1'. apply get_evidence_ok in He.
  unfold current_belief_state. f_equal.
  assert (Hget : get_evidence (tree st1') (current_node st1')
                 = Ok (mkEvidenceNode (answer en_c) (belief_state en_c)
                         (marginal_likelihood en_c) (e_parent en_c)
                         (e_children en_c ++ [length (question_nodes (tree st))]))).
  { apply get_evidence_ok. unfold st1', st1, add_question_node. simpl.
    rewrite nth_error_list_update, Nat.eqb_refl, He. reflexivity. }
  rewrite Hget. reflexivity.
Qed.

Lemma loop_body_prediction (st : RunState World) (prediction : string) (w1 : World)
    (en_c : EvidenceNode) (updated : dict Q) :
  query_questioner task (tree st) (current_node st) (world st)
  = (Ok (Prediction prediction), w1) ->
  get_evidence (tree st) (current_node st) = Ok en_c ->
  calculate_posterior (belief_state en_c) prediction (prediction_count st + 1)
  = Ok updated ->
  let st_w := mkRunState (tree st) w1 (prediction_count st) (current_node st)
                         (final_path st) in
  let st1 := snd (add_question_node ("Is it " ++ prediction ++ "?")
                                    ["Yes"; "No"]%string st_w) in
  let st1' := mkRunState (tree st1) w1 (prediction_count st + 1)%Z (current_node st1)
                         (final_path st1) in
  loop_body strip lower task st
  = add_evidence_node (length (question_nodes (tree st)))
      (if String.eqb (lower (strip prediction)) (lower (strip (task_answer task)))
       then "Yes"%string else "No"%string)
      updated st1'.
Proof.
  intros Hq He Hpost st_w st1 st1'.
  unfold loop_body. rewrite bind_run. cbn [gets]. rewrite bind_run.
  unfold call_task at 1. rewrite Hq. fold st_w.
  rewrite bind_run.
  change (add_question_node ("Is it " ++ prediction ++ "?") ["Yes"; "No"]%string st_w)
    with (Ok (length (question_nodes (tree st))), st1).
  cbv iota. rewrite bind_run. cbn [modify]. rewrite bind_run. cbn [gets].
  rewrite bind_run.
  change (mkRunState (tree st1) (world st1) (prediction_count st1 + 1)%Z
                     (current_node st1) (final_path st1)) with st1'.
  assert (Hb : current_belief_state st1' = (Ok (belief_state en_c), st1'))
    by (apply (belief_after_question st_w _ _ w1 _ en_c He)).
  rewrite Hb. rewrite bind_run. unfold lift at 1.
  change (prediction_count st1') with (prediction_count st + 1)%Z.
  rewrite Hpost. reflexivity.
Qed.

Lemma loop_body_question (st : RunState World) (question_text : string)
    (w1 w0 : World) (raw_answer : string) (en_c : EvidenceNode) :
  query_questioner task (tree st) (current_node st) (world st)
  = (Ok (Question question_text), w1) ->
  query_answerer task question_text w1 = (Ok raw_answer, w0) ->
  get_evidence (tree st) (current_node st) = Ok en_c ->
  let st_w := mkRunState (tree st) w1 (prediction_count st) (current_node st)
                         (final_path st) in
  let st1 := snd (add_question_node question_text [] st_w) in
  let st1' := mkRunState (tree st1) w0 (prediction_count st) (current_node st1)
                         (final_path st1) in
  loop_body strip lower task st
  = add_evidence_node (length (question_nodes (tree st))) (strip raw_answer)
      (belief_state en_c) st1'.
Proof.
  intros Hq Ha He st_w st1 st1'.
  unfold loop_body. rewrite bind_run. cbn [gets]. rewrite bind_run.
  unfold call_task at 1. rewrite Hq. fold st_w.
  rewrite bind_run.
  change (add_question_node question_text [] st_w)
    with (Ok (length (question_nodes (tree st))), st1).
  cbv iota. rewrite bind_run. unfold call_task at 1.
  change (world st1) with w1. rewrite Ha.
  change (mkRunState (tree st1) w0 (prediction_count st1) (current_node st1)
                     (final_path st1)) with st1'.
  rewrite bind_run.
  assert (Hb : current_belief_state st1' = (Ok (belief_state en_c), st1'))
    by (apply (belief_after_question st_w _ _ w0 _ en_c He)).
  rewrite Hb. reflexivity.
Qed.

Lemma loop_body_questioner_fails (st : RunState World) (r : result Response)
    (w1 : World) :
  query_questioner task (tree st) (current_node st) (world st) = (r, w1) ->
  (forall x, r <> Ok x) ->
  forall u, fst (loop_body strip lower task st) <> Ok u.
Proof.
  intros Hq Hr u.
  unfold loop_body. rewrite bind_run. cbn [gets]. rewrite bind_run.
  unfold call_task at 1. rewrite Hq.
  destruct r as [x|e| |]; simpl; try discriminate.
  exfalso. apply (Hr x). reflexivity.
Qed.

Lemma loop_body_answerer_fails (st : RunState World) (question_text : string)
    (w1 w0 : World) (r : result string) :
  query_questioner task (tree st) (current_node st) (world st)
  = (Ok (Question question_text), w1) ->
  query_answerer task question_text w1 = (r, w0) ->
  (forall x, r <> Ok x) ->
  forall u, fst (loop_body strip lower task st) <> Ok u.
Proof.
  intros Hq Ha Hr u.
  unfold loop_body. rewrite bind_run. cbn [gets]. rewrite bind_run.
  unfold call_task at 1. rewrite Hq.
  rewrite bind_run.
  set (st_w := mkRunState (tree st) w1 (prediction_count st) (current_node st)
                          (final_path st)).
  change (add_question_node question_text [] st_w)
    with (Ok (length (question_nodes (tree st))),
          snd (add_question_node question_text [] st_w)).
  cbv iota. rewrite bind_run. unfold call_task at 1.
  change (world (snd (add_question_node question_text [] st_w))) with w1.
  rewrite Ha.
  destruct r as [x|e| |]; simpl; try discriminate.
  exfalso. apply (Hr x). reflexivity.
Qed.

Lemma posterior_values_nonneg (prior : dict Q) (prediction : string) (n : Z)
    (post : dict Q) :
  (1 <= n)%Z ->
  (forall p, In p (values prior) -> 0 <= p) ->
  calculate_posterior prior prediction n = Ok post ->
  (forall p, In p (values post) -> 0 <= p) /\ py_sum (values post) == 1.
Proof.
  intros Hn Hnn Hrun.
  destruct (DirectPromptingFacts.direct_posterior_runs prior prediction n Hn Hnn)
    as [Hsum [Hpos Hrun']].
  rewrite Hrun' in Hrun. inversion Hrun. subst post. clear Hrun.
  set (weight := 1 / inject_Z n) in *.
  set (posterior := dict_set prior prediction
                      (dict_get prior prediction 0 + weight)) in *.
  set (total := py_sum (values posterior)) in *.
  assert (Hw : 0 < weight).
  { unfold weight. pose proof (DirectPromptingFacts.inject_Z_pos n Hn).
    apply Qlt_shift_div_l; lra. }
  assert (Hget : 0 <= dict_get prior prediction 0).
  { unfold dict_get. destruct (dict_lookup prior prediction) as [v|] eqn:E; [|lra].
    apply Hnn. clear - E. induction prior as [|[k v0] l IH]; simpl in *; [discriminate|].
    destruct (String.eqb k prediction); [inversion E; left; reflexivity|].
    right. apply IH. exact E. }
  split.
  - intros p Hp. rewrite PosteriorFacts.values_scaled in Hp.
    apply in_map_iff in Hp. destruct Hp as [x [<- Hx]].
    assert (0 <= x).
    { apply (DirectPromptingFacts.values_dict_set_nonneg prior prediction
               (dict_get prior prediction 0 + weight)); [exact Hnn | lra | exact Hx]. }
    apply Qle_shift_div_l; [exact Hpos | lra].
  - rewrite PosteriorFacts.values_scaled, py_sum_scaled. fold total. field. lra.
Qed.

(** A pass from a state that satisfies the invariant: it completes and keeps
    the invariant one level deeper, unless a collaborator does not return. *)
Lemma loop_body_pass (st st' : RunState World) (d : nat) (res : result unit) :
  run_ok st d ->
  loop_body strip lower task st = (res, st') ->
  match res with
  | Ok _ => run_ok st' (S d) /\ pass_of strip lower task st st'
  | _ =>
      (forall r, fst (query_questioner task (tree st) (current_node st) (world st))
                 <> Ok r)
      \/ (exists question_text w1,
            forall a, fst (query_answerer task question_text w1) <> Ok a)
  end.
Proof.
  intros [Hl [Hd [Hcount [en_c [He [Hnn Hdist]]]]]] Hrun.
  destruct (query_questioner task (tree st) (current_node st) (world st))
    as [r w1] eqn:Hq.
  assert (Hfail1 : (forall x, r <> Ok x) ->
            match res with
            | Ok _ => run_ok st' (S d) /\ pass_of strip lower task st st'
            | _ => (forall r0, fst (r, w1) <> Ok r0)
                   \/ (exists question_text w2,
                         forall a, fst (query_answerer task question_text w2) <> Ok a)
            end).
  { intros Hr. pose proof (loop_body_questioner_fails st r w1 Hq Hr) as Hne.
    rewrite Hrun in Hne. simpl in Hne.
    destruct res as [u| | |]; try (left; exact Hr).
    exfalso. apply (Hne u). reflexivity. }
  destruct r as [[prediction|question_text]|e| |];
    try (apply Hfail1; intros; discriminate).
  - (* a prediction *)
    clear Hfail1.
    assert (Hn : (1 <= prediction_count st + 1)%Z) by lia.
    destruct (DirectPromptingFacts.direct_posterior_runs
                (belief_state en_c) prediction _ Hn Hnn) as [_ [_ Hpost]].
    match type of Hpost with _ = Ok ?u => set (updated := u) in * end.
    rewrite (loop_body_prediction st prediction w1 en_c updated Hq He Hpost) in Hrun.
    set (answer_text := if String.eqb (lower (strip prediction))
                                      (lower (strip (task_answer task)))
                        then "Yes"%string else "No"%string) in *.
    set (st_w := mkRunState (tree st) w1 (prediction_count st) (current_node st)
                            (final_path st)) in *.
    cbv zeta in Hrun.
    match type of Hrun with ?lhs = _ => set (out := lhs) in * end.
    pose proof (f_equal fst Hrun) as Hres. pose proof (f_equal snd Hrun) as Hst.
    change (Ok tt = res) in Hres. change (snd out = st') in Hst.
    subst res st'. clear Hrun.
    assert (Hfacts :
              links_ok (tree (snd out))
              /\ get_conversation_depth (tree (snd out)) (current_node (snd out))
                 = Ok (S d)
              /\ get_evidence (tree (snd out)) (current_node (snd out))
                 = Ok (mkEvidenceNode answer_text updated 1
                         (Some (length (question_nodes (tree st)))) [])
              /\ final_path (snd out)
                 = final_path st ++ [QuestionRef (length (question_nodes (tree st)));
                                     EvidenceRef (current_node (snd out))]
              /\ world (snd out) = w1
              /\ prediction_count (snd out) = (prediction_count st + 1)%Z)
      by exact (pass_nodes st_w ("Is it " ++ prediction ++ "?") ["Yes"; "No"]%string
                  w1 (prediction_count st + 1)%Z answer_text updated en_c d Hl He Hd).
    destruct Hfacts as [Hl2 [Hd2 [He2 [Hp2 [Hw2 Hc2]]]]].
    destruct (posterior_values_nonneg _ _ _ _ Hn Hnn Hpost) as [Hnn' Hsum'].
    split.
    + split; [exact Hl2|]. split; [exact Hd2|]. split; [rewrite Hc2; lia|].
      eexists. split; [exact He2|]. split; [exact Hnn' | right; exact Hsum'].
    + exists (Prediction prediction), w1, (length (question_nodes (tree st))),
        (current_node (snd out)), en_c. eexists.
      split; [exact Hq|]. split; [exact He|]. split; [exact He2|].
      split; [reflexivity|]. split; [exact Hp2|].
      split; [exact Hc2|]. split; [reflexivity | exact Hpost].
  - (* a question *)
    destruct (query_answerer task question_text w1) as [ra w0] eqn:Ha.
    destruct ra as [raw_answer|e| |].
    2,3,4: pose proof (loop_body_answerer_fails st question_text w1 w0 _ Hq Ha
                         ltac:(intros; discriminate)) as Hne;
           rewrite Hrun in Hne; simpl in Hne;
           (destruct res as [u| | |];
            [exfalso; apply (Hne u); reflexivity | | | ]);
           right; exists question_text, w1; intros a; rewrite Ha; discriminate.
    clear Hfail1.
    rewrite (loop_body_question st question_text w1 w0 raw_answer en_c Hq Ha He)
      in Hrun.
    set (st_w := mkRunState (tree st) w1 (prediction_count st) (current_node st)
                            (final_path st)) in *.
    cbv zeta in Hrun.
    match type of Hrun with ?lhs = _ => set (out := lhs) in * end.
    pose proof (f_equal fst Hrun) as Hres. pose proof (f_equal snd Hrun) as Hst.
    change (Ok tt = res) in Hres. change (snd out = st') in Hst.
    subst res st'. clear Hrun.
    assert (Hfacts :
              links_ok (tree (snd out))
              /\ get_conversation_depth (tree (snd out)) (current_node (snd out))
                 = Ok (S d)
              /\ get_evidence (tree (snd out)) (current_node (snd out))
                 = Ok (mkEvidenceNode (strip raw_answer) (belief_state en_c) 1
                         (Some (length (question_nodes (tree st)))) [])
              /\ final_path (snd out)
                 = final_path st ++ [QuestionRef (length (question_nodes (tree st)));
                                     EvidenceRef (current_node (snd out))]
              /\ world (snd out) = w0
              /\ prediction_count (snd out) = prediction_count st)
      by exact (pass_nodes st_w question_text [] w0 (prediction_count st)
                  (strip raw_answer) (belief_state en_c) en_c d Hl He Hd).
    destruct Hfacts as [Hl2 [Hd2 [He2 [Hp2 [Hw2 Hc2]]]]].
    split.
    + split; [exact Hl2|]. split; [exact Hd2|]. split; [rewrite Hc2; exact Hcount|].
      eexists. split; [exact He2|]. split; [exact Hnn | exact Hdist].
    + exists (Question question_text), w1, (length (question_nodes (tree st))),
        (current_node (snd out)), en_c. eexists.
      split; [exact Hq|]. split; [exact He|]. split; [exact He2|].
      split; [reflexivity|]. split; [exact Hp2|].
      split; [exact Hc2|]. split; [reflexivity|].
      exists raw_answer, w0. split; [exact Ha | reflexivity].
Qed.

Lemma direct_is_terminal (st : RunState World) (d : nat) (en : EvidenceNode) :
  get_conversation_depth (tree st) (current_node st) = Ok d ->
  get_evidence (tree st) (current_node st) = Ok en ->
  is_terminal (tree st) (current_node st) (max_conversation_depth task)
              (task_answer task)
  = Ok ((max_conversation_depth task <=? Z.of_nat d)%Z
        || dict_mem (belief_state en) (task_answer task)).
Proof.
  intros Hd He. unfold is_terminal. rewrite Hd. simpl.
  destruct (max_conversation_depth task <=? Z.of_nat d)%Z; [reflexivity|].
  rewrite He. reflexivity.
Qed.

Lemma direct_run_loop_unfold fuel (st : RunState World) :
  run_loop strip lower task (S fuel) st
  = match is_terminal (tree st) (current_node st) (max_conversation_depth task)
                      (task_answer task) with
    | Ok true => (Ok tt, st)
    | Ok false =>
        match loop_body strip lower task st with
        | (Ok _, st1) => run_loop strip lower task fuel st1
        | (Raise e, st1) => (Raise e, st1)
        | (OutOfFuel, st1) => (OutOfFuel, st1)
        | (IllFormed, st1) => (IllFormed, st1)
        end
    | Raise e => (Raise e, st)
    | OutOfFuel => (OutOfFuel, st)
    | IllFormed => (IllFormed, st)
    end.
Proof.
  cbn [run_loop]. rewrite bind_run. cbn [gets]. rewrite bind_run. unfold lift at 1.
  destruct (is_terminal (tree st) (current_node st) (max_conversation_depth task)
                        (task_answer task)) as [[|]|e| |]; reflexivity.
Qed.

(** The loop from a state that satisfies the invariant, with fuel for the
    levels that remain below the maximal depth. *)
Lemma direct_run_loop_outcome fuel :
  forall (st st' : RunState World) (d : nat) (res : result unit),
    run_ok st d ->
    (Z.to_nat (max_conversation_depth task - Z.of_nat d) < fuel)%nat ->
    run_loop strip lower task fuel st = (res, st') ->
    match res with
    | Ok _ =>
        exists rounds,
          run_ok st' (d + length rounds)
          /\ final_path st' = final_path st ++ rounds_path rounds
          /\ current_node st' = last_node (current_node st) rounds
          /\ (length rounds
              <= Z.to_nat (max_conversation_depth task - Z.of_nat d))%nat
          /\ is_terminal (tree st') (current_node st') (max_conversation_depth task)
                         (task_answer task) = Ok true
    | _ =>
        (exists t e w, forall r, fst (query_questioner task t e w) <> Ok r)
        \/ (exists question_text w,
              forall a, fst (query_answerer task question_text w) <> Ok a)
    end.
Proof.
  induction fuel as [|fuel IH]; intros st st' d res Hok Hfuel Hrun; [lia|].
  rewrite direct_run_loop_unfold in Hrun.
  pose proof Hok as [Hl [Hd [Hcount [en [He [Hnn Hdist]]]]]].
  rewrite (direct_is_terminal st d en Hd He) in Hrun.
  destruct ((max_conversation_depth task <=? Z.of_nat d)%Z
            || dict_mem (belief_state en) (task_answer task)) eqn:Hterm.
  - inversion Hrun; subst res st'. exists []. simpl.
    rewrite Nat.add_0_r, app_nil_r.
    split; [exact Hok|]. split; [reflexivity|]. split; [reflexivity|].
    split; [lia|]. rewrite (direct_is_terminal st d en Hd He), Hterm. reflexivity.
  - apply orb_false_iff in Hterm. destruct Hterm as [Hdepth _].
    apply Z.leb_gt in Hdepth.
    destruct (loop_body strip lower task st) as [res1 st1] eqn:Hbody.
    pose proof (loop_body_pass st st1 d res1 Hok Hbody) as Hpass.
    destruct res1 as [[]|e| |].
    + destruct Hpass as [Hok1 Hp].
      assert (Hfuel1 : (Z.to_nat (max_conversation_depth task - Z.of_nat (S d))
                        < fuel)%nat) by lia.
      pose proof (IH st1 st' (S d) res Hok1 Hfuel1 Hrun) as Hrest.
      destruct res as [u|e| |]; try exact Hrest.
      destruct Hrest as [rounds [Hok' [Hpath [Hcur [Hlen Hterm']]]]].
      destruct Hp as [response [w1 [q [e [en_old [en_new
                       [_ [_ [_ [Hc1 [Hp1 _]]]]]]]]]]].
      exists ((q, e) :: rounds). simpl length.
      split; [replace (d + S (length rounds))%nat with (S d + length rounds)%nat by lia;
              exact Hok'|].
      split; [rewrite Hpath, Hp1; simpl; rewrite <- app_assoc; reflexivity|].
      split.
      { rewrite Hcur, Hc1, last_node_cons. reflexivity. }
      split; [lia | exact Hterm'].
    + inversion Hrun; subst res st'.
      destruct Hpass as [H|H]; [left | right; exact H].
      exists (tree st), (current_node st), (world st). exact H.
    + inversion Hrun; subst res st'.
      destruct Hpass as [H|H]; [left | right; exact H].
      exists (tree st), (current_node st), (world st). exact H.
    + inversion Hrun; subst res st'.
      destruct Hpass as [H|H]; [left | right; exact H].
      exists (tree st), (current_node st), (world st). exact H.
Qed.

Lemma initial_state_ok (w : World) : run_ok (initial_state w) 0.
Proof.
  split; [apply links_ok_iff; split; reflexivity|].
  split; [reflexivity|]. split; [simpl; lia|].
  eexists. split; [reflexivity|]. split; [intros p [] | left; reflexivity].
Qed.

(** X19: when the questioner and the answerer always return, [run_task] of
    the direct prompting method returns too, after at most
    [max_conversation_depth] passes: its path is the root followed by one
    (question, evidence) pair per pass, it stops because the task answer is a
    key of the final belief state or the maximal depth is reached, the final
    belief state is empty or sums to 1, and the tree is well-formed. *)
Theorem direct_run_task_terminates (w : World) (fuel : nat) :
  (forall t e w0, exists r w1, query_questioner task t e w0 = (Ok r, w1)) ->
  (forall question_text w0,
     exists a w1, query_answerer task question_text w0 = (Ok a, w1)) ->
  (Z.to_nat (max_conversation_depth task) < fuel)%nat ->
  exists rounds belief t w',
    run_task strip lower task fuel w
    = (Ok (EvidenceRef 0%nat :: rounds_path rounds, belief, t), w')
    /\ (length rounds <= Z.to_nat (max_conversation_depth task))%nat
    /\ (dict_mem belief (task_answer task) = true
        \/ (max_conversation_depth task <= Z.of_nat (length rounds))%Z)
    /\ (belief = [] \/ py_sum (values belief) == 1)
    /\ well_formed t = true.
Proof.
  intros Hq Ha Hfuel. unfold run_task.
  destruct (run_loop strip lower task fuel (initial_state w)) as [res st'] eqn:Hrun.
  pose proof (direct_run_loop_outcome fuel (initial_state w) st' 0%nat res
                (initial_state_ok w)) as Hout.
  rewrite Z.sub_0_r in Hout. specialize (Hout Hfuel Hrun).
  assert (Hcollab : ~ ((exists t e w0, forall r,
                          fst (query_questioner task t e w0) <> Ok r)
                       \/ (exists question_text w0,
                             forall a, fst (query_answerer task question_text w0)
                                       <> Ok a))).
  { intros [[t [e [w0 H]]]|[qt [w0 H]]].
    - destruct (Hq t e w0) as [r [w1 Hr]]. apply (H r). rewrite Hr. reflexivity.
    - destruct (Ha qt w0) as [a [w1 Hr]]. apply (H a). rewrite Hr. reflexivity. }
  destruct res as [[]|e| |]; try (exfalso; apply Hcollab; exact Hout).
  destruct Hout as [rounds [Hok [Hpath [Hcur [Hlen Hterm]]]]].
  destruct Hok as [Hl [Hd [_ [en [He [_ Hdist]]]]]].
  exists rounds, (belief_state en), (tree st'), (world st').
  rewrite He. simpl rbind. rewrite Hpath. simpl.
  split; [reflexivity|]. split; [exact Hlen|].
  split.
  - rewrite (direct_is_terminal st' _ en Hd He) in Hterm.
    injection Hterm as Hb. apply orb_true_iff in Hb.
    destruct Hb as [Hb|Hb]; [right | left; exact Hb].
    apply Z.leb_le in Hb. simpl in Hb. exact Hb.
  - split; [exact Hdist|]. apply links_ok_iff in Hl. apply Hl.
Qed.

(** X20: a pass in which the questioner predicts makes the prediction a key
    of the belief state of the new current node and leaves the other keys as
    they were, and the recorded answer is "Yes" exactly when the prediction
    and the task answer agree after [strip] and [lower].  The next test of
    the loop stops on the task answer as a key: a prediction that differs
    from the task answer only in case or in surrounding blanks is answered
    "Yes" without ending the run. *)
Theorem direct_prediction_pass (st st' : RunState World) (d : nat)
    (prediction : string) (w1 : World) :
  run_ok st d ->
  query_questioner task (tree st) (current_node st) (world st)
  = (Ok (Prediction prediction), w1) ->
  loop_body strip lower task st = (Ok tt, st') ->
  exists en_old en_new,
    get_evidence (tree st) (current_node st) = Ok en_old
    /\ get_evidence (tree st') (current_node st') = Ok en_new
    /\ answer en_new
       = (if String.eqb (lower (strip prediction)) (lower (strip (task_answer task)))
          then "Yes"%string else "No"%string)
    /\ dict_mem (belief_state en_new) prediction = true
    /\ (forall h, h <> prediction ->
          dict_mem (belief_state en_new) h = dict_mem (belief_state en_old) h)
    /\ is_terminal (tree st') (current_node st') (max_conversation_depth task)
                   (task_answer task)
       = Ok ((max_conversation_depth task <=? Z.of_nat (S d))%Z
             || String.eqb prediction (task_answer task)
             || dict_mem (belief_state en_old) (task_answer task)).
Proof.
  intros Hok Hq Hbody.
  pose proof (loop_body_pass st st' d (Ok tt) Hok Hbody) as [Hok' Hp].
  destruct Hp as [response [w2 [q [e [en_old [en_new
                   [Hq' [Hold [Hnew [Hcur [_ Hresp]]]]]]]]]]].
  rewrite Hq in Hq'. inversion Hq'. subst response w2. clear Hq'.
  destruct Hresp as [_ [Hans Hpost]].
  destruct Hok as [_ [_ [Hcount [en_c [He [Hnn _]]]]]].
  rewrite He in Hold. inversion Hold. subst en_c. clear Hold.
  assert (Hn : (1 <= prediction_count st + 1)%Z) by lia.
  destruct (DirectPromptingFacts.direct_posterior_runs
              (belief_state en_old) prediction _ Hn Hnn) as [_ [_ Hpost']].
  rewrite Hpost' in Hpost. inversion Hpost as [Hbelief]. clear Hpost Hpost'.
  assert (Hmem_p : dict_mem (belief_state en_new) prediction = true).
  { unfold dict_mem. rewrite <- Hbelief.
    rewrite (DirectPromptingFacts.dict_lookup_scaled _ (fun p => p / _)).
    rewrite dict_lookup_set_same. reflexivity. }
  assert (Hmem_o : forall h, h <> prediction ->
            dict_mem (belief_state en_new) h = dict_mem (belief_state en_old) h).
  { intros h Hne. unfold dict_mem. rewrite <- Hbelief.
    rewrite (DirectPromptingFacts.dict_lookup_scaled _ (fun p => p / _)).
    rewrite dict_lookup_set_other by congruence.
    destruct (dict_lookup (belief_state en_old) h); reflexivity. }
  exists en_old, en_new. rewrite Hcur.
  split; [exact He|]. split; [exact Hnew|]. split; [exact Hans|].
  split; [exact Hmem_p|]. split; [exact Hmem_o|].
  destruct Hok' as [_ [Hd' _]]. rewrite Hcur in Hd'.
  assert (Hterm := direct_is_terminal
                     (mkRunState (tree st') (world st') (prediction_count st') e
                                 (final_path st')) (S d) en_new Hd' Hnew).
  simpl in Hterm. rewrite Hterm. f_equal.
  rewrite <- orb_assoc. f_equal.
  destruct (String.eqb prediction (task_answer task)) eqn:E.
  - apply String.eqb_eq in E. rewrite <- E. rewrite Hmem_p. reflexivity.
  - apply String.eqb_neq in E. simpl. apply Hmem_o. congruence.
Qed.

End Passes.

End DirectRunFacts.

Lemma direct_run_task_terminates_witness :
  exists rounds belief t w',
    DirectPrompting.run_task (fun s => s) lower_ascii capital_task 4%nat tt
    = (Ok (EvidenceRef 0%nat :: rounds_path rounds, belief, t), w')
    /\ (length rounds <= 3)%nat.
Proof.
  destruct (DirectRunFacts.direct_run_task_terminates unit (fun s => s) lower_ascii
              capital_task tt 4%nat)
    as [rounds [belief [t [w' [Hrun [Hlen _]]]]]].
  - intros t e w0. eexists. eexists. reflexivity.
  - intros q w0. eexists. eexists. reflexivity.
  - simpl. lia.
  - exists rounds, belief, t, w'. split; [exact Hrun | exact Hlen].
Defined.

Lemma direct_prediction_pass_witness :
  exists st' en_new,
    DirectPrompting.loop_body (fun s => s) lower_ascii capital_task
      (DirectPrompting.initial_state tt) = (Ok tt, st')
    /\ get_evidence (DirectPrompting.tree st') (DirectPrompting.current_node st')
       = Ok en_new
    /\ answer en_new = "Yes"%string
    /\ DirectPrompting.is_terminal (DirectPrompting.tree st')
         (DirectPrompting.current_node st') 3 "Paris" = Ok false.
Proof.
  assert (H : exists st',
             DirectPrompting.loop_body (fun s => s) lower_ascii capital_task
               (DirectPrompting.initial_state tt) = (Ok tt, st'))
    by (eexists; vm_compute; reflexivity).
  destruct H as [st' Hbody].
  destruct (DirectRunFacts.direct_prediction_pass unit (fun s => s) lower_ascii
              capital_task (DirectPrompting.initial_state tt) st' 0%nat "paris" tt
              (DirectRunFacts.initial_state_ok unit tt) eq_refl Hbody)
    as [en_old [en_new [Hold [Hnew [Hans [_ [_ Hterm]]]]]]].
  exists st', en_new.
  split; [exact Hbody|]. split; [exact Hnew|]. split; [exact Hans|].
  vm_compute in Hold. inversion Hold. subst en_old.
  exact Hterm.
Defined.

(** ** Serialised trees: the round trip *)

Module HistoryFacts.
Import History.

Lemma mapM_transfer {A B} (f g : A -> result B) (l : list A) (ys : list B) :
  (forall x y, In x l -> f x = Ok y -> g x = Ok y) ->
  mapM f l = Ok ys -> mapM g l = Ok ys.
Proof.
  revert ys. induction l as [|x l IH]; intros ys H Hm; simpl in *; [exact Hm|].
  destruct (f x) as [y| | |] eqn:Hx; simpl in Hm; try discriminate.
  rewrite (H x y (or_introl eq_refl) Hx). simpl.
  destruct (mapM f l) as [ys'| | |] eqn:Hl; simpl in Hm; try discriminate.
  rewrite (IH ys' (fun x0 y0 Hin => H x0 y0 (or_intror Hin)) eq_refl). exact Hm.
Qed.

Lemma mapM_Forall2 {A B} (f : A -> result B) (l : list A) (ys : list B) :
  Forall2 (fun x y => f x = Ok y) l ys -> mapM f l = Ok ys.
Proof.
  induction 1 as [|x y l ys Hx _ IH]; simpl; [reflexivity|].
  rewrite Hx. simpl. rewrite IH. reflexivity.
Qed.

(** More fuel does not change a result. *)
Lemma serialise_fuel_mono (t : Tree) (fuel : nat) :
  (forall e s, serialise_evidence_node_fuel fuel t e = Ok s ->
     forall fuel', (fuel <= fuel')%nat -> serialise_evidence_node_fuel fuel' t e = Ok s)
  /\ (forall q s, serialise_question_node_fuel fuel t q = Ok s ->
     forall fuel', (fuel <= fuel')%nat -> serialise_question_node_fuel fuel' t q = Ok s).
Proof.
  induction fuel as [|fuel [IHe IHq]]; [split; intros; discriminate|].
  split.
  - intros e s H fuel' Hle. destruct fuel' as [|fuel']; [lia|].
    simpl in *. destruct (get_evidence t e) as [en| | |]; simpl in *; try discriminate.
    destruct (mapM (serialise_question_node_fuel fuel t) (e_children en))
      as [cs| | |] eqn:Hm; simpl in H; try discriminate.
    rewrite (mapM_transfer _ (serialise_question_node_fuel fuel' t) _ cs
               (fun x y _ Hx => IHq x y Hx fuel' ltac:(lia)) Hm).
    exact H.
  - intros q s H fuel' Hle. destruct fuel' as [|fuel']; [lia|].
    simpl in *. destruct (get_question t q) as [qn| | |]; simpl in *; try discriminate.
    destruct (mapM (serialise_evidence_node_fuel fuel t) (q_children qn))
      as [cs| | |] eqn:Hm; simpl in H; try discriminate.
    rewrite (mapM_transfer _ (serialise_evidence_node_fuel fuel' t) _ cs
               (fun x y _ Hx => IHe x y Hx fuel' ltac:(lia)) Hm).
    exact H.
Qed.

(** A result only depends on the nodes below the one serialised. *)
Lemma serialise_frame (lo_e lo_q : nat) (t t' : Tree) :
  agree lo_e lo_q t t' -> closed lo_e lo_q t ->
  forall fuel,
    (forall e s, (lo_e <= e)%nat -> serialise_evidence_node_fuel fuel t e = Ok s ->
       serialise_evidence_node_fuel fuel t' e = Ok s)
    /\ (forall q s, (lo_q <= q)%nat -> serialise_question_node_fuel fuel t q = Ok s ->
       serialise_question_node_fuel fuel t' q = Ok s).
Proof.
  intros [Hae Haq] [Hce Hcq]. induction fuel as [|fuel [IHe IHq]];
    [split; intros; discriminate|].
  split.
  - intros e s Hlo H. simpl in *. unfold get_evidence in *.
    destruct (nth_error (evidence_nodes t) e) as [en|] eqn:He; [|discriminate].
    rewrite (Hae e en Hlo He). simpl in *.
    destruct (mapM (serialise_question_node_fuel fuel t) (e_children en))
      as [cs| | |] eqn:Hm; simpl in H; try discriminate.
    rewrite (mapM_transfer _ (serialise_question_node_fuel fuel t') _ cs
               (fun x y Hin Hx => IHq x y (Hce e en Hlo He x Hin) Hx) Hm).
    exact H.
  - intros q s Hlo H. simpl in *. unfold get_question in *.
    destruct (nth_error (question_nodes t) q) as [qn|] eqn:Hq; [|discriminate].
    rewrite (Haq q qn Hlo Hq). simpl in *.
    destruct (mapM (serialise_evidence_node_fuel fuel t) (q_children qn))
      as [cs| | |] eqn:Hm; simpl in H; try discriminate.
    rewrite (mapM_transfer _ (serialise_evidence_node_fuel fuel t') _ cs
               (fun x y Hin Hx => IHe x y (Hcq q qn Hlo Hq x Hin) Hx) Hm).
    exact H.
Qed.

Lemma list_update_middle {A} (l r : list A) (x : A) (f : A -> A) :
  list_update (l ++ x :: r) (length l) f = l ++ f x :: r.
Proof.
  induction l as [|y l IH]; simpl; [reflexivity|]. rewrite IH. reflexivity.
Qed.

Lemma agree_prefix (t t' : Tree) (le : list EvidenceNode) (lq : list QuestionNode) :
  evidence_nodes t' = evidence_nodes t ++ le ->
  question_nodes t' = question_nodes t ++ lq ->
  agree 0 0 t t'.
Proof.
  intros He Hq. split.
  - intros i en _ Hi. rewrite He. rewrite nth_error_app1; [exact Hi|].
    apply nth_error_Some. congruence.
  - intros j qn _ Hj. rewrite Hq. rewrite nth_error_app1; [exact Hj|].
    apply nth_error_Some. congruence.
Qed.

Lemma closed_zero (t : Tree) : closed 0 0 t.
Proof. split; intros; lia. Qed.

Lemma closed_extend (a b : nat) (t1 t2 : Tree) (le : list EvidenceNode)
    (lq : list QuestionNode) :
  evidence_nodes t2 = evidence_nodes t1 ++ le ->
  question_nodes t2 = question_nodes t1 ++ lq ->
  closed a b t1 ->
  closed (length (evidence_nodes t1)) (length (question_nodes t1)) t2 ->
  (a <= length (evidence_nodes t1))%nat -> (b <= length (question_nodes t1))%nat ->
  closed a b t2.
Proof.
  intros He Hq [H1e H1q] [H2e H2q] Ha Hb. split.
  - intros i en Hlo Hi q Hin.
    destruct (Nat.lt_ge_cases i (length (evidence_nodes t1))) as [Hlt|Hge].
    + rewrite He, nth_error_app1 in Hi by exact Hlt. apply (H1e i en Hlo Hi q Hin).
    + pose proof (H2e i en Hge Hi q Hin). lia.
  - intros j qn Hlo Hj e Hin.
    destruct (Nat.lt_ge_cases j (length (question_nodes t1))) as [Hlt|Hge].
    + rewrite Hq, nth_error_app1 in Hj by exact Hlt. apply (H1q j qn Hlo Hj e Hin).
    + pose proof (H2q j qn Hge Hj e Hin). lia.
Qed.

Lemma closed_top (t : Tree) :
  closed (length (evidence_nodes t)) (length (question_nodes t)) t.
Proof.
  split; intros i x Hlo Hi;
    assert (i < length (evidence_nodes t) \/ i < length (question_nodes t))%nat
      by (first [left; apply nth_error_Some; congruence
                | right; apply nth_error_Some; congruence]).
  - assert (i < length (evidence_nodes t))%nat by (apply nth_error_Some; congruence).
    lia.
  - assert (i < length (question_nodes t))%nat by (apply nth_error_Some; congruence).
    lia.
Qed.

Lemma build_all_cons {A} (build : A -> Tree -> nat * Tree) (c : A) (cs : list A)
    (t : Tree) :
  build_all build (c :: cs) t
  = (fst (build c t) :: fst (build_all build cs (snd (build c t))),
     snd (build_all build cs (snd (build c t)))).
Proof.
  simpl. destruct (build c t) as [id t1]. simpl.
  destruct (build_all build cs t1) as [ids t2]. reflexivity.
Qed.

Lemma build_all_questions (cs : list SerialisedQuestionNode) (e : eid) :
  (forall c, In c cs -> built_question c) ->
  forall t,
    let r := build_all (fun c => deserialise_question_node c e) cs t in
    (exists le lq,
       evidence_nodes (snd r) = evidence_nodes t ++ le
       /\ question_nodes (snd r) = question_nodes t ++ lq
       /\ (length le + length lq
           = fold_right (fun c n => size_question c + n) 0 cs)%nat)
    /\ closed (length (evidence_nodes t)) (length (question_nodes t)) (snd r)
    /\ Forall2 (fun q c => serialise_question_node_fuel (size_question c) (snd r) q
                           = Ok c) (fst r) cs
    /\ (forall q, In q (fst r) -> (length (question_nodes t) <= q)%nat).
Proof.
  induction cs as [|c cs IH]; intros Hall t r.
  - unfold r. simpl. split; [exists [], []; rewrite !app_nil_r; auto|].
    split; [apply closed_top|]. split; [constructor | intros q []].
  - unfold r. rewrite build_all_cons. cbn [fst snd].
    destruct (Hall c (or_introl eq_refl) e t) as [Hid [[le1 [lq1 [He1 [Hq1 Hn1]]]] [Hc1 Hs1]]].
    set (r1 := deserialise_question_node c e t) in *.
    destruct (IH (fun c0 H0 => Hall c0 (or_intror H0)) (snd r1))
      as [[le2 [lq2 [He2 [Hq2 Hn2]]]] [Hc2 [Hf2 Hlo2]]].
    unfold qid, eid in *.
    split; [|split; [|split]].
    + exists (le1 ++ le2), (lq1 ++ lq2).
      rewrite He2, He1, Hq2, Hq1, !app_assoc, !length_app. simpl.
      repeat split; lia.
    + apply (closed_extend _ _ (snd r1) _ le2 lq2 He2 Hq2 Hc1 Hc2).
      * rewrite He1, length_app. lia.
      * rewrite Hq1, length_app. lia.
    + constructor; [|exact Hf2].
      destruct (serialise_frame 0 0 (snd r1) _
                  (agree_prefix _ _ le2 lq2 He2 Hq2) (closed_zero _)
                  (size_question c)) as [_ Hfq].
      apply Hfq; [lia | exact Hs1].
    + intros q [<-|Hin]; [rewrite Hid; lia|].
      pose proof (Hlo2 q Hin). rewrite Hq1, length_app in H. lia.
Qed.

Lemma build_all_evidence (cs : list SerialisedEvidenceNode) (q : qid) :
  (forall c, In c cs -> built_evidence c) ->
  forall t,
    let r := build_all (fun c => deserialise_evidence_node c (Some q)) cs t in
    (exists le lq,
       evidence_nodes (snd r) = evidence_nodes t ++ le
       /\ question_nodes (snd r) = question_nodes t ++ lq
       /\ (length le + length lq
           = fold_right (fun c n => size_evidence c + n) 0 cs)%nat)
    /\ closed (length (evidence_nodes t)) (length (question_nodes t)) (snd r)
    /\ Forall2 (fun e c => serialise_evidence_node_fuel (size_evidence c) (snd r) e
                           = Ok c) (fst r) cs
    /\ (forall e, In e (fst r) -> (length (evidence_nodes t) <= e)%nat).
Proof.
  induction cs as [|c cs IH]; intros Hall t r.
  - unfold r. simpl. split; [exists [], []; rewrite !app_nil_r; auto|].
    split; [apply closed_top|]. split; [constructor | intros e []].
  - unfold r. rewrite build_all_cons. cbn [fst snd].
    destruct (Hall c (or_introl eq_refl) (Some q) t)
      as [Hid [[le1 [lq1 [He1 [Hq1 Hn1]]]] [Hc1 Hs1]]].
    set (r1 := deserialise_evidence_node c (Some q) t) in *.
    destruct (IH (fun c0 H0 => Hall c0 (or_intror H0)) (snd r1))
      as [[le2 [lq2 [He2 [Hq2 Hn2]]]] [Hc2 [Hf2 Hlo2]]].
    unfold qid, eid in *.
    split; [|split; [|split]].
    + exists (le1 ++ le2), (lq1 ++ lq2).
      rewrite He2, He1, Hq2, Hq1, !app_assoc, !length_app. simpl.
      repeat split; lia.
    + apply (closed_extend _ _ (snd r1) _ le2 lq2 He2 Hq2 Hc1 Hc2).
      * rewrite He1, length_app. lia.
      * rewrite Hq1, length_app. lia.
    + constructor; [|exact Hf2].
      destruct (serialise_frame 0 0 (snd r1) _
                  (agree_prefix _ _ le2 lq2 He2 Hq2) (closed_zero _)
                  (size_evidence c)) as [Hfe _].
      apply Hfe; [lia | exact Hs1].
    + intros e [<-|Hin]; [rewrite Hid; lia|].
      pose proof (Hlo2 e Hin). rewrite He1, length_app in H. lia.
Qed.

Lemma size_question_child (c : SerialisedQuestionNode)
    (cs : list SerialisedQuestionNode) :
  In c cs -> (size_question c <= fold_right (fun c n => size_question c + n) 0 cs)%nat.
Proof.
  induction cs as [|x cs IH]; intros Hin; [contradiction|].
  destruct Hin as [<-|Hin]; simpl; [lia|]. specialize (IH Hin). lia.
Qed.

Lemma size_evidence_child (c : SerialisedEvidenceNode)
    (cs : list SerialisedEvidenceNode) :
  In c cs -> (size_evidence c <= fold_right (fun c n => size_evidence c + n) 0 cs)%nat.
Proof.
  induction cs as [|x cs IH]; intros Hin; [contradiction|].
  destruct Hin as [<-|Hin]; simpl; [lia|]. specialize (IH Hin). lia.
Qed.

Lemma Forall2_more_fuel_q (t t' : Tree) (lo_e lo_q fuel : nat) (ids : list nat)
    (cs : list SerialisedQuestionNode) :
  agree lo_e lo_q t t' -> closed lo_e lo_q t ->
  (forall q, In q ids -> (lo_q <= q)%nat) ->
  (forall c, In c cs -> (size_question c <= fuel)%nat) ->
  Forall2 (fun q c => serialise_question_node_fuel (size_question c) t q = Ok c) ids cs ->
  mapM (serialise_question_node_fuel fuel t') ids = Ok cs.
Proof.
  intros Ha Hc Hlo Hsize Hf. apply mapM_Forall2.
  induction Hf as [|q c ids cs Hq _ IH]; constructor.
  - destruct (serialise_frame lo_e lo_q t t' Ha Hc fuel) as [_ Hfq].
    apply Hfq; [apply Hlo; left; reflexivity|].
    apply (proj2 (serialise_fuel_mono t (size_question c)) q c Hq).
    apply Hsize. left. reflexivity.
  - apply IH; intros; [apply Hlo | apply Hsize]; right; assumption.
Qed.

Lemma Forall2_more_fuel_e (t t' : Tree) (lo_e lo_q fuel : nat) (ids : list nat)
    (cs : list SerialisedEvidenceNode) :
  agree lo_e lo_q t t' -> closed lo_e lo_q t ->
  (forall e, In e ids -> (lo_e <= e)%nat) ->
  (forall c, In c cs -> (size_evidence c <= fuel)%nat) ->
  Forall2 (fun e c => serialise_evidence_node_fuel (size_evidence c) t e = Ok c) ids cs ->
  mapM (serialise_evidence_node_fuel fuel t') ids = Ok cs.
Proof.
  intros Ha Hc Hlo Hsize Hf. apply mapM_Forall2.
  induction Hf as [|e c ids cs He _ IH]; constructor.
  - destruct (serialise_frame lo_e lo_q t t' Ha Hc fuel) as [Hfe _].
    apply Hfe; [apply Hlo; left; reflexivity|].
    apply (proj1 (serialise_fuel_mono t (size_evidence c)) e c He).
    apply Hsize. left. reflexivity.
  - apply IH; intros; [apply Hlo | apply Hsize]; right; assumption.
Qed.

Lemma built_evidence_step a b m (cs : list SerialisedQuestionNode) :
  (forall c, In c cs -> built_question c) -> built_evidence (SEvidence a b m cs).
Proof.
  intros Hcs parent t. cbn [deserialise_evidence_node].
  set (e := length (evidence_nodes t)).
  set (n0 := mkEvidenceNode a b m parent []).
  set (t0 := mkTree (evidence_nodes t ++ [n0]) (question_nodes t)).
  pose proof (build_all_questions cs e Hcs t0) as Hb. cbv zeta in Hb.
  unfold qid, eid in *.
  destruct (build_all (fun child => deserialise_question_node child e) cs t0)
    as [ids t1] eqn:Hbuild.
  cbn [fst snd] in Hb. destruct Hb as [[le [lq [He1 [Hq1 Hn1]]]] [Hc1 [Hf1 Hlo1]]].
  cbv zeta. cbn [fst snd evidence_nodes question_nodes].
  set (f := fun n => mkEvidenceNode (answer n) (belief_state n) (marginal_likelihood n)
                       (e_parent n) ids).
  assert (Hlen0 : length (evidence_nodes t0) = S e)
    by (unfold t0; simpl; rewrite length_app; simpl; unfold e; lia).
  assert (Hev' : list_update (evidence_nodes t1) e f = evidence_nodes t ++ f n0 :: le).
  { rewrite He1. unfold t0. cbn [evidence_nodes]. rewrite <- app_assoc. simpl.
    apply list_update_middle. }
  split; [reflexivity|]. split; [|split].
  - exists (f n0 :: le), lq. split; [exact Hev'|]. split; [exact Hq1|].
    simpl. lia.
  - destruct Hc1 as [Hc1e Hc1q]. split; cbn [evidence_nodes question_nodes].
    + intros i en Hlo Hi q Hin. rewrite nth_error_list_update in Hi.
      destruct (e =? i)%nat eqn:Ei.
      * destruct (nth_error (evidence_nodes t1) i); [|discriminate].
        simpl in Hi. inversion Hi. subst en. simpl in Hin.
        apply Hlo1. exact Hin.
      * apply Nat.eqb_neq in Ei.
        apply (Hc1e i en); [rewrite Hlen0; fold e in Hlo; lia | exact Hi | exact Hin].
    + intros j qn Hlo Hj x Hin.
      pose proof (Hc1q j qn Hlo Hj x Hin) as H. rewrite Hlen0 in H. fold e. lia.
  - cbn [size_evidence serialise_evidence_node_fuel].
    assert (Hget : get_evidence
                     (mkTree (list_update (evidence_nodes t1) e f) (question_nodes t1)) e
                   = Ok (f n0)).
    { apply get_evidence_ok. cbn [evidence_nodes]. rewrite Hev'.
      rewrite nth_error_app2 by (unfold e; lia).
      unfold e. rewrite Nat.sub_diag. reflexivity. }
    rewrite Hget. cbn [rbind]. cbn [f e_children].
    rewrite (Forall2_more_fuel_q t1 _ (S e) (length (question_nodes t)) _ ids cs).
    + reflexivity.
    + split; cbn [evidence_nodes question_nodes].
      * intros i en Hlo Hi. rewrite nth_error_list_update.
        assert (Hne : (e =? i)%nat = false) by (apply Nat.eqb_neq; lia).
        rewrite Hne. exact Hi.
      * intros j qn _ Hj. exact Hj.
    + rewrite <- Hlen0. exact Hc1.
    + exact Hlo1.
    + intros c Hc. apply size_question_child. exact Hc.
    + exact Hf1.
Qed.

Lemma built_question_step text answers (cs : list SerialisedEvidenceNode) :
  (forall c, In c cs -> built_evidence c) -> built_question (SQuestion text answers cs).
Proof.
  intros Hcs parent t. cbn [deserialise_question_node].
  set (q := length (question_nodes t)).
  set (n0 := mkQuestionNode text answers parent []).
  set (t0 := mkTree (evidence_nodes t) (question_nodes t ++ [n0])).
  pose proof (build_all_evidence cs q Hcs t0) as Hb. cbv zeta in Hb.
  unfold qid, eid in *.
  destruct (build_all (fun child => deserialise_evidence_node child (Some q)) cs t0)
    as [ids t1] eqn:Hbuild.
  cbn [fst snd] in Hb. destruct Hb as [[le [lq [He1 [Hq1 Hn1]]]] [Hc1 [Hf1 Hlo1]]].
  cbv zeta. cbn [fst snd evidence_nodes question_nodes].
  set (f := fun n => mkQuestionNode (question n) (possible_answers n) (q_parent n) ids).
  assert (Hlen0 : length (question_nodes t0) = S q)
    by (unfold t0; simpl; rewrite length_app; simpl; unfold q; lia).
  assert (Hqs' : list_update (question_nodes t1) q f = question_nodes t ++ f n0 :: lq).
  { rewrite Hq1. unfold t0. cbn [question_nodes]. rewrite <- app_assoc. simpl.
    apply list_update_middle. }
  split; [reflexivity|]. split; [|split].
  - exists le, (f n0 :: lq). split; [exact He1|]. split; [exact Hqs'|].
    simpl. lia.
  - destruct Hc1 as [Hc1e Hc1q]. split; cbn [evidence_nodes question_nodes].
    + intros i en Hlo Hi x Hin.
      pose proof (Hc1e i en Hlo Hi x Hin) as H. rewrite Hlen0 in H. fold q. lia.
    + intros j qn Hlo Hj x Hin. rewrite nth_error_list_update in Hj.
      destruct (q =? j)%nat eqn:Ej.
      * destruct (nth_error (question_nodes t1) j); [|discriminate].
        simpl in Hj. inversion Hj. subst qn. simpl in Hin.
        apply Hlo1. exact Hin.
      * apply Nat.eqb_neq in Ej.
        apply (Hc1q j qn); [rewrite Hlen0; fold q in Hlo; lia | exact Hj | exact Hin].
  - cbn [size_question serialise_question_node_fuel].
    assert (Hget : get_question
                     (mkTree (evidence_nodes t1) (list_update (question_nodes t1) q f)) q
                   = Ok (f n0)).
    { apply get_question_ok. cbn [question_nodes]. rewrite Hqs'.
      rewrite nth_error_app2 by (unfold q; lia).
      unfold q. rewrite Nat.sub_diag. reflexivity. }
    rewrite Hget. cbn [rbind]. cbn [f q_children].
    rewrite (Forall2_more_fuel_e t1 _ (length (evidence_nodes t)) (S q) _ ids cs).
    + reflexivity.
    + split; cbn [evidence_nodes question_nodes].
      * intros i en _ Hi. exact Hi.
      * intros j qn Hlo Hj. rewrite nth_error_list_update.
        assert (Hne : (q =? j)%nat = false) by (apply Nat.eqb_neq; lia).
        rewrite Hne. exact Hj.
    + rewrite <- Hlen0. exact Hc1.
    + exact Hlo1.
    + intros c Hc. apply size_evidence_child. exact Hc.
    + exact Hf1.
Qed.

Lemma built_by_size (n : nat) :
  (forall s, (size_evidence s <= n)%nat -> built_evidence s)
  /\ (forall s, (size_question s <= n)%nat -> built_question s).
Proof.
  induction n as [|n [IHe IHq]].
  - split; intros [? ? ? ?] H || intros [? ? ?] H; simpl in H; lia.
  - split.
    + intros [a b m cs] Hs. apply built_evidence_step. intros c Hc. apply IHq.
      pose proof (size_question_child c cs Hc). simpl in Hs. lia.
    + intros [text answers cs] Hs. apply built_question_step. intros c Hc. apply IHe.
      pose proof (size_evidence_child c cs Hc). simpl in Hs. lia.
Qed.

(** X21: a serialised tree survives the round trip.  [deserialise_evidence_node]
    creates its nodes behind the nodes the store already holds (none of these
    is changed), one node per node of the serialised tree, and
    [serialise_evidence_node] of the node it returns gives the serialised
    tree back. *)
Theorem serialise_deserialise (s : SerialisedEvidenceNode) (parent : option qid)
    (t : Tree) :
  let r := deserialise_evidence_node s parent t in
  serialise_evidence_node (snd r) (fst r) = Ok s
  /\ fst r = length (evidence_nodes t)
  /\ exists le lq,
       evidence_nodes (snd r) = evidence_nodes t ++ le
       /\ question_nodes (snd r) = question_nodes t ++ lq
       /\ (length le + length lq = size_evidence s)%nat.
Proof.
  intros r.
  destruct (proj1 (built_by_size (size_evidence s)) s (Nat.le_refl _) parent t)
    as [Hid [[le [lq [He [Hq Hn]]]] [_ Hser]]].
  fold r in Hid, He, Hq, Hser.
  split; [|split; [exact Hid | exists le, lq; auto]].
  unfold serialise_evidence_node.
  apply (proj1 (serialise_fuel_mono (snd r) (size_evidence s)) _ _ Hser).
  rewrite He, Hq, !length_app. lia.
Qed.

End HistoryFacts.

(** ** Restored trees are well-formed *)

Module HistoryLinks.
Import History HistoryFacts.

Lemma prefix_lookup {A} (l ext : list A) (i : nat) (x : A) :
  nth_error l i = Some x -> nth_error (l ++ ext) i = Some x.
Proof.
  intros H. rewrite nth_error_app1; [exact H|].
  apply nth_error_Some. congruence.
Qed.

Lemma parent_linked_same_questions (t t' : Tree) (lo_q i : nat) (en : EvidenceNode) :
  question_nodes t' = question_nodes t ->
  parent_linked t lo_q i en -> parent_linked t' lo_q i en.
Proof.
  intros Hq [q [qn H]]. exists q, qn. rewrite Hq. exact H.
Qed.

Lemma region_links_weaken (X Y : nat -> Prop) (lo_e lo_q : nat) (t : Tree) :
  (forall i, X i -> Y i) -> region_links X lo_e lo_q t -> region_links Y lo_e lo_q t.
Proof.
  intros HXY [He Hq]. split; [|exact Hq].
  intros i en Hlo Hi. destruct (He i en Hlo Hi) as [[Hx|Hp] Hc].
  - split; [left; apply HXY; exact Hx | exact Hc].
  - split; [right; exact Hp | exact Hc].
Qed.

Lemma region_links_top (X : nat -> Prop) (t : Tree) :
  region_links X (length (evidence_nodes t)) (length (question_nodes t)) t.
Proof.
  split.
  - intros i en Hlo Hi. exfalso.
    assert (i < length (evidence_nodes t))%nat by (apply nth_error_Some; congruence).
    lia.
  - intros j qn Hlo Hj. exfalso.
    assert (j < length (question_nodes t))%nat by (apply nth_error_Some; congruence).
    lia.
Qed.

(** The nodes of a store keep their links when nodes are appended, and the
    links of the appended part add to them. *)
Lemma region_links_extend (X1 X2 : nat -> Prop) (a c : nat) (t1 t2 : Tree)
    (le : list EvidenceNode) (lq : list QuestionNode) :
  evidence_nodes t2 = evidence_nodes t1 ++ le ->
  question_nodes t2 = question_nodes t1 ++ lq ->
  (c <= length (question_nodes t1))%nat ->
  region_links X1 a c t1 ->
  region_links X2 (length (evidence_nodes t1)) (length (question_nodes t1)) t2 ->
  region_links (fun i => X1 i \/ X2 i) a c t2.
Proof.
  intros He Hq Hc [H1e H1q] [H2e H2q]. split.
  - intros i en Hlo Hi.
    destruct (Nat.lt_ge_cases i (length (evidence_nodes t1))) as [Hlt|Hge].
    + rewrite He, nth_error_app1 in Hi by exact Hlt.
      destruct (H1e i en Hlo Hi) as [Hpar Hch]. split.
      * destruct Hpar as [Hx|[q [qn [Hq1 [Hp [Hn Hrest]]]]]]; [left; left; exact Hx|].
        right. exists q, qn. split; [exact Hq1|]. split; [exact Hp|].
        split; [rewrite Hq; apply prefix_lookup; exact Hn | exact Hrest].
      * intros q' Hin. destruct (Hch q' Hin) as [qn' [Hn Hp]].
        exists qn'. split; [rewrite Hq; apply prefix_lookup; exact Hn | exact Hp].
    + destruct (H2e i en Hge Hi) as [Hpar Hch]. split; [|exact Hch].
      destruct Hpar as [Hx|[q [qn [Hq1 Hrest]]]]; [left; right; exact Hx|].
      right. exists q, qn. split; [lia | exact Hrest].
  - intros j qn Hlo Hj.
    destruct (Nat.lt_ge_cases j (length (question_nodes t1))) as [Hlt|Hge].
    + rewrite Hq, nth_error_app1 in Hj by exact Hlt.
      destruct (H1q j qn Hlo Hj) as [Hpar Hch]. split.
      * rewrite He, length_app. lia.
      * intros e Hin. destruct (Hch e Hin) as [en [Hn Hp]].
        exists en. split; [rewrite He; apply prefix_lookup; exact Hn | exact Hp].
    + apply (H2q j qn Hge Hj).
Qed.

Lemma build_all_questions_links (cs : list SerialisedQuestionNode) (e : eid) :
  (forall c, In c cs -> built_question c) ->
  (forall c, In c cs -> linked_question c) ->
  forall t, (e < length (evidence_nodes t))%nat ->
    let r := build_all (fun c => deserialise_question_node c e) cs t in
    region_links (fun _ => False)
      (length (evidence_nodes t)) (length (question_nodes t)) (snd r)
    /\ (forall q, In q (fst r) ->
          exists qn, nth_error (question_nodes (snd r)) q = Some qn /\ q_parent qn = e).
Proof.
  induction cs as [|c cs IH]; intros Hb Hl t He r.
  - unfold r. simpl. split; [apply region_links_top | intros q []].
  - unfold r. rewrite build_all_cons. cbn [fst snd].
    destruct (Hb c (or_introl eq_refl) e t) as [Hid [[le1 [lq1 [He1 [Hq1 _]]]] _]].
    destruct (Hl c (or_introl eq_refl) e t He) as [Hreg1 [qn1 [Hroot1 Hpar1]]].
    set (r1 := deserialise_question_node c e t) in *.
    assert (He' : (e < length (evidence_nodes (snd r1)))%nat)
      by (rewrite He1, length_app; lia).
    destruct (IH (fun c0 H0 => Hb c0 (or_intror H0)) (fun c0 H0 => Hl c0 (or_intror H0))
                (snd r1) He') as [Hreg2 Hroots2].
    destruct (build_all_questions cs e (fun c0 H0 => Hb c0 (or_intror H0)) (snd r1))
      as [[le2 [lq2 [He2 [Hq2 _]]]] _].
    unfold qid, eid in *.
    split.
    + apply (region_links_weaken (fun i => False \/ False)); [intros i [[]|[]]|].
      apply (region_links_extend _ _ _ _ (snd r1) _ le2 lq2 He2 Hq2);
        [rewrite Hq1, length_app; lia | exact Hreg1 | exact Hreg2].
    + intros q [<-|Hin]; [|apply Hroots2; exact Hin].
      exists qn1. split; [|exact Hpar1].
      rewrite Hq2. apply prefix_lookup. rewrite Hid. exact Hroot1.
Qed.

Lemma build_all_evidence_links (cs : list SerialisedEvidenceNode) (q : qid) :
  (forall c, In c cs -> built_evidence c) ->
  (forall c, In c cs -> linked_evidence c) ->
  forall t,
    let r := build_all (fun c => deserialise_evidence_node c (Some q)) cs t in
    region_links (fun i => In i (fst r))
      (length (evidence_nodes t)) (length (question_nodes t)) (snd r)
    /\ (forall e, In e (fst r) ->
          (length (evidence_nodes t) <= e)%nat
          /\ exists en, nth_error (evidence_nodes (snd r)) e = Some en
                        /\ e_parent en = Some q).
Proof.
  induction cs as [|c cs IH]; intros Hb Hl t r.
  - unfold r. simpl. split; [apply region_links_top | intros e []].
  - unfold r. rewrite build_all_cons. cbn [fst snd].
    destruct (Hb c (or_introl eq_refl) (Some q) t)
      as [Hid [[le1 [lq1 [He1 [Hq1 _]]]] _]].
    destruct (Hl c (or_introl eq_refl) (Some q) t) as [Hreg1 [en1 [Hroot1 Hpar1]]].
    set (r1 := deserialise_evidence_node c (Some q) t) in *.
    destruct (IH (fun c0 H0 => Hb c0 (or_intror H0)) (fun c0 H0 => Hl c0 (or_intror H0))
                (snd r1)) as [Hreg2 Hroots2].
    destruct (build_all_evidence cs q (fun c0 H0 => Hb c0 (or_intror H0)) (snd r1))
      as [[le2 [lq2 [He2 [Hq2 _]]]] _].
    unfold qid, eid in *.
    split.
    + apply (region_links_weaken
               (fun i => i = length (evidence_nodes t)
                         \/ In i (fst (build_all
                                         (fun c0 => deserialise_evidence_node c0 (Some q))
                                         cs (snd r1))))).
      { intros i [->|Hin]; [left; exact Hid | right; exact Hin]. }
      apply (region_links_extend _ _ _ _ (snd r1) _ le2 lq2 He2 Hq2);
        [rewrite Hq1, length_app; lia | exact Hreg1 | exact Hreg2].
    + intros e [<-|Hin].
      * split; [rewrite Hid; lia|].
        exists en1. split; [|exact Hpar1].
        rewrite He2. apply prefix_lookup. rewrite Hid. exact Hroot1.
      * destruct (Hroots2 e Hin) as [Hlo Hen]. split; [|exact Hen].
        rewrite He1, length_app in Hlo. lia.
Qed.

Lemma linked_evidence_step a b m (cs : list SerialisedQuestionNode) :
  (forall c, In c cs -> built_question c) ->
  (forall c, In c cs -> linked_question c) ->
  linked_evidence (SEvidence a b m cs).
Proof.
  intros Hb Hl parent t. cbn [deserialise_evidence_node].
  set (e := length (evidence_nodes t)).
  set (n0 := mkEvidenceNode a b m parent []).
  set (t0 := mkTree (evidence_nodes t ++ [n0]) (question_nodes t)).
  assert (Hlen0 : length (evidence_nodes t0) = S e)
    by (unfold t0; simpl; rewrite length_app; simpl; unfold e; lia).
  assert (He0 : (e < length (evidence_nodes t0))%nat) by lia.
  pose proof (build_all_questions_links cs e Hb Hl t0 He0) as Hlinks.
  pose proof (build_all_questions cs e Hb t0) as Hshape.
  cbv zeta in Hlinks, Hshape.
  unfold qid, eid in *.
  destruct (build_all (fun child => deserialise_question_node child e) cs t0)
    as [ids t1] eqn:Hbuild.
  cbn [fst snd] in Hlinks, Hshape.
  destruct Hlinks as [[Hre Hrq] Hroots].
  destruct Hshape as [[le [lq [He1 [Hq1 _]]]] _].
  cbv zeta. cbn [fst snd].
  set (f := fun n => mkEvidenceNode (answer n) (belief_state n) (marginal_likelihood n)
                       (e_parent n) ids).
  assert (Hev' : list_update (evidence_nodes t1) e f = evidence_nodes t ++ f n0 :: le).
  { rewrite He1. unfold t0. cbn [evidence_nodes]. rewrite <- app_assoc. simpl.
    apply list_update_middle. }
  rewrite Hlen0 in Hre. unfold t0 in Hre, Hrq. cbn [question_nodes] in Hre, Hrq.
  split; [split|].
  - cbn [evidence_nodes question_nodes]. intros i en Hlo Hi.
    rewrite nth_error_list_update in Hi.
    destruct (e =? i)%nat eqn:Ei.
    + apply Nat.eqb_eq in Ei. subst i.
      destruct (nth_error (evidence_nodes t1) e) as [n|]; [|discriminate].
      simpl in Hi. inversion Hi. subst en. split; [left; reflexivity|].
      cbn [f e_children]. exact Hroots.
    + apply Nat.eqb_neq in Ei.
      assert (Hlo' : (S e <= i)%nat) by (fold e in Hlo; lia).
      destruct (Hre i en Hlo' Hi) as [[[]|Hpar] Hch].
      split; [right | exact Hch].
      destruct Hpar as [q [qn Hrest]]. exists q, qn. exact Hrest.
  - cbn [evidence_nodes question_nodes]. intros j qn Hlo Hj.
    destruct (Hrq j qn Hlo Hj) as [Hpar Hch]. split.
    + rewrite length_list_update. exact Hpar.
    + intros e' Hin. destruct (Hch e' Hin) as [en [Hn Hp]].
      rewrite nth_error_list_update, Hn.
      destruct (e =? e')%nat; simpl; [exists (f en) | exists en]; auto.
  - cbn [evidence_nodes]. exists (f n0). split; [|reflexivity].
    rewrite Hev'. rewrite nth_error_app2 by (unfold e; lia).
    unfold e. rewrite Nat.sub_diag. reflexivity.
Qed.

Lemma linked_question_step text answers (cs : list SerialisedEvidenceNode) :
  (forall c, In c cs -> built_evidence c) ->
  (forall c, In c cs -> linked_evidence c) ->
  linked_question (SQuestion text answers cs).
Proof.
  intros Hb Hl p t Hp. cbn [deserialise_question_node].
  set (q := length (question_nodes t)).
  set (n0 := mkQuestionNode text answers p []).
  set (t0 := mkTree (evidence_nodes t) (question_nodes t ++ [n0])).
  assert (Hlen0 : length (question_nodes t0) = S q)
    by (unfold t0; simpl; rewrite length_app; simpl; unfold q; lia).
  pose proof (build_all_evidence_links cs q Hb Hl t0) as Hlinks.
  pose proof (build_all_evidence cs q Hb t0) as Hshape.
  cbv zeta in Hlinks, Hshape.
  unfold qid, eid in *.
  destruct (build_all (fun child => deserialise_evidence_node child (Some q)) cs t0)
    as [ids t1] eqn:Hbuild.
  cbn [fst snd] in Hlinks, Hshape.
  destruct Hlinks as [[Hre Hrq] Hroots].
  destruct Hshape as [[le [lq [He1 [Hq1 _]]]] _].
  cbv zeta. cbn [fst snd].
  set (f := fun n => mkQuestionNode (question n) (possible_answers n) (q_parent n) ids).
  assert (Hq' : list_update (question_nodes t1) q f = question_nodes t ++ f n0 :: lq).
  { rewrite Hq1. unfold t0. cbn [question_nodes]. rewrite <- app_assoc. simpl.
    apply list_update_middle. }
  assert (Hroot : nth_error (list_update (question_nodes t1) q f) q = Some (f n0)).
  { rewrite Hq'. rewrite nth_error_app2 by (unfold q; lia).
    unfold q. rewrite Nat.sub_diag. reflexivity. }
  rewrite Hlen0 in Hre, Hrq. unfold t0 in Hre, Hroots, He1.
  cbn [evidence_nodes] in Hre, Hroots, He1.
  split; [split|].
  - cbn [evidence_nodes question_nodes]. intros i en Hlo Hi.
    destruct (Hre i en Hlo Hi) as [Hpar Hch]. split.
    + right. destruct Hpar as [Hin|[q' [qn [Hq'lo [Hpq [Hn Hrest]]]]]].
      * destruct (Hroots i Hin) as [_ [en0 [Hn0 Hp0]]].
        assert (en0 = en) by congruence. subst en0.
        exists q, (f n0). split; [fold q; lia|]. split; [exact Hp0|].
        split; [exact Hroot|]. cbn [f q_parent q_children n0]. split; [lia | exact Hin].
      * exists q', qn. split; [lia|]. split; [exact Hpq|]. split; [|exact Hrest].
        cbn [question_nodes]. rewrite nth_error_list_update.
        assert (Hne : (q =? q')%nat = false) by (apply Nat.eqb_neq; lia).
        rewrite Hne. exact Hn.
    + intros q' Hin. destruct (Hch q' Hin) as [qn' [Hn Hpq]].
      rewrite nth_error_list_update, Hn.
      destruct (q =? q')%nat; simpl; [exists (f qn') | exists qn']; auto.
  - cbn [evidence_nodes question_nodes]. intros j qn Hlo Hj.
    rewrite nth_error_list_update in Hj.
    destruct (q =? j)%nat eqn:Ej.
    + apply Nat.eqb_eq in Ej. subst j.
      rewrite nth_error_list_update, Nat.eqb_refl in Hroot.
      rewrite Hroot in Hj. inversion Hj. subst qn. cbn [f q_parent q_children n0].
      split; [rewrite He1, length_app; lia|].
      intros e Hin. apply (Hroots e Hin).
    + apply Nat.eqb_neq in Ej.
      apply (Hrq j qn); [fold q in Hlo; lia | exact Hj].
  - cbn [question_nodes]. exists (f n0). split; [exact Hroot | reflexivity].
Qed.

Lemma linked_by_size (n : nat) :
  (forall s, (size_evidence s <= n)%nat -> linked_evidence s)
  /\ (forall s, (size_question s <= n)%nat -> linked_question s).
Proof.
  induction n as [|n [IHe IHq]].
  - split; intros [? ? ? ?] H || intros [? ? ?] H; simpl in H; lia.
  - split.
    + intros [a b m cs] Hs. apply linked_evidence_step; intros c Hc;
        pose proof (size_question_child c cs Hc); simpl in Hs.
      * apply (proj2 (built_by_size (size_question c))). lia.
      * apply IHq. lia.
    + intros [text answers cs] Hs. apply linked_question_step; intros c Hc;
        pose proof (size_evidence_child c cs Hc); simpl in Hs.
      * apply (proj1 (built_by_size (size_evidence c))). lia.
      * apply IHe. lia.
Qed.

(** X23: a restored tree is well-formed.  [deserialise_evidence_node], called
    without a parent on a store whose links agree, leaves a store whose links
    agree: every node it creates has the parent it was created under, every
    parent lists it among its children, and the node it returns is a root. *)
Theorem deserialise_well_formed (s : SerialisedEvidenceNode) (t : Tree) :
  well_formed t = true ->
  children_registered t = true ->
  let r := deserialise_evidence_node s None t in
  well_formed (snd r) = true
  /\ children_registered (snd r) = true
  /\ exists en, get_evidence (snd r) (fst r) = Ok en /\ e_parent en = None.
Proof.
  intros Hwf Hreg r.
  assert (Hok : links_ok t) by (apply links_ok_iff; split; assumption).
  destruct (proj1 (built_by_size (size_evidence s)) s (Nat.le_refl _) None t)
    as [Hid [[le [lq [He [Hq _]]]] _]].
  destruct (proj1 (linked_by_size (size_evidence s)) s (Nat.le_refl _) None t)
    as [[Hre Hrq] [en0 [Hroot Hpar]]].
  fold r in Hid, He, Hq, Hre, Hrq, Hroot.
  destruct Hok as [Hoe Hoq].
  assert (Hlinks : links_ok (snd r)).
  { split.
    - intros i en Hi.
      destruct (Nat.lt_ge_cases i (length (evidence_nodes t))) as [Hlt|Hge].
      + rewrite He, nth_error_app1 in Hi by exact Hlt.
        destruct (Hoe i en Hi) as [Hp Hc]. split.
        * intros q Hpq. destruct (Hp q Hpq) as [qn [Hn Hrest]].
          exists qn. split; [rewrite Hq; apply prefix_lookup; exact Hn | exact Hrest].
        * intros q' Hin. destruct (Hc q' Hin) as [qn' [Hn Hrest]].
          exists qn'. split; [rewrite Hq; apply prefix_lookup; exact Hn | exact Hrest].
      + destruct (Hre i en Hge Hi) as [Hp Hc]. split; [|exact Hc].
        intros q Hpq. destruct Hp as [->|[q0 [qn [_ [Hp0 Hrest]]]]].
        * rewrite Hroot in Hi. inversion Hi. subst en0. congruence.
        * assert (q0 = q) by congruence. subst q0. exists qn. exact Hrest.
    - intros j qn Hj.
      destruct (Nat.lt_ge_cases j (length (question_nodes t))) as [Hlt|Hge].
      + rewrite Hq, nth_error_app1 in Hj by exact Hlt.
        destruct (Hoq j qn Hj) as [Hp Hc]. split.
        * rewrite He, length_app. lia.
        * intros e Hin. destruct (Hc e Hin) as [en [Hn Hrest]].
          exists en. split; [rewrite He; apply prefix_lookup; exact Hn | exact Hrest].
      + apply (Hrq j qn Hge Hj). }
  apply links_ok_iff in Hlinks. destruct Hlinks as [Hwf' Hreg'].
  split; [exact Hwf'|]. split; [exact Hreg'|].
  exists en0. split; [|exact Hpar].
  rewrite Hid. apply get_evidence_ok. exact Hroot.
Qed.

End HistoryLinks.

(** The recorded tree restored behind the nodes of [chain_tree]: the store
    of eight nodes is well-formed and the restored root is node 3. *)
Lemma deserialise_well_formed_witness :
  well_formed (snd (History.deserialise_evidence_node recorded_tree None chain_tree))
  = true
  /\ children_registered
       (snd (History.deserialise_evidence_node recorded_tree None chain_tree))
     = true
  /\ fst (History.deserialise_evidence_node recorded_tree None chain_tree) = 3%nat.
Proof.
  destruct (HistoryLinks.deserialise_well_formed recorded_tree chain_tree
              eq_refl eq_refl) as [Hwf [Hreg _]].
  split; [exact Hwf|]. split; [exact Hreg | reflexivity].
Defined.

(** ** Log-probabilities *)

Section Logprobs.
Local Open Scope R_scope.

Lemma logprob_max_fold (xs : list logprob) (a : logprob) :
  let m := fold_left logprob_max xs a in
  (m = a \/ In m xs) /\ logprob_le a m /\ forall v, In v xs -> logprob_le v m.
Proof.
  assert (Hrefl : forall v, logprob_le v v) by (intros [|x]; simpl; [exact I | lra]).
  assert (Htrans : forall u v w, logprob_le u v -> logprob_le v w -> logprob_le u w).
  { intros [|x] [|y] [|z]; simpl; try tauto; lra. }
  assert (Hmax : forall u v, (logprob_max u v = u \/ logprob_max u v = v)
                             /\ logprob_le u (logprob_max u v)
                             /\ logprob_le v (logprob_max u v)).
  { intros [|x] [|y]; simpl; try (repeat split; auto; lra).
    unfold Rmax. destruct (Rle_dec x y); repeat split; auto; lra. }
  revert a. induction xs as [|x xs IH]; intros a; simpl.
  - split; [left; reflexivity|]. split; [apply Hrefl | intros v []].
  - destruct (IH (logprob_max a x)) as [Hin [Hle Hall]].
    destruct (Hmax a x) as [Hsel [Ha Hx]].
    split; [|split].
    + destruct Hin as [Heq|Hin]; [|right; right; exact Hin].
      destruct Hsel as [Hs|Hs]; rewrite Hs in Heq; [left | right; left]; congruence.
    + apply (Htrans _ _ _ Ha Hle).
    + intros v [<-|Hv]; [apply (Htrans _ _ _ Hx Hle) | apply Hall; exact Hv].
Qed.

Lemma py_sumR_scaled (xs : list R) (c : R) :
  py_sumR (map (fun e => e / c) xs) = py_sumR xs / c.
Proof.
  induction xs as [|x xs IH]; simpl.
  - rewrite py_sumR_nil. unfold Rdiv. ring.
  - rewrite !py_sumR_cons, IH. unfold Rdiv. ring.
Qed.

Lemma py_sumR_member (xs : list R) (x : R) :
  (forall y, In y xs -> 0 <= y) -> In x xs -> x <= py_sumR xs.
Proof.
  induction xs as [|y xs IH]; intros Hnn Hin; [contradiction|].
  rewrite py_sumR_cons.
  assert (0 <= y) by (apply Hnn; left; reflexivity).
  assert (0 <= py_sumR xs)
    by (apply py_sumR_nonneg; intros z Hz; apply Hnn; right; exact Hz).
  destruct Hin as [<-|Hin]; [lra|].
  assert (x <= py_sumR xs)
    by (apply IH; [intros z Hz; apply Hnn; right; exact Hz | exact Hin]).
  lra.
Qed.

Lemma combine_map_fst_snd {A B C} (f : B -> C) (l : list (A * B)) :
  combine (map fst l) (map f (map snd l)) = map (fun kv => (fst kv, f (snd kv))) l.
Proof.
  induction l as [|[k v] l IH]; simpl; [reflexivity|]. rewrite IH. reflexivity.
Qed.

Lemma py_sumR_const {A} (l : list A) (c : R) :
  py_sumR (map (fun _ => c) l) = INR (length l) * c.
Proof.
  induction l as [|x l IH].
  - simpl. rewrite py_sumR_nil. ring.
  - simpl map. rewrite py_sumR_cons, IH. simpl length. rewrite S_INR. ring.
Qed.

(** X22: [normalise_logprobs] of an empty dictionary raises in [np.max]
    (its test for zero keys is never reached).  Of any other dictionary it
    returns a distribution over the same keys in the same order: every
    probability lies in [0,1], they sum to 1, a larger log-probability never
    gets a smaller probability, a [-inf] entry gets 0 when some entry is
    finite, and all get [1/n] when every entry is [-inf]. *)
Theorem normalise_logprobs_spec (d : list (string * logprob)) :
  (d = [] ->
   normalise_logprobs d
   = Raise (ValueError "zero-size array to reduction operation maximum which has no identity"))
  /\ (d <> [] ->
      exists g : logprob -> R,
        normalise_logprobs d = Ok (map (fun kv => (fst kv, g (snd kv))) d)
        /\ (forall a b, logprob_le a b -> g a <= g b)
        /\ (forall v, In v (map snd d) -> 0 <= g v <= 1)
        /\ py_sumR (map g (map snd d)) = 1
        /\ ((exists x, In (Finite x) (map snd d)) -> g NegInf = 0)
        /\ ((forall v, In v (map snd d) -> v = NegInf) ->
            g NegInf = 1 / INR (length d))).
Proof.
  split; [intros ->; reflexivity|]. intros Hne.
  destruct d as [|[k0 v0] d]; [congruence|]. clear Hne.
  unfold normalise_logprobs. cbn [map fst snd np_max rbind].
  destruct (logprob_max_fold (map snd d) v0) as [Hsel [Hle0 Hall]].
  set (mx := fold_left logprob_max (map snd d) v0) in *.
  assert (Hin : In mx (v0 :: map snd d))
    by (destruct Hsel as [->|H]; [left; reflexivity | right; exact H]).
  assert (Hge : forall v, In v (v0 :: map snd d) -> logprob_le v mx)
    by (intros v [<-|Hv]; [exact Hle0 | apply Hall; exact Hv]).
  destruct mx as [|m] eqn:Emx.
  - (* every entry is -inf *)
    assert (Hneg : forall v, In v (v0 :: map snd d) -> v = NegInf).
    { intros [|x] Hv; [reflexivity|]. exfalso. apply (Hge _ Hv). }
    exists (fun _ => 1 / INR (S (length d))).
    cbn [length Nat.eqb]. rewrite !length_map.
    split; [|split; [|split; [|split; [|split]]]].
    + f_equal. simpl. f_equal. rewrite map_map. reflexivity.
    + intros a b _. lra.
    + intros v _.
      assert (0 < INR (S (length d))) by (apply lt_0_INR; lia).
      assert (1 <= INR (S (length d))).
      { rewrite S_INR. pose proof (pos_INR (length d)). lra. }
      split.
      * apply Rlt_le. apply Rdiv_lt_0_compat; lra.
      * apply (Rmult_le_reg_r (INR (S (length d)))); [lra|].
        unfold Rdiv. rewrite Rmult_assoc, Rinv_l by lra. lra.
    + transitivity (py_sumR (map (fun _ : logprob => 1 / INR (S (length d)))
                                 (v0 :: map snd d))); [reflexivity|].
      rewrite py_sumR_const.
      cbn [length]. rewrite length_map.
      field. apply not_0_INR. lia.
    + intros [x Hx]. specialize (Hneg _ Hx). discriminate.
    + intros _. reflexivity.
  - (* the largest entry is finite *)
    set (exps := map (shifted_exp m) (v0 :: map snd d)).
    set (total := py_sumR exps).
    assert (Hexp_nn : forall v, 0 <= shifted_exp m v).
    { intros [|x]; simpl; [lra | apply Rlt_le, exp_pos]. }
    assert (Hnn : forall y, In y exps -> 0 <= y).
    { intros y Hy. apply in_map_iff in Hy. destruct Hy as [v [<- _]]. apply Hexp_nn. }
    assert (Htotal : 1 <= total).
    { assert (H1 : In 1 exps).
      { apply in_map_iff. exists (Finite m). split; [|exact Hin].
        simpl. rewrite Rminus_diag. apply exp_0. }
      apply (py_sumR_member exps 1 Hnn H1). }
    exists (fun v => shifted_exp m v / total).
    split; [|split; [|split; [|split; [|split]]]].
    + f_equal.
      change (combine (map fst ((k0, v0) :: d))
                (map (fun e => e / total) (map (shifted_exp m) (map snd ((k0, v0) :: d))))
              = map (fun kv => (fst kv, shifted_exp m (snd kv) / total)) ((k0, v0) :: d)).
      rewrite map_map.
      apply (combine_map_fst_snd (fun v => shifted_exp m v / total)).
    + intros a b Hab.
      assert (shifted_exp m a <= shifted_exp m b).
      { destruct a as [|x]; destruct b as [|y]; simpl in *;
          [lra | apply Rlt_le, exp_pos | contradiction |].
        destruct Hab as [Hlt|Heq].
        - apply Rlt_le. apply exp_increasing. lra.
        - subst. lra. }
      apply Rmult_le_compat_r; [|assumption].
      apply Rlt_le. apply Rinv_0_lt_compat. lra.
    + intros v Hv. split.
      * apply Rmult_le_pos; [apply Hexp_nn|].
        apply Rlt_le. apply Rinv_0_lt_compat. lra.
      * apply (Rmult_le_reg_r total); [lra|].
        unfold Rdiv. rewrite Rmult_assoc, Rinv_l by lra.
        assert (shifted_exp m v <= total).
        { apply (py_sumR_member exps _ Hnn). apply in_map. exact Hv. }
        lra.
    + transitivity (py_sumR (map (fun e => e / total) exps)).
      { unfold exps. cbn [map]. rewrite !map_map. reflexivity. }
      rewrite py_sumR_scaled. fold total. field. lra.
    + intros _. simpl. unfold Rdiv. ring.
    + intros Hneg. specialize (Hneg mx).
      rewrite Emx in Hneg. exfalso.
      assert (Finite m = NegInf) by (apply Hneg; exact Hin). discriminate.
Qed.

End Logprobs.
